(** * Dijkstra.h: index-tracked binary min-heap over an open-addressing table

    A shallow embedding of [src/Dijkstra.h].  The C code works on two
    objects that alias one another: the table [HashInTree], which owns an
    array of [MinHeapNode] records, and the heap [MinHeap], whose backing
    array holds pointers to those same records.  The embedding keeps both
    in one memory [Mem]; a record pointer is [None] for [NULL] and
    [Some i] for [&hashintree->nodes[i]].  Every function of the header is
    a computation in a small state-and-error monad over that memory. *)

From Stdlib Require Import ZArith Lia Bool.
From stdpp Require Import base tactics option list list_numbers.

Local Open Scope Z_scope.

(** ** [size_t] arithmetic *)

(** [size_t] is taken as the 64-bit unsigned type of an LP64 platform; all
    arithmetic on it wraps modulo [size_modulus]. *)
Definition size_modulus : Z := 2 ^ 64.

Definition wrap (z : Z) : Z := z mod size_modulus.

Global Arguments size_modulus : simpl never.
Global Arguments wrap : simpl never.

Definition parent_index (i : Z) : Z := Z.shiftr (wrap (i - 1)) 1.

Definition left_child_index (i : Z) : Z := wrap (wrap (2 * i) + 1).

Definition right_child_index (i : Z) : Z := wrap (2 * wrap (i + 1)).

(** ** Data model *)

(** A C pointer to a [MinHeapNode]: [None] is [NULL], [Some i] is the
    address of slot [i] of the table's [nodes] array. *)
Definition ptr : Type := option Z.

Section Model.

Context {K W : Type}.

(** [data] is [None] for a [NULL] key pointer (an empty seat), [weight] is
    the value behind the weight pointer.  The fields of the two containers
    carry a prefix ([ht_size] for [hashintree->size], [mh_size] for
    [minheap->size]), since both structs have a [size]. *)
Record MinHeapNode : Type := mkNode {
  data : option K;
  weight : W;
  parent : ptr;
  heapIndex : Z
}.

Record HashInTree : Type := mkHashInTree {
  ht_length : Z;
  ht_size : Z;
  ht_nodes : list MinHeapNode
}.

Record MinHeap : Type := mkMinHeap {
  mh_heap : list ptr;
  mh_size : Z;
  mh_capacity : Z
}.

Record Mem : Type := mkMem {
  hashintree : HashInTree;
  minheap : MinHeap
}.

Definition set_data (d : option K) (n : MinHeapNode) : MinHeapNode :=
  mkNode d (weight n) (parent n) (heapIndex n).
Definition set_weight (w : W) (n : MinHeapNode) : MinHeapNode :=
  mkNode (data n) w (parent n) (heapIndex n).
Definition set_parent (p : ptr) (n : MinHeapNode) : MinHeapNode :=
  mkNode (data n) (weight n) p (heapIndex n).
Definition set_heapIndex (i : Z) (n : MinHeapNode) : MinHeapNode :=
  mkNode (data n) (weight n) (parent n) i.

Definition with_nodes (ns : list MinHeapNode) (m : Mem) : Mem :=
  mkMem (mkHashInTree (ht_length (hashintree m)) (ht_size (hashintree m)) ns)
        (minheap m).
Definition with_heap (h : list ptr) (m : Mem) : Mem :=
  mkMem (hashintree m)
        (mkMinHeap h (mh_size (minheap m)) (mh_capacity (minheap m))).
Definition with_size (s : Z) (m : Mem) : Mem :=
  mkMem (hashintree m)
        (mkMinHeap (mh_heap (minheap m)) s (mh_capacity (minheap m))).

(** ** The monad

    A call either returns a value in a new memory, ends the process
    through [exit] (the memory at that moment is kept), runs into
    undefined behaviour ([Fault]: an access outside an array, a [NULL]
    dereference, a division by zero), or is still inside a loop when the
    iteration bound given to the loop is used up ([OutOfFuel]). *)
Inductive res (A : Type) : Type :=
  | Ret (a : A) (m : Mem)
  | Exit (code : Z) (m : Mem)
  | Fault
  | OutOfFuel.

Global Arguments Ret {A} a m.
Global Arguments Exit {A} code m.
Global Arguments Fault {A}.
Global Arguments OutOfFuel {A}.

Definition M (A : Type) : Type := Mem -> res A.

Definition ret {A} (a : A) : M A := fun m => Ret a m.

Definition bind {A B} (c : M A) (k : A -> M B) : M B :=
  fun m =>
    match c m with
    | Ret a m' => k a m'
    | Exit code m' => Exit code m'
    | Fault => Fault
    | OutOfFuel => OutOfFuel
    end.

Definition exit {A} (code : Z) : M A := fun m => Exit code m.
Definition fault {A} : M A := fun _ => Fault.
Definition out_of_fuel {A} : M A := fun _ => OutOfFuel.

End Model.

Global Arguments MinHeapNode : clear implicits.
Global Arguments HashInTree : clear implicits.
Global Arguments Mem : clear implicits.
Global Arguments res : clear implicits.
Global Arguments M : clear implicits.

Declare Scope mem_scope.
Delimit Scope mem_scope with mem.
Notation "x <- c ;; k" := (bind c (fun x => k))
  (at level 100, c at next level, right associativity) : mem_scope.
Notation "c ;;; k" := (bind c (fun _ => k))
  (at level 100, right associativity) : mem_scope.
Local Open Scope mem_scope.

Section Access.

Context {K W : Type}.
Abbreviation Node := (MinHeapNode K W).
Abbreviation Mem := (Mem K W).
Abbreviation M := (M K W).

(** Array element [l[i]]; [None] when [i] is outside the array. *)
Definition array_get {A} (l : list A) (i : Z) : option A :=
  if 0 <=? i then l !! Z.to_nat i else None.

(** [minheap->size], [minheap->capacity], [hashintree->size]. *)
Definition get_size : M Z := fun m => Ret (mh_size (minheap m)) m.
Definition put_size (s : Z) : M unit := fun m => Ret tt (with_size s m).
Definition get_capacity : M Z := fun m => Ret (mh_capacity (minheap m)) m.
Definition get_table_size : M Z := fun m => Ret (ht_size (hashintree m)) m.

(** [minheap->heap[i]] read and written. *)
Definition heap_load (i : Z) : M ptr :=
  fun m =>
    match array_get (mh_heap (minheap m)) i with
    | Some p => Ret p m
    | None => Fault
    end.

Definition heap_store (i : Z) (p : ptr) : M unit :=
  fun m =>
    match array_get (mh_heap (minheap m)) i with
    | Some _ => Ret tt (with_heap (<[Z.to_nat i := p]> (mh_heap (minheap m))) m)
    | None => Fault
    end.

(** [hashintree->nodes[i]] read. *)
Definition table_load (i : Z) : M Node :=
  fun m =>
    match array_get (ht_nodes (hashintree m)) i with
    | Some n => Ret n m
    | None => Fault
    end.

(** [*p] read, and [p->field = ...] written through [f]. *)
Definition node_load (p : ptr) : M Node :=
  match p with
  | Some i => table_load i
  | None => fault
  end.

Definition node_update (p : ptr) (f : Node -> Node) : M unit :=
  fun m =>
    match p with
    | Some i =>
        match array_get (ht_nodes (hashintree m)) i with
        | Some _ =>
            Ret tt (with_nodes (alter f (Z.to_nat i) (ht_nodes (hashintree m))) m)
        | None => Fault
        end
    | None => Fault
    end.

End Access.

(** ** The table: [HashInTree] *)

Section Table.

Context {K W : Type}.
Abbreviation Node := (MinHeapNode K W).
Abbreviation Mem := (Mem K W).
Abbreviation M := (M K W).

(** [HashInTree_create]: [malloc] leaves the records indeterminate, which
    [alloc] stands for (slot [i] starts as [alloc i]); the loop then sets
    every [data] to [NULL]. *)
Definition HashInTree_create (alloc : Z -> Node) (size : Z) : HashInTree K W :=
  mkHashInTree 0 size ((fun i => set_data None (alloc i)) <$> seqZ 0 size).

(** The seat test of [HashInTree_find_seat]:
    [nodes[index].data == NULL || isEqual(data, nodes[index].data)]. *)
Definition seat_fits (isEqual : K -> K -> bool) (key : K) (n : Node) : bool :=
  match data n with
  | None => true
  | Some d => isEqual key d
  end.

(** The [do ... while] loop of [HashInTree_find_seat], one iteration per
    unit of fuel. *)
Fixpoint find_seat_loop (fuel : nat) (isEqual : K -> K -> bool) (key : K)
    (hash index : Z) : M ptr :=
  match fuel with
  | O => out_of_fuel
  | S fuel' =>
      n <- table_load index ;;
      if seat_fits isEqual key n then ret (Some index)
      else
        size <- get_table_size ;;
        if size =? 0 then fault
        else
          let index' := wrap (index + 1) mod size in
          if index' =? hash then ret None
          else find_seat_loop fuel' isEqual key hash index'
  end.

(** The loop leaves a slot only for the next one and stops when it is back
    at [hash]: on a table whose array has [size] slots the body runs once
    and then at most [size - 1] times more, so [size + 1] units of fuel are
    never used up there (see [find_seat_loop_total]). *)
Definition HashInTree_find_seat (key : K) (hashfunc : Z -> K -> Z)
    (isEqual : K -> K -> bool) : M ptr :=
  size <- get_table_size ;;
  let hash := hashfunc size key in
  find_seat_loop (S (Z.to_nat size)) isEqual key hash hash.

(** The [do ... while] loop of [HashInTree_get_node_by_data]. *)
Fixpoint get_node_loop (fuel : nat) (isEqual : K -> K -> bool) (key : K)
    (hash index : Z) : M ptr :=
  match fuel with
  | O => out_of_fuel
  | S fuel' =>
      n <- table_load index ;;
      match data n with
      | None => ret None
      | Some d =>
          if isEqual key d then ret (Some index)
          else
            size <- get_table_size ;;
            let index' := if index =? wrap (size - 1) then 0 else wrap (index + 1) in
            if index' =? hash then ret None
            else get_node_loop fuel' isEqual key hash index'
      end
  end.

Definition HashInTree_get_node_by_data (key : K) (hashfunc : Z -> K -> Z)
    (isEqual : K -> K -> bool) : M ptr :=
  size <- get_table_size ;;
  let hash := hashfunc size key in
  get_node_loop (S (Z.to_nat size)) isEqual key hash hash.

End Table.

(** ** The heap: [MinHeap] *)

Section Heap.

Context {K W : Type}.
Abbreviation Node := (MinHeapNode K W).
Abbreviation Mem := (Mem K W).
Abbreviation M := (M K W).

(** [MinHeap_create]: [calloc] fills the backing array with [NULL]. *)
Definition MinHeap_create (size : Z) : MinHeap :=
  mkMinHeap (replicate (Z.to_nat size) None) 0 size.

(** The [while] loop of [MinHeap_bubble_up]; it returns the final
    [curr_index]. *)
Fixpoint bubble_up_loop (fuel : nat) (isBetterThan : W -> W -> bool)
    (this_node : ptr) (curr_index : Z) : M Z :=
  match fuel with
  | O => out_of_fuel
  | S fuel' =>
      if 0 <? curr_index then
        let parent_ind := parent_index curr_index in
        tn <- node_load this_node ;;
        pp <- heap_load parent_ind ;;
        pn <- node_load pp ;;
        if isBetterThan (weight tn) (weight pn) then
          node_update pp (set_heapIndex curr_index) ;;;
          pp' <- heap_load parent_ind ;;
          heap_store curr_index pp' ;;;
          bubble_up_loop fuel' isBetterThan this_node parent_ind
        else ret curr_index
      else ret curr_index
  end.

(** The body of [MinHeap_bubble_up] behind the read of [this_node]: the
    loop, and the two assignments that seat [this_node] where the loop
    stopped. *)
Definition bubble_up_from (fuel : nat) (isBetterThan : W -> W -> bool)
    (this_node : ptr) (curr_index : Z) : M unit :=
  final <- bubble_up_loop fuel isBetterThan this_node curr_index ;;
  node_update this_node (set_heapIndex final) ;;;
  heap_store final this_node.

(** [parent_index] is smaller than its argument, so the loop makes at most
    [curr_index] iterations and one more test (see
    [bubble_up_never_starves]). *)
Definition MinHeap_bubble_up (curr_index : Z)
    (isBetterThan : W -> W -> bool) : M unit :=
  this_node <- heap_load curr_index ;;
  bubble_up_from (S (Z.to_nat curr_index)) isBetterThan this_node curr_index.

(** The choice of [smaller_child_ind] in [MinHeap_pluck_min]. *)
Definition smaller_child (isBetterThan : W -> W -> bool)
    (left_child_ind right_child_ind : Z) : M Z :=
  size <- get_size ;;
  if right_child_ind <? size then
    r <- heap_load right_child_ind ;;
    rn <- node_load r ;;
    l <- heap_load left_child_ind ;;
    ln <- node_load l ;;
    ret (if isBetterThan (weight rn) (weight ln) then right_child_ind
         else left_child_ind)
  else ret left_child_ind.

(** The "bubble down" loop of [MinHeap_pluck_min]; it returns the final
    [curr_index]. *)
Fixpoint bubble_down_loop (fuel : nat) (isBetterThan : W -> W -> bool)
    (curr_node : ptr) (curr_index left_child_ind right_child_ind : Z) : M Z :=
  match fuel with
  | O => out_of_fuel
  | S fuel' =>
      size <- get_size ;;
      if left_child_ind <? size then
        smaller_child_ind <-
          smaller_child isBetterThan left_child_ind right_child_ind ;;
        s <- heap_load smaller_child_ind ;;
        sn <- node_load s ;;
        cn <- node_load curr_node ;;
        if isBetterThan (weight sn) (weight cn) then
          node_update s (set_heapIndex curr_index) ;;;
          s' <- heap_load smaller_child_ind ;;
          heap_store curr_index s' ;;;
          bubble_down_loop fuel' isBetterThan curr_node smaller_child_ind
            (left_child_index smaller_child_ind)
            (right_child_index smaller_child_ind)
        else ret curr_index
      else ret curr_index
  end.

(** The "bubble down" block of [MinHeap_pluck_min] started at
    [curr_index]: the loop, and the two assignments behind it that seat
    [curr_node] where the loop stopped. *)
Definition bubble_down (fuel : nat) (isBetterThan : W -> W -> bool)
    (curr_node : ptr) (curr_index : Z) : M unit :=
  final <- bubble_down_loop fuel isBetterThan curr_node curr_index
             (left_child_index curr_index) (right_child_index curr_index) ;;
  heap_store final curr_node ;;;
  node_update curr_node (set_heapIndex final).

(** Each iteration moves to a child below [size], so [size] iterations and
    one more test are all the loop makes on a heap that fits an array (see
    [bubble_down_total]). *)
Definition MinHeap_pluck_min (isBetterThan : W -> W -> bool) : M ptr :=
  size <- get_size ;;
  if size =? 0 then ret None
  else
    minnode <- heap_load 0 ;;
    put_size (wrap (size - 1)) ;;;
    size' <- get_size ;;
    curr_node <- heap_load size' ;;
    heap_store size' None ;;;
    if size' =? 0 then ret minnode
    else
      bubble_down (S (Z.to_nat size')) isBetterThan curr_node 0 ;;;
      ret minnode.

Definition MinHeap_update_key (node : ptr) (NodeIsNew : bool)
    (isBetterThan : W -> W -> bool) : M unit :=
  (if NodeIsNew then
     size <- get_size ;;
     capacity <- get_capacity ;;
     if size =? capacity then exit 2
     else
       heap_store size node ;;;
       put_size (wrap (size + 1))
   else ret tt) ;;;
  n <- node_load node ;;
  MinHeap_bubble_up (heapIndex n) isBetterThan.

(** [MinHeap_free]: the backing array is gone, any later access to it is
    outside an array. *)
Definition MinHeap_free : M unit := fun m => Ret tt (with_heap [] m).

End Heap.

(** ** The engine *)

Section Engine.

Context {K W : Type}.
Abbreviation Node := (MinHeapNode K W).
Abbreviation Mem := (Mem K W).
Abbreviation M := (M K W).

(** The main loop; [send_neighbors] is the caller's code and may insert as
    long as it likes, so the number of rounds is a parameter. *)
Fixpoint Dijkstra_loop (fuel : nat) (isBetterThan : W -> W -> bool)
    (send_neighbors : ptr -> M unit) : M unit :=
  match fuel with
  | O => out_of_fuel
  | S fuel' =>
      min_node <- MinHeap_pluck_min isBetterThan ;;
      match min_node with
      | None => ret tt
      | Some _ =>
          send_neighbors min_node ;;;
          Dijkstra_loop fuel' isBetterThan send_neighbors
      end
  end.

Definition Dijkstra_body (fuel : nat) (sourceData : K) (sourceWeight : W)
    (hashfunc : Z -> K -> Z) (isEqual : K -> K -> bool)
    (isBetterThan : W -> W -> bool) (send_neighbors : ptr -> M unit)
    : M (HashInTree K W) :=
  sourcenode <- HashInTree_find_seat sourceData hashfunc isEqual ;;
  node_update sourcenode (set_data (Some sourceData)) ;;;
  node_update sourcenode (set_weight sourceWeight) ;;;
  node_update sourcenode (set_parent None) ;;;
  MinHeap_update_key sourcenode true isBetterThan ;;;
  Dijkstra_loop fuel isBetterThan send_neighbors ;;;
  MinHeap_free ;;;
  fun m => Ret (hashintree m) m.

(** [Dijkstra_1source_to_all_else]: [alloc] is what [malloc] hands to
    [HashInTree_create], [fuel] bounds the rounds of the main loop. *)
Definition Dijkstra_1source_to_all_else (alloc : Z -> Node) (fuel : nat)
    (sourceData : K) (sourceWeight : W) (total_number_of_nodes : Z)
    (hashfunc : Z -> K -> Z) (isEqual : K -> K -> bool)
    (isBetterThan : W -> W -> bool) (send_neighbors : ptr -> M unit)
    : res K W (HashInTree K W) :=
  let minheap := MinHeap_create total_number_of_nodes in
  let hashintree :=
    HashInTree_create alloc (wrap (wrap (2 * total_number_of_nodes) + 1)) in
  Dijkstra_body fuel sourceData sourceWeight hashfunc isEqual isBetterThan
    send_neighbors (mkMem hashintree minheap).

End Engine.

(** ** Predicates on memories *)

Section Predicates.

Context {K W : Type}.
Abbreviation Node := (MinHeapNode K W).
Abbreviation Mem := (Mem K W).
Abbreviation M := (M K W).

(** The table's array has [size] slots and [size] is a [size_t]. *)
Definition table_wf (m : Mem) : Prop :=
  Z.of_nat (length (ht_nodes (hashintree m))) = ht_size (hashintree m)
  /\ ht_size (hashintree m) < size_modulus.

(** Every slot is occupied. *)
Definition table_full (m : Mem) : bool :=
  forallb (fun n : Node => bool_decide (is_Some (data n)))
    (ht_nodes (hashintree m)).

(** No occupant compares equal to [key]. *)
Definition unseated (isEqual : K -> K -> bool) (key : K) (m : Mem) : bool :=
  forallb (fun n : Node =>
             match data n with
             | None => true
             | Some d => negb (isEqual key d)
             end)
    (ht_nodes (hashintree m)).

(** The run ended through [exit]. *)
Definition fails_fatally {A} (r : res K W A) : Prop :=
  exists code m, r = Exit code m.

(** What a lookup makes of the seat a seat search stops at: an occupied
    seat is the record looked for, an empty one is "not found". *)
Definition lookup_of_seat (r : res K W ptr) : res K W ptr :=
  match r with
  | Ret (Some i) m =>
      match array_get (ht_nodes (hashintree m)) i with
      | Some n =>
          match data n with
          | Some _ => Ret (Some i) m
          | None => Ret None m
          end
      | None => Fault
      end
  | other => other
  end.

(** The number of occupied slots. *)
Definition occupied (t : HashInTree K W) : nat :=
  length (filter (fun n : Node => is_Some (data n)) (ht_nodes t)).

End Predicates.

(** ** Predicates on heaps *)

Section HeapPredicates.

Context {K W : Type}.
Abbreviation Node := (MinHeapNode K W).
Abbreviation Mem := (Mem K W).
Abbreviation M := (M K W).

(** Pointer arrays of [half_modulus] entries or more do not fit the
    address space; below it the child indices do not wrap. *)
Definition half_modulus : Z := 2 ^ 63.

(** [p] points into the table. *)
Definition ptr_valid (m : Mem) (p : ptr) : bool :=
  match p with
  | Some a => bool_decide (is_Some (array_get (ht_nodes (hashintree m)) a))
  | None => false
  end.

(** Slot [i] of the heap array holds a pointer into the table. *)
Definition slot_valid (m : Mem) (i : Z) : bool :=
  match array_get (mh_heap (minheap m)) i with
  | Some p => ptr_valid m p
  | None => false
  end.

(** The heap fits its array, the array fits the address space, and every
    resident slot points to a record. *)
Definition heap_wf (m : Mem) : bool :=
  (0 <=? mh_size (minheap m))
  && (mh_size (minheap m) <=? Z.of_nat (length (mh_heap (minheap m))))
  && (Z.of_nat (length (mh_heap (minheap m))) <? half_modulus)
  && forallb (slot_valid m) (seqZ 0 (mh_size (minheap m))).

(** The weight of the record in slot [i]. *)
Definition slot_weight (m : Mem) (i : Z) : option W :=
  match array_get (mh_heap (minheap m)) i with
  | Some (Some a) => weight <$> array_get (ht_nodes (hashintree m)) a
  | _ => None
  end.

(** The memory in which slot [pos] of the heap holds the record [a] and
    that record has [pos] as its position. *)
Definition seated (pos a : Z) (m : Mem) : Mem :=
  with_nodes
    (alter (set_heapIndex pos) (Z.to_nat a) (ht_nodes (hashintree m)))
    (with_heap (<[Z.to_nat pos := Some a]> (mh_heap (minheap m))) m).

(** The heap property: no resident record is better than its parent. *)
Definition heap_ordered (isBetterThan : W -> W -> bool) (m : Mem) : bool :=
  forallb
    (fun i =>
       match slot_weight m i, slot_weight m (parent_index i) with
       | Some wi, Some wp => negb (isBetterThan wi wp)
       | _, _ => false
       end)
    (seqZ 1 (mh_size (minheap m) - 1)).

(** Every resident record's [heapIndex] is the slot that holds it. *)
Definition index_consistent (m : Mem) : bool :=
  forallb
    (fun i =>
       match array_get (mh_heap (minheap m)) i with
       | Some (Some a) =>
           match array_get (ht_nodes (hashintree m)) a with
           | Some n => heapIndex n =? i
           | None => false
           end
       | _ => false
       end)
    (seqZ 0 (mh_size (minheap m))).

(** Slot [i] holds a record whose [heapIndex] is [i]. *)
Definition consistent_at (m : Mem) (i : Z) : Prop :=
  exists a n,
    array_get (mh_heap (minheap m)) i = Some (Some a)
    /\ array_get (ht_nodes (hashintree m)) a = Some n
    /\ heapIndex n = i.

(** The record in slot [i] is not better than the one in its parent
    slot. *)
Definition ordered_at (isBetterThan : W -> W -> bool) (m : Mem) (i : Z)
    : Prop :=
  exists wi wp,
    slot_weight m i = Some wi
    /\ slot_weight m (parent_index i) = Some wp
    /\ isBetterThan wi wp = false.

(** The memory after the records [a] of slot [i] and [b] of slot [j] have
    changed places. *)
Definition swapped (i j a b : Z) (m : Mem) : Mem :=
  with_nodes
    (alter (set_heapIndex j) (Z.to_nat a)
       (alter (set_heapIndex i) (Z.to_nat b) (ht_nodes (hashintree m))))
    (with_heap
       (<[Z.to_nat j := Some a]>
          (<[Z.to_nat i := Some b]> (mh_heap (minheap m))))
       m).

End HeapPredicates.

(** ** The heap operations as the specification words them

    These follow the prose of the specification, not the code, and are
    what the code is compared with. *)

Section SpecHeap.

Context {K W : Type}.
Abbreviation Node := (MinHeapNode K W).
Abbreviation Mem := (Mem K W).
Abbreviation M := (M K W).

Definition spec_weight_at (i : Z) : M W :=
  p <- heap_load i ;;
  n <- node_load p ;;
  ret (weight n).

(** "Swapping with whichever child is better (left wins ties against
    right under identical comparison)": the right child is taken only when
    it exists and is better than the left one. *)
Definition spec_better_child (isBetterThan : W -> W -> bool) (pos : Z)
    : M Z :=
  size <- get_size ;;
  if right_child_index pos <? size then
    wl <- spec_weight_at (left_child_index pos) ;;
    wr <- spec_weight_at (right_child_index pos) ;;
    ret (if isBetterThan wr wl then right_child_index pos
         else left_child_index pos)
  else ret (left_child_index pos).

(** A swap of the slots [i] and [j], "updating [heap_position] fields at
    each swap": first that of the record that comes to [i], then that of
    the record that comes to [j]. *)
Definition spec_swap (i j : Z) : M unit :=
  leaving <- heap_load i ;;
  coming <- heap_load j ;;
  heap_store i coming ;;;
  heap_store j leaving ;;;
  node_update coming (set_heapIndex i) ;;;
  node_update leaving (set_heapIndex j).

(** "[sift_up(position)]: repeatedly swaps it with its parent while the
    node is-better-than the parent, updating both swapped nodes'
    [heap_position] fields at every step, terminating at the root or when
    order holds." *)
Fixpoint spec_sift_up (fuel : nat) (isBetterThan : W -> W -> bool)
    (pos : Z) : M unit :=
  match fuel with
  | O => out_of_fuel
  | S fuel' =>
      if 0 <? pos then
        w <- spec_weight_at pos ;;
        wp <- spec_weight_at (parent_index pos) ;;
        if isBetterThan w wp then
          spec_swap pos (parent_index pos) ;;;
          spec_sift_up fuel' isBetterThan (parent_index pos)
        else ret tt
      else ret tt
  end.

(** "If [is_new], appends the record to the end of the array (fails
    fatally if [size == capacity]) and records its position; in all cases
    then calls [sift_up] from the record's current position." *)
Definition spec_update_key (record : ptr) (is_new : bool)
    (isBetterThan : W -> W -> bool) : M unit :=
  (if is_new then
     size <- get_size ;;
     capacity <- get_capacity ;;
     if size =? capacity then exit 2
     else
       heap_store size record ;;;
       put_size (wrap (size + 1)) ;;;
       node_update record (set_heapIndex size)
   else ret tt) ;;;
  n <- node_load record ;;
  spec_sift_up (S (Z.to_nat (heapIndex n))) isBetterThan (heapIndex n).

(** "Repeatedly compares the vacating slot's replacement against its two
    children, swapping with whichever child is better while that child is
    better than the replacement, terminating at a leaf or when order
    holds." *)
Fixpoint spec_sift_down (fuel : nat) (isBetterThan : W -> W -> bool)
    (pos : Z) : M unit :=
  match fuel with
  | O => out_of_fuel
  | S fuel' =>
      size <- get_size ;;
      if left_child_index pos <? size then
        child <- spec_better_child isBetterThan pos ;;
        wc <- spec_weight_at child ;;
        wp <- spec_weight_at pos ;;
        if isBetterThan wc wp then
          spec_swap pos child ;;;
          spec_sift_down fuel' isBetterThan child
        else ret tt
      else ret tt
  end.

(** The replacement is seated in the vacated slot [pos], its position
    recorded, and sifted down from there. *)
Definition seat_then_sift (fuel : nat) (isBetterThan : W -> W -> bool)
    (replacement : ptr) (pos : Z) : M unit :=
  heap_store pos replacement ;;;
  node_update replacement (set_heapIndex pos) ;;;
  spec_sift_down fuel isBetterThan pos.

(** "Returns none if the heap is empty.  Otherwise saves the root, moves
    the last element into the root slot (shrinking size by one), and if the
    heap is non-empty after the move, calls [sift_down_from_root].  Returns
    the saved former root." *)
Definition spec_extract_min (isBetterThan : W -> W -> bool) : M ptr :=
  size <- get_size ;;
  if size =? 0 then ret None
  else
    root <- heap_load 0 ;;
    last <- heap_load (size - 1) ;;
    heap_store 0 last ;;;
    heap_store (size - 1) None ;;;
    put_size (size - 1) ;;;
    if size - 1 =? 0 then ret root
    else
      node_update last (set_heapIndex 0) ;;;
      spec_sift_down (S (Z.to_nat (size - 1))) isBetterThan 0 ;;;
      ret root.

End SpecHeap.

(** ** The demonstration client

    The callbacks of the demonstration program that ships with the header:
    keys and weights are C [int]s, the graph is a table of rows of
    [(neighbour, edge weight)] pairs padded with [NULL_CASE]. *)

Module IntClient.

Definition NULL_CASE : Z * Z := (-1, -1).

Definition hashfunc (tableSize : Z) (d : Z) : Z := wrap d mod tableSize.

Definition isEqual (data1 data2 : Z) : bool := data1 =? data2.

Definition isBetterThan (weight1 weight2 : Z) : bool := weight1 <? weight2.

(** The sum of two [int]s.  Past [INT_MAX] or [INT_MIN] the C standard
    leaves it undefined; it is taken as what the addition of a two's
    complement machine gives, the sum wrapped into the range of [int]. *)
Definition int_add (x y : Z) : Z := (x + y + 2 ^ 31) mod 2 ^ 32 - 2 ^ 31.

Definition writeIn_neighbor (current_node : ptr) (neighbor : Z * Z)
    : M Z Z unit :=
  canvas <- HashInTree_find_seat (fst neighbor) hashfunc isEqual ;;
  cur <- node_load current_node ;;
  let new_neighbor_weight := int_add (weight cur) (snd neighbor) in
  match canvas with
  | None => exit 2
  | Some _ =>
      c <- node_load canvas ;;
      match data c with
      | None =>
          node_update canvas (set_data (Some (fst neighbor))) ;;;
          node_update canvas (set_weight new_neighbor_weight) ;;;
          node_update canvas (set_parent current_node) ;;;
          MinHeap_update_key canvas true isBetterThan
      | Some _ =>
          if isBetterThan new_neighbor_weight (weight c) then
            node_update canvas (set_weight new_neighbor_weight) ;;;
            node_update canvas (set_parent current_node) ;;;
            MinHeap_update_key canvas false isBetterThan
          else ret tt
      end
  end.

(** The [for] loop of [send_neighbors] over one row of the graph. *)
Fixpoint send_row (min_node : ptr) (row : list (Z * Z)) : M Z Z unit :=
  match row with
  | [] => ret tt
  | neighbor :: row' =>
      if fst neighbor =? fst NULL_CASE then ret tt
      else
        writeIn_neighbor min_node neighbor ;;;
        send_row min_node row'
  end.

Definition send_neighbors (Graph : list (list (Z * Z))) (min_node : ptr)
    : M Z Z unit :=
  mn <- node_load min_node ;;
  match data mn with
  | None => fault
  | Some d =>
      match array_get Graph d with
      | Some row => send_row min_node row
      | None => fault
      end
  end.

(** A block of zeroed memory, as a fresh page from the system is. *)
Definition zeroed (i : Z) : MinHeapNode Z Z := mkNode None 0 None 0.

(** A three-slot table holding the keys 0, 1 and 2, and no heap. *)
Definition full_table : Mem Z Z :=
  mkMem
    (mkHashInTree 0 3
       [mkNode (Some 0) 0 None 0; mkNode (Some 1) 3 (Some 0) 0;
        mkNode (Some 2) 4 (Some 0) 0])
    (MinHeap_create 0).

(** A three-slot table holding only the key 0. *)
Definition sparse_table : Mem Z Z :=
  mkMem
    (mkHashInTree 0 3
       [mkNode (Some 0) 0 None 0; mkNode None 0 None 0; mkNode None 0 None 0])
    (MinHeap_create 1).

(** The memory of a run, declared for three nodes, on the source 0 with the
    edges [0 -> 1] of weight 5 and [0 -> 2] of weight 1, at the moment the
    client hands the record of node 2 to [MinHeap_update_key]: the source
    is settled, node 1 is in the heap, node 2 has its seat. *)
Definition before_insert : Mem Z Z :=
  mkMem
    (mkHashInTree 0 7
       [mkNode (Some 0) 0 None 0; mkNode (Some 1) 5 (Some 0) 0;
        mkNode (Some 2) 1 (Some 0) 0; mkNode None 0 None 0;
        mkNode None 0 None 0; mkNode None 0 None 0; mkNode None 0 None 0])
    (mkMinHeap [Some 1; None; None] 1 3).

(** A heap of four records with the weights 1, 5, 3 and 6. *)
Definition four_heap : Mem Z Z :=
  mkMem
    (mkHashInTree 0 9
       [mkNode (Some 0) 1 None 0; mkNode (Some 1) 5 (Some 0) 1;
        mkNode (Some 2) 3 (Some 0) 2; mkNode (Some 3) 6 (Some 1) 3;
        mkNode None 0 None 0; mkNode None 0 None 0; mkNode None 0 None 0;
        mkNode None 0 None 0; mkNode None 0 None 0])
    (mkMinHeap [Some 0; Some 1; Some 2; Some 3] 4 4).

(** [four_heap] in the middle of an extraction: the last record (3) is
    taken out and about to be sifted down from the root. *)
Definition mid_pluck : Mem Z Z :=
  with_heap [Some 0; Some 1; Some 2; None] (with_size 3 four_heap).

(** A graph on four nodes: [0 -> 1] (5), [0 -> 2] (1), [1 -> 3] (1),
    [2 -> 1] (1).  The shortest paths from 0 have the lengths 0, 2, 1
    and 3. *)
Definition diamond : list (list (Z * Z)) :=
  [ [(1, 5); (2, 1); NULL_CASE];
    [(3, 1); NULL_CASE; NULL_CASE];
    [(1, 1); NULL_CASE; NULL_CASE];
    [NULL_CASE; NULL_CASE; NULL_CASE] ].

End IntClient.


(** ** Predicates on probe sequences *)

Section ProbePredicates.

Context {K W : Type}.
Abbreviation Node := (MinHeapNode K W).
Abbreviation Mem := (Mem K W).

(** What a call handed back, if it returned. *)
Definition returned {A} (r : res K W A) : option A :=
  match r with
  | Ret a _ => Some a
  | _ => None
  end.

(** The [j]-th slot that a probe starting at slot [h] visits. *)
Definition probe_slot (m : Mem) (h j : Z) : Z :=
  (h + j) mod ht_size (hashintree m).

(** Slot [i] exists and is empty. *)
Definition empty_at (m : Mem) (i : Z) : Prop :=
  exists n, array_get (ht_nodes (hashintree m)) i = Some n /\ data n = None.

(** Slot [i] exists and is occupied. *)
Definition occupied_at (m : Mem) (i : Z) : Prop :=
  exists n d,
    array_get (ht_nodes (hashintree m)) i = Some n /\ data n = Some d.

(** Slot [i] is occupied by a key that [key] compares equal to. *)
Definition holds (isEqual : K -> K -> bool) (key : K) (m : Mem) (i : Z)
    : Prop :=
  exists n d,
    array_get (ht_nodes (hashintree m)) i = Some n
    /\ data n = Some d /\ isEqual key d = true.

(** The seat test of [HashInTree_find_seat] at slot [i]. *)
Definition fits (isEqual : K -> K -> bool) (key : K) (m : Mem) (i : Z)
    : bool :=
  match array_get (ht_nodes (hashintree m)) i with
  | Some n => seat_fits isEqual key n
  | None => false
  end.

(** The probe from [h] passes [k] slots that do not fit and then meets
    one that does. *)
Definition first_fit (isEqual : K -> K -> bool) (key : K) (m : Mem)
    (h k : Z) : Prop :=
  0 <= k < ht_size (hashintree m)
  /\ fits isEqual key m (probe_slot m h k) = true
  /\ forall j, 0 <= j < k -> fits isEqual key m (probe_slot m h j) = false.

(** Every occupant sits on the probe sequence of its own key with no empty
    slot before it: the state of a table that was only ever filled at the
    seats [HashInTree_find_seat] returned. *)
Definition reachable (hashfunc : Z -> K -> Z) (m : Mem) : Prop :=
  forall i n d,
    array_get (ht_nodes (hashintree m)) i = Some n -> data n = Some d ->
    0 <= hashfunc (ht_size (hashintree m)) d < ht_size (hashintree m)
    /\ forall j,
         0 <= j < (i - hashfunc (ht_size (hashintree m)) d)
                    mod ht_size (hashintree m) ->
         occupied_at m (probe_slot m (hashfunc (ht_size (hashintree m)) d) j).

(** No two slots hold keys that compare equal. *)
Definition keys_distinct (isEqual : K -> K -> bool) (m : Mem) : Prop :=
  forall i j ni nj di dj,
    array_get (ht_nodes (hashintree m)) i = Some ni ->
    array_get (ht_nodes (hashintree m)) j = Some nj ->
    data ni = Some di -> data nj = Some dj ->
    isEqual di dj = true -> i = j.

Definition table_inv (hashfunc : Z -> K -> Z) (isEqual : K -> K -> bool)
    (m : Mem) : Prop :=
  table_wf m /\ reachable hashfunc m /\ keys_distinct isEqual m.

(** The two tables have the same size and, slot by slot, the same keys. *)
Definition same_keys (m m' : Mem) : Prop :=
  ht_size (hashintree m') = ht_size (hashintree m)
  /\ data <$> ht_nodes (hashintree m') = data <$> ht_nodes (hashintree m).

End ProbePredicates.

(** ** Predicates on what the heap operations touch *)

Section FramePredicates.

Context {K W : Type}.
Abbreviation Node := (MinHeapNode K W).
Abbreviation Mem := (Mem K W).
Abbreviation M := (M K W).

(** The key, the weight and the parent of a record: all of it but its
    position in the heap. *)
Definition record_of (n : Node) : option K * W * ptr :=
  (data n, weight n, parent n).

(** [m'] differs from [m] at most in the heap's slots, the heap's size and
    the records' [heapIndex]: the table has its length and size fields and,
    slot by slot, its keys, weights and parents; the heap has its capacity
    and an array of the same length. *)
Definition same_records (m m' : Mem) : Prop :=
  ht_length (hashintree m') = ht_length (hashintree m)
  /\ ht_size (hashintree m') = ht_size (hashintree m)
  /\ mh_capacity (minheap m') = mh_capacity (minheap m)
  /\ length (mh_heap (minheap m')) = length (mh_heap (minheap m))
  /\ record_of <$> ht_nodes (hashintree m')
     = record_of <$> ht_nodes (hashintree m).

(** A computation that, when it returns, has kept the records, and that
    never ends the run. *)
Definition quiet {A} (c : M A) : Prop :=
  forall m,
    match c m with
    | Ret _ m' => same_records m m'
    | Exit _ _ => False
    | _ => True
    end.

(** The pointers in the resident part of the heap array, root first. *)
Definition residents (m : Mem) : list ptr :=
  take (Z.to_nat (mh_size (minheap m))) (mh_heap (minheap m)).

End FramePredicates.

(** ** Invariants of computations *)

Section Keeping.

Context {K W : Type}.
Abbreviation Mem := (Mem K W).
Abbreviation M := (M K W).

(** Started in a memory that satisfies [I], the computation ends, if it
    returns or ends the run, in a memory that satisfies [I]. *)
Definition keeps {A} (I : Mem -> Prop) (c : M A) : Prop :=
  forall m,
    I m ->
    match c m with
    | Ret _ m' => I m'
    | Exit _ m' => I m'
    | _ => True
    end.

(** The computation ends the run with no status but [code]. *)
Definition exits_only_with {A} (code : Z) (c : M A) : Prop :=
  forall m code' m', c m = Exit code' m' -> code' = code.

(** The table invariant on a table of [size] slots. *)
Definition table_inv_of_size (hashfunc : Z -> K -> Z)
    (isEqual : K -> K -> bool) (size : Z) (m : Mem) : Prop :=
  table_inv hashfunc isEqual m /\ ht_size (hashintree m) = size.

End Keeping.

(** ** Giving the table back: [HashInTree_free] *)

Section Free.

Context {K W U : Type}.

(** One round of the [for] loop of [HashInTree_free]: slot [i] is read,
    and the caller's [free_data_and_weight] is handed its key and weight
    unless the slot is empty.  [U] is whatever the caller's function acts
    on (its own allocations); [None] is a read outside the array. *)
Definition free_round (t : HashInTree K W)
    (free_data_and_weight : K -> W -> U -> U) (acc : option U) (i : Z)
    : option U :=
  match acc with
  | None => None
  | Some u =>
      match array_get (ht_nodes t) i with
      | None => None
      | Some n =>
          match data n with
          | None => Some u
          | Some d => Some (free_data_and_weight d (weight n) u)
          end
      end
  end.

(** [HashInTree_free]: a [NULL] table ([None]) is let go as it is;
    otherwise the loop runs over the slots [0 .. size - 1], and the table
    and its array are gone afterwards (the model keeps no table behind
    the call). *)
Definition HashInTree_free (hashintree : option (HashInTree K W))
    (free_data_and_weight : K -> W -> U -> U) (u : U) : option U :=
  match hashintree with
  | None => Some u
  | Some t =>
      foldl (free_round t free_data_and_weight) (Some u)
        (seqZ 0 (ht_size t))
  end.

(** The keys and weights of the occupied slots, in the order of the
    slots. *)
Definition occupants (l : list (MinHeapNode K W)) : list (K * W) :=
  omap (fun n => (fun d => (d, weight n)) <$> data n) l.

End Free.

(** ** The two programs that ship with the header *)

(** The graph and the source of the nine-node demonstration program. *)
Module NineNodes.

Definition source : Z * Z := (0, 0).

Definition Graph : list (list (Z * Z)) :=
  [ [(1, 3); (3, 2); (8, 4)];
    [(0, 3); (7, 4); IntClient.NULL_CASE];
    [(3, 6); (7, 2); (5, 1)];
    [(0, 2); (2, 6); (4, 1)];
    [(3, 1); (8, 8); IntClient.NULL_CASE];
    [(2, 1); (6, 8); IntClient.NULL_CASE];
    [(5, 8); IntClient.NULL_CASE; IntClient.NULL_CASE];
    [(1, 4); (2, 2); IntClient.NULL_CASE];
    [(0, 4); (4, 8); IntClient.NULL_CASE] ].

(** The call in [main]. *)
Definition run (alloc : Z -> MinHeapNode Z Z) (fuel : nat)
    : res Z Z (HashInTree Z Z) :=
  Dijkstra_1source_to_all_else alloc fuel (fst source) (snd source) 9
    IntClient.hashfunc IntClient.isEqual IntClient.isBetterThan
    (IntClient.send_neighbors Graph).

End NineNodes.

(** A three-slot table in which the record of node 0 has the weight
    [INT_MAX] and the record of node 1, the only one in the heap, has the
    weight 7. *)
Definition at_int_max : Mem Z Z :=
  mkMem
    (mkHashInTree 0 3
       [mkNode (Some 0) 2147483647 None 0; mkNode (Some 1) 7 None 0;
        mkNode None 0 None 0])
    (mkMinHeap [Some 1] 1 1).

(** The timing program: its graph is not stored, [send_neighbors] makes
    up the [NUM_NEIGHBORS] neighbours of a node and the weights of the
    edges to them.  Keys and weights are C [int]s; [%] on them is the
    truncating remainder [Z.rem].  The callbacks on keys and weights are
    those of the demonstration program, and so is [writeIn_neighbor], but
    for the copy of the key that it allocates for a new record. *)
Module GeneratedClient.

Definition NUM_NEIGHBORS : Z := 200.
Definition NUM_NODES : Z := 100000.
Definition MAX_WEIGHT : Z := 100.
Definition NEIGHBOR_GAP : Z := 3.

Definition source : Z * Z := (0, 0).

Definition hashfunc : Z -> Z -> Z := IntClient.hashfunc.
Definition isEqual : Z -> Z -> bool := IntClient.isEqual.
Definition isBetterThan : Z -> Z -> bool := IntClient.isBetterThan.

Definition writeIn_neighbor (current_node : ptr) (neighbor : Z * Z)
    : M Z Z unit :=
  IntClient.writeIn_neighbor current_node neighbor.

(** The [i]-th neighbour of the node with the key [d]. *)
Definition neighbor_of (d i : Z) : Z * Z :=
  (Z.rem (d + i * NEIGHBOR_GAP) NUM_NODES,
   Z.rem (i * NEIGHBOR_GAP) (MAX_WEIGHT - 1) + 1).

(** The [for] loop of [send_neighbors], from [i] on, [count] rounds;
    every round reads the key of [min_node] anew. *)
Fixpoint send_from (min_node : ptr) (i : Z) (count : nat) : M Z Z unit :=
  match count with
  | O => ret tt
  | S count' =>
      mn <- node_load min_node ;;
      match data mn with
      | None => fault
      | Some d =>
          writeIn_neighbor min_node (neighbor_of d i) ;;;
          send_from min_node (i + 1) count'
      end
  end.

Definition send_neighbors (min_node : ptr) : M Z Z unit :=
  send_from min_node 1 (Z.to_nat NUM_NEIGHBORS).

(** The call in [main]. *)
Definition run (alloc : Z -> MinHeapNode Z Z) (fuel : nat)
    : res Z Z (HashInTree Z Z) :=
  Dijkstra_1source_to_all_else alloc fuel (fst source) (snd source) NUM_NODES
    hashfunc isEqual isBetterThan send_neighbors.

End GeneratedClient.

(** ** The invariant of a run of these programs *)

Section RunInvariant.

(** Every key in the table is a node number below [n]. *)
Definition keys_below (n : Z) (m : Mem Z Z) : Prop :=
  forall i (r : MinHeapNode Z Z) d,
    array_get (ht_nodes (hashintree m)) i = Some r -> data r = Some d ->
    0 <= d < n.

(** The table, of [size] slots, satisfies its invariant and holds node
    numbers below [n] only; the heap has room for [n] records and holds no
    more records than the table has occupants. *)
Definition run_inv (size n : Z) (m : Mem Z Z) : Prop :=
  table_inv_of_size IntClient.hashfunc IntClient.isEqual size m
  /\ keys_below n m
  /\ 0 <= mh_size (minheap m) <= Z.of_nat (occupied (hashintree m))
  /\ mh_capacity (minheap m) = n.

(** Every entry of every row of the graph is [NULL_CASE] or names a node
    below [n]. *)
Definition rows_name_nodes (n : Z) (Graph : list (list (Z * Z))) : bool :=
  forallb
    (forallb
       (fun neighbor : Z * Z =>
          (fst neighbor =? fst IntClient.NULL_CASE)
          || ((0 <=? fst neighbor) && (fst neighbor <? n))))
    Graph.

(** Started in a memory that satisfies [J], the computation does not end
    the run, and returns, if it does, in a memory that satisfies [J]. *)
Definition safe {A} (J : Mem Z Z -> Prop) (c : M Z Z A) : Prop :=
  forall m,
    J m ->
    match c m with
    | Ret _ m' => J m'
    | Exit _ _ => False
    | _ => True
    end.

End RunInvariant.


(** * The linked list utility

    The second unit of [src/unnamed/part_000]: a circular, doubly linked
    list with a dummy header node.  Its nodes are separate [malloc]
    blocks, so the memory is a finite map from addresses to nodes. *)

From stdpp Require Import gmap.

Local Open Scope Z_scope.

Module LinkedLists.

(** [int], and the conversion of an [int] to [unsigned int]. *)
Definition INT_MAX : Z := 2147483647.
Definition INT_MIN : Z := -2147483648.
Definition UINT_modulus : Z := 2 ^ 32.

Definition to_unsigned (z : Z) : Z := z mod UINT_modulus.

(** One node of a list; [data] is the caller's pointer. *)
Record Node : Type := mkNode {
  data : ptr;
  next : ptr;
  prev : ptr
}.

(** A list: its dummy header node and the number of its nodes. *)
Record LinkedList : Type := mkLinkedList {
  header : ptr;
  size : Z
}.

(** The memory: the list structure that the functions are called on, the
    live node blocks by address, and the caller's blocks that were handed
    to [free], the latest first. *)
Record Mem : Type := mkMem {
  someList : LinkedList;
  nodes : gmap Z Node;
  freed : list ptr
}.

Definition set_data (v : ptr) (n : Node) : Node := mkNode v (next n) (prev n).
Definition set_next (v : ptr) (n : Node) : Node := mkNode (data n) v (prev n).
Definition set_prev (v : ptr) (n : Node) : Node := mkNode (data n) (next n) v.

Definition with_list (l : LinkedList) (m : Mem) : Mem :=
  mkMem l (nodes m) (freed m).
Definition with_nodes (ns : gmap Z Node) (m : Mem) : Mem :=
  mkMem (someList m) ns (freed m).
Definition with_freed (fs : list ptr) (m : Mem) : Mem :=
  mkMem (someList m) (nodes m) fs.

(** A call returns, ends the process through [exit], runs into undefined
    behaviour ([Fault]: a [NULL] or dangling pointer is dereferenced or
    freed, an [int] overflows), or is still inside a loop when the
    iteration bound given to it is used up. *)
Inductive res (A : Type) : Type :=
  | Ret (a : A) (m : Mem)
  | Exit (code : Z) (m : Mem)
  | Fault
  | OutOfFuel.

Global Arguments Ret {A} a m.
Global Arguments Exit {A} code m.
Global Arguments Fault {A}.
Global Arguments OutOfFuel {A}.

Definition L (A : Type) : Type := Mem -> res A.

Definition ret {A} (a : A) : L A := fun m => Ret a m.

Definition bind {A B} (c : L A) (k : A -> L B) : L B :=
  fun m =>
    match c m with
    | Ret a m' => k a m'
    | Exit code m' => Exit code m'
    | Fault => Fault
    | OutOfFuel => OutOfFuel
    end.

Definition exit {A} (code : Z) : L A := fun m => Exit code m.
Definition fault {A} : L A := fun _ => Fault.
Definition out_of_fuel {A} : L A := fun _ => OutOfFuel.

Declare Scope list_mem_scope.
Delimit Scope list_mem_scope with list_mem.
Notation "x <- c ;; k" := (bind c (fun x => k))
  (at level 100, c at next level, right associativity) : list_mem_scope.
Notation "c ;;; k" := (bind c (fun _ => k))
  (at level 100, right associativity) : list_mem_scope.
Local Open Scope list_mem_scope.

(** *** Memory accesses *)

Definition get_header : L ptr := fun m => Ret (header (someList m)) m.
Definition get_size : L Z := fun m => Ret (size (someList m)) m.

Definition with_header (h : ptr) (m : Mem) : Mem :=
  with_list (mkLinkedList h (size (someList m))) m.
Definition with_size (s : Z) (m : Mem) : Mem :=
  with_list (mkLinkedList (header (someList m)) s) m.

Definition put_header (h : ptr) : L unit := fun m => Ret tt (with_header h m).
Definition put_size (s : Z) : L unit := fun m => Ret tt (with_size s m).

(** [someList->size++] and [someList->size--]. *)
Definition incr_size : L unit :=
  s <- get_size ;;
  if s =? INT_MAX then fault else put_size (s + 1).

Definition decr_size : L unit :=
  s <- get_size ;;
  if s =? INT_MIN then fault else put_size (s - 1).

(** [p->field]. *)
Definition load {A} (field : Node -> A) (p : ptr) : L A :=
  fun m =>
    match p with
    | None => Fault
    | Some a =>
        match nodes m !! a with
        | Some n => Ret (field n) m
        | None => Fault
        end
    end.

(** The memory after [p->field = v] on the block at [a], after [malloc]
    has answered [a], and after [free] on the block at [a]. *)
Definition upd (a : Z) (set : Node -> Node) (m : Mem) : Mem :=
  with_nodes (alter set a (nodes m)) m.
Definition alloc (a : Z) (junk : Node) (m : Mem) : Mem :=
  with_nodes (<[a := junk]> (nodes m)) m.
Definition dealloc (a : Z) (m : Mem) : Mem :=
  with_nodes (delete a (nodes m)) m.

(** [p->field = v], as [store (set_field v) p]. *)
Definition store (set : Node -> Node) (p : ptr) : L unit :=
  fun m =>
    match p with
    | None => Fault
    | Some a =>
        match nodes m !! a with
        | Some _ => Ret tt (upd a set m)
        | None => Fault
        end
    end.

(** [malloc (sizeof (Node))].  What the allocator answers is not the
    program's choice: [block] is its answer, [NULL] or the address of a
    block, and [junk] is what that block happens to contain. *)
Definition malloc (block : ptr) (junk : Node) : L ptr :=
  fun m =>
    match block with
    | None => Ret None m
    | Some a => Ret (Some a) (alloc a junk m)
    end.

(** [free] on a node block: the block is live no more. *)
Definition free_node (p : ptr) : L unit :=
  fun m =>
    match p with
    | None => Ret tt m
    | Some a =>
        match nodes m !! a with
        | Some _ => Ret tt (dealloc a m)
        | None => Fault
        end
    end.

(** [free] on a block of the caller's. *)
Definition free_data (d : ptr) : L unit :=
  fun m => Ret tt (with_freed (d :: freed m) m).

(** *** The functions *)

Definition createList (block : ptr) (junk : Node) : L unit :=
  put_size 0 ;;;
  h <- malloc block junk ;;
  put_header h ;;;
  hd <- get_header ;;
  store (set_data None) hd ;;;
  hd <- get_header ;;
  hd' <- get_header ;;
  store (set_next hd') hd ;;;
  hd <- get_header ;;
  hd' <- get_header ;;
  store (set_prev hd') hd.

Definition addEnd (block : ptr) (junk : Node) (newData : ptr) : L unit :=
  newNode <- malloc block junk ;;
  store (set_data newData) newNode ;;;
  hd <- get_header ;;
  store (set_next hd) newNode ;;;
  hd <- get_header ;;
  last <- load prev hd ;;
  store (set_prev last) newNode ;;;
  hd <- get_header ;;
  last <- load prev hd ;;
  store (set_next newNode) last ;;;
  hd <- get_header ;;
  store (set_prev newNode) hd ;;;
  incr_size.

(** The two loops of [get_node_at]: [while (i++ < size) header =
    header->prev] and [while (i-- >= 0) header = header->next]. *)
Fixpoint walk_back (fuel : nat) (header : ptr) (i size : Z) : L ptr :=
  match fuel with
  | O => out_of_fuel
  | S fuel' =>
      if i <? size
      then
        p <- load prev header ;;
        walk_back fuel' p (i + 1) size
      else ret header
  end.

Fixpoint walk_on (fuel : nat) (header : ptr) (i : Z) : L ptr :=
  match fuel with
  | O => out_of_fuel
  | S fuel' =>
      if 0 <=? i
      then
        p <- load next header ;;
        walk_on fuel' p (i - 1)
      else ret header
  end.

(** [i] is a [long], [size] an [unsigned int]: [size - 1] wraps as an
    [unsigned int] and is then widened. *)
Definition get_node_at (fuel : nat) (header : ptr) (i size : Z) : L ptr :=
  if to_unsigned (size - 1) - i <? i
  then walk_back fuel header i size
  else walk_on fuel header i.

Definition pop (fuel : nat) (position : Z) : L ptr :=
  s <- get_size ;;
  if (position <? 0) || (s <=? position) then exit 2
  else
    hd <- get_header ;;
    s <- get_size ;;
    badNode <- get_node_at fuel hd position (to_unsigned s) ;;
    removedData <- load data badNode ;;
    before <- load prev badNode ;;
    after <- load next badNode ;;
    store (set_next after) before ;;;
    after <- load next badNode ;;
    before <- load prev badNode ;;
    store (set_prev before) after ;;;
    decr_size ;;;
    free_node badNode ;;;
    ret removedData.

(** What [outputList] prints between the brackets: the strings that the
    data pointers point to are the caller's, so the pointers stand for
    them. *)
Fixpoint output_from (temp : ptr) (count : nat) : L (list ptr) :=
  match count with
  | O => ret []
  | S count' =>
      d <- load data temp ;;
      temp' <- load next temp ;;
      rest <- output_from temp' count' ;;
      ret (d :: rest)
  end.

Definition outputList : L (list ptr) :=
  s <- get_size ;;
  if s =? 0 then ret []
  else
    hd <- get_header ;;
    temp <- load next hd ;;
    s <- get_size ;;
    output_from temp (Z.to_nat s).

Definition addFirst (block : ptr) (junk : Node) (newElement : ptr)
    : L unit :=
  newNode <- malloc block junk ;;
  store (set_data newElement) newNode ;;;
  hd <- get_header ;;
  store (set_prev hd) newNode ;;;
  hd <- get_header ;;
  first <- load next hd ;;
  store (set_next first) newNode ;;;
  hd <- get_header ;;
  first <- load next hd ;;
  store (set_prev newNode) first ;;;
  hd <- get_header ;;
  store (set_next newNode) hd ;;;
  incr_size.

Definition removeFirst : L ptr :=
  s <- get_size ;;
  if s =? 0 then exit 2
  else
    hd <- get_header ;;
    badNode <- load next hd ;;
    hd <- get_header ;;
    after <- load next badNode ;;
    store (set_next after) hd ;;;
    after <- load next badNode ;;
    hd <- get_header ;;
    store (set_prev hd) after ;;;
    r <- load data badNode ;;
    free_node badNode ;;;
    decr_size ;;;
    ret r.



(** [i] and [j] are [unsigned int]s; the size is converted to compare
    with them. *)
Definition swap (fuel : nat) (i j : Z) : L unit :=
  s <- get_size ;;
  s' <- get_size ;;
  if (to_unsigned s <=? i) || (to_unsigned s' <=? j) then exit 2
  else
    hd <- get_header ;;
    s <- get_size ;;
    p1 <- get_node_at fuel hd i (to_unsigned s) ;;
    hd <- get_header ;;
    s <- get_size ;;
    p2 <- get_node_at fuel hd j (to_unsigned s) ;;
    temp <- load data p1 ;;
    d2 <- load data p2 ;;
    store (set_data d2) p1 ;;;
    store (set_data temp) p2.

Definition change (fuel : nat) (position : Z) (newElement : ptr) : L ptr :=
  s <- get_size ;;
  if (position <? 0) || (s <=? position) then exit 2
  else
    hd <- get_header ;;
    s <- get_size ;;
    p <- get_node_at fuel hd position (to_unsigned s) ;;
    oldData <- load data p ;;
    store (set_data newElement) p ;;;
    ret oldData.

(** *** Well-formed lists *)

(** The way round the ring: from the header through the nodes of the
    list back to the header. *)
Definition path (h : Z) (ns : list Z) : list Z := h :: ns ++ [h].

Definition field_of {A} (field : Node -> A) (m : Mem) (a : Z) : option A :=
  field <$> nodes m !! a.

(** The block at [a] is live. *)
Definition live (m : Mem) (a : Z) : Prop := is_Some (nodes m !! a).

(** The list of [m] is well formed: its header is the block at [h], its
    nodes are the blocks at [ns], in this order, and the data they carry
    are [xs]. *)
Definition holds (m : Mem) (h : Z) (ns : list Z) (xs : list ptr) : Prop :=
    header (someList m) = Some h
    /\ size (someList m) = Z.of_nat (length ns)
    /\ size (someList m) <= INT_MAX
    /\ length xs = length ns
    /\ NoDup (h :: ns)
    /\ (forall k a b,
          path h ns !! k = Some a -> path h ns !! S k = Some b ->
          field_of next m a = Some (Some b)
          /\ field_of prev m b = Some (Some a))
    /\ (forall k a x,
          ns !! k = Some a -> xs !! k = Some x ->
          field_of data m a = Some x).

(** The blocks other than those at [gone] are as they were. *)
Definition others_kept (gone : list Z) (m m' : Mem) : Prop :=
  forall a, a ∉ gone -> nodes m' !! a = nodes m !! a.

(** A list of two nodes, the blocks 101 and 102, behind the header at
    block 100. *)
Definition two_elements : Mem :=
  mkMem (mkLinkedList (Some 100) 2)
    (<[100 := mkNode None (Some 101) (Some 102)]>
       (<[101 := mkNode (Some 1) (Some 102) (Some 100)]>
          (<[102 := mkNode (Some 2) (Some 100) (Some 101)]> ∅)))
    [].

End LinkedLists.

(** * Proofs *)

(** ** Arithmetic on [size_t], arrays and lists *)

Lemma size_modulus_eq : size_modulus = 18446744073709551616.
Proof. reflexivity. Qed.

Lemma wrap_small z : 0 <= z < size_modulus -> wrap z = z.
Proof. intros H. unfold wrap. apply Z.mod_small. exact H. Qed.

Lemma wrap_range z : 0 <= wrap z < size_modulus.
Proof. unfold wrap. apply Z.mod_pos_bound. reflexivity. Qed.

Lemma children_above pos :
  0 <= pos -> pos + 1 < half_modulus ->
  left_child_index pos = 2 * pos + 1
  /\ right_child_index pos = 2 * pos + 2.
Proof.
  intros Hpos0 Hpos. unfold half_modulus in Hpos.
  unfold left_child_index, right_child_index.
  assert (H63 : 2 ^ 63 = 9223372036854775808) by reflexivity.
  rewrite H63 in Hpos.
  rewrite (wrap_small (2 * pos)) by (rewrite size_modulus_eq; lia).
  rewrite (wrap_small (pos + 1)) by (rewrite size_modulus_eq; lia).
  rewrite !wrap_small by (rewrite size_modulus_eq; lia).
  lia.
Qed.

Lemma array_get_Some {A} (l : list A) i x :
  array_get l i = Some x -> 0 <= i < Z.of_nat (length l).
Proof.
  unfold array_get. destruct (0 <=? i) eqn:E; [|discriminate].
  intros H. apply lookup_lt_Some in H. lia.
Qed.

Lemma array_get_lt {A} (l : list A) i :
  0 <= i < Z.of_nat (length l) -> exists x, array_get l i = Some x.
Proof.
  intros [H0 H1]. unfold array_get.
  destruct (0 <=? i) eqn:E; [|lia].
  destruct (lookup_lt_is_Some_2 l (Z.to_nat i)) as [x Hx]; [lia|].
  exists x. exact Hx.
Qed.

Lemma array_get_elem {A} (l : list A) i x :
  array_get l i = Some x -> x ∈ l.
Proof.
  unfold array_get. destruct (0 <=? i); [|discriminate].
  apply list_elem_of_lookup_2.
Qed.

Lemma array_get_insert_eq {A} (l : list A) i x :
  0 <= i < Z.of_nat (length l) ->
  array_get (<[Z.to_nat i := x]> l) i = Some x.
Proof.
  intros Hi. unfold array_get.
  destruct (0 <=? i) eqn:E; [|lia].
  apply list_lookup_insert_eq. lia.
Qed.

Lemma array_get_insert_ne {A} (l : list A) i j x :
  0 <= i -> i <> j ->
  array_get (<[Z.to_nat i := x]> l) j = array_get l j.
Proof.
  intros Hi Hne. unfold array_get.
  destruct (0 <=? j) eqn:E; [|reflexivity].
  apply list_lookup_insert_ne. lia.
Qed.

Lemma array_get_alter {A} (f : A -> A) (l : list A) i j :
  0 <= i ->
  array_get (alter f (Z.to_nat i) l) j
  = if decide (i = j) then f <$> array_get l j else array_get l j.
Proof.
  intros Hi. unfold array_get.
  destruct (0 <=? j) eqn:E.
  - apply Z.leb_le in E. rewrite list_lookup_alter.
    destruct (decide (Z.to_nat i = Z.to_nat j)), (decide (i = j));
      subst; try reflexivity; exfalso; lia.
  - destruct (decide (i = j)); reflexivity.
Qed.

(** A list with one element that satisfies [P] has a filter of length 1. *)
Lemma filter_single {A} (P : A -> Prop) `{forall x, Decision (P x)}
    (l : list A) i x :
  l !! i = Some x -> P x ->
  (forall j y, j <> i -> l !! j = Some y -> ~ P y) ->
  length (filter P l) = 1%nat.
Proof.
  intros Hi Hx Hothers.
  assert (Hnil : forall l' : list A, (forall y, y ∈ l' -> ~ P y) ->
                                     filter P l' = []).
  { induction l' as [|y l' IH]; intros Hall; [reflexivity|].
    rewrite filter_cons_False by (apply Hall; left).
    apply IH. intros z Hz. apply Hall. right. exact Hz. }
  rewrite <- (take_drop_middle l i x Hi).
  rewrite filter_app, filter_cons_True by exact Hx.
  rewrite (Hnil (take i l)), (Hnil (drop (S i) l)); [reflexivity| |].
  - intros y Hy. apply list_elem_of_lookup in Hy. destruct Hy as [j Hj].
    rewrite lookup_drop in Hj. apply (Hothers (S i + j)%nat); [lia|exact Hj].
  - intros y Hy. apply list_elem_of_lookup in Hy. destruct Hy as [j Hj].
    pose proof (lookup_lt_Some _ _ _ Hj) as Hlt.
    rewrite length_take in Hlt.
    rewrite lookup_take_lt in Hj by lia.
    apply (Hothers j); [lia|exact Hj].
Qed.

Lemma set_heapIndex_twice {K W} i j (n : MinHeapNode K W) :
  set_heapIndex i (set_heapIndex j n) = set_heapIndex i n.
Proof. reflexivity. Qed.

(** Recording a position twice over, with another record's position
    recorded in between, comes to recording the last one. *)
Lemma alter_heapIndex_absorb {K W} (N : list (MinHeapNode K W)) a b c pos :
  alter (set_heapIndex c) a
    (alter (set_heapIndex pos) b (alter (set_heapIndex pos) a N))
  = alter (set_heapIndex c) a (alter (set_heapIndex pos) b N).
Proof.
  apply list_eq. intros i.
  destruct (decide (a = i)) as [->|Ha], (decide (b = i)) as [->|Hb];
    repeat first [ rewrite list_lookup_alter_eq
                 | rewrite list_lookup_alter_ne by assumption ];
    destruct (N !! i); reflexivity.
Qed.

(** ** The monad *)

Section MonadLaws.

Context {K W : Type}.
Implicit Types (m : Mem K W) (p cn node : ptr).

Lemma bind_Ret {A B} (c : M K W A) (k : A -> M K W B) m a m' :
  c m = Ret a m' -> bind c k m = k a m'.
Proof. intros H. unfold bind. rewrite H. reflexivity. Qed.

Lemma bind_assoc {A B C} (c : M K W A) (f : A -> M K W B)
    (k : B -> M K W C) m :
  bind (bind c f) k m = bind c (fun x => bind (f x) k) m.
Proof. unfold bind. destruct (c m); reflexivity. Qed.

Lemma bind_ext {A B} (c : M K W A) (k1 k2 : A -> M K W B) m :
  (forall a m', k1 a m' = k2 a m') -> bind c k1 m = bind c k2 m.
Proof. intros H. unfold bind. destruct (c m); auto. Qed.

Lemma bind_ret {A B} (a : A) (k : A -> M K W B) m : bind (ret a) k m = k a m.
Proof. reflexivity. Qed.

Lemma bind_get_size {B} (k : Z -> M K W B) m :
  bind get_size k m = k (mh_size (minheap m)) m.
Proof. reflexivity. Qed.

Lemma bind_put_size {B} s (k : unit -> M K W B) m :
  bind (put_size s) k m = k tt (with_size s m).
Proof. reflexivity. Qed.

Lemma bind_get_capacity {B} (k : Z -> M K W B) m :
  bind get_capacity k m = k (mh_capacity (minheap m)) m.
Proof. reflexivity. Qed.

Lemma bind_get_table_size {B} (k : Z -> M K W B) m :
  bind get_table_size k m = k (ht_size (hashintree m)) m.
Proof. reflexivity. Qed.

Lemma bind_heap_load {B} i (k : ptr -> M K W B) m :
  bind (heap_load i) k m
  = match array_get (mh_heap (minheap m)) i with
    | Some p => k p m
    | None => Fault
    end.
Proof.
  unfold bind, heap_load.
  destruct (array_get (mh_heap (minheap m)) i); reflexivity.
Qed.

Lemma bind_heap_store {B} i p (k : unit -> M K W B) m :
  bind (heap_store i p) k m
  = match array_get (mh_heap (minheap m)) i with
    | Some _ => k tt (with_heap (<[Z.to_nat i := p]> (mh_heap (minheap m))) m)
    | None => Fault
    end.
Proof.
  unfold bind, heap_store.
  destruct (array_get (mh_heap (minheap m)) i); reflexivity.
Qed.

Lemma bind_node_load {B} b (k : MinHeapNode K W -> M K W B) m :
  bind (node_load (Some b)) k m
  = match array_get (ht_nodes (hashintree m)) b with
    | Some n => k n m
    | None => Fault
    end.
Proof.
  unfold bind, node_load, table_load.
  destruct (array_get (ht_nodes (hashintree m)) b); reflexivity.
Qed.

Lemma bind_node_load_null {B} (k : MinHeapNode K W -> M K W B) m :
  bind (node_load None) k m = Fault.
Proof. reflexivity. Qed.

Lemma bind_table_load {B} i (k : MinHeapNode K W -> M K W B) m :
  bind (table_load i) k m
  = match array_get (ht_nodes (hashintree m)) i with
    | Some n => k n m
    | None => Fault
    end.
Proof. exact (bind_node_load i k m). Qed.

Lemma bind_node_update {B} b f (k : unit -> M K W B) m :
  bind (node_update (Some b) f) k m
  = match array_get (ht_nodes (hashintree m)) b with
    | Some _ =>
        k tt (with_nodes (alter f (Z.to_nat b) (ht_nodes (hashintree m))) m)
    | None => Fault
    end.
Proof.
  unfold bind, node_update.
  destruct (array_get (ht_nodes (hashintree m)) b); reflexivity.
Qed.

End MonadLaws.

(** ** Well-formed memories *)

Section MemoryFacts.

Context {K W : Type}.
Implicit Types (m : Mem K W) (p cn node : ptr).

Lemma ptr_valid_spec m p :
  ptr_valid m p = true <->
  exists a n, p = Some a /\ array_get (ht_nodes (hashintree m)) a = Some n.
Proof.
  unfold ptr_valid. destruct p as [a|].
  - rewrite bool_decide_eq_true. split.
    + intros [n Hn]. exists a, n. split; [reflexivity|exact Hn].
    + intros (a' & n & [= <-] & Hn). exists n. exact Hn.
  - split; [discriminate|]. intros (a & n & H & _). discriminate.
Qed.

Lemma heap_wf_spec m :
  heap_wf m = true ->
  0 <= mh_size (minheap m) <= Z.of_nat (length (mh_heap (minheap m)))
  /\ Z.of_nat (length (mh_heap (minheap m))) < half_modulus
  /\ forall i, 0 <= i < mh_size (minheap m) -> slot_valid m i = true.
Proof.
  unfold heap_wf. rewrite !andb_true_iff.
  intros [[[H0 H1] H2] H3].
  apply Z.leb_le in H0, H1. apply Z.ltb_lt in H2.
  split; [lia|]. split; [exact H2|].
  intros i Hi. rewrite forallb_forall in H3. apply H3.
  apply list_elem_of_In, list_elem_of_lookup.
  exists (Z.to_nat i). rewrite lookup_seqZ. lia.
Qed.

Lemma slot_valid_spec m i :
  slot_valid m i = true ->
  exists a n, array_get (mh_heap (minheap m)) i = Some (Some a)
              /\ array_get (ht_nodes (hashintree m)) a = Some n.
Proof.
  unfold slot_valid.
  destruct (array_get (mh_heap (minheap m)) i) as [p|]; [|discriminate].
  intros Hv. apply ptr_valid_spec in Hv. destruct Hv as (a & n & -> & Hn).
  exists a, n. split; [reflexivity|exact Hn].
Qed.

Lemma slot_valid_iff m i :
  slot_valid m i = true <->
  exists b, array_get (mh_heap (minheap m)) i = Some (Some b)
            /\ 0 <= b < Z.of_nat (length (ht_nodes (hashintree m))).
Proof.
  split.
  - intros H. apply slot_valid_spec in H. destruct H as (b & n & Hb & Hn).
    exists b. split; [exact Hb|]. eapply array_get_Some; eassumption.
  - intros (b & Hb & Hrange). unfold slot_valid. rewrite Hb.
    apply ptr_valid_spec.
    destruct (array_get_lt _ _ Hrange) as [n Hn]. exists b, n. auto.
Qed.

Lemma slot_valid_weight m i :
  slot_valid m i = true -> is_Some (slot_weight m i).
Proof.
  intros H. apply slot_valid_spec in H. destruct H as (b & n & Hb & Hn).
  unfold slot_weight. rewrite Hb, Hn. eexists. reflexivity.
Qed.

Lemma forallb_seqZ (P : Z -> bool) lo len :
  forallb P (seqZ lo len) = true <->
  forall i, lo <= i < lo + len -> P i = true.
Proof.
  rewrite forallb_forall. split.
  - intros H i Hi. apply H, list_elem_of_In, list_elem_of_lookup.
    exists (Z.to_nat (i - lo)). rewrite lookup_seqZ. lia.
  - intros H i Hi. apply list_elem_of_In, list_elem_of_lookup in Hi.
    destruct Hi as [j Hj]. rewrite lookup_seqZ in Hj. apply H. lia.
Qed.

Lemma heap_wf_iff m :
  heap_wf m = true <->
  0 <= mh_size (minheap m) <= Z.of_nat (length (mh_heap (minheap m)))
  /\ Z.of_nat (length (mh_heap (minheap m))) < half_modulus
  /\ forall i, 0 <= i < mh_size (minheap m) -> slot_valid m i = true.
Proof.
  split; [apply heap_wf_spec|].
  intros (Hsz & Hlen & Hslots). unfold heap_wf.
  rewrite !andb_true_iff, forallb_seqZ.
  repeat split; try (apply Z.leb_le; lia); try (apply Z.ltb_lt; lia).
  intros i Hi. apply Hslots. lia.
Qed.

End MemoryFacts.

(** ** The table *)

Section TableFacts.

Context {K W : Type}.
Implicit Types (m : Mem K W) (key : K).

Lemma unseated_spec isEqual key m i (n : MinHeapNode K W) d :
  unseated isEqual key m = true ->
  array_get (ht_nodes (hashintree m)) i = Some n ->
  data n = Some d -> isEqual key d = false.
Proof.
  unfold unseated. intros Hu Hn Hd.
  rewrite forallb_forall in Hu.
  apply array_get_elem, list_elem_of_In in Hn.
  specialize (Hu n Hn). rewrite Hd in Hu.
  destruct (isEqual key d); [discriminate|reflexivity].
Qed.

Lemma table_full_spec m i (n : MinHeapNode K W) :
  table_full m = true ->
  array_get (ht_nodes (hashintree m)) i = Some n ->
  exists d, data n = Some d.
Proof.
  unfold table_full. intros Hf Hn.
  rewrite forallb_forall in Hf.
  apply array_get_elem, list_elem_of_In in Hn.
  specialize (Hf n Hn). apply bool_decide_eq_true in Hf.
  destruct Hf as [d Hd]. exists d. exact Hd.
Qed.

(** Neither probe writes: a returning probe returns in the memory it
    started from, and neither ends through [exit]. *)
Lemma find_seat_loop_frame isEqual key hash fuel : forall index m,
  match find_seat_loop fuel isEqual key hash index m with
  | Ret _ m' => m' = m
  | Exit _ _ => False
  | _ => True
  end.
Proof.
  induction fuel as [|fuel IH]; intros index m; simpl; [exact I|].
  unfold bind, table_load.
  destruct (array_get _ index) as [n|]; [|exact I].
  destruct (seat_fits isEqual key n); [reflexivity|].
  unfold get_table_size.
  destruct (ht_size (hashintree m) =? 0); [exact I|].
  destruct (_ =? hash); [reflexivity|]. apply IH.
Qed.

Lemma get_node_loop_frame isEqual key hash fuel : forall index m,
  match get_node_loop fuel isEqual key hash index m with
  | Ret _ m' => m' = m
  | Exit _ _ => False
  | _ => True
  end.
Proof.
  induction fuel as [|fuel IH]; intros index m; simpl; [exact I|].
  unfold bind, table_load.
  destruct (array_get _ index) as [n|]; [|exact I].
  destruct (data n) as [d|]; [|reflexivity].
  destruct (isEqual key d); [reflexivity|].
  unfold get_table_size.
  destruct (_ =? hash); [reflexivity|]. apply IH.
Qed.

(** On a well-formed table both loops step to the same next slot. *)
Lemma next_slot_agree size index :
  0 <= index < size -> size < size_modulus ->
  (if index =? wrap (size - 1) then 0 else wrap (index + 1))
  = wrap (index + 1) mod size.
Proof.
  intros Hi Hs. rewrite size_modulus_eq in Hs.
  rewrite (wrap_small (size - 1)) by (rewrite size_modulus_eq; lia).
  rewrite (wrap_small (index + 1)) by (rewrite size_modulus_eq; lia).
  destruct (index =? size - 1) eqn:E.
  - apply Z.eqb_eq in E. subst index.
    replace (size - 1 + 1) with size by lia.
    symmetry. apply Z_mod_same_full.
  - apply Z.eqb_neq in E. symmetry. apply Z.mod_small. lia.
Qed.

(** The lookup loop is the seat loop with an empty seat read as "not
    found": same slots, same order. *)
Lemma get_node_loop_find_seat isEqual key hash m fuel :
  table_wf m ->
  forall index, 0 <= index < ht_size (hashintree m) ->
  get_node_loop fuel isEqual key hash index m
  = lookup_of_seat (find_seat_loop fuel isEqual key hash index m).
Proof.
  intros [Hlen Hmod].
  induction fuel as [|fuel IH]; intros index Hi; simpl; [reflexivity|].
  unfold bind, table_load.
  destruct (array_get _ index) as [n|] eqn:Hn; [|reflexivity].
  unfold seat_fits.
  destruct (data n) as [d|] eqn:Hd.
  - destruct (isEqual key d).
    + unfold ret. simpl. rewrite Hn, Hd. reflexivity.
    + unfold get_table_size.
      destruct (ht_size (hashintree m) =? 0) eqn:E0; [lia|].
      rewrite next_slot_agree by assumption.
      destruct (_ =? hash); [reflexivity|].
      apply IH. apply Z.mod_pos_bound. lia.
  - unfold ret. simpl. rewrite Hn, Hd. reflexivity.
Qed.

End TableFacts.

(** ** Walking once around the table *)

(** The [j]-th slot of the probe sequence that starts at [h] is
    [(h + j) mod size]. *)
Lemma probe_step size h j :
  0 <= h < size -> 0 <= j < size -> size < size_modulus ->
  wrap ((h + j) mod size + 1) mod size = (h + j + 1) mod size.
Proof.
  intros Hh Hj Hs.
  assert (0 <= (h + j) mod size < size) by (apply Z.mod_pos_bound; lia).
  rewrite wrap_small by lia.
  rewrite Zplus_mod_idemp_l. reflexivity.
Qed.

Lemma probe_back size h j :
  0 <= h < size -> 0 <= j < size ->
  ((h + j + 1) mod size =? h) = (j + 1 =? size).
Proof.
  intros Hh Hj.
  destruct (j + 1 =? size) eqn:E.
  - apply Z.eqb_eq in E. apply Z.eqb_eq.
    replace (h + j + 1) with (h + 1 * size) by lia.
    rewrite Z_mod_plus_full. apply Z.mod_small. lia.
  - apply Z.eqb_neq in E. apply Z.eqb_neq. intros Hc.
    pose proof (Z.div_mod (h + j + 1) size ltac:(lia)) as Hdm.
    rewrite Hc in Hdm.
    assert (Hq : j + 1 = size * ((h + j + 1) / size)) by lia.
    assert (0 < (h + j + 1) / size) by nia.
    assert ((h + j + 1) / size < 1) by nia.
    lia.
Qed.

Section Probing.

Context {K W : Type}.
Implicit Types (m : Mem K W) (key : K).

(** The seat search returns on every well-formed table, whatever it
    holds. *)
Lemma find_seat_loop_total isEqual key m h :
  table_wf m -> 0 <= h < ht_size (hashintree m) ->
  forall fuel j, 0 <= j < ht_size (hashintree m) ->
  ht_size (hashintree m) - j <= Z.of_nat fuel ->
  exists r, find_seat_loop fuel isEqual key h
              ((h + j) mod ht_size (hashintree m)) m = Ret r m.
Proof.
  intros [Hlen Hmod] Hh.
  induction fuel as [|fuel IH]; intros j Hj Hfuel; [lia|]. simpl.
  assert (Hidx : 0 <= (h + j) mod ht_size (hashintree m)
                 < ht_size (hashintree m)) by (apply Z.mod_pos_bound; lia).
  unfold bind, table_load.
  destruct (array_get_lt (ht_nodes (hashintree m)) _ ltac:(rewrite Hlen; exact Hidx))
    as [n Hn].
  rewrite Hn.
  destruct (seat_fits isEqual key n); [eexists; reflexivity|].
  unfold get_table_size.
  destruct (ht_size (hashintree m) =? 0) eqn:E0; [lia|].
  rewrite probe_step, probe_back by assumption.
  destruct (j + 1 =? ht_size (hashintree m)) eqn:E; [eexists; reflexivity|].
  apply Z.eqb_neq in E.
  replace (h + j + 1) with (h + (j + 1)) by lia.
  apply IH; lia.
Qed.

(** On a full table that does not hold the key, the search comes back to
    where it started and returns [NULL]. *)
Lemma find_seat_loop_full isEqual key m h :
  table_wf m -> 0 <= h < ht_size (hashintree m) ->
  table_full m = true -> unseated isEqual key m = true ->
  forall fuel j, 0 <= j < ht_size (hashintree m) ->
  ht_size (hashintree m) - j <= Z.of_nat fuel ->
  find_seat_loop fuel isEqual key h
    ((h + j) mod ht_size (hashintree m)) m = Ret None m.
Proof.
  intros [Hlen Hmod] Hh Hfull Hun.
  induction fuel as [|fuel IH]; intros j Hj Hfuel; [lia|]. simpl.
  assert (Hidx : 0 <= (h + j) mod ht_size (hashintree m)
                 < ht_size (hashintree m)) by (apply Z.mod_pos_bound; lia).
  unfold bind, table_load.
  destruct (array_get_lt (ht_nodes (hashintree m)) _ ltac:(rewrite Hlen; exact Hidx))
    as [n Hn].
  rewrite Hn.
  destruct (table_full_spec _ _ _ Hfull Hn) as [d Hd].
  unfold seat_fits. rewrite Hd, (unseated_spec _ _ _ _ _ _ Hun Hn Hd).
  unfold get_table_size.
  destruct (ht_size (hashintree m) =? 0) eqn:E0; [lia|].
  rewrite probe_step, probe_back by assumption.
  destruct (j + 1 =? ht_size (hashintree m)) eqn:E; [reflexivity|].
  apply Z.eqb_neq in E.
  replace (h + j + 1) with (h + (j + 1)) by lia.
  apply IH; lia.
Qed.

(** Two keys that no occupant matches are probed alike: where one finds
    an empty seat, so does the other. *)
Lemma find_seat_loop_same_seat isEqual key1 key2 m h p :
  unseated isEqual key2 m = true ->
  forall fuel index (n : MinHeapNode K W),
  find_seat_loop fuel isEqual key1 h index m = Ret (Some p) m ->
  array_get (ht_nodes (hashintree m)) p = Some n -> data n = None ->
  find_seat_loop fuel isEqual key2 h index m = Ret (Some p) m.
Proof.
  intros Hun.
  induction fuel as [|fuel IH]; intros index n Hfind Hp Hempty;
    [discriminate|].
  simpl in *. unfold bind, table_load in *.
  destruct (array_get _ index) as [n'|] eqn:Hn'; [|discriminate].
  unfold seat_fits in *.
  destruct (data n') as [d|] eqn:Hd.
  - rewrite (unseated_spec _ _ _ _ _ _ Hun Hn' Hd).
    destruct (isEqual key1 d).
    + unfold ret in Hfind. injection Hfind as ->.
      rewrite Hp in Hn'. injection Hn' as ->. congruence.
    + unfold get_table_size in *.
      destruct (ht_size (hashintree m) =? 0); [discriminate|].
      destruct (_ =? h); [discriminate|].
      eapply IH; eassumption.
  - exact Hfind.
Qed.

End Probing.

(** ** What probing guarantees *)

Section ProbingFacts.

Context {K W : Type}.
Implicit Types (m : Mem K W) (key : K).

(** C2, as the code has it: on a completely full table in which no occupant
    compares equal to the key, [HashInTree_find_seat] returns [NULL] to its
    caller, in an unchanged memory; it does not end the run. *)
Theorem find_seat_full_table_returns_null m key hashfunc isEqual :
  table_wf m ->
  0 <= hashfunc (ht_size (hashintree m)) key < ht_size (hashintree m) ->
  table_full m = true ->
  unseated isEqual key m = true ->
  HashInTree_find_seat key hashfunc isEqual m = Ret None m.
Proof.
  intros Hwf Hh Hfull Hun.
  unfold HashInTree_find_seat, bind, get_table_size.
  set (h := hashfunc (ht_size (hashintree m)) key) in *.
  pose proof (find_seat_loop_full isEqual key m h Hwf Hh Hfull Hun
                (S (Z.to_nat (ht_size (hashintree m)))) 0) as H.
  replace ((h + 0) mod ht_size (hashintree m)) with h in H
    by (rewrite Z.add_0_r, Z.mod_small; lia).
  apply H; lia.
Qed.

(** C9: on a well-formed table [HashInTree_get_node_by_data] visits the
    slots that [HashInTree_find_seat] visits, in the same order, and
    answers "not found" at the first empty one (the seat search returns
    there, and the lookup reads its empty seat as [NULL]); so a key that no
    occupant compares equal to is not found. *)
Theorem get_node_by_data_probes_like_find_seat m key hashfunc isEqual :
  table_wf m ->
  0 <= hashfunc (ht_size (hashintree m)) key < ht_size (hashintree m) ->
  (exists r, HashInTree_find_seat key hashfunc isEqual m = Ret r m)
  /\ HashInTree_get_node_by_data key hashfunc isEqual m
     = lookup_of_seat (HashInTree_find_seat key hashfunc isEqual m)
  /\ (unseated isEqual key m = true ->
      HashInTree_get_node_by_data key hashfunc isEqual m = Ret None m).
Proof.
  intros Hwf Hh.
  unfold HashInTree_find_seat, HashInTree_get_node_by_data, bind,
    get_table_size.
  set (h := hashfunc (ht_size (hashintree m)) key) in *.
  set (fuel := S (Z.to_nat (ht_size (hashintree m)))).
  destruct (find_seat_loop_total isEqual key m h Hwf Hh fuel 0
              ltac:(lia) ltac:(subst fuel; lia)) as [r Hr].
  replace ((h + 0) mod ht_size (hashintree m)) with h in Hr
    by (rewrite Z.add_0_r, Z.mod_small; lia).
  assert (Heq : get_node_loop fuel isEqual key h h m
                = lookup_of_seat (find_seat_loop fuel isEqual key h h m))
    by (apply get_node_loop_find_seat; assumption).
  split; [exists r; exact Hr|]. split; [exact Heq|].
  intros Hun. rewrite Heq, Hr. simpl.
  destruct r as [i|]; [|reflexivity].
  (* the seat the search stopped at fits the key, so it is empty *)
  assert (Hseat : exists n, array_get (ht_nodes (hashintree m)) i = Some n
                            /\ seat_fits isEqual key n = true).
  { clear Heq. revert Hr. generalize h at 2. generalize fuel.
    intros f. induction f as [|f IH]; intros idx; simpl; [discriminate|].
    unfold bind, table_load.
    destruct (array_get _ idx) as [n|] eqn:Hn; [|discriminate].
    destruct (seat_fits isEqual key n) eqn:Hfit.
    - unfold ret. intros [= <-]. exists n. split; assumption.
    - unfold get_table_size.
      destruct (ht_size (hashintree m) =? 0); [discriminate|].
      destruct (_ =? h); [discriminate|]. apply IH. }
  destruct Hseat as (n & Hn & Hfit). rewrite Hn.
  unfold seat_fits in Hfit.
  destruct (data n) as [d|] eqn:Hd; [|reflexivity].
  rewrite (unseated_spec _ _ _ _ _ _ Hun Hn Hd) in Hfit. discriminate.
Qed.

(** C10: neither [HashInTree_find_seat] nor [HashInTree_get_node_by_data]
    changes the memory; in particular an empty seat that the search
    returned is still empty, and the search for another key with the same
    hash that no occupant matches returns that same seat. *)
Theorem probes_leave_table_unchanged m key hashfunc isEqual :
  (forall r m', HashInTree_find_seat key hashfunc isEqual m = Ret r m' ->
                m' = m)
  /\ (forall r m', HashInTree_get_node_by_data key hashfunc isEqual m
                   = Ret r m' -> m' = m)
  /\ (forall p (n : MinHeapNode K W) key2,
        HashInTree_find_seat key hashfunc isEqual m = Ret (Some p) m ->
        array_get (ht_nodes (hashintree m)) p = Some n -> data n = None ->
        hashfunc (ht_size (hashintree m)) key2
        = hashfunc (ht_size (hashintree m)) key ->
        unseated isEqual key2 m = true ->
        HashInTree_find_seat key2 hashfunc isEqual m = Ret (Some p) m).
Proof.
  unfold HashInTree_find_seat, HashInTree_get_node_by_data, bind,
    get_table_size.
  repeat split.
  - intros r m' H.
    pose proof (find_seat_loop_frame isEqual key
      (hashfunc (ht_size (hashintree m)) key)
      (S (Z.to_nat (ht_size (hashintree m))))
      (hashfunc (ht_size (hashintree m)) key) m) as Hf.
    rewrite H in Hf. exact Hf.
  - intros r m' H.
    pose proof (get_node_loop_frame isEqual key
      (hashfunc (ht_size (hashintree m)) key)
      (S (Z.to_nat (ht_size (hashintree m))))
      (hashfunc (ht_size (hashintree m)) key) m) as Hf.
    rewrite H in Hf. exact Hf.
  - intros p n key2 Hfind Hp Hempty Hhash Hun. rewrite Hhash.
    eapply find_seat_loop_same_seat; eassumption.
Qed.

End ProbingFacts.

(** C2, as stated, fails: the full table holding 0, 1 and 2 has no seat
    for the key 3, and the search for it does not end the run. *)
Lemma find_seat_full_table_not_fatal :
  table_full IntClient.full_table = true
  /\ unseated IntClient.isEqual 3 IntClient.full_table = true
  /\ ~ fails_fatally
         (HashInTree_find_seat 3 IntClient.hashfunc IntClient.isEqual
            IntClient.full_table).
Proof.
  split; [reflexivity|]. split; [reflexivity|].
  intros (code & m' & H). vm_compute in H. discriminate.
Qed.

Lemma find_seat_full_table_returns_null_witness :
  table_wf IntClient.full_table
  /\ HashInTree_find_seat 3 IntClient.hashfunc IntClient.isEqual
       IntClient.full_table = Ret None IntClient.full_table.
Proof.
  assert (Hwf : table_wf IntClient.full_table)
    by (split; [reflexivity | reflexivity]).
  split; [exact Hwf|].
  apply (find_seat_full_table_returns_null IntClient.full_table 3
           IntClient.hashfunc IntClient.isEqual Hwf).
  - vm_compute. split; [discriminate | reflexivity].
  - reflexivity.
  - reflexivity.
Defined.

Lemma get_node_by_data_probes_like_find_seat_witness :
  HashInTree_get_node_by_data 4 IntClient.hashfunc IntClient.isEqual
    IntClient.sparse_table = Ret None IntClient.sparse_table.
Proof.
  assert (Hwf : table_wf IntClient.sparse_table)
    by (split; [reflexivity | reflexivity]).
  apply (get_node_by_data_probes_like_find_seat IntClient.sparse_table 4
           IntClient.hashfunc IntClient.isEqual Hwf).
  - vm_compute. split; [discriminate | reflexivity].
  - reflexivity.
Defined.

Lemma probes_leave_table_unchanged_witness :
  HashInTree_find_seat 1 IntClient.hashfunc IntClient.isEqual
    IntClient.sparse_table = Ret (Some 1) IntClient.sparse_table
  /\ HashInTree_find_seat 4 IntClient.hashfunc IntClient.isEqual
       IntClient.sparse_table = Ret (Some 1) IntClient.sparse_table.
Proof.
  split; [reflexivity|].
  apply (proj2 (proj2 (probes_leave_table_unchanged IntClient.sparse_table 1
                         IntClient.hashfunc IntClient.isEqual))
           1 (mkNode None 0 None 0) 4).
  - reflexivity.
  - reflexivity.
  - reflexivity.
  - reflexivity.
  - reflexivity.
Defined.

(** ** Insertion into the heap *)

Section UpdateKey.

Context {K W : Type}.
Implicit Types (m : Mem K W) (p cn node : ptr).

Lemma parent_index_lt i : 0 < i -> 0 <= parent_index i < i.
Proof.
  intros Hi. unfold parent_index, wrap.
  rewrite Z.shiftr_div_pow2 by lia. change (2 ^ 1) with 2.
  assert (Hm : 0 < size_modulus) by reflexivity.
  pose proof (Z.mod_pos_bound (i - 1) size_modulus Hm) as Hb.
  pose proof (Z.mod_le (i - 1) size_modulus ltac:(lia) Hm) as Hle.
  split; [apply Z.div_pos; lia|].
  apply Z.div_lt_upper_bound; lia.
Qed.

(** The sift-up loop does not use up the fuel that [MinHeap_bubble_up]
    gives it: each round moves to a smaller index. *)
Lemma bubble_up_loop_fuel (isBetterThan : W -> W -> bool) this_node :
  forall fuel curr_index m,
  (Z.to_nat curr_index < fuel)%nat ->
  bubble_up_loop fuel isBetterThan this_node curr_index m <> OutOfFuel.
Proof.
  induction fuel as [|fuel IH]; intros curr_index m Hfuel; [lia|].
  simpl. destruct (0 <? curr_index) eqn:Epos; [|discriminate].
  apply Z.ltb_lt in Epos.
  pose proof (parent_index_lt curr_index Epos) as Hparent.
  destruct this_node as [a|]; [|discriminate].
  rewrite bind_node_load.
  destruct (array_get (ht_nodes (hashintree m)) a) as [tn|]; [|discriminate].
  rewrite bind_heap_load.
  destruct (array_get (mh_heap (minheap m)) (parent_index curr_index))
    as [[b|]|] eqn:Hpp; try discriminate.
  rewrite bind_node_load.
  destruct (array_get (ht_nodes (hashintree m)) b) as [pn|] eqn:Hpn;
    [|discriminate].
  destruct (isBetterThan (weight tn) (weight pn)); [|discriminate].
  rewrite bind_node_update, Hpn, bind_heap_load. simpl mh_heap.
  rewrite Hpp, bind_heap_store. simpl mh_heap.
  destruct (array_get (mh_heap (minheap m)) curr_index); [|discriminate].
  apply IH. lia.
Qed.

Lemma bubble_up_never_starves (isBetterThan : W -> W -> bool) curr_index m :
  MinHeap_bubble_up curr_index isBetterThan m <> OutOfFuel.
Proof.
  unfold MinHeap_bubble_up. rewrite bind_heap_load.
  destruct (array_get (mh_heap (minheap m)) curr_index) as [this_node|];
    [|discriminate].
  unfold bubble_up_from. unfold bind at 1.
  pose proof (bubble_up_loop_fuel isBetterThan this_node
                (S (Z.to_nat curr_index)) curr_index m ltac:(lia)) as Hloop.
  destruct (bubble_up_loop _ _ _ _ _) as [final m'| | |];
    [|discriminate|discriminate|congruence].
  destruct this_node as [a|]; [|discriminate].
  rewrite bind_node_update.
  destruct (array_get (ht_nodes (hashintree m')) a); [|discriminate].
  unfold heap_store.
  destruct (array_get _ final); discriminate.
Qed.

(** C8: on a heap whose size equals its capacity, [MinHeap_update_key] with
    [NodeIsNew = true] ends the run with [exit(2)] at once, in the memory it
    was called in. *)
Theorem update_key_full_heap_exits m node (isBetterThan : W -> W -> bool) :
  mh_size (minheap m) = mh_capacity (minheap m) ->
  MinHeap_update_key node true isBetterThan m = Exit 2 m.
Proof.
  intros Hfull.
  unfold MinHeap_update_key, bind, get_size, get_capacity.
  rewrite Hfull, Z.eqb_refl. reflexivity.
Qed.

End UpdateKey.

(** The memory [before_insert] is met in a run: in zeroed memory, declared
    for three nodes, the source 0 is seated, inserted and extracted, the
    client writes in the neighbour 1 at distance 5, and then seats the
    neighbour 2 at distance 1, which it is about to insert. *)
Lemma before_insert_reached :
  (sourcenode <- HashInTree_find_seat 0 IntClient.hashfunc IntClient.isEqual ;;
   node_update sourcenode (set_data (Some 0)) ;;;
   node_update sourcenode (set_weight 0) ;;;
   node_update sourcenode (set_parent None) ;;;
   MinHeap_update_key sourcenode true IntClient.isBetterThan ;;;
   min_node <- MinHeap_pluck_min IntClient.isBetterThan ;;
   IntClient.writeIn_neighbor min_node (1, 5) ;;;
   canvas <- HashInTree_find_seat 2 IntClient.hashfunc IntClient.isEqual ;;
   node_update canvas (set_data (Some 2)) ;;;
   node_update canvas (set_weight (0 + 1)) ;;;
   node_update canvas (set_parent min_node) ;;;
   ret canvas)
    (mkMem (HashInTree_create IntClient.zeroed 7) (MinHeap_create 3))
  = Ret (Some 2) IntClient.before_insert.
Proof. vm_compute. reflexivity. Qed.

(** C1 on the code: inserting the record of node 2 into the heap that
    holds node 1 puts it in slot 1, the old size, and leaves it there with
    [heapIndex] still 0; the sift-up runs from slot 0.  Worded as the
    specification has it, the call would record position 1 and lift node
    2, the better one, to the root. *)
Theorem update_key_new_skips_position :
  exists after expected,
    MinHeap_update_key (Some 2) true IntClient.isBetterThan
      IntClient.before_insert = Ret tt after
    /\ mh_heap (minheap after) = [Some 1; Some 2; None]
    /\ heapIndex <$> array_get (ht_nodes (hashintree after)) 2 = Some 0
    /\ (heap_store 1 (Some 2) ;;; put_size 2 ;;;
        MinHeap_bubble_up 0 IntClient.isBetterThan)
         IntClient.before_insert = Ret tt after
    /\ spec_update_key (Some 2) true IntClient.isBetterThan
         IntClient.before_insert = Ret tt expected
    /\ mh_heap (minheap expected) = [Some 2; Some 1; None]
    /\ heapIndex <$> array_get (ht_nodes (hashintree expected)) 2 = Some 0
    /\ heapIndex <$> array_get (ht_nodes (hashintree expected)) 1 = Some 1.
Proof.
  eexists. eexists.
  split; [vm_compute; reflexivity|].
  split; [reflexivity|]. split; [reflexivity|].
  split; [vm_compute; reflexivity|].
  split; [vm_compute; reflexivity|].
  split; [reflexivity|]. split; reflexivity.
Qed.

(** C4 on the code: the same call, on a well-formed heap that satisfies
    the heap property and has room, leaves node 2 (weight 1) below node 1
    (weight 5): the heap property is lost. *)
Theorem update_key_new_breaks_heap_order :
  heap_wf IntClient.before_insert = true
  /\ heap_ordered IntClient.isBetterThan IntClient.before_insert = true
  /\ mh_size (minheap IntClient.before_insert)
     < mh_capacity (minheap IntClient.before_insert)
  /\ exists after,
       MinHeap_update_key (Some 2) true IntClient.isBetterThan
         IntClient.before_insert = Ret tt after
       /\ heap_ordered IntClient.isBetterThan after = false.
Proof.
  split; [reflexivity|]. split; [reflexivity|]. split; [reflexivity|].
  eexists. split; [vm_compute; reflexivity|]. reflexivity.
Qed.

(** C5 on the code: before the call every resident record knows its slot;
    after it node 2 sits in slot 1 with [heapIndex] 0. *)
Theorem update_key_new_breaks_index_consistency :
  index_consistent IntClient.before_insert = true
  /\ exists after,
       MinHeap_update_key (Some 2) true IntClient.isBetterThan
         IntClient.before_insert = Ret tt after
       /\ array_get (mh_heap (minheap after)) 1 = Some (Some 2)
       /\ heapIndex <$> array_get (ht_nodes (hashintree after)) 2 = Some 0
       /\ index_consistent after = false.
Proof.
  split; [reflexivity|].
  eexists. split; [vm_compute; reflexivity|].
  split; [reflexivity|]. split; reflexivity.
Qed.

(** What the lost heap order costs a whole run: on the four-node graph
    [diamond], started in zeroed memory, node 3 ends with distance 6 below
    a predecessor of distance 2 and an edge of weight 1. *)
Lemma dijkstra_diamond_distances :
  exists t m,
    Dijkstra_1source_to_all_else IntClient.zeroed 5 0 0 4 IntClient.hashfunc
      IntClient.isEqual IntClient.isBetterThan
      (IntClient.send_neighbors IntClient.diamond) = Ret t m
    /\ (fun n => (data n, weight n, parent n)) <$> array_get (ht_nodes t) 1
       = Some (Some 1, 2, Some 2)
    /\ (fun n => (data n, weight n, parent n)) <$> array_get (ht_nodes t) 3
       = Some (Some 3, 6, Some 1).
Proof.
  eexists. eexists. split; [vm_compute; reflexivity|].
  split; reflexivity.
Qed.

Lemma update_key_full_heap_exits_witness :
  MinHeap_update_key (Some 0) true IntClient.isBetterThan IntClient.full_table
  = Exit 2 IntClient.full_table.
Proof.
  apply (update_key_full_heap_exits IntClient.full_table (Some 0)
           IntClient.isBetterThan).
  reflexivity.
Defined.

(** ** Extraction: the hole and the swaps *)

(** One array read or pointer test at a time. *)
Ltac step_load :=
  match goal with
  | |- context [array_get ?l ?i] =>
      destruct (array_get l i) as [?|] eqn:?; simpl
  | |- context [match ?p with Some _ => _ | None => _ end] =>
      is_var p; destruct p; simpl
  end.

Section SiftDown.

Context {K W : Type}.
Implicit Types (m : Mem K W) (p cn : ptr).
Variable isBetterThan : W -> W -> bool.

Lemma bind_weight_at {B} i (k : W -> M K W B) m :
  bind (spec_weight_at i) k m
  = match slot_weight m i with Some w => k w m | None => Fault end.
Proof.
  unfold spec_weight_at, slot_weight.
  rewrite bind_assoc, bind_heap_load.
  destruct (array_get (mh_heap (minheap m)) i) as [[b|]|]; try reflexivity.
  rewrite bind_assoc, bind_node_load.
  destruct (array_get (ht_nodes (hashintree m)) b); reflexivity.
Qed.

Lemma seat_record pos a m :
  0 <= pos < Z.of_nat (length (mh_heap (minheap m))) ->
  is_Some (array_get (ht_nodes (hashintree m)) a) ->
  (heap_store pos (Some a) ;;; node_update (Some a) (set_heapIndex pos)) m
  = Ret tt (seated pos a m).
Proof.
  intros Hpos [na Hna].
  destruct (array_get_lt (mh_heap (minheap m)) pos Hpos) as [old Hold].
  unfold bind, heap_store, node_update. rewrite Hold. simpl. rewrite Hna.
  reflexivity.
Qed.

Lemma spec_weight_at_eq m i :
  spec_weight_at i m
  = match slot_weight m i with Some w => Ret w m | None => Fault end.
Proof.
  unfold spec_weight_at, slot_weight, bind, heap_load, node_load, table_load,
    fault.
  destruct (array_get (mh_heap (minheap m)) i) as [[b|]|]; try reflexivity.
  destruct (array_get (ht_nodes (hashintree m)) b); reflexivity.
Qed.

Lemma smaller_child_eq m l r :
  smaller_child isBetterThan l r m
  = if r <? mh_size (minheap m) then
      match slot_weight m l, slot_weight m r with
      | Some wl, Some wr => Ret (if isBetterThan wr wl then r else l) m
      | _, _ => Fault
      end
    else Ret l m.
Proof.
  unfold smaller_child, slot_weight, bind, get_size, heap_load, node_load,
    table_load, fault, ret.
  destruct (r <? mh_size (minheap m)); [|reflexivity].
  repeat (step_load; simplify_eq/=); reflexivity.
Qed.

Lemma spec_better_child_eq m pos :
  spec_better_child isBetterThan pos m
  = if right_child_index pos <? mh_size (minheap m) then
      match slot_weight m (left_child_index pos),
            slot_weight m (right_child_index pos) with
      | Some wl, Some wr =>
          Ret (if isBetterThan wr wl then right_child_index pos
               else left_child_index pos) m
      | _, _ => Fault
      end
    else Ret (left_child_index pos) m.
Proof.
  unfold spec_better_child, bind, get_size.
  destruct (_ <? _); [|reflexivity].
  rewrite spec_weight_at_eq.
  destruct (slot_weight m (left_child_index pos)); [|reflexivity].
  rewrite spec_weight_at_eq.
  destruct (slot_weight m (right_child_index pos)); reflexivity.
Qed.

Lemma bind_smaller_child {B} l r (k : Z -> M K W B) m :
  bind (smaller_child isBetterThan l r) k m
  = if r <? mh_size (minheap m) then
      match slot_weight m l, slot_weight m r with
      | Some wl, Some wr => k (if isBetterThan wr wl then r else l) m
      | _, _ => Fault
      end
    else k l m.
Proof.
  unfold bind at 1. rewrite smaller_child_eq.
  destruct (r <? mh_size (minheap m)); [|reflexivity].
  destruct (slot_weight m l), (slot_weight m r); reflexivity.
Qed.

Lemma bind_better_child {B} pos (k : Z -> M K W B) m :
  bind (spec_better_child isBetterThan pos) k m
  = if right_child_index pos <? mh_size (minheap m) then
      match slot_weight m (left_child_index pos),
            slot_weight m (right_child_index pos) with
      | Some wl, Some wr =>
          k (if isBetterThan wr wl then right_child_index pos
             else left_child_index pos) m
      | _, _ => Fault
      end
    else k (left_child_index pos) m.
Proof.
  unfold bind at 1. rewrite spec_better_child_eq.
  destruct (right_child_index pos <? mh_size (minheap m)); [|reflexivity].
  destruct (slot_weight m (left_child_index pos)),
    (slot_weight m (right_child_index pos)); reflexivity.
Qed.

Lemma slot_weight_seated_ne m pos a i :
  0 <= pos -> 0 <= a -> i <> pos ->
  slot_weight (seated pos a m) i = slot_weight m i.
Proof.
  intros Hpos Ha Hne. unfold slot_weight, seated. simpl.
  rewrite array_get_insert_ne by congruence.
  destruct (array_get (mh_heap (minheap m)) i) as [[b|]|]; try reflexivity.
  rewrite array_get_alter by assumption.
  destruct (decide (a = b)); [|reflexivity].
  destruct (array_get (ht_nodes (hashintree m)) b); reflexivity.
Qed.

Lemma slot_weight_seated_eq m pos a :
  0 <= pos < Z.of_nat (length (mh_heap (minheap m))) -> 0 <= a ->
  slot_weight (seated pos a m) pos
  = weight <$> array_get (ht_nodes (hashintree m)) a.
Proof.
  intros Hpos Ha. unfold slot_weight, seated. simpl.
  rewrite array_get_insert_eq by assumption.
  rewrite array_get_alter by assumption.
  destruct (decide (a = a)); [|congruence].
  destruct (array_get (ht_nodes (hashintree m)) a); reflexivity.
Qed.

Lemma spec_sift_down_S fuel pos m :
  spec_sift_down (S fuel) isBetterThan pos m
  = if left_child_index pos <? mh_size (minheap m) then
      (child <- spec_better_child isBetterThan pos ;;
       wc <- spec_weight_at child ;;
       wp <- spec_weight_at pos ;;
       if isBetterThan wc wp then
         spec_swap pos child ;;;
         spec_sift_down fuel isBetterThan child
       else ret tt) m
    else Ret tt m.
Proof.
  simpl. unfold bind at 1. unfold get_size.
  destruct (left_child_index pos <? mh_size (minheap m)); reflexivity.
Qed.

Lemma bubble_down_S fuel cn pos m :
  bubble_down (S fuel) isBetterThan cn pos m
  = if left_child_index pos <? mh_size (minheap m) then
      (child <- smaller_child isBetterThan (left_child_index pos)
                  (right_child_index pos) ;;
       s <- heap_load child ;;
       sn <- node_load s ;;
       cnn <- node_load cn ;;
       if isBetterThan (weight sn) (weight cnn) then
         node_update s (set_heapIndex pos) ;;;
         s' <- heap_load child ;;
         heap_store pos s' ;;;
         bubble_down fuel isBetterThan cn child
       else
         heap_store pos cn ;;;
         node_update cn (set_heapIndex pos)) m
    else (heap_store pos cn ;;; node_update cn (set_heapIndex pos)) m.
Proof.
  unfold bubble_down. simpl bubble_down_loop.
  rewrite bind_assoc. unfold bind at 1. unfold get_size.
  destruct (left_child_index pos <? mh_size (minheap m)); [|reflexivity].
  do 4 (rewrite bind_assoc; apply bind_ext; intros ? ?).
  destruct (isBetterThan _ _); [|reflexivity].
  do 3 (rewrite bind_assoc; apply bind_ext; intros ? ?).
  reflexivity.
Qed.

(** One round of the loop against one swap. *)
Lemma bubble_down_round a fuel pos c m :
  (forall m',
     mh_size (minheap m') <= Z.of_nat (length (mh_heap (minheap m'))) ->
     Z.of_nat (length (mh_heap (minheap m'))) < half_modulus ->
     0 <= c < Z.of_nat (length (mh_heap (minheap m'))) ->
     is_Some (array_get (ht_nodes (hashintree m')) a) ->
     bubble_down fuel isBetterThan (Some a) c m'
     = spec_sift_down fuel isBetterThan c (seated c a m')) ->
  mh_size (minheap m) <= Z.of_nat (length (mh_heap (minheap m))) ->
  Z.of_nat (length (mh_heap (minheap m))) < half_modulus ->
  0 <= pos < c -> c < mh_size (minheap m) ->
  is_Some (array_get (ht_nodes (hashintree m)) a) ->
  (s <- heap_load c ;;
   sn <- node_load s ;;
   cnn <- node_load (Some a) ;;
   if isBetterThan (weight sn) (weight cnn) then
     node_update s (set_heapIndex pos) ;;;
     s' <- heap_load c ;;
     heap_store pos s' ;;;
     bubble_down fuel isBetterThan (Some a) c
   else
     heap_store pos (Some a) ;;;
     node_update (Some a) (set_heapIndex pos)) m
  = (wc <- spec_weight_at c ;;
     wp <- spec_weight_at pos ;;
     if isBetterThan wc wp then
       spec_swap pos c ;;;
       spec_sift_down fuel isBetterThan c
     else ret tt) (seated pos a m).
Proof.
  intros IH Hsz Hlen Hpos Hc [na Hna].
  pose proof (array_get_Some _ _ _ Hna) as Ha.
  assert (Hposb : 0 <= pos < Z.of_nat (length (mh_heap (minheap m)))) by lia.
  rewrite bind_weight_at, slot_weight_seated_ne by lia.
  rewrite bind_heap_load. unfold slot_weight.
  destruct (array_get (mh_heap (minheap m)) c) as [[b|]|] eqn:Hcb;
    [|reflexivity|reflexivity].
  rewrite bind_node_load.
  destruct (array_get (ht_nodes (hashintree m)) b) as [nb|] eqn:Hnb;
    [|reflexivity].
  simpl fmap. cbv iota beta.
  pose proof (array_get_Some _ _ _ Hnb) as Hb.
  rewrite bind_node_load, Hna.
  rewrite bind_weight_at, slot_weight_seated_eq by lia.
  rewrite Hna. simpl fmap. cbv iota beta.
  destruct (isBetterThan (weight nb) (weight na)).
  2:{ apply seat_record; [lia | exists na; exact Hna]. }
  rewrite bind_node_update, Hnb.
  rewrite bind_heap_load. simpl mh_heap. rewrite Hcb.
  rewrite bind_heap_store. simpl mh_heap.
  destruct (array_get_lt (mh_heap (minheap m)) pos Hposb) as [old Hold].
  rewrite Hold.
  rewrite IH; simpl; rewrite ?length_insert, ?length_alter;
    [|assumption|assumption|lia|].
  2:{ rewrite array_get_alter by lia.
      destruct (decide (b = a)); rewrite Hna; eexists; reflexivity. }
  unfold spec_swap.
  rewrite !bind_assoc, bind_heap_load. simpl mh_heap.
  rewrite array_get_insert_eq by assumption. cbv iota beta.
  rewrite !bind_assoc, bind_heap_load. simpl mh_heap.
  rewrite array_get_insert_ne, Hcb by lia. cbv iota beta.
  rewrite !bind_assoc, bind_heap_store. simpl mh_heap.
  rewrite array_get_insert_eq by assumption. cbv iota beta.
  rewrite !bind_assoc, bind_heap_store. simpl mh_heap.
  rewrite array_get_insert_ne, array_get_insert_ne, Hcb by lia.
  cbv iota beta.
  rewrite !bind_assoc, bind_node_update. simpl ht_nodes.
  rewrite array_get_alter by lia.
  destruct (decide (a = b)) as [Hab|Hab]; rewrite Hnb; simpl fmap;
    cbv iota beta;
    rewrite bind_node_update; simpl ht_nodes;
    rewrite array_get_alter, array_get_alter by lia;
    destruct (decide (b = a)); try congruence;
    destruct (decide (a = a)); try congruence;
    rewrite Hna; simpl fmap; cbv iota beta;
    f_equal; unfold seated, with_heap, with_nodes; simpl;
    rewrite alter_heapIndex_absorb, list_insert_insert_eq; reflexivity.
Qed.

(** The loop that carries the replacement down a chain of holes leaves
    the memory that seating the replacement first and swapping it down
    leaves. *)
Lemma bubble_down_refines a : forall fuel pos m,
  mh_size (minheap m) <= Z.of_nat (length (mh_heap (minheap m))) ->
  Z.of_nat (length (mh_heap (minheap m))) < half_modulus ->
  0 <= pos < Z.of_nat (length (mh_heap (minheap m))) ->
  is_Some (array_get (ht_nodes (hashintree m)) a) ->
  bubble_down fuel isBetterThan (Some a) pos m
  = spec_sift_down fuel isBetterThan pos (seated pos a m).
Proof.
  induction fuel as [|fuel IH]; intros pos m Hsz Hlen Hpos Hvalid;
    [reflexivity|].
  destruct (children_above pos ltac:(lia) ltac:(lia)) as [Hl Hr].
  rewrite bubble_down_S, spec_sift_down_S.
  change (mh_size (minheap (seated pos a m))) with (mh_size (minheap m)).
  destruct (left_child_index pos <? mh_size (minheap m)) eqn:Elt;
    [|apply seat_record; assumption].
  apply Z.ltb_lt in Elt.
  destruct Hvalid as [na Hna]. pose proof (array_get_Some _ _ _ Hna) as Ha.
  rewrite bind_smaller_child, bind_better_child.
  change (mh_size (minheap (seated pos a m))) with (mh_size (minheap m)).
  rewrite !slot_weight_seated_ne by lia.
  destruct (right_child_index pos <? mh_size (minheap m)) eqn:Ert.
  - apply Z.ltb_lt in Ert.
    destruct (slot_weight m (left_child_index pos)) as [wl|]; [|reflexivity].
    destruct (slot_weight m (right_child_index pos)) as [wr|]; [|reflexivity].
    destruct (isBetterThan wr wl);
      (apply bubble_down_round;
       [intros; apply IH; assumption | assumption | assumption | lia | lia
       | exists na; exact Hna]).
  - apply bubble_down_round;
      [intros; apply IH; assumption | assumption | assumption | lia | lia
      | exists na; exact Hna].
Qed.

(** The memory with the record [a] seated in slot [pos]. *)
Lemma seated_valid pos a m :
  0 <= pos < Z.of_nat (length (mh_heap (minheap m))) ->
  0 <= a < Z.of_nat (length (ht_nodes (hashintree m))) ->
  (forall i, 0 <= i < mh_size (minheap m) -> i <> pos ->
             slot_valid m i = true) ->
  mh_size (minheap (seated pos a m)) = mh_size (minheap m)
  /\ length (mh_heap (minheap (seated pos a m)))
     = length (mh_heap (minheap m))
  /\ length (ht_nodes (hashintree (seated pos a m)))
     = length (ht_nodes (hashintree m))
  /\ forall i, 0 <= i < mh_size (minheap m) ->
               slot_valid (seated pos a m) i = true.
Proof.
  intros Hpos Ha Hslots. unfold seated. simpl.
  rewrite length_insert, length_alter.
  split; [reflexivity|]. split; [reflexivity|]. split; [reflexivity|].
  intros i Hi. apply slot_valid_iff. simpl. rewrite length_alter.
  destruct (decide (i = pos)) as [->|Hne].
  - exists a. rewrite array_get_insert_eq by assumption. auto.
  - rewrite array_get_insert_ne by lia.
    apply slot_valid_iff, Hslots; assumption.
Qed.

(** The bubble-down returns: with one unit of fuel for every slot from
    [pos] to the end of the heap, on a heap whose other resident slots point
    to records. *)
Lemma bubble_down_total a : forall fuel pos m,
  mh_size (minheap m) <= Z.of_nat (length (mh_heap (minheap m))) ->
  Z.of_nat (length (mh_heap (minheap m))) < half_modulus ->
  0 <= pos < mh_size (minheap m) ->
  (forall i, 0 <= i < mh_size (minheap m) -> i <> pos ->
             slot_valid m i = true) ->
  0 <= a < Z.of_nat (length (ht_nodes (hashintree m))) ->
  mh_size (minheap m) - pos <= Z.of_nat fuel ->
  exists m',
    bubble_down fuel isBetterThan (Some a) pos m = Ret tt m'
    /\ mh_size (minheap m') = mh_size (minheap m)
    /\ length (mh_heap (minheap m')) = length (mh_heap (minheap m))
    /\ length (ht_nodes (hashintree m')) = length (ht_nodes (hashintree m))
    /\ forall i, 0 <= i < mh_size (minheap m) -> slot_valid m' i = true.
Proof.
  induction fuel as [|fuel IH]; intros pos m Hsz Hlen Hpos Hslots Ha Hfuel;
    [lia|].
  destruct (children_above pos ltac:(lia) ltac:(lia)) as [Hl Hr].
  destruct (array_get_lt _ _ Ha) as [na Hna].
  assert (Hposb : 0 <= pos < Z.of_nat (length (mh_heap (minheap m))))
    by lia.
  destruct (array_get_lt _ _ Hposb) as [old Hold].
  assert (Hstop : exists m',
    (heap_store pos (Some a) ;;; node_update (Some a) (set_heapIndex pos)) m
    = Ret tt m'
    /\ mh_size (minheap m') = mh_size (minheap m)
    /\ length (mh_heap (minheap m')) = length (mh_heap (minheap m))
    /\ length (ht_nodes (hashintree m')) = length (ht_nodes (hashintree m))
    /\ forall i, 0 <= i < mh_size (minheap m) -> slot_valid m' i = true).
  { exists (seated pos a m). split.
    - apply seat_record; [assumption | exists na; exact Hna].
    - apply seated_valid; assumption. }
  rewrite bubble_down_S.
  destruct (left_child_index pos <? mh_size (minheap m)) eqn:Elt;
    [|exact Hstop].
  apply Z.ltb_lt in Elt.
  assert (Hround : forall c, pos < c < mh_size (minheap m) -> exists m',
    (s <- heap_load c ;;
     sn <- node_load s ;;
     cnn <- node_load (Some a) ;;
     if isBetterThan (weight sn) (weight cnn) then
       node_update s (set_heapIndex pos) ;;;
       s' <- heap_load c ;;
       heap_store pos s' ;;;
       bubble_down fuel isBetterThan (Some a) c
     else
       heap_store pos (Some a) ;;;
       node_update (Some a) (set_heapIndex pos)) m = Ret tt m'
    /\ mh_size (minheap m') = mh_size (minheap m)
    /\ length (mh_heap (minheap m')) = length (mh_heap (minheap m))
    /\ length (ht_nodes (hashintree m')) = length (ht_nodes (hashintree m))
    /\ forall i, 0 <= i < mh_size (minheap m) -> slot_valid m' i = true).
  { intros c Hc.
    destruct (slot_valid_spec m c (Hslots c ltac:(lia) ltac:(lia)))
      as (b & nb & Hcb & Hnb).
    pose proof (array_get_Some _ _ _ Hnb) as Hb.
    rewrite bind_heap_load, Hcb, bind_node_load, Hnb, bind_node_load, Hna.
    destruct (isBetterThan (weight nb) (weight na)); [|exact Hstop].
    rewrite bind_node_update, Hnb, bind_heap_load. simpl mh_heap.
    rewrite Hcb, bind_heap_store. simpl mh_heap. rewrite Hold.
    destruct (IH c
      (with_heap (<[Z.to_nat pos:=Some b]> (mh_heap (minheap m)))
         (with_nodes
            (alter (set_heapIndex pos) (Z.to_nat b) (ht_nodes (hashintree m)))
            m)))
      as (m' & Hrun & Hsize & Hlh & Hln & Hv);
      simpl; rewrite ?length_insert, ?length_alter; try assumption; try lia.
    - intros i Hi Hne. apply slot_valid_iff. simpl. rewrite length_alter.
      destruct (decide (i = pos)) as [->|Hne'].
      + exists b. rewrite array_get_insert_eq by assumption. auto.
      + rewrite array_get_insert_ne by lia.
        apply slot_valid_iff, Hslots; assumption.
    - exists m'. split; [exact Hrun|].
      simpl in Hsize, Hlh, Hln, Hv.
      rewrite ?length_insert, ?length_alter in *. auto. }
  rewrite bind_smaller_child.
  destruct (right_child_index pos <? mh_size (minheap m)) eqn:Ert.
  - apply Z.ltb_lt in Ert.
    destruct (slot_valid_weight m (left_child_index pos)
                (Hslots (left_child_index pos) ltac:(lia) ltac:(lia)))
      as [wl ->].
    destruct (slot_valid_weight m (right_child_index pos)
                (Hslots (right_child_index pos) ltac:(lia) ltac:(lia)))
      as [wr ->].
    destruct (isBetterThan wr wl); apply Hround; lia.
  - apply Hround; lia.
Qed.

(** The sift-down inside [MinHeap_pluck_min] leaves the memory that the
    specification's sift-down leaves, which at every level compares the
    replacement with its children, takes the right child only when it is
    better than the left one (the left one on a tie), and swaps only while
    that child is better than the replacement; and it returns, given fuel
    for the slots below [pos]. *)
Lemma bubble_down_follows_sift_down fuel cn pos m :
  mh_size (minheap m) <= Z.of_nat (length (mh_heap (minheap m))) ->
  Z.of_nat (length (mh_heap (minheap m))) < half_modulus ->
  0 <= pos < Z.of_nat (length (mh_heap (minheap m))) ->
  ptr_valid m cn = true ->
  bubble_down fuel isBetterThan cn pos m
  = seat_then_sift fuel isBetterThan cn pos m
  /\ (pos < mh_size (minheap m) ->
      (forall i, 0 <= i < mh_size (minheap m) -> i <> pos ->
                 slot_valid m i = true) ->
      mh_size (minheap m) - pos <= Z.of_nat fuel ->
      exists m', bubble_down fuel isBetterThan cn pos m = Ret tt m').
Proof.
  intros Hsz Hlen Hpos Hcn.
  apply ptr_valid_spec in Hcn. destruct Hcn as (a & na & -> & Hna).
  split.
  - rewrite bubble_down_refines by (try assumption; exists na; exact Hna).
    destruct (array_get_lt _ _ Hpos) as [old Hold].
    unfold seat_then_sift.
    rewrite bind_heap_store, Hold, bind_node_update. simpl ht_nodes.
    rewrite Hna. reflexivity.
  - intros Hlt Hslots Hfuel.
    destruct (bubble_down_total a fuel pos m) as (m' & Hrun & _);
      try assumption; try lia.
    + eapply array_get_Some; eassumption.
    + exists m'. exact Hrun.
Qed.

(** C6: on a well-formed heap [MinHeap_pluck_min] does what the
    specification's [extract_min] does (save the root, move the last
    record into the root slot, shrink by one, sift down only if records
    remain, return the saved root).  On an empty heap it returns [NULL] and
    changes nothing; otherwise it returns the record that was in the root
    slot, in a heap one smaller and still well-formed. *)
Theorem pluck_min_follows_extract_min m :
  heap_wf m = true ->
  MinHeap_pluck_min isBetterThan m = spec_extract_min isBetterThan m
  /\ (mh_size (minheap m) = 0 ->
      MinHeap_pluck_min isBetterThan m = Ret None m)
  /\ (0 < mh_size (minheap m) ->
      exists root m',
        array_get (mh_heap (minheap m)) 0 = Some root
        /\ MinHeap_pluck_min isBetterThan m = Ret root m'
        /\ mh_size (minheap m') = mh_size (minheap m) - 1
        /\ heap_wf m' = true).
Proof.
  intros Hwf. apply heap_wf_spec in Hwf. destruct Hwf as (Hsz & Hlen & Hslots).
  unfold MinHeap_pluck_min, spec_extract_min.
  rewrite !bind_get_size.
  destruct (mh_size (minheap m) =? 0) eqn:E0.
  { apply Z.eqb_eq in E0. split; [reflexivity|].
    split; [reflexivity|]. lia. }
  apply Z.eqb_neq in E0.
  assert (Hsize : 0 < mh_size (minheap m)) by lia.
  destruct (slot_valid_spec m 0 (Hslots 0 ltac:(lia)))
    as (r & nr & Hroot & Hnr).
  destruct (slot_valid_spec m (mh_size (minheap m) - 1)
              (Hslots (mh_size (minheap m) - 1) ltac:(lia)))
    as (a & na & Hlast & Hna).
  pose proof (array_get_Some _ _ _ Hna) as Ha.
  assert (H63 : half_modulus = 9223372036854775808) by reflexivity.
  rewrite (wrap_small (mh_size (minheap m) - 1))
    by (rewrite size_modulus_eq; lia).
  rewrite !bind_heap_load, Hroot.
  rewrite bind_put_size, bind_get_size. simpl mh_size.
  rewrite bind_heap_load. simpl mh_heap. rewrite Hlast.
  rewrite bind_heap_store. simpl mh_heap. rewrite Hlast.
  rewrite bind_heap_load, Hlast, bind_heap_store, Hroot.
  rewrite bind_heap_store. simpl mh_heap.
  match goal with
  | |- context [match array_get ?l ?i with _ => _ end] =>
      destruct (array_get_lt l i) as [x Hx];
        [rewrite length_insert; lia | rewrite Hx; clear x Hx]
  end.
  rewrite bind_put_size.
  match goal with |- _ ?st = _ /\ _ => set (m1 := st) end.
  destruct (mh_size (minheap m) - 1 =? 0) eqn:E1.
  { apply Z.eqb_eq in E1.
    match goal with
    | |- _ = ret _ ?st /\ _ =>
        assert (Hsame : st = m1)
          by (subst m1; rewrite E1; unfold with_size, with_heap; simpl;
              rewrite list_insert_insert_eq; reflexivity);
        rewrite Hsame
    end.
    split; [reflexivity|]. split; [lia|].
    intros _. exists (Some r), m1. split; [reflexivity|].
    split; [reflexivity|]. split; [reflexivity|].
    apply heap_wf_iff. subst m1. simpl. rewrite length_insert.
    repeat split; try lia. }
  apply Z.eqb_neq in E1.
  assert (Hm1 :
    mh_size (minheap m1) <= Z.of_nat (length (mh_heap (minheap m1)))
    /\ Z.of_nat (length (mh_heap (minheap m1))) < half_modulus
    /\ 0 <= 0 < mh_size (minheap m1)
    /\ 0 <= a < Z.of_nat (length (ht_nodes (hashintree m1)))).
  { subst m1. simpl. rewrite length_insert. lia. }
  destruct Hm1 as (Hsz1 & Hlen1 & Hpos1 & Ha1).
  destruct (bubble_down_total a (S (Z.to_nat (mh_size (minheap m) - 1))) 0 m1)
    as (m' & Hrun & Hsize' & Hlh' & _ & Hvalid'); try assumption.
  { intros i Hi Hne. apply slot_valid_iff. subst m1. simpl in *.
    rewrite array_get_insert_ne by lia.
    apply slot_valid_iff, Hslots. lia. }
  { subst m1. simpl. lia. }
  match goal with
  | |- ?code = _ /\ _ =>
      assert (Hcode : code = Ret (Some r) m')
        by (unfold bind; rewrite Hrun; reflexivity)
  end.
  rewrite Hcode. split.
  - rewrite bind_node_update. simpl ht_nodes. rewrite Hna.
    match goal with
    | |- _ = bind _ _ ?st =>
        assert (Hseated : st = seated 0 a m1)
          by (subst m1; unfold seated, with_nodes, with_size, with_heap;
              simpl; rewrite list_insert_insert_ne by lia; reflexivity);
        rewrite Hseated
    end.
    rewrite <- Hcode. unfold bind.
    rewrite bubble_down_refines; try assumption; try lia.
    + reflexivity.
    + apply array_get_lt. assumption.
  - split; [lia|]. intros _. exists (Some r), m'.
    split; [reflexivity|]. split; [reflexivity|].
    split; [rewrite Hsize'; reflexivity|].
    apply heap_wf_iff. rewrite Hsize', Hlh'. subst m1. simpl.
    rewrite length_insert. simpl in Hvalid'.
    repeat split; try lia. exact Hvalid'.
Qed.

End SiftDown.

Lemma pluck_min_follows_extract_min_witness :
  MinHeap_pluck_min IntClient.isBetterThan IntClient.four_heap
  = spec_extract_min IntClient.isBetterThan IntClient.four_heap
  /\ exists root m',
       array_get (mh_heap (minheap IntClient.four_heap)) 0 = Some root
       /\ MinHeap_pluck_min IntClient.isBetterThan IntClient.four_heap
          = Ret root m'
       /\ mh_size (minheap m') = mh_size (minheap IntClient.four_heap) - 1
       /\ heap_wf m' = true.
Proof.
  destruct (pluck_min_follows_extract_min IntClient.isBetterThan
              IntClient.four_heap) as (Hsame & _ & Hret).
  - reflexivity.
  - split; [exact Hsame|]. apply Hret. simpl. lia.
Defined.

(** ** A run on a source without edges *)

Section LoneSource.

Context {K W : Type}.
Implicit Types (m : Mem K W) (p cn : ptr).
Variable isBetterThan : W -> W -> bool.

(** The first record enters an empty heap, provided its [heapIndex]
    already reads 0. *)
Lemma update_key_first m a (na : MinHeapNode K W) :
  mh_size (minheap m) = 0 ->
  0 < mh_capacity (minheap m) ->
  0 < Z.of_nat (length (mh_heap (minheap m))) ->
  array_get (ht_nodes (hashintree m)) a = Some na ->
  heapIndex na = 0 ->
  MinHeap_update_key (Some a) true isBetterThan m
  = Ret tt (seated 0 a
              (with_size 1
                 (with_heap (<[Z.to_nat 0 := Some a]> (mh_heap (minheap m)))
                    m))).
Proof.
  intros Hsize Hcap Hlen Hna Hidx.
  destruct (array_get_lt (mh_heap (minheap m)) 0 ltac:(lia)) as [old Hold].
  unfold MinHeap_update_key.
  rewrite ?bind_assoc, bind_get_size, ?bind_assoc, bind_get_capacity.
  rewrite Hsize.
  destruct (0 =? mh_capacity (minheap m)) eqn:E; [lia|].
  rewrite ?bind_assoc, bind_heap_store, Hold.
  rewrite ?bind_assoc, bind_put_size.
  change (wrap (0 + 1)) with 1.
  rewrite bind_node_load. simpl ht_nodes. rewrite Hna, Hidx.
  unfold MinHeap_bubble_up.
  rewrite bind_heap_load. simpl mh_heap.
  rewrite array_get_insert_eq by lia.
  unfold bubble_up_from.
  change (Z.to_nat 0) with 0%nat. simpl bubble_up_loop.
  rewrite bind_ret, bind_node_update. simpl ht_nodes. rewrite Hna.
  unfold heap_store. simpl mh_heap.
  change 0%nat with (Z.to_nat 0).
  rewrite array_get_insert_eq by lia.
  reflexivity.
Qed.

Lemma pluck_min_single m p :
  mh_size (minheap m) = 1 ->
  array_get (mh_heap (minheap m)) 0 = Some p ->
  MinHeap_pluck_min isBetterThan m
  = Ret p (with_heap (<[Z.to_nat 0 := None]> (mh_heap (minheap m)))
             (with_size 0 m)).
Proof.
  intros Hsize Hroot. unfold MinHeap_pluck_min.
  rewrite bind_get_size, Hsize. change (1 =? 0) with false. cbv iota.
  rewrite bind_heap_load, Hroot, bind_put_size, bind_get_size.
  simpl mh_size. change (wrap (1 - 1)) with 0.
  rewrite bind_heap_load. simpl mh_heap. rewrite Hroot.
  rewrite bind_heap_store. simpl mh_heap. rewrite Hroot.
  reflexivity.
Qed.

Lemma pluck_min_empty m :
  mh_size (minheap m) = 0 -> MinHeap_pluck_min isBetterThan m = Ret None m.
Proof.
  intros Hsize. unfold MinHeap_pluck_min.
  rewrite bind_get_size, Hsize. reflexivity.
Qed.

Lemma array_get_create (alloc : Z -> MinHeapNode K W) size i :
  0 <= i < size ->
  array_get (ht_nodes (HashInTree_create alloc size)) i
  = Some (set_data None (alloc i)).
Proof.
  intros Hi. unfold array_get, HashInTree_create. simpl.
  destruct (0 <=? i) eqn:E; [|lia].
  rewrite list_lookup_fmap, lookup_seqZ_lt by lia. simpl.
  rewrite Z2Nat.id by lia. reflexivity.
Qed.

Lemma create_all_empty (alloc : Z -> MinHeapNode K W) size j n :
  ht_nodes (HashInTree_create alloc size) !! j = Some n -> data n = None.
Proof.
  unfold HashInTree_create. simpl. rewrite list_lookup_fmap.
  destruct (seqZ 0 size !! j); simpl; [|discriminate].
  intros [= <-]. reflexivity.
Qed.

(** The whole run from any memory with an empty heap that has room, an
    empty seat for the source whose [heapIndex] reads 0, and a callback
    that does nothing. *)
Lemma dijkstra_body_lone_source m fuel (sourceData : K) (sourceWeight : W)
    hashfunc isEqual (send_neighbors : ptr -> M K W unit)
    (n0 : MinHeapNode K W) :
  array_get (ht_nodes (hashintree m))
    (hashfunc (ht_size (hashintree m)) sourceData) = Some n0 ->
  data n0 = None ->
  heapIndex n0 = 0 ->
  mh_size (minheap m) = 0 ->
  0 < mh_capacity (minheap m) ->
  0 < Z.of_nat (length (mh_heap (minheap m))) ->
  (forall p m', send_neighbors p m' = Ret tt m') ->
  (2 <= fuel)%nat ->
  exists m',
    Dijkstra_body fuel sourceData sourceWeight hashfunc isEqual isBetterThan
      send_neighbors m
    = Ret (mkHashInTree (ht_length (hashintree m)) (ht_size (hashintree m))
             (alter (set_heapIndex 0)
                (Z.to_nat (hashfunc (ht_size (hashintree m)) sourceData))
                (alter (set_parent None)
                   (Z.to_nat (hashfunc (ht_size (hashintree m)) sourceData))
                   (alter (set_weight sourceWeight)
                      (Z.to_nat (hashfunc (ht_size (hashintree m)) sourceData))
                      (alter (set_data (Some sourceData))
                         (Z.to_nat
                            (hashfunc (ht_size (hashintree m)) sourceData))
                         (ht_nodes (hashintree m)))))))
        m'.
Proof.
  set (h := hashfunc (ht_size (hashintree m)) sourceData).
  intros Hseat Hempty Hidx Hsize Hcap Hlen Hsend Hfuel.
  pose proof (array_get_Some _ _ _ Hseat) as Hh.
  destruct fuel as [|[|fuel]]; [lia|lia|].
  unfold Dijkstra_body, HashInTree_find_seat.
  rewrite ?bind_assoc, bind_get_table_size. fold h.
  simpl find_seat_loop.
  rewrite ?bind_assoc, bind_table_load, Hseat.
  unfold seat_fits at 1. rewrite Hempty.
  rewrite bind_ret.
  rewrite bind_node_update, Hseat.
  rewrite bind_node_update. simpl ht_nodes.
  rewrite array_get_alter, Hseat by lia.
  destruct (decide (h = h)) as [_|]; [|congruence]. simpl fmap. cbv iota.
  rewrite bind_node_update. simpl ht_nodes.
  rewrite !array_get_alter, Hseat by lia.
  destruct (decide (h = h)) as [_|]; [|congruence]. simpl fmap. cbv iota.
  match goal with
  | |- context [bind (MinHeap_update_key _ _ _) _ ?st] => set (m1 := st)
  end.
  assert (Hna : array_get (ht_nodes (hashintree m1)) h
                = Some (set_parent None
                          (set_weight sourceWeight
                             (set_data (Some sourceData) n0)))).
  { subst m1. simpl. rewrite !array_get_alter, Hseat by lia.
    destruct (decide (h = h)) as [_|]; [|congruence]. reflexivity. }
  rewrite (bind_Ret _ _ _ _ _
             (update_key_first m1 h _ Hsize Hcap Hlen Hna Hidx)).
  simpl Dijkstra_loop.
  rewrite ?bind_assoc.
  match goal with
  | |- context [bind (MinHeap_pluck_min _) _ ?st] => set (m2 := st)
  end.
  assert (Hroot : array_get (mh_heap (minheap m2)) 0 = Some (Some h)).
  { subst m2. simpl. rewrite array_get_insert_eq; [reflexivity|].
    rewrite length_insert. lia. }
  rewrite (bind_Ret _ _ _ _ _
             (pluck_min_single m2 (Some h) eq_refl Hroot)).
  rewrite ?bind_assoc.
  match goal with
  | |- context [bind (send_neighbors ?p) ?k ?st] =>
      rewrite (bind_Ret (send_neighbors p) k st tt st (Hsend p st))
  end.
  rewrite ?bind_assoc.
  match goal with
  | |- context [bind (MinHeap_pluck_min _) _ ?st] =>
      rewrite (bind_Ret _ _ _ _ _ (pluck_min_empty st eq_refl))
  end.
  rewrite bind_ret.
  eexists. reflexivity.
Qed.

(** Where the code does agree with the specification's Scenario A:
    declared at least one node, with a hash function that stays below the
    table size, in memory whose [heapIndex] field happens to read 0 at the
    source's seat, and with a callback that returns without touching the
    memory, the run returns a table with exactly one occupied record: the
    source key, the given weight, no predecessor. *)
Theorem dijkstra_lone_source (alloc : Z -> MinHeapNode K W) fuel
    (sourceData : K) (sourceWeight : W) total_number_of_nodes hashfunc
    isEqual (send_neighbors : ptr -> M K W unit) :
  1 <= total_number_of_nodes ->
  0 <= hashfunc (wrap (wrap (2 * total_number_of_nodes) + 1)) sourceData
    < wrap (wrap (2 * total_number_of_nodes) + 1) ->
  heapIndex
    (alloc (hashfunc (wrap (wrap (2 * total_number_of_nodes) + 1)) sourceData))
  = 0 ->
  (forall p m, send_neighbors p m = Ret tt m) ->
  (2 <= fuel)%nat ->
  exists t m',
    Dijkstra_1source_to_all_else alloc fuel sourceData sourceWeight
      total_number_of_nodes hashfunc isEqual isBetterThan send_neighbors
    = Ret t m'
    /\ occupied t = 1%nat
    /\ exists node,
         array_get (ht_nodes t)
           (hashfunc (wrap (wrap (2 * total_number_of_nodes) + 1)) sourceData)
         = Some node
         /\ data node = Some sourceData
         /\ weight node = sourceWeight
         /\ parent node = None.
Proof.
  intros Hn Hh Hidx Hsend Hfuel.
  set (size := wrap (wrap (2 * total_number_of_nodes) + 1)) in *.
  set (h := hashfunc size sourceData) in *.
  unfold Dijkstra_1source_to_all_else. fold size.
  set (m0 := mkMem (HashInTree_create alloc size)
               (MinHeap_create total_number_of_nodes)).
  pose proof (array_get_create alloc size h Hh) as Hseat.
  destruct (dijkstra_body_lone_source m0 fuel sourceData sourceWeight
              hashfunc isEqual send_neighbors (set_data None (alloc h)))
    as [m' Hrun]; try assumption; try reflexivity.
  all: try (simpl; lia).
  { simpl. rewrite length_replicate. lia. }
  rewrite Hrun. clear Hrun. eexists. exists m'.
  split; [reflexivity|].
  change (ht_size (hashintree m0)) with size. fold h.
  change (ht_nodes (hashintree m0))
    with (ht_nodes (HashInTree_create alloc size)).
  assert (Hlook : forall l : list (MinHeapNode K W),
            l !! Z.to_nat h = Some (set_data None (alloc h)) ->
            alter (set_heapIndex 0) (Z.to_nat h)
              (alter (set_parent None) (Z.to_nat h)
                 (alter (set_weight sourceWeight) (Z.to_nat h)
                    (alter (set_data (Some sourceData)) (Z.to_nat h) l)))
              !! Z.to_nat h
            = Some (mkNode (Some sourceData) sourceWeight None 0)).
  { intros l Hl. rewrite !list_lookup_alter_eq, Hl. reflexivity. }
  assert (Hnat : ht_nodes (HashInTree_create alloc size) !! Z.to_nat h
                 = Some (set_data None (alloc h))).
  { unfold array_get in Hseat. destruct (0 <=? h); [exact Hseat|discriminate]. }
  split.
  - unfold occupied. simpl ht_nodes.
    apply (filter_single _ _ (Z.to_nat h) _ (Hlook _ Hnat)).
    + eexists. reflexivity.
    + intros j y Hj Hy.
      rewrite !list_lookup_alter_ne in Hy by congruence.
      apply create_all_empty in Hy. rewrite Hy. intros [d Hd]. discriminate.
  - exists (mkNode (Some sourceData) sourceWeight None 0).
    split; [|repeat split].
    unfold array_get. destruct (0 <=? h) eqn:E; [|lia].
    simpl ht_nodes. apply Hlook, Hnat.
Qed.

End LoneSource.

(** Declared zero nodes, the run on a source without edges ends with
    [exit(2)] when the source is to enter the heap, and returns no
    table. *)
Lemma dijkstra_lone_source_without_room :
  (forall p m, (fun _ : ptr => @ret Z Z unit tt) p m = Ret tt m)
  /\ fails_fatally
       (Dijkstra_1source_to_all_else IntClient.zeroed 2 0 0 0
          IntClient.hashfunc IntClient.isEqual IntClient.isBetterThan
          (fun _ => ret tt))
  /\ ~ exists t m,
         Dijkstra_1source_to_all_else IntClient.zeroed 2 0 0 0
           IntClient.hashfunc IntClient.isEqual IntClient.isBetterThan
           (fun _ => ret tt) = Ret t m.
Proof.
  split; [reflexivity|]. split.
  - eexists. eexists. vm_compute. reflexivity.
  - intros (t & m & H). vm_compute in H. discriminate.
Qed.

(** C3 fails in the code: a run on a source without edges, declared for
    two nodes, with a callback that inserts and updates nothing, returns
    no table when the memory that [malloc] hands out for the records reads
    1 where the source's [heapIndex] field comes to lie.
    [MinHeap_update_key] does not assign the field, so the sift-up starts
    from slot 1, which holds [NULL], and dereferences it.  Everything else
    being equal, in memory that reads 0 there the run returns the table
    with the one record of the source. *)
Theorem dijkstra_lone_source_stale_index :
  (forall p m, (fun _ : ptr => @ret Z Z unit tt) p m = Ret tt m)
  /\ Dijkstra_1source_to_all_else (fun _ => mkNode None 0 None 1) 2 0 0 2
       IntClient.hashfunc IntClient.isEqual IntClient.isBetterThan
       (fun _ => ret tt) = Fault
  /\ (~ exists t m,
         Dijkstra_1source_to_all_else (fun _ => mkNode None 0 None 1) 2 0 0 2
           IntClient.hashfunc IntClient.isEqual IntClient.isBetterThan
           (fun _ => ret tt) = Ret t m)
  /\ exists t m,
       Dijkstra_1source_to_all_else (fun _ => mkNode None 0 None 0) 2 0 0 2
         IntClient.hashfunc IntClient.isEqual IntClient.isBetterThan
         (fun _ => ret tt) = Ret t m
       /\ occupied t = 1%nat
       /\ array_get (ht_nodes t) 0 = Some (mkNode (Some 0) 0 None 0).
Proof.
  split; [reflexivity|]. split; [vm_compute; reflexivity|]. split.
  - intros (t & m & H). vm_compute in H. discriminate.
  - eexists. eexists. split; [vm_compute; reflexivity|].
    split; vm_compute; reflexivity.
Qed.

Lemma dijkstra_lone_source_witness :
  exists t m',
    Dijkstra_1source_to_all_else IntClient.zeroed 2 0 0 1 IntClient.hashfunc
      IntClient.isEqual IntClient.isBetterThan (fun _ => ret tt) = Ret t m'
    /\ occupied t = 1%nat
    /\ exists node,
         array_get (ht_nodes t)
           (IntClient.hashfunc (wrap (wrap (2 * 1) + 1)) 0) = Some node
         /\ data node = Some 0 /\ weight node = 0 /\ parent node = None.
Proof.
  apply (dijkstra_lone_source IntClient.isBetterThan IntClient.zeroed 2 0 0 1
           IntClient.hashfunc IntClient.isEqual (fun _ => ret tt)).
  - lia.
  - vm_compute. split; [discriminate | reflexivity].
  - reflexivity.
  - reflexivity.
  - lia.
Defined.

(** ** The heap invariants *)

Lemma parent_index_eq i :
  1 <= i < size_modulus -> parent_index i = (i - 1) / 2.
Proof.
  intros Hi. unfold parent_index.
  rewrite wrap_small by lia.
  rewrite Z.shiftr_div_pow2 by lia. reflexivity.
Qed.

Lemma parent_index_children i pos :
  1 <= i < size_modulus ->
  parent_index i = pos <-> i = 2 * pos + 1 \/ i = 2 * pos + 2.
Proof.
  intros Hi. rewrite parent_index_eq by assumption.
  split.
  - intros <-.
    pose proof (Z.div_mod (i - 1) 2 ltac:(lia)) as Hdm.
    pose proof (Z.mod_pos_bound (i - 1) 2 ltac:(lia)) as Hb.
    lia.
  - intros [-> | ->].
    + replace (2 * pos + 1 - 1) with (pos * 2) by lia.
      apply Z.div_mul. lia.
    + replace (2 * pos + 2 - 1) with (1 + pos * 2) by lia.
      rewrite Z.div_add by lia. reflexivity.
Qed.

Section Reflection.

Context {K W : Type}.
Implicit Types (m : Mem K W).

Lemma index_consistent_iff m :
  index_consistent m = true <->
  forall i, 0 <= i < mh_size (minheap m) -> consistent_at m i.
Proof.
  unfold index_consistent. rewrite forallb_seqZ.
  split; intros H i Hi; specialize (H i ltac:(lia)).
  - unfold consistent_at.
    destruct (array_get (mh_heap (minheap m)) i) as [[a|]|] eqn:Ha;
      try discriminate.
    destruct (array_get (ht_nodes (hashintree m)) a) as [n|] eqn:Hn;
      [|discriminate].
    exists a, n. apply Z.eqb_eq in H.
    split; [reflexivity|]. split; [exact Hn|exact H].
  - destruct H as (a & n & -> & -> & Hn). apply Z.eqb_eq. exact Hn.
Qed.

Lemma heap_ordered_iff (isBetterThan : W -> W -> bool) m :
  heap_ordered isBetterThan m = true <->
  forall i, 1 <= i < mh_size (minheap m) -> ordered_at isBetterThan m i.
Proof.
  unfold heap_ordered. rewrite forallb_seqZ.
  split; intros H i Hi; specialize (H i ltac:(lia)).
  - unfold ordered_at.
    destruct (slot_weight m i) as [wi|] eqn:Hwi; [|discriminate].
    destruct (slot_weight m (parent_index i)) as [wp|] eqn:Hwp;
      [|discriminate].
    exists wi, wp. apply negb_true_iff in H.
    split; [reflexivity|]. split; [reflexivity|exact H].
  - destruct H as (wi & wp & -> & -> & Hn). rewrite Hn. reflexivity.
Qed.

Lemma consistent_at_valid m i : consistent_at m i -> slot_valid m i = true.
Proof.
  intros (a & n & Ha & Hn & _). apply slot_valid_iff.
  exists a. split; [exact Ha|]. eapply array_get_Some. eassumption.
Qed.

End Reflection.

Section Swapping.

Context {K W : Type}.
Implicit Types (m : Mem K W).

Lemma weight_alter_heapIndex (N : list (MinHeapNode K W)) i a x :
  0 <= a ->
  weight <$> array_get (alter (set_heapIndex i) (Z.to_nat a) N) x
  = weight <$> array_get N x.
Proof.
  intros Ha. rewrite array_get_alter by assumption.
  destruct (decide (a = x)); [|reflexivity].
  destruct (array_get N x); reflexivity.
Qed.

Lemma spec_swap_eq m i j a b :
  array_get (mh_heap (minheap m)) i = Some (Some a) ->
  array_get (mh_heap (minheap m)) j = Some (Some b) ->
  i <> j ->
  is_Some (array_get (ht_nodes (hashintree m)) a) ->
  is_Some (array_get (ht_nodes (hashintree m)) b) ->
  spec_swap i j m = Ret tt (swapped i j a b m).
Proof.
  intros Hi Hj Hne [na Hna] [nb Hnb].
  pose proof (array_get_Some _ _ _ Hi) as Hib.
  pose proof (array_get_Some _ _ _ Hj) as Hjb.
  pose proof (array_get_Some _ _ _ Hna) as Hab.
  pose proof (array_get_Some _ _ _ Hnb) as Hbb.
  unfold spec_swap.
  rewrite bind_heap_load, Hi, bind_heap_load, Hj, bind_heap_store, Hi.
  rewrite bind_heap_store. simpl mh_heap.
  rewrite array_get_insert_ne, Hj by lia.
  rewrite bind_node_update. simpl ht_nodes. rewrite Hnb.
  unfold node_update. simpl ht_nodes.
  rewrite array_get_alter by lia.
  destruct (decide (b = a)); rewrite Hna; reflexivity.
Qed.

Lemma swapped_size m i j a b :
  mh_size (minheap (swapped i j a b m)) = mh_size (minheap m)
  /\ length (mh_heap (minheap (swapped i j a b m)))
     = length (mh_heap (minheap m))
  /\ length (ht_nodes (hashintree (swapped i j a b m)))
     = length (ht_nodes (hashintree m)).
Proof.
  unfold swapped. simpl. rewrite !length_insert, !length_alter. auto.
Qed.

(** After the swap the two slots have exchanged their weights, and the
    other slots have kept theirs. *)
Lemma swapped_weight m i j a b k :
  array_get (mh_heap (minheap m)) i = Some (Some a) ->
  array_get (mh_heap (minheap m)) j = Some (Some b) ->
  i <> j -> 0 <= a -> 0 <= b ->
  slot_weight (swapped i j a b m) k
  = if decide (k = i) then slot_weight m j
    else if decide (k = j) then slot_weight m i
    else slot_weight m k.
Proof.
  intros Hi Hj Hne Ha Hb.
  pose proof (array_get_Some _ _ _ Hi) as Hib.
  pose proof (array_get_Some _ _ _ Hj) as Hjb.
  unfold slot_weight, swapped. simpl.
  destruct (decide (k = i)) as [->|Hki].
  - rewrite array_get_insert_ne, array_get_insert_eq by lia.
    rewrite Hj, !weight_alter_heapIndex by assumption. reflexivity.
  - destruct (decide (k = j)) as [->|Hkj].
    + rewrite array_get_insert_eq by (rewrite length_insert; lia).
      rewrite Hi, !weight_alter_heapIndex by assumption. reflexivity.
    + rewrite !array_get_insert_ne by lia.
      destruct (array_get (mh_heap (minheap m)) k) as [[x|]|];
        try reflexivity.
      rewrite !weight_alter_heapIndex by assumption. reflexivity.
Qed.

(** A swap of two resident slots keeps every resident record's
    [heapIndex] in step with its slot. *)
Lemma swapped_consistent m i j k :
  (forall l, 0 <= l < mh_size (minheap m) -> consistent_at m l) ->
  0 <= i < mh_size (minheap m) -> 0 <= j < mh_size (minheap m) ->
  i <> j -> 0 <= k < mh_size (minheap m) ->
  forall a b,
  array_get (mh_heap (minheap m)) i = Some (Some a) ->
  array_get (mh_heap (minheap m)) j = Some (Some b) ->
  consistent_at (swapped i j a b m) k.
Proof.
  intros Hcons Hi Hj Hne Hk a b Hia Hjb.
  destruct (Hcons i Hi) as (a' & na & Hia' & Hna & Hai).
  destruct (Hcons j Hj) as (b' & nb & Hjb' & Hnb & Hbj).
  assert (a' = a) by congruence. assert (b' = b) by congruence.
  subst a' b'.
  pose proof (array_get_Some _ _ _ Hia) as Hib.
  pose proof (array_get_Some _ _ _ Hjb) as Hjb2.
  pose proof (array_get_Some _ _ _ Hna) as Hab.
  pose proof (array_get_Some _ _ _ Hnb) as Hbb.
  assert (Hab_ne : a <> b) by (intros ->; congruence).
  unfold consistent_at, swapped. simpl.
  destruct (decide (k = i)) as [->|Hki].
  - exists b, (set_heapIndex i nb).
    rewrite array_get_insert_ne, array_get_insert_eq by lia.
    rewrite !array_get_alter by lia.
    destruct (decide (a = b)); [contradiction|].
    destruct (decide (b = b)); [|congruence].
    rewrite Hnb. auto.
  - destruct (decide (k = j)) as [->|Hkj].
    + exists a, (set_heapIndex j na).
      rewrite array_get_insert_eq by (rewrite length_insert; lia).
      rewrite !array_get_alter by lia.
      destruct (decide (a = a)); [|congruence].
      destruct (decide (b = a)); [congruence|].
      rewrite Hna. auto.
    + destruct (Hcons k Hk) as (x & nx & Hkx & Hnx & Hxk).
      exists x, nx.
      rewrite !array_get_insert_ne by lia.
      rewrite !array_get_alter by lia.
      destruct (decide (a = x)); [subst; congruence|].
      destruct (decide (b = x)); [subst; congruence|].
      auto.
Qed.

End Swapping.

Section SiftDownInvariants.

Context {K W : Type}.
Implicit Types (m : Mem K W).
Variable isBetterThan : W -> W -> bool.

(** The comparator is a strict order whose "not better than" is
    transitive, as a strict total order's is. *)
Hypothesis better_asym :
  forall x y, isBetterThan x y = true -> isBetterThan y x = false.
Hypothesis not_better_trans :
  forall x y z,
    isBetterThan y x = false -> isBetterThan z y = false ->
    isBetterThan z x = false.

Lemma better_irrefl x : isBetterThan x x = false.
Proof.
  destruct (isBetterThan x x) eqn:E; [|reflexivity].
  rewrite (better_asym x x E) in E. discriminate.
Qed.

Lemma consistent_at_weight m i :
  consistent_at m i -> is_Some (slot_weight m i).
Proof. intros H. apply slot_valid_weight, consistent_at_valid, H. Qed.

(** The better child of [pos], as both sift-downs choose it: it is a child
    of [pos], and no child of [pos] is better. *)
Lemma better_child_least m pos :
  0 <= pos -> pos + 1 < half_modulus ->
  mh_size (minheap m) < half_modulus ->
  left_child_index pos < mh_size (minheap m) ->
  (forall i, 0 <= i < mh_size (minheap m) -> consistent_at m i) ->
  exists c wc,
    (forall B (k : Z -> M K W B),
       bind (spec_better_child isBetterThan pos) k m = k c m)
    /\ pos < c < mh_size (minheap m)
    /\ parent_index c = pos
    /\ slot_weight m c = Some wc
    /\ forall d wd, 1 <= d < mh_size (minheap m) -> parent_index d = pos ->
                    slot_weight m d = Some wd -> isBetterThan wd wc = false.
Proof.
  intros Hpos0 Hpos Hsize Hleft Hcons.
  destruct (children_above pos Hpos0 Hpos) as [Hl Hr].
  assert (H63 : half_modulus = 9223372036854775808) by reflexivity.
  assert (Hchild : forall d, 1 <= d < mh_size (minheap m) ->
            parent_index d = pos ->
            d = left_child_index pos \/ d = right_child_index pos).
  { intros d Hd Hp. rewrite Hl, Hr.
    apply parent_index_children; [rewrite size_modulus_eq; lia|exact Hp]. }
  assert (Hpl : parent_index (left_child_index pos) = pos).
  { apply parent_index_children; [rewrite size_modulus_eq; lia|]. lia. }
  destruct (consistent_at_weight m (left_child_index pos)
              (Hcons (left_child_index pos) ltac:(lia))) as [wl Hwl].
  destruct (right_child_index pos <? mh_size (minheap m)) eqn:Ertb.
  - pose proof Ertb as Ert. apply Z.ltb_lt in Ert.
    assert (Hpr : parent_index (right_child_index pos) = pos).
    { apply parent_index_children; [rewrite size_modulus_eq; lia|]. lia. }
    destruct (consistent_at_weight m (right_child_index pos)
                (Hcons (right_child_index pos) ltac:(lia))) as [wr Hwr].
    destruct (isBetterThan wr wl) eqn:Ecmp.
    + exists (right_child_index pos), wr.
      split; [intros B k; rewrite bind_better_child, Ertb, Hwl, Hwr, Ecmp;
              reflexivity|].
      split; [lia|]. split; [exact Hpr|]. split; [exact Hwr|].
      intros d wd Hd Hp Hwd.
      destruct (Hchild d Hd Hp) as [-> | ->].
      * rewrite Hwl in Hwd. injection Hwd as <-.
        apply better_asym. exact Ecmp.
      * rewrite Hwr in Hwd. injection Hwd as <-. apply better_irrefl.
    + exists (left_child_index pos), wl.
      split; [intros B k; rewrite bind_better_child, Ertb, Hwl, Hwr, Ecmp;
              reflexivity|].
      split; [lia|]. split; [exact Hpl|]. split; [exact Hwl|].
      intros d wd Hd Hp Hwd.
      destruct (Hchild d Hd Hp) as [-> | ->].
      * rewrite Hwl in Hwd. injection Hwd as <-. apply better_irrefl.
      * rewrite Hwr in Hwd. injection Hwd as <-. exact Ecmp.
  - pose proof Ertb as Ert. apply Z.ltb_ge in Ert.
    exists (left_child_index pos), wl.
    split; [intros B k; rewrite bind_better_child, Ertb; reflexivity|].
    split; [lia|]. split; [exact Hpl|]. split; [exact Hwl|].
    intros d wd Hd Hp Hwd.
    destruct (Hchild d Hd Hp) as [-> | ->]; [|lia].
    rewrite Hwl in Hwd. injection Hwd as <-. apply better_irrefl.
Qed.

(** The swap-based sift-down from [pos] restores the heap property when
    [pos] is the only slot that may be worse than its children, and keeps
    the positions recorded. *)
Lemma spec_sift_down_restores : forall fuel pos m,
  mh_size (minheap m) <= Z.of_nat (length (mh_heap (minheap m))) ->
  Z.of_nat (length (mh_heap (minheap m))) < half_modulus ->
  0 <= pos < mh_size (minheap m) ->
  (forall i, 0 <= i < mh_size (minheap m) -> consistent_at m i) ->
  (forall i, 1 <= i < mh_size (minheap m) -> parent_index i <> pos ->
             ordered_at isBetterThan m i) ->
  (0 < pos ->
   forall c, 1 <= c < mh_size (minheap m) -> parent_index c = pos ->
   exists wg wc,
     slot_weight m (parent_index pos) = Some wg
     /\ slot_weight m c = Some wc
     /\ isBetterThan wc wg = false) ->
  mh_size (minheap m) - pos <= Z.of_nat fuel ->
  exists m',
    spec_sift_down fuel isBetterThan pos m = Ret tt m'
    /\ mh_size (minheap m') = mh_size (minheap m)
    /\ length (mh_heap (minheap m')) = length (mh_heap (minheap m))
    /\ length (ht_nodes (hashintree m')) = length (ht_nodes (hashintree m))
    /\ (forall i, 0 <= i < mh_size (minheap m) -> consistent_at m' i)
    /\ (forall i, 1 <= i < mh_size (minheap m) ->
                  ordered_at isBetterThan m' i).
Proof.
  induction fuel as [|fuel IH];
    intros pos m Hsz Hlen Hpos Hcons Hord Hgrand Hfuel; [lia|].
  assert (H63 : half_modulus = 9223372036854775808) by reflexivity.
  destruct (children_above pos ltac:(lia) ltac:(lia)) as [Hl Hr].
  rewrite spec_sift_down_S.
  destruct (left_child_index pos <? mh_size (minheap m)) eqn:Elt.
  2:{ (* a leaf *)
    apply Z.ltb_ge in Elt. exists m. repeat split; try assumption.
    intros i Hi. apply Hord; [exact Hi|]. intros Hp.
    apply parent_index_children in Hp; [|rewrite size_modulus_eq; lia].
    lia. }
  apply Z.ltb_lt in Elt.
  destruct (better_child_least m pos ltac:(lia) ltac:(lia) ltac:(lia) Elt Hcons)
    as (c & wc & Hbind & Hc & Hpc & Hwc & Hleast).
  rewrite Hbind. clear Hbind.
  destruct (consistent_at_weight m pos (Hcons pos Hpos)) as [wp Hwp].
  rewrite bind_weight_at, Hwc, bind_weight_at, Hwp.
  destruct (isBetterThan wc wp) eqn:Ecmp.
  2:{ (* order holds at [pos] *)
    exists m. repeat split; try assumption.
    intros i Hi. destruct (decide (parent_index i = pos)) as [Hp|Hp];
      [|apply Hord; assumption].
    destruct (consistent_at_weight m i (Hcons i ltac:(lia))) as [wi Hwi].
    exists wi, wp. rewrite Hp. split; [exact Hwi|]. split; [exact Hwp|].
    apply (not_better_trans wp wc wi); [exact Ecmp|].
    apply (Hleast i wi Hi Hp Hwi). }
  (* the better child moves up *)
  destruct (Hcons pos Hpos) as (a & na & Hpa & Hna & Hai).
  destruct (Hcons c ltac:(lia)) as (b & nb & Hcb & Hnb & Hbc).
  pose proof (array_get_Some _ _ _ Hna) as Hab.
  pose proof (array_get_Some _ _ _ Hnb) as Hbb.
  rewrite (bind_Ret _ _ _ _ _
             (spec_swap_eq m pos c a b Hpa Hcb ltac:(lia)
                ltac:(eexists; exact Hna) ltac:(eexists; exact Hnb))).
  destruct (swapped_size m pos c a b) as (Hs1 & Hs2 & Hs3).
  assert (Hweight : forall k,
            slot_weight (swapped pos c a b m) k
            = if decide (k = pos) then slot_weight m c
              else if decide (k = c) then slot_weight m pos
              else slot_weight m k).
  { intros k. apply swapped_weight; (assumption || lia). }
  destruct (IH c (swapped pos c a b m)) as (m' & Hrun & Hs & Hlh & Hln & Hc' & Ho');
    rewrite ?Hs1, ?Hs2, ?Hs3; try assumption; try lia.
  - intros i Hi. apply swapped_consistent; (assumption || lia).
  - (* every slot but [c] is in order with its parent *)
    intros i Hi Hp. unfold ordered_at. rewrite !Hweight.
    destruct (decide (i = pos)) as [->|Hip].
    + (* the child that moved up, against the grandparent *)
      assert (Hpos1 : 0 < pos) by lia.
      destruct (Hgrand Hpos1 c ltac:(lia) Hpc) as (wg & wc' & Hwg & Hwc' & Hle).
      pose proof (parent_index_lt pos Hpos1) as Hpp.
      destruct (decide (parent_index pos = pos)); [lia|].
      destruct (decide (parent_index pos = c)); [lia|].
      exists wc, wg. rewrite Hwc in Hwc'. injection Hwc' as <-. auto.
    + destruct (decide (i = c)) as [->|Hic].
      * (* the replacement, against the child that moved up *)
        rewrite Hpc. destruct (decide (pos = pos)); [|congruence].
        exists wp, wc. split; [exact Hwp|]. split; [exact Hwc|].
        apply better_asym. exact Ecmp.
      * destruct (decide (parent_index i = pos)) as [Hpi|Hpi].
        -- (* the other child *)
           destruct (consistent_at_weight m i (Hcons i ltac:(lia)))
             as [wi Hwi].
           exists wi, wc. split; [exact Hwi|]. split; [exact Hwc|].
           apply (Hleast i wi Hi Hpi Hwi).
        -- destruct (decide (parent_index i = c)); [contradiction|].
           apply Hord; assumption.
  - (* the child that moved up, against the children of [c] *)
    intros _ d Hd Hpd. rewrite !Hweight, Hpc.
    destruct (decide (pos = pos)); [|congruence].
    assert (Hdc : c < d).
    { apply parent_index_children in Hpd; [|rewrite size_modulus_eq; lia].
      lia. }
    destruct (decide (d = pos)); [lia|]. destruct (decide (d = c)); [lia|].
    destruct (Hord d Hd ltac:(lia)) as (wd & wc' & Hwd & Hwc' & Hle).
    rewrite Hpd, Hwc in Hwc'. injection Hwc' as <-.
    exists wc, wd. auto.
  - exists m'. rewrite Hs, Hlh, Hln. auto 10.
Qed.

End SiftDownInvariants.

Section PluckMinInvariants.

Context {K W : Type}.
Implicit Types (m : Mem K W).
Variable isBetterThan : W -> W -> bool.

Hypothesis better_asym :
  forall x y, isBetterThan x y = true -> isBetterThan y x = false.
Hypothesis not_better_trans :
  forall x y z,
    isBetterThan y x = false -> isBetterThan z y = false ->
    isBetterThan z x = false.

(** An extraction from a heap of two records or more: the last record is
    seated in the root slot and sifted down. *)
Lemma pluck_min_run m a root :
  mh_size (minheap m) <= Z.of_nat (length (mh_heap (minheap m))) ->
  Z.of_nat (length (mh_heap (minheap m))) < half_modulus ->
  1 < mh_size (minheap m) ->
  array_get (mh_heap (minheap m)) 0 = Some root ->
  array_get (mh_heap (minheap m)) (mh_size (minheap m) - 1) = Some (Some a) ->
  is_Some (array_get (ht_nodes (hashintree m)) a) ->
  MinHeap_pluck_min isBetterThan m
  = bind (spec_sift_down (S (Z.to_nat (mh_size (minheap m) - 1)))
            isBetterThan 0)
      (fun _ => ret root)
      (seated 0 a
         (with_heap
            (<[Z.to_nat (mh_size (minheap m) - 1) := None]>
               (mh_heap (minheap m)))
            (with_size (mh_size (minheap m) - 1) m))).
Proof.
  intros Hsz Hlen Hsize Hroot Hlast Hvalid.
  assert (H63 : half_modulus = 9223372036854775808) by reflexivity.
  unfold MinHeap_pluck_min.
  rewrite bind_get_size.
  destruct (mh_size (minheap m) =? 0) eqn:E0; [apply Z.eqb_eq in E0; lia|].
  rewrite (wrap_small (mh_size (minheap m) - 1))
    by (rewrite size_modulus_eq; lia).
  rewrite bind_heap_load, Hroot, bind_put_size, bind_get_size.
  simpl mh_size.
  rewrite bind_heap_load. simpl mh_heap. rewrite Hlast.
  rewrite bind_heap_store. simpl mh_heap. rewrite Hlast.
  destruct (mh_size (minheap m) - 1 =? 0) eqn:E1;
    [apply Z.eqb_eq in E1; lia|].
  unfold bind at 1. rewrite bubble_down_refines;
    simpl; rewrite ?length_insert; try assumption; try lia.
  reflexivity.
Qed.

(** [MinHeap_pluck_min] keeps a well-formed, position-consistent,
    heap-ordered heap so. *)
Theorem pluck_min_preserves_invariants m :
  heap_wf m = true ->
  index_consistent m = true ->
  heap_ordered isBetterThan m = true ->
  exists r m',
    MinHeap_pluck_min isBetterThan m = Ret r m'
    /\ heap_wf m' = true
    /\ index_consistent m' = true
    /\ heap_ordered isBetterThan m' = true.
Proof.
  intros Hwf Hidx Hord.
  apply heap_wf_iff in Hwf. destruct Hwf as (Hsz & Hlen & _).
  rewrite index_consistent_iff in Hidx. rewrite heap_ordered_iff in Hord.
  assert (H63 : half_modulus = 9223372036854775808) by reflexivity.
  destruct (decide (mh_size (minheap m) = 0)) as [E0|E0].
  { exists None, m. rewrite pluck_min_empty by exact E0.
    split; [reflexivity|].
    split; [apply heap_wf_iff; repeat split; try lia;
            intros i Hi; apply consistent_at_valid, Hidx, Hi|].
    split; [apply index_consistent_iff, Hidx|apply heap_ordered_iff, Hord]. }
  destruct (Hidx 0 ltac:(lia)) as (r & nr & Hroot & Hnr & _).
  destruct (decide (mh_size (minheap m) = 1)) as [E1|E1].
  { exists (Some r). eexists.
    split; [apply pluck_min_single; assumption|].
    split; [apply heap_wf_iff; simpl; rewrite length_insert;
            repeat split; try lia|].
    split; [apply index_consistent_iff|apply heap_ordered_iff];
      simpl; intros i Hi; lia. }
  destruct (Hidx (mh_size (minheap m) - 1) ltac:(lia))
    as (a & na & Hlast & Hna & Hai).
  pose proof (array_get_Some _ _ _ Hna) as Hab.
  rewrite (pluck_min_run m a (Some r)); try assumption;
    try lia; [|eexists; exact Hna].
  set (m1 := with_heap
               (<[Z.to_nat (mh_size (minheap m) - 1) := None]>
                  (mh_heap (minheap m)))
               (with_size (mh_size (minheap m) - 1) m)).
  assert (Hweight : forall i, 1 <= i < mh_size (minheap m) - 1 ->
            slot_weight (seated 0 a m1) i = slot_weight m i).
  { intros i Hi. rewrite slot_weight_seated_ne by lia.
    unfold slot_weight, m1. simpl.
    rewrite array_get_insert_ne by lia. reflexivity. }
  destruct (spec_sift_down_restores isBetterThan better_asym not_better_trans
              (S (Z.to_nat (mh_size (minheap m) - 1))) 0 (seated 0 a m1))
    as (m' & Hrun & Hs & Hlh & Hln & Hc' & Ho').
  - simpl. rewrite !length_insert. lia.
  - simpl. rewrite !length_insert. lia.
  - simpl. lia.
  - simpl. intros i Hi. unfold consistent_at, seated, m1. simpl.
    destruct (decide (i = 0)) as [->|Hi0].
    + exists a, (set_heapIndex 0 na).
      rewrite array_get_insert_eq by (rewrite length_insert; lia).
      rewrite array_get_alter by lia.
      destruct (decide (a = a)); [|congruence]. rewrite Hna. auto.
    + destruct (Hidx i ltac:(lia)) as (x & nx & Hx & Hnx & Hxi).
      exists x, nx. rewrite !array_get_insert_ne by lia.
      rewrite array_get_alter by lia.
      destruct (decide (a = x)) as [->|]; [|auto].
      rewrite Hna in Hnx. injection Hnx as <-. lia.
  - simpl. intros i Hi Hp.
    assert (Hpi : 1 <= parent_index i < i).
    { pose proof (parent_index_lt i ltac:(lia)). lia. }
    unfold ordered_at. rewrite !Hweight by lia.
    apply Hord. lia.
  - lia.
  - simpl. lia.
  - simpl in Hs, Hlh, Hln, Hc', Ho'. rewrite !length_insert in Hlh.
    rewrite length_alter in Hln.
    exists (Some r), m'. unfold bind. rewrite Hrun.
    split; [reflexivity|].
    split; [apply heap_wf_iff; rewrite Hs, Hlh; repeat split; try lia;
            intros i Hi; apply consistent_at_valid, Hc', Hi|].
    split; [apply index_consistent_iff|apply heap_ordered_iff];
      rewrite Hs; assumption.
Qed.

End PluckMinInvariants.

(** ** Insertion: the hole and the swaps *)

Section SiftUp.

Context {K W : Type}.
Implicit Types (m : Mem K W).
Variable isBetterThan : W -> W -> bool.

Lemma seat_record_up pos a m :
  0 <= pos < Z.of_nat (length (mh_heap (minheap m))) ->
  is_Some (array_get (ht_nodes (hashintree m)) a) ->
  (node_update (Some a) (set_heapIndex pos) ;;; heap_store pos (Some a)) m
  = Ret tt (seated pos a m).
Proof.
  intros Hpos [na Hna].
  destruct (array_get_lt (mh_heap (minheap m)) pos Hpos) as [old Hold].
  rewrite bind_node_update, Hna. unfold heap_store. simpl mh_heap.
  rewrite Hold. reflexivity.
Qed.

Lemma spec_sift_up_S fuel pos m :
  spec_sift_up (S fuel) isBetterThan pos m
  = if 0 <? pos then
      (w <- spec_weight_at pos ;;
       wp <- spec_weight_at (parent_index pos) ;;
       if isBetterThan w wp then
         spec_swap pos (parent_index pos) ;;;
         spec_sift_up fuel isBetterThan (parent_index pos)
       else ret tt) m
    else Ret tt m.
Proof. simpl. destruct (0 <? pos); reflexivity. Qed.

Lemma bubble_up_from_S fuel this_node pos m :
  bubble_up_from (S fuel) isBetterThan this_node pos m
  = if 0 <? pos then
      (tn <- node_load this_node ;;
       pp <- heap_load (parent_index pos) ;;
       pn <- node_load pp ;;
       if isBetterThan (weight tn) (weight pn) then
         node_update pp (set_heapIndex pos) ;;;
         pp' <- heap_load (parent_index pos) ;;
         heap_store pos pp' ;;;
         bubble_up_from fuel isBetterThan this_node (parent_index pos)
       else
         node_update this_node (set_heapIndex pos) ;;;
         heap_store pos this_node) m
    else (node_update this_node (set_heapIndex pos) ;;;
          heap_store pos this_node) m.
Proof.
  unfold bubble_up_from. simpl bubble_up_loop.
  destruct (0 <? pos); [|reflexivity].
  do 3 (rewrite bind_assoc; apply bind_ext; intros ? ?).
  destruct (isBetterThan _ _); [|reflexivity].
  do 3 (rewrite bind_assoc; apply bind_ext; intros ? ?).
  reflexivity.
Qed.

(** The sift-up loop, which carries the record up a chain of holes,
    leaves the memory that seating the record first and swapping it up
    leaves. *)
Lemma bubble_up_refines a : forall fuel pos m,
  0 <= pos < Z.of_nat (length (mh_heap (minheap m))) ->
  is_Some (array_get (ht_nodes (hashintree m)) a) ->
  bubble_up_from fuel isBetterThan (Some a) pos m
  = spec_sift_up fuel isBetterThan pos (seated pos a m).
Proof.
  induction fuel as [|fuel IH]; intros pos m Hpos Hvalid; [reflexivity|].
  rewrite bubble_up_from_S, spec_sift_up_S.
  destruct (0 <? pos) eqn:Epos; [|apply seat_record_up; assumption].
  apply Z.ltb_lt in Epos.
  pose proof (parent_index_lt pos Epos) as Hg.
  destruct Hvalid as [na Hna]. pose proof (array_get_Some _ _ _ Hna) as Ha.
  destruct (array_get_lt (mh_heap (minheap m)) pos Hpos) as [old Hold].
  rewrite bind_node_load, Hna.
  rewrite bind_weight_at, slot_weight_seated_eq, Hna by lia.
  simpl fmap. cbv iota beta.
  rewrite bind_weight_at, slot_weight_seated_ne by lia.
  rewrite bind_heap_load. unfold slot_weight.
  destruct (array_get (mh_heap (minheap m)) (parent_index pos))
    as [[b|]|] eqn:Hgb; [|reflexivity|reflexivity].
  rewrite bind_node_load.
  destruct (array_get (ht_nodes (hashintree m)) b) as [nb|] eqn:Hnb;
    [|reflexivity].
  simpl fmap. cbv iota beta.
  pose proof (array_get_Some _ _ _ Hnb) as Hb.
  destruct (isBetterThan (weight na) (weight nb)).
  2:{ apply seat_record_up; [lia | exists na; exact Hna]. }
  rewrite bind_node_update, Hnb.
  rewrite bind_heap_load. simpl mh_heap. rewrite Hgb.
  rewrite bind_heap_store. simpl mh_heap. rewrite Hold.
  rewrite IH; simpl; rewrite ?length_insert, ?length_alter; [|lia|].
  2:{ rewrite array_get_alter by lia.
      destruct (decide (b = a)); rewrite Hna; eexists; reflexivity. }
  unfold spec_swap.
  rewrite !bind_assoc, bind_heap_load. simpl mh_heap.
  rewrite array_get_insert_eq by assumption. cbv iota beta.
  rewrite !bind_assoc, bind_heap_load. simpl mh_heap.
  rewrite array_get_insert_ne, Hgb by lia. cbv iota beta.
  rewrite !bind_assoc, bind_heap_store. simpl mh_heap.
  rewrite array_get_insert_eq by assumption. cbv iota beta.
  rewrite !bind_assoc, bind_heap_store. simpl mh_heap.
  rewrite array_get_insert_ne, array_get_insert_ne, Hgb by lia.
  cbv iota beta.
  rewrite !bind_assoc, bind_node_update. simpl ht_nodes.
  rewrite array_get_alter by lia.
  destruct (decide (a = b)) as [Hab|Hab]; rewrite Hnb; simpl fmap;
    cbv iota beta;
    rewrite bind_node_update; simpl ht_nodes;
    rewrite array_get_alter, array_get_alter by lia;
    destruct (decide (b = a)); try congruence;
    destruct (decide (a = a)); try congruence;
    rewrite Hna; simpl fmap; cbv iota beta;
    f_equal; unfold seated, with_heap, with_nodes; simpl;
    rewrite alter_heapIndex_absorb, list_insert_insert_eq; reflexivity.
Qed.

End SiftUp.

Section RecordedInsertion.

Context {K W : Type}.
Implicit Types (m : Mem K W).
Variable isBetterThan : W -> W -> bool.

(** [MinHeap_bubble_up] from a resident slot is the swap-based sift-up of
    the record in that slot, with the slot recorded as its position. *)
Lemma bubble_up_sifts_up m pos a :
  array_get (mh_heap (minheap m)) pos = Some (Some a) ->
  is_Some (array_get (ht_nodes (hashintree m)) a) ->
  MinHeap_bubble_up pos isBetterThan m
  = spec_sift_up (S (Z.to_nat pos)) isBetterThan pos (seated pos a m).
Proof.
  intros Hpos Hvalid. unfold MinHeap_bubble_up.
  rewrite bind_heap_load, Hpos.
  apply bubble_up_refines; [|exact Hvalid].
  eapply array_get_Some; eassumption.
Qed.

(** The code and the specification's wording of the insertion part ways
    only over the position that the code does not record: when the
    record's [heapIndex] already reads the heap's size, they agree. *)
Lemma update_key_new_with_index_preset m a (n : MinHeapNode K W) :
  array_get (ht_nodes (hashintree m)) a = Some n ->
  heapIndex n = mh_size (minheap m) ->
  MinHeap_update_key (Some a) true isBetterThan m
  = spec_update_key (Some a) true isBetterThan m.
Proof.
  intros Hn Hidx.
  pose proof (array_get_Some _ _ _ Hn) as Ha.
  unfold MinHeap_update_key, spec_update_key.
  rewrite ?bind_assoc, !bind_get_size, ?bind_assoc, !bind_get_capacity.
  destruct (mh_size (minheap m) =? mh_capacity (minheap m)); [reflexivity|].
  rewrite ?bind_assoc, !bind_heap_store.
  destruct (array_get (mh_heap (minheap m)) (mh_size (minheap m)))
    as [old|] eqn:Hold; [|reflexivity].
  pose proof (array_get_Some _ _ _ Hold) as Hsize.
  rewrite ?bind_assoc, !bind_put_size.
  rewrite bind_node_load. simpl ht_nodes. rewrite Hn, Hidx.
  rewrite ?bind_assoc, bind_node_update. simpl ht_nodes. rewrite Hn.
  rewrite bind_node_load. simpl ht_nodes.
  rewrite array_get_alter by lia.
  destruct (decide (a = a)); [|congruence]. rewrite Hn. simpl fmap.
  cbv iota beta. simpl heapIndex.
  rewrite (bubble_up_sifts_up _ _ a); simpl;
    [|apply array_get_insert_eq; lia|eexists; exact Hn].
  f_equal. unfold seated, with_nodes, with_heap, with_size. simpl.
  rewrite list_insert_insert_eq. reflexivity.
Qed.

End RecordedInsertion.

Section SiftUpInvariants.

Context {K W : Type}.
Implicit Types (m : Mem K W).
Variable isBetterThan : W -> W -> bool.

Hypothesis better_asym :
  forall x y, isBetterThan x y = true -> isBetterThan y x = false.
Hypothesis not_better_trans :
  forall x y z,
    isBetterThan y x = false -> isBetterThan z y = false ->
    isBetterThan z x = false.

(** The swap-based sift-up from [pos] restores the heap property when
    [pos] is the only slot that may be better than its parent, and keeps
    the positions recorded. *)
Lemma spec_sift_up_restores : forall fuel pos m,
  mh_size (minheap m) < size_modulus ->
  0 <= pos < mh_size (minheap m) ->
  (forall i, 0 <= i < mh_size (minheap m) -> consistent_at m i) ->
  (forall i, 1 <= i < mh_size (minheap m) -> i <> pos ->
             ordered_at isBetterThan m i) ->
  (0 < pos ->
   forall c, 1 <= c < mh_size (minheap m) -> parent_index c = pos ->
   exists wg wc,
     slot_weight m (parent_index pos) = Some wg
     /\ slot_weight m c = Some wc
     /\ isBetterThan wc wg = false) ->
  (Z.to_nat pos < fuel)%nat ->
  exists m',
    spec_sift_up fuel isBetterThan pos m = Ret tt m'
    /\ mh_size (minheap m') = mh_size (minheap m)
    /\ mh_capacity (minheap m') = mh_capacity (minheap m)
    /\ length (mh_heap (minheap m')) = length (mh_heap (minheap m))
    /\ length (ht_nodes (hashintree m')) = length (ht_nodes (hashintree m))
    /\ (forall i, 0 <= i < mh_size (minheap m) -> consistent_at m' i)
    /\ (forall i, 1 <= i < mh_size (minheap m) ->
                  ordered_at isBetterThan m' i).
Proof.
  induction fuel as [|fuel IH];
    intros pos m Hsize Hpos Hcons Hord Hgrand Hfuel; [lia|].
  rewrite spec_sift_up_S.
  destruct (0 <? pos) eqn:Epos.
  2:{ (* the root *)
    apply Z.ltb_ge in Epos. exists m. repeat split; try assumption.
    intros i Hi. apply Hord; lia. }
  apply Z.ltb_lt in Epos.
  pose proof (parent_index_lt pos Epos) as Hg.
  destruct (consistent_at_weight m pos (Hcons pos Hpos)) as [w Hw].
  destruct (consistent_at_weight m (parent_index pos)
              (Hcons (parent_index pos) ltac:(lia))) as [wg Hwg].
  rewrite bind_weight_at, Hw, bind_weight_at, Hwg.
  destruct (isBetterThan w wg) eqn:Ecmp.
  2:{ (* order holds at [pos] *)
    exists m. repeat split; try assumption.
    intros i Hi. destruct (decide (i = pos)) as [->|Hip];
      [|apply Hord; assumption].
    exists w, wg. auto. }
  (* the record moves up *)
  destruct (Hcons pos Hpos) as (a & na & Hpa & Hna & Hai).
  destruct (Hcons (parent_index pos) ltac:(lia))
    as (b & nb & Hgb & Hnb & Hbg).
  pose proof (array_get_Some _ _ _ Hna) as Hab.
  pose proof (array_get_Some _ _ _ Hnb) as Hbb.
  rewrite (bind_Ret _ _ _ _ _
             (spec_swap_eq m pos (parent_index pos) a b Hpa Hgb ltac:(lia)
                ltac:(eexists; exact Hna) ltac:(eexists; exact Hnb))).
  destruct (swapped_size m pos (parent_index pos) a b) as (Hs1 & Hs2 & Hs3).
  assert (Hweight : forall k,
            slot_weight (swapped pos (parent_index pos) a b m) k
            = if decide (k = pos) then slot_weight m (parent_index pos)
              else if decide (k = parent_index pos) then slot_weight m pos
              else slot_weight m k).
  { intros k. apply swapped_weight; (assumption || lia). }
  destruct (IH (parent_index pos) (swapped pos (parent_index pos) a b m))
    as (m' & Hrun & Hs & Hcap & Hlh & Hln & Hc' & Ho');
    rewrite ?Hs1, ?Hs2, ?Hs3; try assumption; try lia.
  - intros i Hi. apply swapped_consistent; (assumption || lia).
  - (* every slot but the parent's is in order with its parent *)
    intros i Hi Hig. unfold ordered_at. rewrite !Hweight.
    destruct (decide (i = pos)) as [->|Hip].
    + (* the old parent, now below the record *)
      destruct (decide (parent_index pos = pos)); [lia|].
      destruct (decide (parent_index pos = parent_index pos)); [|congruence].
      exists wg, w. split; [exact Hwg|]. split; [exact Hw|].
      apply better_asym. exact Ecmp.
    + destruct (decide (i = parent_index pos)); [contradiction|].
      destruct (consistent_at_weight m i (Hcons i ltac:(lia))) as [wi Hwi].
      destruct (decide (parent_index i = pos)) as [Hpi|Hpi].
      * (* a child of [pos], now below the old parent *)
        destruct (Hgrand Epos i Hi Hpi) as (wg' & wi' & Hwg' & Hwi' & Hle).
        exists wi, wg. rewrite Hwg in Hwg'. rewrite Hwi in Hwi'.
        injection Hwg' as <-. injection Hwi' as <-. auto.
      * destruct (decide (parent_index i = parent_index pos)) as [Hpg|Hpg].
        -- (* the other child of the parent, now below the record *)
           destruct (Hord i Hi Hip) as (wi' & wg' & Hwi' & Hwg' & Hle).
           rewrite Hpg, Hwg in Hwg'. rewrite Hwi in Hwi'.
           injection Hwg' as <-. injection Hwi' as <-.
           exists wi, w. split; [exact Hwi|]. split; [exact Hw|].
           apply (not_better_trans w wg wi); [|exact Hle].
           apply better_asym. exact Ecmp.
        -- apply Hord; assumption.
  - (* the grandparent against the children of the parent *)
    intros Hg0 c Hc Hpc. rewrite !Hweight.
    pose proof (parent_index_lt (parent_index pos) Hg0) as Hgg.
    destruct (decide (parent_index (parent_index pos) = pos)); [lia|].
    destruct (decide (parent_index (parent_index pos) = parent_index pos));
      [lia|].
    destruct (Hord (parent_index pos) ltac:(lia) ltac:(lia))
      as (wg' & wgg & Hwg' & Hwgg & Hle).
    rewrite Hwg in Hwg'. injection Hwg' as <-.
    destruct (decide (c = pos)) as [->|Hcp].
    + exists wgg, wg. auto.
    + assert (Hcg : c <> parent_index pos).
      { pose proof (parent_index_lt c ltac:(lia)). lia. }
      destruct (decide (c = parent_index pos)); [contradiction|].
      destruct (Hord c Hc Hcp) as (wc & wg' & Hwc & Hwg' & Hle').
      rewrite Hpc, Hwg in Hwg'. injection Hwg' as <-.
      exists wgg, wc. split; [exact Hwgg|]. split; [exact Hwc|].
      apply (not_better_trans wgg wg wc); assumption.
  - exists m'. rewrite Hs, Hcap, Hlh, Hln. auto 10.
Qed.

End SiftUpInvariants.

Section InsertionInvariants.

Context {K W : Type}.
Implicit Types (m : Mem K W).
Variable isBetterThan : W -> W -> bool.

Hypothesis better_asym :
  forall x y, isBetterThan x y = true -> isBetterThan y x = false.
Hypothesis not_better_trans :
  forall x y z,
    isBetterThan y x = false -> isBetterThan z y = false ->
    isBetterThan z x = false.

(** The insertion as the specification words it keeps a well-formed,
    position-consistent, heap-ordered heap so, for a record that is not
    yet resident and a heap with room. *)
Theorem spec_update_key_preserves_invariants m a (n : MinHeapNode K W) :
  heap_wf m = true ->
  index_consistent m = true ->
  heap_ordered isBetterThan m = true ->
  mh_size (minheap m) < mh_capacity (minheap m) ->
  mh_capacity (minheap m) <= Z.of_nat (length (mh_heap (minheap m))) ->
  array_get (ht_nodes (hashintree m)) a = Some n ->
  (forall i, 0 <= i < mh_size (minheap m) ->
             array_get (mh_heap (minheap m)) i <> Some (Some a)) ->
  exists m',
    spec_update_key (Some a) true isBetterThan m = Ret tt m'
    /\ mh_size (minheap m') = mh_size (minheap m) + 1
    /\ heap_wf m' = true
    /\ index_consistent m' = true
    /\ heap_ordered isBetterThan m' = true.
Proof.
  intros Hwf Hidx Hord Hroom Hcap Hn Hfresh.
  apply heap_wf_iff in Hwf. destruct Hwf as (Hsz & Hlen & _).
  rewrite index_consistent_iff in Hidx. rewrite heap_ordered_iff in Hord.
  assert (H63 : half_modulus = 9223372036854775808) by reflexivity.
  pose proof (array_get_Some _ _ _ Hn) as Ha.
  destruct (array_get_lt (mh_heap (minheap m)) (mh_size (minheap m))
              ltac:(lia)) as [old Hold].
  unfold spec_update_key.
  rewrite ?bind_assoc, bind_get_size, ?bind_assoc, bind_get_capacity.
  destruct (mh_size (minheap m) =? mh_capacity (minheap m)) eqn:E;
    [apply Z.eqb_eq in E; lia|].
  rewrite ?bind_assoc, bind_heap_store, Hold, ?bind_assoc, bind_put_size.
  rewrite (wrap_small (mh_size (minheap m) + 1))
    by (rewrite size_modulus_eq; lia).
  rewrite ?bind_assoc, bind_node_update. simpl ht_nodes. rewrite Hn.
  rewrite bind_node_load. simpl ht_nodes.
  rewrite array_get_alter by lia.
  destruct (decide (a = a)); [|congruence]. rewrite Hn. simpl fmap.
  cbv iota beta. simpl heapIndex.
  match goal with
  | |- context [spec_sift_up _ _ _ ?st] => set (s0 := st)
  end.
  assert (Hweight : forall i, 0 <= i < mh_size (minheap m) ->
            slot_weight s0 i = slot_weight m i).
  { intros i Hi. unfold slot_weight, s0. simpl.
    rewrite array_get_insert_ne by lia.
    destruct (array_get (mh_heap (minheap m)) i) as [[x|]|]; try reflexivity.
    apply weight_alter_heapIndex. lia. }
  destruct (spec_sift_up_restores isBetterThan better_asym not_better_trans
              (S (Z.to_nat (mh_size (minheap m)))) (mh_size (minheap m)) s0)
    as (m' & Hrun & Hs & Hc & Hlh & Hln & Hc' & Ho').
  - simpl. rewrite size_modulus_eq. lia.
  - simpl. lia.
  - simpl. intros i Hi. unfold consistent_at, s0. simpl.
    destruct (decide (i = mh_size (minheap m))) as [->|Hne].
    + exists a, (set_heapIndex (mh_size (minheap m)) n).
      rewrite array_get_insert_eq by lia.
      rewrite array_get_alter by lia.
      destruct (decide (a = a)); [|congruence]. rewrite Hn. auto.
    + destruct (Hidx i ltac:(lia)) as (x & nx & Hx & Hnx & Hxi).
      exists x, nx. rewrite array_get_insert_ne by lia.
      rewrite array_get_alter by lia.
      destruct (decide (a = x)) as [->|]; [|auto].
      exfalso. apply (Hfresh i ltac:(lia)). exact Hx.
  - simpl. intros i Hi Hne.
    pose proof (parent_index_lt i ltac:(lia)) as Hp.
    unfold ordered_at. rewrite !Hweight by lia.
    apply Hord. lia.
  - simpl. intros Hpos c Hc0 Hpc.
    apply parent_index_children in Hpc; [|rewrite size_modulus_eq; lia].
    lia.
  - lia.
  - simpl in Hs, Hc, Hlh, Hln, Hc', Ho'. rewrite length_insert in Hlh.
    rewrite length_alter in Hln.
    exists m'. split; [exact Hrun|]. split; [exact Hs|].
    split; [apply heap_wf_iff; rewrite Hs, Hlh; repeat split; try lia;
            intros i Hi; apply consistent_at_valid, Hc', Hi|].
    split; [apply index_consistent_iff|apply heap_ordered_iff];
      rewrite Hs; assumption.
Qed.

(** So does [MinHeap_update_key] itself, once the caller has recorded the
    position that the code leaves out. *)
Corollary update_key_new_preserves_invariants_when_preset m a
    (n : MinHeapNode K W) :
  heap_wf m = true ->
  index_consistent m = true ->
  heap_ordered isBetterThan m = true ->
  mh_size (minheap m) < mh_capacity (minheap m) ->
  mh_capacity (minheap m) <= Z.of_nat (length (mh_heap (minheap m))) ->
  array_get (ht_nodes (hashintree m)) a = Some n ->
  (forall i, 0 <= i < mh_size (minheap m) ->
             array_get (mh_heap (minheap m)) i <> Some (Some a)) ->
  heapIndex n = mh_size (minheap m) ->
  exists m',
    MinHeap_update_key (Some a) true isBetterThan m = Ret tt m'
    /\ mh_size (minheap m') = mh_size (minheap m) + 1
    /\ heap_wf m' = true
    /\ index_consistent m' = true
    /\ heap_ordered isBetterThan m' = true.
Proof.
  intros Hwf Hidx Hord Hroom Hcap Hn Hfresh Hpreset.
  rewrite (update_key_new_with_index_preset isBetterThan m a n Hn Hpreset).
  apply (spec_update_key_preserves_invariants m a n); assumption.
Qed.

End InsertionInvariants.

(** ** The invariants on the demonstration client *)

Lemma int_better_asym x y :
  IntClient.isBetterThan x y = true -> IntClient.isBetterThan y x = false.
Proof.
  unfold IntClient.isBetterThan. intros H.
  apply Z.ltb_lt in H. apply Z.ltb_ge. lia.
Qed.

Lemma int_not_better_trans x y z :
  IntClient.isBetterThan y x = false -> IntClient.isBetterThan z y = false ->
  IntClient.isBetterThan z x = false.
Proof.
  unfold IntClient.isBetterThan. intros H1 H2.
  apply Z.ltb_ge in H1, H2. apply Z.ltb_ge. lia.
Qed.

Lemma pluck_min_keeps_four_heap :
  exists r m',
    MinHeap_pluck_min IntClient.isBetterThan IntClient.four_heap = Ret r m'
    /\ heap_wf m' = true
    /\ index_consistent m' = true
    /\ heap_ordered IntClient.isBetterThan m' = true.
Proof.
  apply (pluck_min_preserves_invariants IntClient.isBetterThan
           int_better_asym int_not_better_trans IntClient.four_heap);
    reflexivity.
Defined.

Lemma recorded_insertion_keeps_heap :
  exists m',
    spec_update_key (Some 2) true IntClient.isBetterThan
      IntClient.before_insert = Ret tt m'
    /\ mh_size (minheap m') = mh_size (minheap IntClient.before_insert) + 1
    /\ heap_wf m' = true
    /\ index_consistent m' = true
    /\ heap_ordered IntClient.isBetterThan m' = true.
Proof.
  apply (spec_update_key_preserves_invariants IntClient.isBetterThan
           int_better_asym int_not_better_trans IntClient.before_insert 2
           (mkNode (Some 2) 1 (Some 0) 0)); try reflexivity.
  intros i Hi. change (0 <= i < 1) in Hi.
  assert (i = 0) as -> by lia. discriminate.
Qed.

(** ** The probe sequence, slot by slot *)

Lemma array_get_of_nat {A} (l : list A) (i : nat) :
  array_get l (Z.of_nat i) = l !! i.
Proof.
  unfold array_get. destruct (0 <=? Z.of_nat i) eqn:E.
  - rewrite Nat2Z.id. reflexivity.
  - apply Z.leb_gt in E. lia.
Qed.

Lemma array_get_fmap {A B} (f : A -> B) (l : list A) i :
  array_get (f <$> l) i = f <$> array_get l i.
Proof.
  unfold array_get. destruct (0 <=? i); [|reflexivity].
  apply list_lookup_fmap.
Qed.

Lemma offset_of_slot size h i :
  0 <= h < size -> 0 <= i < size -> (h + (i - h) mod size) mod size = i.
Proof.
  intros Hh Hi. rewrite Zplus_mod_idemp_r.
  replace (h + (i - h)) with i by lia. apply Z.mod_small. exact Hi.
Qed.

Lemma slot_of_offset size h k :
  0 <= h < size -> 0 <= k < size -> ((h + k) mod size - h) mod size = k.
Proof.
  intros Hh Hk. rewrite Zminus_mod_idemp_l.
  replace (h + k - h) with k by lia. apply Z.mod_small. exact Hk.
Qed.

Lemma offsets_apart size h k k' :
  0 <= h < size -> 0 <= k < size -> 0 <= k' < size ->
  (h + k) mod size = (h + k') mod size -> k = k'.
Proof.
  intros Hh Hk Hk' Heq.
  rewrite <- (slot_of_offset size h k), <- (slot_of_offset size h k')
    by assumption.
  rewrite Heq. reflexivity.
Qed.

Section Scan.

Context {K W : Type}.
Implicit Types (m : Mem K W) (key : K).
Variable isEqual : K -> K -> bool.

Lemma fits_Some key m i (n : MinHeapNode K W) :
  array_get (ht_nodes (hashintree m)) i = Some n ->
  fits isEqual key m i = seat_fits isEqual key n.
Proof. intros H. unfold fits. rewrite H. reflexivity. Qed.

Lemma fits_true key m i :
  fits isEqual key m i = true <-> empty_at m i \/ holds isEqual key m i.
Proof.
  unfold fits, empty_at, holds, seat_fits. split.
  - destruct (array_get _ i) as [n|]; [|discriminate].
    destruct (data n) as [d|] eqn:Hd; intros H.
    + right. exists n, d. auto.
    + left. exists n. auto.
  - intros [(n & -> & ->)|(n & d & -> & -> & H)]; [reflexivity|exact H].
Qed.

Lemma fits_false key m i (n : MinHeapNode K W) :
  array_get (ht_nodes (hashintree m)) i = Some n ->
  fits isEqual key m i = false ->
  exists d, data n = Some d /\ isEqual key d = false.
Proof.
  intros Hn. rewrite (fits_Some _ _ _ _ Hn). unfold seat_fits.
  destruct (data n) as [d|]; [|discriminate]. intros H. exists d. auto.
Qed.

Lemma probe_slot_range m h j :
  0 < ht_size (hashintree m) ->
  0 <= probe_slot m h j < ht_size (hashintree m).
Proof. intros H. unfold probe_slot. apply Z.mod_pos_bound. exact H. Qed.

Lemma probe_slot_0 m h :
  0 <= h < ht_size (hashintree m) -> probe_slot m h 0 = h.
Proof.
  intros H. unfold probe_slot. rewrite Z.add_0_r. apply Z.mod_small. exact H.
Qed.

Lemma first_fit_unique key m h k k' :
  first_fit isEqual key m h k -> first_fit isEqual key m h k' -> k = k'.
Proof.
  intros (Hk & Hfit & Hbefore) (Hk' & Hfit' & Hbefore').
  destruct (Z.lt_trichotomy k k') as [Hlt|[Heq|Hgt]]; [|exact Heq|].
  - rewrite (Hbefore' k ltac:(lia)) in Hfit. discriminate.
  - rewrite (Hbefore k' ltac:(lia)) in Hfit'. discriminate.
Qed.

(** The seat search, told apart by what it meets: it returns the first
    slot of the probe sequence that fits, and [NULL] when a whole round
    meets none. *)
Lemma find_seat_loop_scan key m h :
  table_wf m -> 0 <= h < ht_size (hashintree m) ->
  forall fuel j, 0 <= j < ht_size (hashintree m) ->
  ht_size (hashintree m) - j <= Z.of_nat fuel ->
  (forall j', 0 <= j' < j -> fits isEqual key m (probe_slot m h j') = false) ->
  exists r,
    find_seat_loop fuel isEqual key h (probe_slot m h j) m = Ret r m
    /\ match r with
       | Some i =>
           exists k, first_fit isEqual key m h k /\ i = probe_slot m h k
       | None =>
           forall j', 0 <= j' < ht_size (hashintree m) ->
                      fits isEqual key m (probe_slot m h j') = false
       end.
Proof.
  intros [Hlen Hmod] Hh.
  induction fuel as [|fuel IH]; intros j Hj Hfuel Hbefore; [lia|]. simpl.
  assert (Hidx : 0 <= probe_slot m h j < ht_size (hashintree m))
    by (apply probe_slot_range; lia).
  unfold bind, table_load.
  destruct (array_get_lt (ht_nodes (hashintree m)) _
              ltac:(rewrite Hlen; exact Hidx)) as [n Hn].
  rewrite Hn.
  destruct (seat_fits isEqual key n) eqn:Hfit.
  - exists (Some (probe_slot m h j)). split; [reflexivity|].
    exists j. split; [|reflexivity].
    split; [exact Hj|]. split; [|exact Hbefore].
    rewrite (fits_Some _ _ _ _ Hn). exact Hfit.
  - unfold get_table_size.
    destruct (ht_size (hashintree m) =? 0) eqn:E0; [lia|].
    assert (Hstep : wrap (probe_slot m h j + 1) mod ht_size (hashintree m)
                    = probe_slot m h (j + 1)).
    { unfold probe_slot. rewrite probe_step by assumption. f_equal. lia. }
    rewrite Hstep.
    assert (Hback : (probe_slot m h (j + 1) =? h)
                    = (j + 1 =? ht_size (hashintree m))).
    { unfold probe_slot. rewrite Z.add_assoc. apply probe_back; assumption. }
    rewrite Hback.
    assert (Hhere : fits isEqual key m (probe_slot m h j) = false)
      by (rewrite (fits_Some _ _ _ _ Hn); exact Hfit).
    destruct (j + 1 =? ht_size (hashintree m)) eqn:E.
    + apply Z.eqb_eq in E. exists None. split; [reflexivity|].
      intros j' Hj'. destruct (decide (j' = j)) as [->|Hne];
        [exact Hhere | apply Hbefore; lia].
    + apply Z.eqb_neq in E.
      apply IH; [lia|lia|].
      intros j' Hj'. destruct (decide (j' = j)) as [->|Hne];
        [exact Hhere | apply Hbefore; lia].
Qed.

Lemma find_seat_scan key hashfunc m :
  table_wf m ->
  0 <= hashfunc (ht_size (hashintree m)) key < ht_size (hashintree m) ->
  exists r,
    HashInTree_find_seat key hashfunc isEqual m = Ret r m
    /\ match r with
       | Some i =>
           exists k,
             first_fit isEqual key m (hashfunc (ht_size (hashintree m)) key) k
             /\ i = probe_slot m (hashfunc (ht_size (hashintree m)) key) k
       | None =>
           forall j', 0 <= j' < ht_size (hashintree m) ->
             fits isEqual key m
               (probe_slot m (hashfunc (ht_size (hashintree m)) key) j')
             = false
       end.
Proof.
  intros Hwf Hh.
  unfold HashInTree_find_seat, bind, get_table_size.
  set (h := hashfunc (ht_size (hashintree m)) key) in *.
  pose proof (find_seat_loop_scan key m h Hwf Hh
                (S (Z.to_nat (ht_size (hashintree m)))) 0
                ltac:(lia) ltac:(lia) ltac:(intros; lia)) as H.
  rewrite probe_slot_0 in H by exact Hh. exact H.
Qed.

Lemma find_seat_first_fit key hashfunc m k :
  table_wf m ->
  0 <= hashfunc (ht_size (hashintree m)) key < ht_size (hashintree m) ->
  first_fit isEqual key m (hashfunc (ht_size (hashintree m)) key) k ->
  HashInTree_find_seat key hashfunc isEqual m
  = Ret (Some (probe_slot m (hashfunc (ht_size (hashintree m)) key) k)) m.
Proof.
  intros Hwf Hh Hk.
  destruct (find_seat_scan key hashfunc m Hwf Hh) as (r & Hr & Hres).
  rewrite Hr. destruct r as [i|].
  - destruct Hres as (k' & Hk' & ->).
    rewrite (first_fit_unique _ _ _ _ _ Hk Hk'). reflexivity.
  - destruct Hk as (Hrange & Hfit & _).
    rewrite (Hres k Hrange) in Hfit. discriminate.
Qed.

Lemma get_node_by_data_of_seat key hashfunc m :
  table_wf m ->
  0 <= hashfunc (ht_size (hashintree m)) key < ht_size (hashintree m) ->
  HashInTree_get_node_by_data key hashfunc isEqual m
  = lookup_of_seat (HashInTree_find_seat key hashfunc isEqual m).
Proof.
  intros Hwf Hh.
  unfold HashInTree_find_seat, HashInTree_get_node_by_data, bind,
    get_table_size.
  apply get_node_loop_find_seat; assumption.
Qed.

(** A lookup that finds slot [j] has walked the probe sequence up to the
    first slot that fits, and that slot is occupied. *)
Lemma lookup_found key hashfunc m j :
  table_wf m ->
  0 <= hashfunc (ht_size (hashintree m)) key < ht_size (hashintree m) ->
  HashInTree_get_node_by_data key hashfunc isEqual m = Ret (Some j) m ->
  exists k,
    first_fit isEqual key m (hashfunc (ht_size (hashintree m)) key) k
    /\ j = probe_slot m (hashfunc (ht_size (hashintree m)) key) k
    /\ holds isEqual key m j.
Proof.
  intros Hwf Hh. rewrite get_node_by_data_of_seat by assumption.
  destruct (find_seat_scan key hashfunc m Hwf Hh) as (r & Hr & Hres).
  rewrite Hr. destruct r as [i|]; simpl; [|discriminate].
  destruct Hres as (k & Hk & ->).
  set (i := probe_slot m _ k) in *.
  pose proof Hk as (_ & Hfit & _). fold i in Hfit.
  apply fits_true in Hfit.
  destruct Hfit as [(n & Hn & Hd)|(n & d & Hn & Hd & He)];
    rewrite Hn, Hd; intros [= <-].
  exists k. split; [exact Hk|]. split; [reflexivity|].
  exists n, d. auto.
Qed.

(** The other way round: a first fit that holds the key is what the
    lookup returns. *)
Lemma lookup_first_fit key hashfunc m k :
  table_wf m ->
  0 <= hashfunc (ht_size (hashintree m)) key < ht_size (hashintree m) ->
  first_fit isEqual key m (hashfunc (ht_size (hashintree m)) key) k ->
  occupied_at m (probe_slot m (hashfunc (ht_size (hashintree m)) key) k) ->
  HashInTree_get_node_by_data key hashfunc isEqual m
  = Ret (Some (probe_slot m (hashfunc (ht_size (hashintree m)) key) k)) m.
Proof.
  intros Hwf Hh Hk (n & d & Hn & Hd).
  rewrite get_node_by_data_of_seat by assumption.
  rewrite (find_seat_first_fit _ _ _ _ Hwf Hh Hk). simpl.
  rewrite Hn, Hd. reflexivity.
Qed.

Lemma lookup_first_fit_empty key hashfunc m k :
  table_wf m ->
  0 <= hashfunc (ht_size (hashintree m)) key < ht_size (hashintree m) ->
  first_fit isEqual key m (hashfunc (ht_size (hashintree m)) key) k ->
  empty_at m (probe_slot m (hashfunc (ht_size (hashintree m)) key) k) ->
  HashInTree_get_node_by_data key hashfunc isEqual m = Ret None m.
Proof.
  intros Hwf Hh Hk (n & Hn & Hd).
  rewrite get_node_by_data_of_seat by assumption.
  rewrite (find_seat_first_fit _ _ _ _ Hwf Hh Hk). simpl.
  rewrite Hn, Hd. reflexivity.
Qed.

End Scan.

(** ** Writing into one slot *)

Section SlotUpdate.

Context {K W : Type}.
Implicit Types (m : Mem K W) (key : K).
Variable isEqual : K -> K -> bool.

Lemma table_wf_alter m (f : MinHeapNode K W -> MinHeapNode K W) i :
  table_wf m ->
  table_wf (with_nodes (alter f i (ht_nodes (hashintree m))) m).
Proof.
  intros [Hlen Hmod]. split; simpl; [|exact Hmod].
  rewrite length_alter. exact Hlen.
Qed.

Lemma fits_alter_ne key m (f : MinHeapNode K W -> MinHeapNode K W) i x :
  0 <= i -> x <> i ->
  fits isEqual key
    (with_nodes (alter f (Z.to_nat i) (ht_nodes (hashintree m))) m) x
  = fits isEqual key m x.
Proof.
  intros Hi Hne. unfold fits. simpl.
  rewrite array_get_alter by exact Hi.
  destruct (decide (i = x)); [congruence|reflexivity].
Qed.

Lemma fits_alter_eq key m (f : MinHeapNode K W -> MinHeapNode K W) i n :
  array_get (ht_nodes (hashintree m)) i = Some n ->
  fits isEqual key
    (with_nodes (alter f (Z.to_nat i) (ht_nodes (hashintree m))) m) i
  = seat_fits isEqual key (f n).
Proof.
  intros Hn. pose proof (array_get_Some _ _ _ Hn) as Hi.
  unfold fits. simpl. rewrite array_get_alter by lia.
  destruct (decide (i = i)); [|congruence]. rewrite Hn. reflexivity.
Qed.

Lemma nodes_alter_get m (f : MinHeapNode K W -> MinHeapNode K W) i x :
  0 <= i ->
  array_get
    (ht_nodes
       (hashintree
          (with_nodes (alter f (Z.to_nat i) (ht_nodes (hashintree m))) m))) x
  = if decide (i = x) then f <$> array_get (ht_nodes (hashintree m)) x
    else array_get (ht_nodes (hashintree m)) x.
Proof. intros Hi. simpl. apply array_get_alter. exact Hi. Qed.

(** A probe that stays clear of slot [i] up to its first fit does not see
    what is written there. *)
Lemma first_fit_alter_clear key m (f : MinHeapNode K W -> MinHeapNode K W)
    h k i :
  0 <= i ->
  first_fit isEqual key m h k ->
  (forall j, 0 <= j <= k -> probe_slot m h j <> i) ->
  first_fit isEqual key
    (with_nodes (alter f (Z.to_nat i) (ht_nodes (hashintree m))) m) h k.
Proof.
  intros Hi (Hk & Hfit & Hbefore) Hclear.
  split; [exact Hk|]. unfold probe_slot in *. simpl. split.
  - rewrite fits_alter_ne; [exact Hfit|exact Hi|]. apply Hclear. lia.
  - intros j Hj. rewrite fits_alter_ne; [apply Hbefore; exact Hj|exact Hi|].
    apply Hclear. lia.
Qed.

(** Writing something that fits into the first fit leaves it the first
    fit. *)
Lemma first_fit_alter_seat key m (f : MinHeapNode K W -> MinHeapNode K W)
    h k n :
  table_wf m -> 0 <= h < ht_size (hashintree m) ->
  first_fit isEqual key m h k ->
  array_get (ht_nodes (hashintree m)) (probe_slot m h k) = Some n ->
  seat_fits isEqual key (f n) = true ->
  first_fit isEqual key
    (with_nodes
       (alter f (Z.to_nat (probe_slot m h k)) (ht_nodes (hashintree m))) m)
    h k.
Proof.
  intros [Hlen Hmod] Hh (Hk & Hfit & Hbefore) Hn Hfn.
  pose proof (array_get_Some _ _ _ Hn) as Hi.
  split; [exact Hk|]. split.
  - change (probe_slot (with_nodes _ m) h k) with (probe_slot m h k).
    rewrite (fits_alter_eq _ _ _ _ _ Hn). exact Hfn.
  - intros j Hj.
    change (probe_slot (with_nodes _ m) h j) with (probe_slot m h j).
    rewrite fits_alter_ne; [apply Hbefore; exact Hj|lia|].
    unfold probe_slot. intros Heq.
    apply offsets_apart in Heq; lia.
Qed.

End SlotUpdate.

(** ** What the table guarantees to its callers *)

Section TableGuarantees.

Context {K W : Type}.
Implicit Types (m : Mem K W) (key : K).
Variable hashfunc : Z -> K -> Z.
Variable isEqual : K -> K -> bool.

Lemma no_fit_anywhere key m h :
  table_wf m -> 0 <= h < ht_size (hashintree m) ->
  (forall j, 0 <= j < ht_size (hashintree m) ->
             fits isEqual key m (probe_slot m h j) = false) ->
  forall n : MinHeapNode K W, n ∈ ht_nodes (hashintree m) ->
  exists d, data n = Some d /\ isEqual key d = false.
Proof.
  intros [Hlen Hmod] Hh Hnone n Hin.
  apply list_elem_of_lookup in Hin. destruct Hin as [i Hi].
  pose proof (lookup_lt_Some _ _ _ Hi) as Hlt.
  rewrite <- array_get_of_nat in Hi.
  apply (fits_false isEqual key m (Z.of_nat i) n Hi).
  rewrite <- (offset_of_slot (ht_size (hashintree m)) h (Z.of_nat i))
    by lia.
  apply Hnone. apply Z.mod_pos_bound. lia.
Qed.

(** [HashInTree_find_seat] on a table whose array has [size] slots, for a
    key that hashes into it: the call returns, in the memory it was given;
    a slot it returns is empty or holds the key; and it returns [NULL] only
    when every slot is occupied and none holds the key. *)
Theorem find_seat_returns_seat_unless_full m key :
  table_wf m ->
  0 <= hashfunc (ht_size (hashintree m)) key < ht_size (hashintree m) ->
  exists r,
    HashInTree_find_seat key hashfunc isEqual m = Ret r m
    /\ match r with
       | Some i => empty_at m i \/ holds isEqual key m i
       | None => table_full m = true /\ unseated isEqual key m = true
       end.
Proof.
  intros Hwf Hh.
  destruct (find_seat_scan isEqual key hashfunc m Hwf Hh) as (r & Hr & Hres).
  exists r. split; [exact Hr|].
  destruct r as [i|].
  - destruct Hres as (k & (_ & Hfit & _) & ->).
    apply fits_true. exact Hfit.
  - pose proof (no_fit_anywhere key m _ Hwf Hh Hres) as Hall.
    unfold table_full, unseated. split; apply forallb_forall; intros n Hin;
      apply list_elem_of_In in Hin; destruct (Hall n Hin) as (d & Hd & He);
      rewrite Hd.
    + apply bool_decide_eq_true. eexists. reflexivity.
    + rewrite He. reflexivity.
Qed.

Lemma lookup_result m key :
  table_wf m ->
  0 <= hashfunc (ht_size (hashintree m)) key < ht_size (hashintree m) ->
  exists r,
    HashInTree_get_node_by_data key hashfunc isEqual m = Ret r m
    /\ forall i, r = Some i -> holds isEqual key m i.
Proof.
  intros Hwf Hh.
  rewrite get_node_by_data_of_seat by assumption.
  destruct (find_seat_scan isEqual key hashfunc m Hwf Hh) as (r & Hr & Hres).
  rewrite Hr. destruct r as [i|]; simpl.
  - destruct Hres as (k & (_ & Hfit & _) & ->).
    apply fits_true in Hfit.
    destruct Hfit as [(n & Hn & Hd)|(n & d & Hn & Hd & He)];
      rewrite Hn, Hd.
    + exists None. split; [reflexivity|]. intros i [=].
    + eexists. split; [reflexivity|]. intros i [= <-].
      exists n, d. auto.
  - exists None. split; [reflexivity|]. intros i [=].
Qed.

(** [HashInTree_get_node_by_data] on such a table returns, in the memory
    it was given, and a record it returns is occupied by a key that the
    key looked for compares equal to. *)
Theorem get_node_by_data_returns_match m key :
  table_wf m ->
  0 <= hashfunc (ht_size (hashintree m)) key < ht_size (hashintree m) ->
  exists r,
    HashInTree_get_node_by_data key hashfunc isEqual m = Ret r m
    /\ forall i, r = Some i -> holds isEqual key m i.
Proof. apply lookup_result. Qed.

(** Seat, then look up: when [HashInTree_find_seat] has returned an empty
    slot for a key and the key is written into it, the lookup of that key
    returns that slot, and so does a second seat search. *)
Theorem seated_key_is_found m key i (n : MinHeapNode K W) :
  table_wf m ->
  0 <= hashfunc (ht_size (hashintree m)) key < ht_size (hashintree m) ->
  isEqual key key = true ->
  HashInTree_find_seat key hashfunc isEqual m = Ret (Some i) m ->
  array_get (ht_nodes (hashintree m)) i = Some n ->
  data n = None ->
  exists m',
    node_update (Some i) (set_data (Some key)) m = Ret tt m'
    /\ HashInTree_get_node_by_data key hashfunc isEqual m' = Ret (Some i) m'
    /\ HashInTree_find_seat key hashfunc isEqual m' = Ret (Some i) m'.
Proof.
  intros Hwf Hh Hrefl Hfind Hn Hd.
  destruct (find_seat_scan isEqual key hashfunc m Hwf Hh) as (r & Hr & Hres).
  rewrite Hr in Hfind. injection Hfind as ->.
  destruct Hres as (k & Hk & ->).
  set (h := hashfunc (ht_size (hashintree m)) key) in *.
  set (f := set_data (K:=K) (W:=W) (Some key)).
  set (m' := with_nodes
               (alter f (Z.to_nat (probe_slot m h k))
                  (ht_nodes (hashintree m))) m).
  exists m'.
  split; [unfold node_update; rewrite Hn; reflexivity|].
  pose proof (table_wf_alter m f (Z.to_nat (probe_slot m h k)) Hwf) as Hwf'.
  pose proof (first_fit_alter_seat isEqual key m f h k n Hwf Hh Hk Hn Hrefl)
    as Hk'.
  fold m' in Hwf', Hk'.
  split.
  - change (Some (probe_slot m h k))
      with (Some (probe_slot m' (hashfunc (ht_size (hashintree m')) key) k)).
    apply (lookup_first_fit isEqual key hashfunc m' k Hwf' Hh Hk').
    change (occupied_at m' (probe_slot m h k)).
    exists (f n), key. unfold m'.
    rewrite nodes_alter_get
      by (pose proof (array_get_Some _ _ _ Hn); lia).
    destruct (decide (probe_slot m h k = probe_slot m h k)); [|congruence].
    rewrite Hn. split; reflexivity.
  - apply (find_seat_first_fit isEqual key hashfunc m' k Hwf' Hh Hk').
Qed.

(** A record that a lookup finds stays found at its slot whatever is
    written into a slot that was empty. *)
Theorem lookup_survives_seating m key j i (n : MinHeapNode K W)
    (f : MinHeapNode K W -> MinHeapNode K W) :
  table_wf m ->
  0 <= hashfunc (ht_size (hashintree m)) key < ht_size (hashintree m) ->
  HashInTree_get_node_by_data key hashfunc isEqual m = Ret (Some j) m ->
  array_get (ht_nodes (hashintree m)) i = Some n ->
  data n = None ->
  exists m',
    node_update (Some i) f m = Ret tt m'
    /\ HashInTree_get_node_by_data key hashfunc isEqual m' = Ret (Some j) m'.
Proof.
  intros Hwf Hh Hget Hn Hd.
  destruct (lookup_found isEqual key hashfunc m j Hwf Hh Hget)
    as (k & Hk & -> & (nj & dj & Hnj & Hdj & He)).
  set (h := hashfunc (ht_size (hashintree m)) key) in *.
  pose proof (array_get_Some _ _ _ Hn) as Hi.
  set (m' := with_nodes (alter f (Z.to_nat i) (ht_nodes (hashintree m))) m).
  exists m'.
  split; [unfold node_update; rewrite Hn; reflexivity|].
  assert (Hclear : forall j', 0 <= j' <= k -> probe_slot m h j' <> i).
  { intros j' Hj' Heq. subst i.
    destruct (decide (j' = k)) as [->|Hne]; [congruence|].
    destruct Hk as (_ & _ & Hbefore).
    destruct (fits_false isEqual key m _ n Hn (Hbefore j' ltac:(lia)))
      as (d & Hd' & _).
    congruence. }
  pose proof (first_fit_alter_clear isEqual key m f h k i ltac:(lia) Hk Hclear)
    as Hk'.
  fold m' in Hk'.
  change (Some (probe_slot m h k))
    with (Some (probe_slot m' (hashfunc (ht_size (hashintree m')) key) k)).
  apply (lookup_first_fit isEqual key hashfunc m' k
           (table_wf_alter m f (Z.to_nat i) Hwf) Hh Hk').
  change (occupied_at m' (probe_slot m h k)).
  exists nj, dj. unfold m'.
  rewrite nodes_alter_get by lia.
  destruct (decide (i = probe_slot m h k)) as [Heq|_];
    [exfalso; apply (Hclear k ltac:(destruct Hk; lia)); congruence|].
  split; assumption.
Qed.

End TableGuarantees.

(** ** Tables with the same keys *)

Section SameKeys.

Context {K W : Type}.
Implicit Types (m : Mem K W) (key : K).
Variable hashfunc : Z -> K -> Z.
Variable isEqual : K -> K -> bool.

Lemma same_keys_get m m' i :
  same_keys m m' ->
  data <$> array_get (ht_nodes (hashintree m')) i
  = data <$> array_get (ht_nodes (hashintree m)) i.
Proof.
  intros [_ Hdata]. rewrite <- !array_get_fmap, Hdata. reflexivity.
Qed.

Lemma same_keys_refl m : same_keys m m.
Proof. split; reflexivity. Qed.

Lemma same_keys_trans m1 m2 m3 :
  same_keys m1 m2 -> same_keys m2 m3 -> same_keys m1 m3.
Proof. intros [H1 H2] [H3 H4]. split; congruence. Qed.

Lemma same_keys_alter m (f : MinHeapNode K W -> MinHeapNode K W) i :
  (forall n, data (f n) = data n) ->
  same_keys m (with_nodes (alter f i (ht_nodes (hashintree m))) m).
Proof.
  intros Hf. split; [reflexivity|]. simpl.
  apply list_eq. intros j. rewrite !list_lookup_fmap.
  destruct (decide (i = j)) as [->|Hne].
  - rewrite list_lookup_alter_eq.
    destruct (ht_nodes (hashintree m) !! j); simpl; [|reflexivity].
    rewrite Hf. reflexivity.
  - rewrite list_lookup_alter_ne by exact Hne. reflexivity.
Qed.

Lemma find_seat_loop_same_keys m m' key hash :
  same_keys m m' ->
  forall fuel index,
  returned (find_seat_loop fuel isEqual key hash index m')
  = returned (find_seat_loop fuel isEqual key hash index m).
Proof.
  intros Hsame.
  induction fuel as [|fuel IH]; intros index; simpl; [reflexivity|].
  unfold bind, table_load.
  pose proof (same_keys_get m m' index Hsame) as Hget.
  destruct (array_get (ht_nodes (hashintree m')) index) as [n'|],
           (array_get (ht_nodes (hashintree m)) index) as [n|];
    simpl in Hget; try discriminate; [|reflexivity].
  injection Hget as Hd. unfold seat_fits. rewrite Hd.
  destruct (match data n with Some d => isEqual key d | None => true end);
    [reflexivity|].
  unfold get_table_size. destruct Hsame as [-> _].
  destruct (ht_size (hashintree m) =? 0); [reflexivity|].
  destruct (_ =? hash); [reflexivity|]. apply IH.
Qed.

Lemma get_node_loop_same_keys m m' key hash :
  same_keys m m' ->
  forall fuel index,
  returned (get_node_loop fuel isEqual key hash index m')
  = returned (get_node_loop fuel isEqual key hash index m).
Proof.
  intros Hsame.
  induction fuel as [|fuel IH]; intros index; simpl; [reflexivity|].
  unfold bind, table_load.
  pose proof (same_keys_get m m' index Hsame) as Hget.
  destruct (array_get (ht_nodes (hashintree m')) index) as [n'|],
           (array_get (ht_nodes (hashintree m)) index) as [n|];
    simpl in Hget; try discriminate; [|reflexivity].
  injection Hget as Hd. rewrite Hd.
  destruct (data n) as [d|]; [|reflexivity].
  destruct (isEqual key d); [reflexivity|].
  unfold get_table_size. destruct Hsame as [-> _].
  destruct (_ =? hash); [reflexivity|]. apply IH.
Qed.

Lemma probes_same_keys m m' key :
  same_keys m m' ->
  returned (HashInTree_find_seat key hashfunc isEqual m')
  = returned (HashInTree_find_seat key hashfunc isEqual m)
  /\ returned (HashInTree_get_node_by_data key hashfunc isEqual m')
     = returned (HashInTree_get_node_by_data key hashfunc isEqual m).
Proof.
  intros Hsame.
  unfold HashInTree_find_seat, HashInTree_get_node_by_data, bind,
    get_table_size.
  pose proof Hsame as [-> _].
  split; [apply find_seat_loop_same_keys | apply get_node_loop_same_keys];
    exact Hsame.
Qed.

(** Both probes read nothing of a record but its key: after any write to
    a record that leaves its [data] as it was (a new weight, a new parent,
    a new heap position), every seat search and every lookup answers as
    before. *)
Theorem probes_ignore_other_fields m key i
    (f : MinHeapNode K W -> MinHeapNode K W) m' :
  (forall n, data (f n) = data n) ->
  node_update (Some i) f m = Ret tt m' ->
  returned (HashInTree_find_seat key hashfunc isEqual m')
  = returned (HashInTree_find_seat key hashfunc isEqual m)
  /\ returned (HashInTree_get_node_by_data key hashfunc isEqual m')
     = returned (HashInTree_get_node_by_data key hashfunc isEqual m).
Proof.
  intros Hf Hupd. apply probes_same_keys.
  unfold node_update in Hupd.
  destruct (array_get _ i); [|discriminate].
  injection Hupd as <-. apply same_keys_alter. exact Hf.
Qed.

End SameKeys.

(** ** The table invariant *)

Section FreshTable.

Context {K W : Type}.
Implicit Types (m : Mem K W) (key : K).
Variable hashfunc : Z -> K -> Z.
Variable isEqual : K -> K -> bool.

Lemma create_wf (alloc : Z -> MinHeapNode K W) size heap :
  0 <= size < size_modulus ->
  table_wf (mkMem (HashInTree_create alloc size) heap).
Proof.
  intros Hs. split; simpl; [|lia].
  rewrite length_fmap, length_seqZ. lia.
Qed.

Lemma create_no_occupant (alloc : Z -> MinHeapNode K W) size heap i :
  ~ occupied_at (mkMem (HashInTree_create alloc size) heap) i.
Proof.
  intros (n & d & Hn & Hd). simpl in Hn.
  unfold array_get in Hn. destruct (0 <=? i); [|discriminate].
  apply create_all_empty in Hn. congruence.
Qed.

Lemma create_table_inv (alloc : Z -> MinHeapNode K W) size heap :
  0 <= size < size_modulus ->
  table_inv hashfunc isEqual (mkMem (HashInTree_create alloc size) heap).
Proof.
  intros Hs. split; [apply create_wf; exact Hs|]. split.
  - intros i n d Hn Hd. exfalso.
    apply (create_no_occupant alloc size heap i). exists n, d. auto.
  - intros i j ni nj di dj Hi Hj Hdi Hdj _. exfalso.
    apply (create_no_occupant alloc size heap i). exists ni, di. auto.
Qed.

Lemma fresh_table_facts (alloc : Z -> MinHeapNode K W) size heap key :
  0 <= size < size_modulus ->
  0 <= hashfunc size key < size ->
  table_inv hashfunc isEqual (mkMem (HashInTree_create alloc size) heap)
  /\ (forall i, ~ occupied_at (mkMem (HashInTree_create alloc size) heap) i)
  /\ HashInTree_find_seat key hashfunc isEqual
       (mkMem (HashInTree_create alloc size) heap)
     = Ret (Some (hashfunc size key))
         (mkMem (HashInTree_create alloc size) heap)
  /\ HashInTree_get_node_by_data key hashfunc isEqual
       (mkMem (HashInTree_create alloc size) heap)
     = Ret None (mkMem (HashInTree_create alloc size) heap).
Proof.
  intros Hs Hh.
  set (m := mkMem (HashInTree_create alloc size) heap).
  pose proof (create_wf alloc size heap Hs) as Hwf. fold m in Hwf.
  split; [apply create_table_inv; exact Hs|].
  split; [intros i; apply create_no_occupant|].
  assert (Hempty : empty_at m (hashfunc size key)).
  { exists (set_data None (alloc (hashfunc size key))).
    split; [|reflexivity]. apply array_get_create. exact Hh. }
  assert (Hk : first_fit isEqual key m
                 (hashfunc (ht_size (hashintree m)) key) 0).
  { split; [simpl; lia|]. split; [|intros j Hj; lia].
    rewrite probe_slot_0 by exact Hh. apply fits_true. left. exact Hempty. }
  pose proof (probe_slot_0 m (hashfunc size key) Hh) as H0.
  split.
  - rewrite <- H0.
    apply (find_seat_first_fit isEqual key hashfunc m 0 Hwf Hh Hk).
  - apply (lookup_first_fit_empty isEqual key hashfunc m 0 Hwf Hh Hk).
    change (empty_at m (probe_slot m (hashfunc size key) 0)).
    rewrite H0. exact Hempty.
Qed.

(** [HashInTree_create]: whatever [malloc] left in the records, the new
    table satisfies the table invariant, every key is seated at the slot it
    hashes to, and no key is found. *)
Theorem fresh_table_is_empty (alloc : Z -> MinHeapNode K W) size heap key :
  0 <= size < size_modulus ->
  0 <= hashfunc size key < size ->
  table_inv hashfunc isEqual (mkMem (HashInTree_create alloc size) heap)
  /\ (forall i, ~ occupied_at (mkMem (HashInTree_create alloc size) heap) i)
  /\ HashInTree_find_seat key hashfunc isEqual
       (mkMem (HashInTree_create alloc size) heap)
     = Ret (Some (hashfunc size key))
         (mkMem (HashInTree_create alloc size) heap)
  /\ HashInTree_get_node_by_data key hashfunc isEqual
       (mkMem (HashInTree_create alloc size) heap)
     = Ret None (mkMem (HashInTree_create alloc size) heap).
Proof. apply fresh_table_facts. Qed.

End FreshTable.

Section TableInvariant.

Context {K W : Type}.
Implicit Types (m : Mem K W) (key : K).
Variable hashfunc : Z -> K -> Z.
Variable isEqual : K -> K -> bool.
Hypothesis isEqual_sym :
  forall a b, isEqual a b = true -> isEqual b a = true.
Hypothesis isEqual_trans :
  forall a b c, isEqual a b = true -> isEqual b c = true ->
                isEqual a c = true.
Hypothesis hash_compat :
  forall size a b, isEqual a b = true -> hashfunc size a = hashfunc size b.

(** On a table that satisfies the invariant, a probe whose first fit is
    an empty slot is the probe of a key that no slot holds. *)
Lemma first_fit_empty_absent m key k :
  table_inv hashfunc isEqual m ->
  first_fit isEqual key m (hashfunc (ht_size (hashintree m)) key) k ->
  empty_at m (probe_slot m (hashfunc (ht_size (hashintree m)) key) k) ->
  forall i, ~ holds isEqual key m i.
Proof.
  intros ([Hlen Hmod] & Hreach & _) (Hk & Hfit & Hbefore) (n & Hn & Hd) i
         (ni & di & Hni & Hdi & He).
  set (size := ht_size (hashintree m)) in *.
  set (h := hashfunc size key) in *.
  destruct (Hreach i ni di Hni Hdi) as [Hh Hpath].
  fold size in Hh, Hpath.
  rewrite <- (hash_compat size key di He) in Hh, Hpath. fold h in Hh, Hpath.
  pose proof (array_get_Some _ _ _ Hni) as Hi. rewrite Hlen in Hi.
  fold size in Hi.
  set (ki := (i - h) mod size) in *.
  assert (Hki : 0 <= ki < size) by (apply Z.mod_pos_bound; lia).
  assert (Hslot : probe_slot m h ki = i)
    by (apply offset_of_slot; assumption).
  destruct (Z.lt_trichotomy k ki) as [Hlt|[Heq|Hgt]].
  - destruct (Hpath k ltac:(lia)) as (n' & d' & Hn' & Hd'). congruence.
  - subst k. rewrite Hslot in Hn. congruence.
  - specialize (Hbefore ki ltac:(lia)). rewrite Hslot in Hbefore.
    assert (Ht : fits isEqual key m i = true)
      by (apply fits_true; right; exists ni, di; auto).
    congruence.
Qed.

Lemma seat_table_inv m key i (n : MinHeapNode K W) :
  table_inv hashfunc isEqual m ->
  0 <= hashfunc (ht_size (hashintree m)) key < ht_size (hashintree m) ->
  HashInTree_find_seat key hashfunc isEqual m = Ret (Some i) m ->
  array_get (ht_nodes (hashintree m)) i = Some n ->
  data n = None ->
  exists m',
    node_update (Some i) (set_data (Some key)) m = Ret tt m'
    /\ table_inv hashfunc isEqual m'.
Proof.
  intros Hinv Hh Hfind Hn Hd.
  pose proof Hinv as (Hwf & Hreach & Hdist).
  destruct (find_seat_scan isEqual key hashfunc m Hwf Hh) as (r & Hr & Hres).
  rewrite Hr in Hfind. injection Hfind as ->.
  destruct Hres as (k & Hk & ->).
  set (size := ht_size (hashintree m)) in *.
  set (h := hashfunc size key) in *.
  set (i := probe_slot m h k) in *.
  set (f := set_data (K:=K) (W:=W) (Some key)).
  set (m' := with_nodes (alter f (Z.to_nat i) (ht_nodes (hashintree m))) m).
  pose proof (array_get_Some _ _ _ Hn) as Hi.
  assert (Habsent : forall x, ~ holds isEqual key m x).
  { apply (first_fit_empty_absent m key k Hinv Hk). exists n. auto. }
  assert (Hget : forall x,
            array_get (ht_nodes (hashintree m')) x
            = if decide (i = x) then Some (f n)
              else array_get (ht_nodes (hashintree m)) x).
  { intros x. unfold m'. rewrite nodes_alter_get by lia.
    destruct (decide (i = x)) as [<-|]; [rewrite Hn|]; reflexivity. }
  assert (Hocc : forall x, occupied_at m x -> occupied_at m' x).
  { intros x (nx & dx & Hnx & Hdx). unfold occupied_at. rewrite Hget.
    destruct (decide (i = x)); [exists (f n), key | exists nx, dx]; auto. }
  exists m'. split; [unfold node_update; rewrite Hn; reflexivity|].
  split; [apply table_wf_alter; exact Hwf|]. split.
  - intros x nx dx Hnx Hdx. rewrite Hget in Hnx.
    change (ht_size (hashintree m')) with size.
    destruct (decide (i = x)) as [<-|Hne].
    + injection Hnx as <-. injection Hdx as <-. fold h.
      split; [exact Hh|]. intros j Hj.
      unfold i, probe_slot in Hj. fold size in Hj.
      destruct Hk as (Hk & _ & Hbefore).
      rewrite slot_of_offset in Hj by assumption.
      apply Hocc.
      destruct Hwf as [Hlen Hmod].
      destruct (array_get_lt (ht_nodes (hashintree m)) (probe_slot m h j)
                  ltac:(rewrite Hlen; apply probe_slot_range; fold size; lia))
        as [nj Hnj].
      destruct (fits_false isEqual key m _ nj Hnj (Hbefore j Hj))
        as (dj & Hdj & _).
      exists nj, dj. auto.
    + destruct (Hreach x nx dx Hnx Hdx) as [Hhx Hpath].
      split; [exact Hhx|]. intros j Hj. apply Hocc. apply Hpath. exact Hj.
  - intros x y nx ny dx dy Hnx Hny Hdx Hdy He.
    rewrite Hget in Hnx, Hny.
    destruct (decide (i = x)) as [<-|Hx], (decide (i = y)) as [<-|Hy].
    + reflexivity.
    + injection Hnx as <-. injection Hdx as <-.
      exfalso. apply (Habsent y). exists ny, dy. auto.
    + injection Hny as <-. injection Hdy as <-.
      exfalso. apply (Habsent x). exists nx, dx. auto.
    + eapply Hdist; eassumption.
Qed.

(** Seating a key keeps the invariant: when [HashInTree_find_seat] has
    returned an empty slot for the key and the key is written into it, the
    table satisfies the invariant again. *)
Theorem seating_keeps_table_invariant m key i (n : MinHeapNode K W) :
  table_inv hashfunc isEqual m ->
  0 <= hashfunc (ht_size (hashintree m)) key < ht_size (hashintree m) ->
  HashInTree_find_seat key hashfunc isEqual m = Ret (Some i) m ->
  array_get (ht_nodes (hashintree m)) i = Some n ->
  data n = None ->
  exists m',
    node_update (Some i) (set_data (Some key)) m = Ret tt m'
    /\ table_inv hashfunc isEqual m'.
Proof. apply seat_table_inv. Qed.

Lemma lookup_exact m key :
  table_inv hashfunc isEqual m ->
  0 <= hashfunc (ht_size (hashintree m)) key < ht_size (hashintree m) ->
  (forall i,
     HashInTree_get_node_by_data key hashfunc isEqual m = Ret (Some i) m
     <-> holds isEqual key m i)
  /\ (HashInTree_get_node_by_data key hashfunc isEqual m = Ret None m
      <-> forall i, ~ holds isEqual key m i).
Proof.
  intros Hinv Hh.
  pose proof Hinv as (Hwf & Hreach & Hdist).
  assert (Hfound : forall i, holds isEqual key m i ->
            HashInTree_get_node_by_data key hashfunc isEqual m
            = Ret (Some i) m).
  { intros i Hi.
    destruct (find_seat_scan isEqual key hashfunc m Hwf Hh)
      as (r & Hr & Hres).
    destruct r as [i0|].
    - destruct Hres as (k & Hk & ->).
      pose proof Hk as (_ & Hfit & _). apply fits_true in Hfit.
      destruct Hfit as [Hempty|Hholds].
      + exfalso. exact (first_fit_empty_absent m key k Hinv Hk Hempty i Hi).
      + destruct Hi as (n & d & Hn & Hd & He).
        destruct Hholds as (n0 & d0 & Hn0 & Hd0 & He0).
        assert (probe_slot m (hashfunc (ht_size (hashintree m)) key) k = i)
          as <-.
        { apply (Hdist _ _ n0 n d0 d Hn0 Hn Hd0 Hd).
          apply (isEqual_trans d0 key d); [apply isEqual_sym|]; assumption. }
        apply (lookup_first_fit isEqual key hashfunc m k Hwf Hh Hk).
        exists n0, d0. auto.
    - exfalso. destruct Hwf as [Hlen Hmod].
      destruct Hi as (n & d & Hn & Hd & He).
      pose proof (array_get_Some _ _ _ Hn) as Hrange. rewrite Hlen in Hrange.
      pose proof (Hres ((i - hashfunc (ht_size (hashintree m)) key)
                          mod ht_size (hashintree m))
                    ltac:(apply Z.mod_pos_bound; lia)) as Hno.
      unfold probe_slot in Hno. rewrite offset_of_slot in Hno by assumption.
      assert (Ht : fits isEqual key m i = true)
        by (apply fits_true; right; exists n, d; auto).
      congruence. }
  split.
  - intros i. split; [|apply Hfound].
    intros Hget.
    destruct (lookup_found isEqual key hashfunc m i Hwf Hh Hget)
      as (k & _ & _ & Hholds).
    exact Hholds.
  - split.
    + intros Hnone i Hi. rewrite (Hfound i Hi) in Hnone. discriminate.
    + intros Habsent.
      destruct (lookup_result hashfunc isEqual m key Hwf Hh)
        as (r & Hr & Hres).
      rewrite Hr. destruct r as [i|]; [|reflexivity].
      exfalso. exact (Habsent i (Hres i eq_refl)).
Qed.

(** On a table that satisfies the invariant the lookup is exact: it
    returns a slot if and only if that slot holds the key, and [NULL] if
    and only if no slot does. *)
Theorem lookup_finds_exactly_the_seated m key :
  table_inv hashfunc isEqual m ->
  0 <= hashfunc (ht_size (hashintree m)) key < ht_size (hashintree m) ->
  (forall i,
     HashInTree_get_node_by_data key hashfunc isEqual m = Ret (Some i) m
     <-> holds isEqual key m i)
  /\ (HashInTree_get_node_by_data key hashfunc isEqual m = Ret None m
      <-> forall i, ~ holds isEqual key m i).
Proof. apply lookup_exact. Qed.

End TableInvariant.

(** ** What the heap operations leave alone *)

Section Quiet.

Context {K W : Type}.
Implicit Types (m : Mem K W).

Lemma same_records_refl m : same_records m m.
Proof. repeat split. Qed.

Lemma same_records_trans m1 m2 m3 :
  same_records m1 m2 -> same_records m2 m3 -> same_records m1 m3.
Proof.
  intros (A1 & A2 & A3 & A4 & A5) (B1 & B2 & B3 & B4 & B5).
  repeat split; congruence.
Qed.

Lemma same_records_keys m m' : same_records m m' -> same_keys m m'.
Proof.
  intros (_ & Hs & _ & _ & Hr). split; [exact Hs|].
  assert (Hd : forall l : list (MinHeapNode K W),
            data <$> l = (fun r => fst (fst r)) <$> (record_of <$> l)).
  { intros l. rewrite <- list_fmap_compose. reflexivity. }
  rewrite !Hd, Hr. reflexivity.
Qed.

Lemma same_records_get m m' a :
  same_records m m' ->
  record_of <$> array_get (ht_nodes (hashintree m')) a
  = record_of <$> array_get (ht_nodes (hashintree m)) a.
Proof.
  intros (_ & _ & _ & _ & Hr). rewrite <- !array_get_fmap, Hr. reflexivity.
Qed.

Lemma quiet_ret {A} (a : A) : quiet (K:=K) (W:=W) (ret a).
Proof. intros m. apply same_records_refl. Qed.

Lemma quiet_fault {A} : quiet (K:=K) (W:=W) (A:=A) fault.
Proof. intros m. exact I. Qed.

Lemma quiet_out_of_fuel {A} : quiet (K:=K) (W:=W) (A:=A) out_of_fuel.
Proof. intros m. exact I. Qed.

Lemma quiet_bind {A B} (c : M K W A) (k : A -> M K W B) :
  quiet c -> (forall a, quiet (k a)) -> quiet (bind c k).
Proof.
  intros Hc Hk m. unfold bind. specialize (Hc m).
  destruct (c m) as [a m1| | |]; try exact Hc.
  specialize (Hk a m1).
  destruct (k a m1) as [b m2| | |]; try exact Hk.
  eapply same_records_trans; eassumption.
Qed.

Lemma quiet_get_size : quiet (K:=K) (W:=W) get_size.
Proof. intros m. apply same_records_refl. Qed.

Lemma quiet_get_capacity : quiet (K:=K) (W:=W) get_capacity.
Proof. intros m. apply same_records_refl. Qed.

Lemma quiet_put_size s : quiet (K:=K) (W:=W) (put_size s).
Proof. intros m. repeat split. Qed.

Lemma quiet_heap_load i : quiet (K:=K) (W:=W) (heap_load i).
Proof.
  intros m. unfold heap_load.
  destruct (array_get _ i); [apply same_records_refl|exact I].
Qed.

Lemma quiet_heap_store i p : quiet (K:=K) (W:=W) (heap_store i p).
Proof.
  intros m. unfold heap_store.
  destruct (array_get _ i); [|exact I].
  repeat split. simpl. apply length_insert.
Qed.

Lemma quiet_node_load p : quiet (K:=K) (W:=W) (node_load p).
Proof.
  intros m. destruct p as [a|]; simpl; [|exact I].
  unfold table_load. destruct (array_get _ a); [apply same_records_refl|exact I].
Qed.

Lemma quiet_set_heapIndex p i :
  quiet (K:=K) (W:=W) (node_update p (set_heapIndex i)).
Proof.
  intros m. unfold node_update. destruct p as [a|]; [|exact I].
  destruct (array_get _ a); [|exact I].
  repeat split. simpl.
  apply list_eq. intros j. rewrite !list_lookup_fmap.
  destruct (decide (Z.to_nat a = j)) as [<-|Hne].
  - rewrite list_lookup_alter_eq.
    destruct (ht_nodes (hashintree m) !! Z.to_nat a); reflexivity.
  - rewrite list_lookup_alter_ne by exact Hne. reflexivity.
Qed.

Create HintDb quiet.

#[local] Hint Resolve quiet_ret quiet_fault quiet_out_of_fuel quiet_get_size
  quiet_get_capacity quiet_put_size quiet_heap_load quiet_heap_store
  quiet_node_load quiet_set_heapIndex : quiet.

Ltac quiet_step :=
  first
    [ apply quiet_bind; [|intros ?]
    | match goal with
      | |- quiet (if ?b then _ else _) => destruct b
      | |- quiet (match ?p with Some _ => _ | None => _ end) => destruct p
      end
    | solve [auto with quiet] ].

Variable isBetterThan : W -> W -> bool.

Lemma quiet_bubble_up_loop this_node : forall fuel curr_index,
  quiet (K:=K) (bubble_up_loop fuel isBetterThan this_node curr_index).
Proof.
  induction fuel as [|fuel IH]; intros curr_index; simpl;
    [apply quiet_out_of_fuel|].
  repeat quiet_step.
Qed.

Lemma quiet_bubble_up curr_index :
  quiet (K:=K) (MinHeap_bubble_up curr_index isBetterThan).
Proof.
  unfold MinHeap_bubble_up, bubble_up_from.
  repeat quiet_step; apply quiet_bubble_up_loop.
Qed.

Lemma quiet_smaller_child l r : quiet (K:=K) (smaller_child isBetterThan l r).
Proof. unfold smaller_child. repeat quiet_step. Qed.

Lemma quiet_bubble_down_loop curr_node : forall fuel curr_index l r,
  quiet (K:=K) (bubble_down_loop fuel isBetterThan curr_node curr_index l r).
Proof.
  induction fuel as [|fuel IH]; intros curr_index l r; simpl;
    [apply quiet_out_of_fuel|].
  repeat quiet_step; apply quiet_smaller_child.
Qed.

Lemma quiet_pluck_min : quiet (K:=K) (MinHeap_pluck_min isBetterThan).
Proof.
  unfold MinHeap_pluck_min, bubble_down.
  repeat quiet_step; apply quiet_bubble_down_loop.
Qed.

Lemma update_key_cases (node : ptr) (NodeIsNew : bool) m :
  MinHeap_update_key node NodeIsNew isBetterThan m
  = if NodeIsNew && (mh_size (minheap m) =? mh_capacity (minheap m))
    then Exit 2 m
    else
      ((if NodeIsNew then
          heap_store (mh_size (minheap m)) node ;;;
          put_size (wrap (mh_size (minheap m) + 1))
        else ret tt) ;;;
       n <- node_load node ;;
       MinHeap_bubble_up (heapIndex n) isBetterThan) m.
Proof.
  unfold MinHeap_update_key. destruct NodeIsNew; simpl; [|reflexivity].
  unfold bind at 1 2 3. unfold get_size, get_capacity.
  destruct (mh_size (minheap m) =? mh_capacity (minheap m)); reflexivity.
Qed.

Lemma quiet_update_key_rest (node : ptr) (NodeIsNew : bool) s :
  quiet (K:=K)
    ((if NodeIsNew then heap_store s node ;;; put_size (wrap (s + 1))
      else ret tt) ;;;
     n <- node_load node ;;
     MinHeap_bubble_up (heapIndex n) isBetterThan).
Proof. repeat quiet_step; apply quiet_bubble_up_loop. Qed.

Lemma update_key_same_records m (node : ptr) (NodeIsNew : bool) m' :
  MinHeap_update_key node NodeIsNew isBetterThan m = Ret tt m' ->
  same_records m m'.
Proof.
  rewrite update_key_cases.
  pose proof (quiet_update_key_rest node NodeIsNew (mh_size (minheap m)) m)
    as Hq.
  destruct (NodeIsNew && (mh_size (minheap m) =? mh_capacity (minheap m)));
    [discriminate|].
  intros Hrun. rewrite Hrun in Hq. exact Hq.
Qed.

Lemma pluck_min_same_records m r m' :
  MinHeap_pluck_min isBetterThan m = Ret r m' -> same_records m m'.
Proof.
  intros Hrun. pose proof (quiet_pluck_min m) as Hq.
  rewrite Hrun in Hq. exact Hq.
Qed.

(** [MinHeap_pluck_min] never ends the run, and when it returns it has
    touched nothing but the heap's slots, the heap's size and the records'
    [heapIndex]: every key, weight and parent in the table is as it was,
    and so is the answer of every lookup. *)
Theorem pluck_min_touches_positions_only m :
  (forall code m', MinHeap_pluck_min isBetterThan m <> Exit code m')
  /\ (forall r m',
        MinHeap_pluck_min isBetterThan m = Ret r m' ->
        same_records m m'
        /\ forall key hashfunc isEqual,
             returned (HashInTree_get_node_by_data key hashfunc isEqual m')
             = returned (HashInTree_get_node_by_data key hashfunc isEqual m)).
Proof.
  pose proof (quiet_pluck_min m) as Hq. split.
  - intros code m' Hexit. rewrite Hexit in Hq. exact Hq.
  - intros r m' Hrun. rewrite Hrun in Hq. split; [exact Hq|].
    intros key hashfunc isEqual.
    apply probes_same_keys, same_records_keys. exact Hq.
Qed.

(** [MinHeap_update_key] ends the run only with the code 2, only when it
    is to insert and the heap is full, and it has written nothing then;
    when it returns it has touched nothing but the heap's slots, the
    heap's size and the records' [heapIndex]. *)
Theorem update_key_touches_positions_only m (node : ptr) (NodeIsNew : bool) :
  (forall code m',
     MinHeap_update_key node NodeIsNew isBetterThan m = Exit code m' ->
     code = 2 /\ m' = m /\ NodeIsNew = true
     /\ mh_size (minheap m) = mh_capacity (minheap m))
  /\ (forall m',
        MinHeap_update_key node NodeIsNew isBetterThan m = Ret tt m' ->
        same_records m m'
        /\ forall key hashfunc isEqual,
             returned (HashInTree_get_node_by_data key hashfunc isEqual m')
             = returned (HashInTree_get_node_by_data key hashfunc isEqual m)).
Proof.
  rewrite update_key_cases.
  pose proof (quiet_update_key_rest node NodeIsNew (mh_size (minheap m)) m)
    as Hq.
  destruct (NodeIsNew && (mh_size (minheap m) =? mh_capacity (minheap m)))
    eqn:E.
  - apply andb_true_iff in E. destruct E as [-> E]. apply Z.eqb_eq in E.
    split; [|discriminate].
    intros code m' [= <- <-]. auto.
  - split.
    + intros code m' Hexit. rewrite Hexit in Hq. destruct Hq.
    + intros m' Hrun. rewrite Hrun in Hq. split; [exact Hq|].
      intros key hashfunc isEqual.
      apply probes_same_keys, same_records_keys. exact Hq.
Qed.

End Quiet.

(** ** Who is in the heap *)

Section Inversion.

Context {K W : Type}.
Implicit Types (m : Mem K W).

Lemma bind_Ret_inv {A B} (c : M K W A) (k : A -> M K W B) m b m' :
  bind c k m = Ret b m' ->
  exists a m1, c m = Ret a m1 /\ k a m1 = Ret b m'.
Proof.
  unfold bind. destruct (c m) as [a m1| | |]; try discriminate.
  intros H. exists a, m1. auto.
Qed.

Lemma heap_load_inv i m p m' :
  heap_load i m = Ret p m' ->
  m' = m /\ array_get (mh_heap (minheap m)) i = Some p.
Proof.
  unfold heap_load. destruct (array_get _ i); [|discriminate].
  intros [= -> ->]. auto.
Qed.

Lemma heap_store_inv i p m m' :
  heap_store i p m = Ret tt m' ->
  m' = with_heap (<[Z.to_nat i := p]> (mh_heap (minheap m))) m
  /\ 0 <= i < Z.of_nat (length (mh_heap (minheap m))).
Proof.
  unfold heap_store. destruct (array_get _ i) eqn:E; [|discriminate].
  intros [= <-]. split; [reflexivity|]. eapply array_get_Some, E.
Qed.

Lemma node_update_inv p (f : MinHeapNode K W -> MinHeapNode K W) m m' :
  node_update p f m = Ret tt m' ->
  exists a, p = Some a
    /\ m' = with_nodes (alter f (Z.to_nat a) (ht_nodes (hashintree m))) m.
Proof.
  unfold node_update. destruct p as [a|]; [|discriminate].
  destruct (array_get _ a); [|discriminate].
  intros [= <-]. exists a. auto.
Qed.

Lemma spec_weight_at_inv i m w m' :
  spec_weight_at i m = Ret w m' -> m' = m /\ slot_weight m i = Some w.
Proof.
  rewrite spec_weight_at_eq. destruct (slot_weight m i); [|discriminate].
  intros [= -> ->]. auto.
Qed.

End Inversion.

Section Residents.

Context {K W : Type}.
Implicit Types (m : Mem K W).
Variable isBetterThan : W -> W -> bool.

Lemma residents_lookup m i :
  0 <= i < mh_size (minheap m) ->
  residents m !! Z.to_nat i = mh_heap (minheap m) !! Z.to_nat i.
Proof. intros Hi. unfold residents. apply lookup_take_lt. lia. Qed.

Lemma residents_elem m p :
  p ∈ residents m <->
  exists i, 0 <= i < mh_size (minheap m)
            /\ array_get (mh_heap (minheap m)) i = Some p.
Proof.
  unfold residents. rewrite list_elem_of_lookup. split.
  - intros [j Hj]. apply lookup_take_Some in Hj. destruct Hj as [Hj Hlt].
    exists (Z.of_nat j). split; [lia|]. rewrite array_get_of_nat. exact Hj.
  - intros (i & Hi & Hp). exists (Z.to_nat i).
    apply lookup_take_Some. split; [|lia].
    unfold array_get in Hp. destruct (0 <=? i); [exact Hp|discriminate].
Qed.

(** A swap of two resident slots keeps the residents. *)
Lemma spec_swap_residents i j m m' :
  spec_swap i j m = Ret tt m' ->
  0 <= i < mh_size (minheap m) -> 0 <= j < mh_size (minheap m) ->
  mh_size (minheap m') = mh_size (minheap m)
  /\ residents m' ≡ₚ residents m.
Proof.
  unfold spec_swap. intros H Hi Hj.
  apply bind_Ret_inv in H. destruct H as (leaving & m1 & H1 & H).
  apply heap_load_inv in H1. destruct H1 as [-> Hleaving].
  apply bind_Ret_inv in H. destruct H as (coming & m1 & H1 & H).
  apply heap_load_inv in H1. destruct H1 as [-> Hcoming].
  apply bind_Ret_inv in H. destruct H as ([] & m1 & H1 & H).
  apply heap_store_inv in H1. destruct H1 as [-> _].
  apply bind_Ret_inv in H. destruct H as ([] & m2 & H2 & H).
  apply heap_store_inv in H2. destruct H2 as [-> _].
  apply bind_Ret_inv in H. destruct H as ([] & m3 & H3 & H).
  apply node_update_inv in H3. destruct H3 as (a & _ & ->).
  apply node_update_inv in H. destruct H as (b & _ & ->).
  split; [reflexivity|].
  unfold residents. simpl.
  rewrite !take_insert_lt by lia.
  unfold array_get in Hleaving, Hcoming.
  destruct (0 <=? i); [|discriminate]. destruct (0 <=? j); [|discriminate].
  apply Permutation_insert_swap; rewrite lookup_take_lt by lia; assumption.
Qed.

Lemma better_child_inv pos m c m' :
  spec_better_child isBetterThan pos m = Ret c m' ->
  left_child_index pos < mh_size (minheap m) ->
  m' = m /\ 0 <= c < mh_size (minheap m).
Proof.
  rewrite spec_better_child_eq. intros H Hl.
  assert (Hl0 : 0 <= left_child_index pos)
    by (unfold left_child_index; apply wrap_range).
  assert (Hr0 : 0 <= right_child_index pos)
    by (unfold right_child_index; apply wrap_range).
  destruct (right_child_index pos <? mh_size (minheap m)) eqn:Er.
  - apply Z.ltb_lt in Er.
    destruct (slot_weight m (left_child_index pos)); [|discriminate].
    destruct (slot_weight m (right_child_index pos)); [|discriminate].
    injection H as <- <-. split; [reflexivity|].
    destruct (isBetterThan _ _); lia.
  - injection H as <- <-. split; [reflexivity|lia].
Qed.

(** Sifting down moves residents about and neither adds nor drops one. *)
Lemma spec_sift_down_residents : forall fuel pos m m',
  spec_sift_down fuel isBetterThan pos m = Ret tt m' ->
  0 <= pos < mh_size (minheap m) ->
  mh_size (minheap m') = mh_size (minheap m)
  /\ residents m' ≡ₚ residents m.
Proof.
  induction fuel as [|fuel IH]; intros pos m m' H Hpos; [discriminate|].
  rewrite spec_sift_down_S in H.
  destruct (left_child_index pos <? mh_size (minheap m)) eqn:El;
    [|injection H as <-; auto].
  apply Z.ltb_lt in El.
  apply bind_Ret_inv in H. destruct H as (c & m1 & Hc & H).
  apply better_child_inv in Hc; [|exact El]. destruct Hc as [-> Hc].
  apply bind_Ret_inv in H. destruct H as (wc & m1 & H1 & H).
  apply spec_weight_at_inv in H1. destruct H1 as [-> _].
  apply bind_Ret_inv in H. destruct H as (wp & m1 & H1 & H).
  apply spec_weight_at_inv in H1. destruct H1 as [-> _].
  destruct (isBetterThan wc wp); [|injection H as <-; auto].
  apply bind_Ret_inv in H. destruct H as ([] & m1 & Hswap & H).
  apply spec_swap_residents in Hswap; [|lia|lia].
  destruct Hswap as [Hs1 Hr1].
  apply IH in H; [|lia]. destruct H as [Hs' Hr'].
  split; [congruence|]. rewrite Hr'. exact Hr1.
Qed.

(** So does sifting up. *)
Lemma spec_sift_up_residents : forall fuel pos m m',
  spec_sift_up fuel isBetterThan pos m = Ret tt m' ->
  0 <= pos < mh_size (minheap m) ->
  mh_size (minheap m') = mh_size (minheap m)
  /\ residents m' ≡ₚ residents m.
Proof.
  induction fuel as [|fuel IH]; intros pos m m' H Hpos; [discriminate|].
  rewrite spec_sift_up_S in H.
  destruct (0 <? pos) eqn:E0; [|injection H as <-; auto].
  apply Z.ltb_lt in E0.
  pose proof (parent_index_lt pos E0) as Hp.
  apply bind_Ret_inv in H. destruct H as (w & m1 & H1 & H).
  apply spec_weight_at_inv in H1. destruct H1 as [-> _].
  apply bind_Ret_inv in H. destruct H as (wp & m1 & H1 & H).
  apply spec_weight_at_inv in H1. destruct H1 as [-> _].
  destruct (isBetterThan w wp); [|injection H as <-; auto].
  apply bind_Ret_inv in H. destruct H as ([] & m1 & Hswap & H).
  apply spec_swap_residents in Hswap; [|lia|lia].
  destruct Hswap as [Hs1 Hr1].
  apply IH in H; [|lia]. destruct H as [Hs' Hr'].
  split; [congruence|]. rewrite Hr'. exact Hr1.
Qed.

(** [MinHeap_pluck_min] on a well-formed heap that is not empty returns
    the root and leaves the other residents in a heap one smaller. *)
Lemma pluck_min_returns m :
  heap_wf m = true -> 0 < mh_size (minheap m) ->
  exists a m',
    array_get (mh_heap (minheap m)) 0 = Some (Some a)
    /\ MinHeap_pluck_min isBetterThan m = Ret (Some a) m'
    /\ mh_size (minheap m') = mh_size (minheap m) - 1
    /\ residents m ≡ₚ Some a :: residents m'.
Proof.
  intros Hwf Hsize. apply heap_wf_spec in Hwf.
  destruct Hwf as (Hsz & Hlen & Hslots).
  assert (H63 : half_modulus = 9223372036854775808) by reflexivity.
  destruct (slot_valid_spec m 0 (Hslots 0 ltac:(lia)))
    as (r & nr & Hroot & Hnr).
  exists r.
  assert (Hhead : exists t, mh_heap (minheap m) = Some r :: t).
  { unfold array_get in Hroot. simpl in Hroot.
    destruct (mh_heap (minheap m)) as [|x t]; [discriminate|].
    injection Hroot as ->. exists t. reflexivity. }
  destruct Hhead as [t Ht].
  destruct (decide (mh_size (minheap m) = 1)) as [E1|E1].
  { eexists. split; [exact Hroot|].
    split; [apply pluck_min_single; assumption|].
    split; [simpl; lia|].
    unfold residents. simpl. rewrite E1, Ht. reflexivity. }
  destruct (slot_valid_spec m (mh_size (minheap m) - 1)
              (Hslots (mh_size (minheap m) - 1) ltac:(lia)))
    as (a & na & Hlast & Hna).
  pose proof (array_get_Some _ _ _ Hna) as Ha.
  rewrite (pluck_min_run isBetterThan m a (Some r)); try assumption;
    try lia; [|eexists; exact Hna].
  set (m1 := with_heap
               (<[Z.to_nat (mh_size (minheap m) - 1) := None]>
                  (mh_heap (minheap m)))
               (with_size (mh_size (minheap m) - 1) m)).
  set (fuel := S (Z.to_nat (mh_size (minheap m) - 1))).
  assert (Hm1 :
    mh_size (minheap m1) <= Z.of_nat (length (mh_heap (minheap m1)))
    /\ Z.of_nat (length (mh_heap (minheap m1))) < half_modulus
    /\ 0 <= 0 < mh_size (minheap m1)
    /\ 0 <= a < Z.of_nat (length (ht_nodes (hashintree m1)))).
  { subst m1. simpl. rewrite length_insert. lia. }
  destruct Hm1 as (Hsz1 & Hlen1 & Hpos1 & Ha1).
  destruct (bubble_down_total isBetterThan a fuel 0 m1)
    as (m' & Hrun & Hsize' & _); try assumption.
  { intros i Hi Hne. apply slot_valid_iff. subst m1. simpl in *.
    rewrite array_get_insert_ne by lia.
    apply slot_valid_iff, Hslots. lia. }
  { subst m1 fuel. simpl. lia. }
  rewrite bubble_down_refines in Hrun; try assumption; try lia;
    [|apply array_get_lt; assumption].
  exists m'. split; [exact Hroot|].
  split; [unfold bind; rewrite Hrun; reflexivity|].
  split; [rewrite Hsize'; reflexivity|].
  apply spec_sift_down_residents in Hrun; [|simpl; lia].
  destruct Hrun as [_ ->].
  unfold residents, seated, m1. simpl.
  set (n := Z.to_nat (mh_size (minheap m) - 1)).
  replace (Z.to_nat (mh_size (minheap m))) with (S n) by lia.
  assert (Hn : (0 < n)%nat) by lia.
  rewrite take_insert_lt by exact Hn.
  rewrite take_insert_ge by lia.
  unfold array_get in Hlast.
  destruct (0 <=? mh_size (minheap m) - 1); [|discriminate].
  fold n in Hlast.
  rewrite (take_S_r _ _ _ Hlast).
  rewrite Ht. destruct n as [|n']; [lia|]. simpl.
  constructor. symmetry. apply Permutation_cons_append.
Qed.

End Residents.

(** ** The priority queue *)

Section PriorityQueue.

Context {K W : Type}.
Implicit Types (m : Mem K W).
Variable isBetterThan : W -> W -> bool.
Hypothesis better_asym :
  forall x y, isBetterThan x y = true -> isBetterThan y x = false.
Hypothesis not_better_trans :
  forall x y z,
    isBetterThan y x = false -> isBetterThan z y = false ->
    isBetterThan z x = false.

(** In an ordered heap no resident is better than the root. *)
Lemma root_is_best m :
  heap_wf m = true -> heap_ordered isBetterThan m = true ->
  forall i, 0 <= i -> i < mh_size (minheap m) ->
  exists wi w0,
    slot_weight m i = Some wi /\ slot_weight m 0 = Some w0
    /\ isBetterThan wi w0 = false.
Proof.
  intros Hwf Hord. apply heap_wf_spec in Hwf.
  destruct Hwf as (Hsz & Hlen & Hslots).
  rewrite heap_ordered_iff in Hord.
  intros i Hi0. generalize Hi0. pattern i. apply Z_lt_induction; [|exact Hi0].
  clear i Hi0. intros i IH Hi0 Hi.
  destruct (decide (i = 0)) as [->|Hne].
  - destruct (slot_valid_weight m 0 (Hslots 0 ltac:(lia))) as [w0 Hw0].
    exists w0, w0. split; [exact Hw0|]. split; [exact Hw0|].
    apply (better_irrefl isBetterThan better_asym).
  - assert (Hpos : 0 < i) by lia.
    pose proof (parent_index_lt i Hpos) as Hp.
    destruct (Hord i ltac:(lia)) as (wi & wp & Hwi & Hwp & Hb).
    destruct (IH (parent_index i) ltac:(lia) ltac:(lia) ltac:(lia))
      as (wp' & w0 & Hwp' & Hw0 & Hb0).
    rewrite Hwp in Hwp'. injection Hwp' as <-.
    exists wi, w0. split; [exact Hwi|]. split; [exact Hw0|].
    exact (not_better_trans w0 wp wi Hb0 Hb).
Qed.

(** [MinHeap_pluck_min] on an ordered heap that is not empty returns the
    record at the root, which no resident is better than; the residents it
    leaves, with the returned record added, are the residents it found. *)
Theorem pluck_min_returns_the_best m :
  heap_wf m = true ->
  heap_ordered isBetterThan m = true ->
  0 < mh_size (minheap m) ->
  exists a na m',
    MinHeap_pluck_min isBetterThan m = Ret (Some a) m'
    /\ array_get (ht_nodes (hashintree m)) a = Some na
    /\ mh_size (minheap m') = mh_size (minheap m) - 1
    /\ residents m ≡ₚ Some a :: residents m'
    /\ forall b nb,
         Some b ∈ residents m ->
         array_get (ht_nodes (hashintree m)) b = Some nb ->
         isBetterThan (weight nb) (weight na) = false.
Proof.
  intros Hwf Hord Hsize.
  destruct (pluck_min_returns isBetterThan m Hwf Hsize)
    as (a & m' & Hroot & Hrun & Hsize' & Hperm).
  pose proof (root_is_best m Hwf Hord) as Hbest.
  destruct (Hbest 0 ltac:(lia) Hsize) as (w0 & _ & Hw0 & _ & _).
  unfold slot_weight in Hw0. rewrite Hroot in Hw0.
  destruct (array_get (ht_nodes (hashintree m)) a) as [na|] eqn:Hna;
    [|discriminate].
  exists a, na, m'. split; [exact Hrun|]. split; [exact Hna|].
  split; [exact Hsize'|]. split; [exact Hperm|].
  intros b nb Hb Hnb. apply residents_elem in Hb.
  destruct Hb as (i & Hi & Hslot).
  destruct (Hbest i ltac:(lia) ltac:(lia)) as (wi & w0' & Hwi & Hw0' & Hle).
  unfold slot_weight in Hwi, Hw0'.
  rewrite Hslot, Hnb in Hwi. rewrite Hroot, Hna in Hw0'.
  simpl in Hwi, Hw0'. congruence.
Qed.

End PriorityQueue.


(** ** The positions that the sift-down records *)

Section SiftDownPositions.

Context {K W : Type}.
Implicit Types (m : Mem K W).
Variable isBetterThan : W -> W -> bool.

Lemma better_child_is_child pos m c m' :
  spec_better_child isBetterThan pos m = Ret c m' ->
  c = left_child_index pos \/ c = right_child_index pos.
Proof.
  rewrite spec_better_child_eq.
  destruct (right_child_index pos <? mh_size (minheap m)).
  - destruct (slot_weight m (left_child_index pos)); [|discriminate].
    destruct (slot_weight m (right_child_index pos)); [|discriminate].
    intros [= <- _]. destruct (isBetterThan _ _); auto.
  - intros [= <- _]. auto.
Qed.

(** The swap-based sift-down keeps every resident record's [heapIndex]
    in step with the slot that holds it, whatever the comparison is. *)
Lemma spec_sift_down_positions : forall fuel pos m m',
  spec_sift_down fuel isBetterThan pos m = Ret tt m' ->
  mh_size (minheap m) < half_modulus ->
  0 <= pos < mh_size (minheap m) ->
  (forall i, 0 <= i < mh_size (minheap m) -> consistent_at m i) ->
  mh_size (minheap m') = mh_size (minheap m)
  /\ forall i, 0 <= i < mh_size (minheap m) -> consistent_at m' i.
Proof.
  induction fuel as [|fuel IH]; intros pos m m' H Hhalf Hpos Hcons;
    [discriminate|].
  rewrite spec_sift_down_S in H.
  destruct (left_child_index pos <? mh_size (minheap m)) eqn:El;
    [|injection H as <-; auto].
  apply Z.ltb_lt in El.
  apply bind_Ret_inv in H. destruct H as (c & m1 & Hc & H).
  pose proof (better_child_is_child _ _ _ _ Hc) as Hchild.
  apply better_child_inv in Hc; [|exact El]. destruct Hc as [-> Hc].
  apply bind_Ret_inv in H. destruct H as (wc & m1 & H1 & H).
  apply spec_weight_at_inv in H1. destruct H1 as [-> _].
  apply bind_Ret_inv in H. destruct H as (wp & m1 & H1 & H).
  apply spec_weight_at_inv in H1. destruct H1 as [-> _].
  destruct (isBetterThan wc wp); [|injection H as <-; auto].
  apply bind_Ret_inv in H. destruct H as ([] & m1 & Hswap & H).
  assert (Hne : pos <> c).
  { destruct (children_above pos) as [Hl Hr]; [lia | lia |].
    destruct Hchild as [-> | ->]; lia. }
  destruct (Hcons pos Hpos) as (a & na & Hpa & Hna & _).
  destruct (Hcons c Hc) as (b & nb & Hcb & Hnb & _).
  rewrite (spec_swap_eq m pos c a b Hpa Hcb Hne) in Hswap
    by (eexists; eassumption).
  injection Hswap as <-.
  destruct (swapped_size m pos c a b) as (Hs1 & _ & _).
  apply IH in H.
  - destruct H as [Hs' Hc']. split; [congruence|].
    intros i Hi. apply Hc'. rewrite Hs1. exact Hi.
  - rewrite Hs1. exact Hhalf.
  - rewrite Hs1. exact Hc.
  - intros i Hi. rewrite Hs1 in Hi.
    apply swapped_consistent; assumption.
Qed.

(** Seating a record that is nowhere else in the heap in slot [pos], with
    [pos] recorded as its position, leaves every resident record's
    [heapIndex] in step with its slot if those of the other slots
    were. *)
Lemma seated_consistent pos a m :
  0 <= pos < mh_size (minheap m) ->
  mh_size (minheap m) <= Z.of_nat (length (mh_heap (minheap m))) ->
  is_Some (array_get (ht_nodes (hashintree m)) a) ->
  (forall i, 0 <= i < mh_size (minheap m) -> i <> pos -> consistent_at m i) ->
  (forall i, 0 <= i < mh_size (minheap m) -> i <> pos ->
             array_get (mh_heap (minheap m)) i <> Some (Some a)) ->
  forall i, 0 <= i < mh_size (minheap m) -> consistent_at (seated pos a m) i.
Proof.
  intros Hpos Hsz [na Hna] Hcons Hnew i Hi.
  pose proof (array_get_Some _ _ _ Hna) as Ha.
  unfold consistent_at, seated. simpl.
  destruct (decide (i = pos)) as [-> | Hne].
  - exists a, (set_heapIndex pos na).
    rewrite array_get_insert_eq by lia.
    rewrite array_get_alter by lia.
    destruct (decide (a = a)); [|congruence].
    rewrite Hna. auto.
  - destruct (Hcons i Hi Hne) as (b & nb & Hib & Hnb & Hbi).
    exists b, nb.
    rewrite array_get_insert_ne by lia.
    rewrite array_get_alter by lia.
    destruct (decide (a = b)) as [<- | _].
    + exfalso. exact (Hnew i Hi Hne Hib).
    + auto.
Qed.

(** C7: the sift-down inside [MinHeap_pluck_min] leaves the memory that
    the specification's sift-down leaves, which at every level compares the
    replacement with its children, takes the right child only when it is
    better than the left one (the left one on a tie), swaps only while
    that child is better than the replacement, and updates both positions
    at each swap; it returns, given fuel for the slots below [pos]; and
    the positions it has written are right: if every record in a slot
    other than [pos] had that slot as its [heapIndex], and the replacement
    is in none of them, then after the sift-down every resident record,
    the replacement and the records that moved up included, has the slot
    that holds it as its [heapIndex]. *)
Theorem bubble_down_swaps_with_better_child fuel cn pos m :
  mh_size (minheap m) <= Z.of_nat (length (mh_heap (minheap m))) ->
  Z.of_nat (length (mh_heap (minheap m))) < half_modulus ->
  0 <= pos < Z.of_nat (length (mh_heap (minheap m))) ->
  ptr_valid m cn = true ->
  bubble_down fuel isBetterThan cn pos m
  = seat_then_sift fuel isBetterThan cn pos m
  /\ (pos < mh_size (minheap m) ->
      (forall i, 0 <= i < mh_size (minheap m) -> i <> pos ->
                 slot_valid m i = true) ->
      mh_size (minheap m) - pos <= Z.of_nat fuel ->
      exists m', bubble_down fuel isBetterThan cn pos m = Ret tt m')
  /\ (pos < mh_size (minheap m) ->
      (forall i, 0 <= i < mh_size (minheap m) -> i <> pos ->
                 consistent_at m i) ->
      (forall i, 0 <= i < mh_size (minheap m) -> i <> pos ->
                 array_get (mh_heap (minheap m)) i <> Some cn) ->
      mh_size (minheap m) - pos <= Z.of_nat fuel ->
      exists m',
        bubble_down fuel isBetterThan cn pos m = Ret tt m'
        /\ mh_size (minheap m') = mh_size (minheap m)
        /\ index_consistent m' = true).
Proof.
  intros Hsz Hlen Hpos Hcn.
  destruct (bubble_down_follows_sift_down isBetterThan fuel cn pos m
              Hsz Hlen Hpos Hcn) as [Hsame Hret].
  split; [exact Hsame|]. split; [exact Hret|].
  intros Hlt Hcons Hnew Hfuel.
  destruct Hret as [m' Hrun]; [exact Hlt | | exact Hfuel |].
  { intros i Hi Hne. apply consistent_at_valid, Hcons; assumption. }
  exists m'. split; [exact Hrun|].
  apply ptr_valid_spec in Hcn. destruct Hcn as (a & na & -> & Hna).
  rewrite bubble_down_refines in Hrun
    by (try assumption; exists na; exact Hna).
  apply spec_sift_down_positions in Hrun.
  - destruct Hrun as [Hs' Hc']. simpl in Hs'.
    split; [exact Hs'|].
    apply index_consistent_iff. intros i Hi. apply Hc'.
    simpl. rewrite Hs' in Hi. exact Hi.
  - simpl. lia.
  - simpl. lia.
  - simpl mh_size. apply seated_consistent; try assumption; try lia.
    exists na. exact Hna.
Qed.

End SiftDownPositions.

Lemma bubble_down_swaps_with_better_child_witness :
  bubble_down 3 IntClient.isBetterThan (Some 3) 0 IntClient.mid_pluck
  = seat_then_sift 3 IntClient.isBetterThan (Some 3) 0 IntClient.mid_pluck
  /\ exists m',
       bubble_down 3 IntClient.isBetterThan (Some 3) 0 IntClient.mid_pluck
       = Ret tt m'
       /\ mh_size (minheap m') = mh_size (minheap IntClient.mid_pluck)
       /\ index_consistent m' = true.
Proof.
  destruct (bubble_down_swaps_with_better_child IntClient.isBetterThan 3
              (Some 3) 0 IntClient.mid_pluck) as (Hsame & _ & Hpositions).
  - simpl. lia.
  - reflexivity.
  - simpl. lia.
  - reflexivity.
  - split; [exact Hsame|]. apply Hpositions.
    + simpl. lia.
    + intros i Hi Hne. simpl in Hi.
      assert (Hcases : i = 1 \/ i = 2) by lia.
      destruct Hcases as [-> | ->].
      * exists 1, (mkNode (Some 1) 5 (Some 0) 1). repeat split.
      * exists 2, (mkNode (Some 2) 3 (Some 0) 2). repeat split.
    + intros i Hi Hne. simpl in Hi.
      assert (Hcases : i = 1 \/ i = 2) by lia.
      destruct Hcases as [-> | ->]; discriminate.
    + simpl. lia.
Defined.

(** ** A better weight for a resident *)

Section Seated.

Context {K W : Type}.
Implicit Types (m : Mem K W).

(** Seating a record where it already sits changes nothing. *)
Lemma seated_id m pos a (n : MinHeapNode K W) :
  array_get (mh_heap (minheap m)) pos = Some (Some a) ->
  array_get (ht_nodes (hashintree m)) a = Some n ->
  heapIndex n = pos ->
  seated pos a m = m.
Proof.
  intros Hslot Hn Hidx. unfold seated, with_nodes, with_heap.
  destruct m as [[len size nodes] [heap hsize cap]]. simpl in *.
  unfold array_get in Hslot, Hn.
  destruct (0 <=? pos); [|discriminate]. destruct (0 <=? a); [|discriminate].
  f_equal; f_equal; [|apply list_insert_id; exact Hslot].
  apply list_eq. intros j.
  destruct (decide (Z.to_nat a = j)) as [<-|Hne].
  - rewrite list_lookup_alter_eq, Hn. simpl. f_equal.
    destruct n. simpl in *. subst. reflexivity.
  - apply list_lookup_alter_ne. exact Hne.
Qed.

Lemma update_key_resident (isBetterThan : W -> W -> bool) m a
    (n : MinHeapNode K W) :
  array_get (ht_nodes (hashintree m)) a = Some n ->
  array_get (mh_heap (minheap m)) (heapIndex n) = Some (Some a) ->
  MinHeap_update_key (Some a) false isBetterThan m
  = spec_sift_up (S (Z.to_nat (heapIndex n))) isBetterThan (heapIndex n) m.
Proof.
  intros Hn Hslot. unfold MinHeap_update_key.
  rewrite bind_ret, bind_node_load, Hn.
  rewrite (bubble_up_sifts_up isBetterThan m (heapIndex n) a Hslot)
    by (eexists; exact Hn).
  rewrite (seated_id m (heapIndex n) a n Hslot Hn eq_refl). reflexivity.
Qed.

End Seated.

Section DecreaseKey.

Context {K W : Type}.
Implicit Types (m : Mem K W).
Variable isBetterThan : W -> W -> bool.
Hypothesis better_asym :
  forall x y, isBetterThan x y = true -> isBetterThan y x = false.
Hypothesis not_better_trans :
  forall x y z,
    isBetterThan y x = false -> isBetterThan z y = false ->
    isBetterThan z x = false.

(** [MinHeap_update_key] for a record that is in the heap and is not
    better than its parent (or is the root) changes nothing. *)
Theorem update_key_in_order_changes_nothing m a (n : MinHeapNode K W) :
  array_get (ht_nodes (hashintree m)) a = Some n ->
  array_get (mh_heap (minheap m)) (heapIndex n) = Some (Some a) ->
  (0 < heapIndex n ->
   exists wp,
     slot_weight m (parent_index (heapIndex n)) = Some wp
     /\ isBetterThan (weight n) wp = false) ->
  MinHeap_update_key (Some a) false isBetterThan m = Ret tt m.
Proof.
  intros Hn Hslot Hparent.
  rewrite (update_key_resident isBetterThan m a n Hn Hslot).
  rewrite spec_sift_up_S.
  destruct (0 <? heapIndex n) eqn:E0; [|reflexivity].
  apply Z.ltb_lt in E0. destruct (Hparent E0) as (wp & Hwp & Hb).
  assert (Hw : slot_weight m (heapIndex n) = Some (weight n))
    by (unfold slot_weight; rewrite Hslot, Hn; reflexivity).
  rewrite bind_weight_at, Hw. rewrite bind_weight_at, Hwp, Hb. reflexivity.
Qed.

(** The weights in the slots after the record [a] of slot [pos] got a new
    weight. *)
Lemma slot_weight_reweighed m a (n : MinHeapNode K W) w' i :
  (forall j, 0 <= j < mh_size (minheap m) -> consistent_at m j) ->
  array_get (ht_nodes (hashintree m)) a = Some n ->
  array_get (mh_heap (minheap m)) (heapIndex n) = Some (Some a) ->
  0 <= i < mh_size (minheap m) ->
  slot_weight
    (with_nodes (alter (set_weight w') (Z.to_nat a) (ht_nodes (hashintree m)))
       m) i
  = if decide (i = heapIndex n) then Some w' else slot_weight m i.
Proof.
  intros Hidx Hn Hslot Hi.
  pose proof (array_get_Some _ _ _ Hn) as Ha.
  unfold slot_weight. simpl.
  destruct (decide (i = heapIndex n)) as [->|Hne].
  - rewrite Hslot, array_get_alter by lia.
    destruct (decide (a = a)); [|congruence]. rewrite Hn. reflexivity.
  - destruct (Hidx i Hi) as (b & nb & Hb & Hnb & Hbi).
    rewrite Hb, array_get_alter by lia.
    destruct (decide (a = b)) as [->|]; [|reflexivity].
    rewrite Hn in Hnb. injection Hnb as <-. congruence.
Qed.

(** The decrease-key step: a resident record is given a weight that is
    not worse than the one it had, and [MinHeap_update_key] is called for
    it with [NodeIsNew = false].  The call returns; the heap is
    well-formed, index-consistent and ordered again, with the residents it
    had, and the record has its new weight. *)
Theorem update_key_restores_order_after_improvement m a
    (n : MinHeapNode K W) w' :
  heap_wf m = true ->
  index_consistent m = true ->
  heap_ordered isBetterThan m = true ->
  array_get (ht_nodes (hashintree m)) a = Some n ->
  0 <= heapIndex n < mh_size (minheap m) ->
  array_get (mh_heap (minheap m)) (heapIndex n) = Some (Some a) ->
  isBetterThan (weight n) w' = false ->
  exists m1 m',
    node_update (Some a) (set_weight w') m = Ret tt m1
    /\ MinHeap_update_key (Some a) false isBetterThan m1 = Ret tt m'
    /\ heap_wf m' = true
    /\ index_consistent m' = true
    /\ heap_ordered isBetterThan m' = true
    /\ mh_size (minheap m') = mh_size (minheap m)
    /\ residents m' ≡ₚ residents m
    /\ exists n', array_get (ht_nodes (hashintree m')) a = Some n'
                  /\ weight n' = w' /\ data n' = data n
                  /\ parent n' = parent n.
Proof.
  intros Hwf Hidx Hord Hn Hpos Hslot Hw.
  apply heap_wf_iff in Hwf. destruct Hwf as (Hsz & Hlen & _).
  rewrite index_consistent_iff in Hidx. rewrite heap_ordered_iff in Hord.
  assert (H63 : half_modulus = 9223372036854775808) by reflexivity.
  pose proof (array_get_Some _ _ _ Hn) as Ha.
  set (pos := heapIndex n) in *.
  set (m1 := with_nodes
               (alter (set_weight w') (Z.to_nat a) (ht_nodes (hashintree m)))
               m).
  assert (Hn1 : array_get (ht_nodes (hashintree m1)) a
                = Some (set_weight w' n)).
  { unfold m1. rewrite nodes_alter_get by lia.
    destruct (decide (a = a)); [|congruence]. rewrite Hn. reflexivity. }
  assert (Hweight : forall i, 0 <= i < mh_size (minheap m) ->
            slot_weight m1 i
            = if decide (i = pos) then Some w' else slot_weight m i).
  { intros i Hi. apply slot_weight_reweighed; assumption. }
  assert (Hidx1 : forall i, 0 <= i < mh_size (minheap m1) ->
            consistent_at m1 i).
  { intros i Hi. destruct (Hidx i Hi) as (b & nb & Hb & Hnb & Hbi).
    assert (Hgetb : array_get (ht_nodes (hashintree m1)) b
                    = if decide (a = b) then Some (set_weight w' nb)
                      else Some nb).
    { unfold m1. rewrite nodes_alter_get by lia. rewrite Hnb.
      destruct (decide (a = b)); reflexivity. }
    destruct (decide (a = b)).
    - exists b, (set_weight w' nb). auto.
    - exists b, nb. auto. }
  assert (Hold : slot_weight m pos = Some (weight n))
    by (unfold slot_weight; rewrite Hslot, Hn; reflexivity).
  exists m1.
  destruct (spec_sift_up_restores isBetterThan better_asym not_better_trans
              (S (Z.to_nat pos)) pos m1)
    as (m' & Hrun & Hs & Hcap & Hlh & Hln & Hc' & Ho').
  - simpl. rewrite size_modulus_eq. lia.
  - exact Hpos.
  - exact Hidx1.
  - simpl. intros i Hi Hne.
    pose proof (parent_index_lt i ltac:(lia)) as Hp.
    destruct (Hord i Hi) as (wi & wp & Hwi & Hwp & Hb).
    unfold ordered_at. rewrite !Hweight by lia.
    destruct (decide (i = pos)); [congruence|].
    destruct (decide (parent_index i = pos)) as [Hpp|].
    + exists wi, w'. split; [exact Hwi|]. split; [reflexivity|].
      rewrite Hpp, Hold in Hwp. injection Hwp as <-.
      exact (not_better_trans w' (weight n) wi Hw Hb).
    + exists wi, wp. auto.
  - simpl. intros Hpos0 c Hc Hcp.
    pose proof (parent_index_lt pos Hpos0) as Hp.
    pose proof (parent_index_lt c ltac:(lia)) as Hpc.
    destruct (Hord c Hc) as (wc & wa & Hwc & Hwa & Hb).
    destruct (Hord pos ltac:(lia)) as (wa' & wg & Hwa' & Hwg & Hbg).
    rewrite Hcp, Hold in Hwa. injection Hwa as <-.
    rewrite Hold in Hwa'. injection Hwa' as <-.
    exists wg, wc. rewrite !Hweight by lia.
    destruct (decide (parent_index pos = pos)); [lia|].
    destruct (decide (c = pos)); [lia|].
    split; [exact Hwg|]. split; [exact Hwc|].
    exact (not_better_trans wg (weight n) wc Hbg Hb).
  - lia.
  - assert (Hupd : MinHeap_update_key (Some a) false isBetterThan m1
                   = Ret tt m').
    { rewrite (update_key_resident isBetterThan m1 a (set_weight w' n) Hn1)
        by exact Hslot.
      exact Hrun. }
    exists m'. simpl in Hs, Hlh, Hln, Hc', Ho'.
    split; [unfold node_update; rewrite Hn; reflexivity|].
    split; [exact Hupd|].
    split; [apply heap_wf_iff; rewrite Hs, Hlh; repeat split; try lia;
            intros i Hi; apply consistent_at_valid, Hc', Hi|].
    split; [apply index_consistent_iff; rewrite Hs; exact Hc'|].
    split; [apply heap_ordered_iff; rewrite Hs; exact Ho'|].
    split; [exact Hs|].
    split; [apply spec_sift_up_residents in Hrun; [|exact Hpos];
            destruct Hrun as [_ Hperm]; exact Hperm|].
    pose proof (update_key_same_records isBetterThan m1 (Some a) false m'
                  Hupd) as Hrec.
    pose proof (same_records_get m1 m' a Hrec) as Hget.
    rewrite Hn1 in Hget.
    destruct (array_get (ht_nodes (hashintree m')) a) as [n'|];
      [|discriminate].
    injection Hget as Hd Hwt Hpt. exists n'. auto.
Qed.

End DecreaseKey.

(** ** A new record whose position is recorded *)

Section RecordedInsertionSound.

Context {K W : Type}.
Implicit Types (m : Mem K W).
Variable isBetterThan : W -> W -> bool.
Hypothesis better_asym :
  forall x y, isBetterThan x y = true -> isBetterThan y x = false.
Hypothesis not_better_trans :
  forall x y z,
    isBetterThan y x = false -> isBetterThan z y = false ->
    isBetterThan z x = false.

Lemma spec_update_key_residents m a m' :
  spec_update_key (Some a) true isBetterThan m = Ret tt m' ->
  0 <= mh_size (minheap m) < half_modulus ->
  residents m' ≡ₚ Some a :: residents m.
Proof.
  intros Hrun Hsize. unfold spec_update_key in Hrun.
  assert (H63 : half_modulus = 9223372036854775808) by reflexivity.
  apply bind_Ret_inv in Hrun. destruct Hrun as ([] & m2 & Hpre & Hrun).
  rewrite bind_get_size, bind_get_capacity in Hpre.
  destruct (mh_size (minheap m) =? mh_capacity (minheap m));
    [discriminate|].
  apply bind_Ret_inv in Hpre. destruct Hpre as ([] & m3 & H3 & Hpre).
  apply heap_store_inv in H3. destruct H3 as [-> Hlt].
  rewrite bind_put_size in Hpre.
  apply node_update_inv in Hpre. destruct Hpre as (a' & [= <-] & ->).
  apply bind_Ret_inv in Hrun. destruct Hrun as (n2 & m3 & Hload & Hrun).
  simpl in Hload. unfold table_load in Hload. simpl in Hload.
  destruct (array_get (alter _ _ _) a) as [n2'|] eqn:E; [|discriminate].
  injection Hload as <- <-.
  pose proof (array_get_Some _ _ _ E) as Ha.
  rewrite array_get_alter in E by lia.
  destruct (decide (a = a)); [|congruence].
  destruct (array_get (ht_nodes (hashintree m)) a) as [n|]; [|discriminate].
  injection E as <-. simpl heapIndex in Hrun.
  apply spec_sift_up_residents in Hrun;
    [|simpl; rewrite wrap_small by (rewrite size_modulus_eq; lia); lia].
  destruct Hrun as [_ ->].
  unfold residents. simpl.
  rewrite wrap_small by (rewrite size_modulus_eq; lia).
  replace (Z.to_nat (mh_size (minheap m) + 1))
    with (S (Z.to_nat (mh_size (minheap m)))) by lia.
  rewrite (take_S_r _ _ (Some a))
    by (apply list_lookup_insert_eq; unfold ptr in *; lia).
  rewrite take_insert_ge by lia.
  symmetry. apply Permutation_cons_append.
Qed.

(** Insertion as it works when the caller has recorded the position: on a
    heap that is well-formed, index-consistent and ordered and has room,
    for a record that is not in the heap and whose [heapIndex] is the
    heap's size, [MinHeap_update_key] with [NodeIsNew = true] returns with
    the heap one larger, well-formed, index-consistent and ordered, and
    its residents are the record and those it had. *)
Theorem recorded_insertion_adds_the_record m a (n : MinHeapNode K W) :
  heap_wf m = true ->
  index_consistent m = true ->
  heap_ordered isBetterThan m = true ->
  mh_size (minheap m) < mh_capacity (minheap m) ->
  mh_capacity (minheap m) <= Z.of_nat (length (mh_heap (minheap m))) ->
  array_get (ht_nodes (hashintree m)) a = Some n ->
  (forall i, 0 <= i < mh_size (minheap m) ->
             array_get (mh_heap (minheap m)) i <> Some (Some a)) ->
  heapIndex n = mh_size (minheap m) ->
  exists m',
    MinHeap_update_key (Some a) true isBetterThan m = Ret tt m'
    /\ mh_size (minheap m') = mh_size (minheap m) + 1
    /\ heap_wf m' = true
    /\ index_consistent m' = true
    /\ heap_ordered isBetterThan m' = true
    /\ residents m' ≡ₚ Some a :: residents m.
Proof.
  intros Hwf Hidx Hord Hroom Hcap Hn Hnew Hpreset.
  destruct (spec_update_key_preserves_invariants isBetterThan better_asym
              not_better_trans m a n Hwf Hidx Hord Hroom Hcap Hn Hnew)
    as (m' & Hrun & Hsize & Hwf' & Hidx' & Hord').
  exists m'.
  rewrite (update_key_new_with_index_preset isBetterThan m a n Hn Hpreset).
  repeat (split; [assumption|]).
  apply (spec_update_key_residents m a m' Hrun).
  apply heap_wf_spec in Hwf. lia.
Qed.

End RecordedInsertionSound.

(** ** The table over a whole run *)

Section KeepsRules.

Context {K W : Type}.
Implicit Types (m : Mem K W).
Variable I : Mem K W -> Prop.

Lemma keeps_ret {A} (a : A) : keeps I (ret a).
Proof. intros m Hm. exact Hm. Qed.

Lemma keeps_exit {A} code : keeps I (exit (A:=A) code).
Proof. intros m Hm. exact Hm. Qed.

Lemma keeps_fault {A} : keeps I (fault (A:=A)).
Proof. intros m Hm. exact Logic.I. Qed.

Lemma keeps_bind {A B} (c : M K W A) (k : A -> M K W B) :
  keeps I c -> (forall a, keeps I (k a)) -> keeps I (bind c k).
Proof.
  intros Hc Hk m Hm. unfold bind. specialize (Hc m Hm).
  destruct (c m) as [a m1| | |]; try exact Hc.
  exact (Hk a m1 Hc).
Qed.

(** A computation that writes nothing keeps every invariant. *)
Lemma keeps_reader {A} (c : M K W A) :
  (forall m, match c m with
             | Ret _ m' => m' = m
             | Exit _ _ => False
             | _ => True
             end) ->
  keeps I c.
Proof.
  intros Hc m Hm. specialize (Hc m).
  destruct (c m) as [a m1|code m1| |];
    [subst; exact Hm | destruct Hc | exact Logic.I | exact Logic.I].
Qed.

Lemma keeps_at {A} (c : M K W A) m :
  keeps I c -> I m ->
  match c m with
  | Ret _ m' => I m'
  | Exit _ m' => I m'
  | _ => True
  end.
Proof. intros Hc Hm. exact (Hc m Hm). Qed.

Lemma keeps_node_load p : keeps I (node_load p).
Proof.
  apply keeps_reader. intros m. destruct p as [a|]; simpl; [|exact Logic.I].
  unfold table_load. destruct (array_get _ a); [reflexivity|exact Logic.I].
Qed.

Lemma keeps_find_seat key hashfunc isEqual :
  keeps I (HashInTree_find_seat key hashfunc isEqual).
Proof.
  apply keeps_reader. intros m.
  unfold HashInTree_find_seat, bind, get_table_size.
  apply find_seat_loop_frame.
Qed.

End KeepsRules.

Section KeepsTable.

Context {K W : Type}.
Implicit Types (m : Mem K W).
Variable hashfunc : Z -> K -> Z.
Variable isEqual : K -> K -> bool.
Variable size : Z.

(** The invariant speaks of the table's size and keys only. *)
Lemma table_inv_same_keys m m' :
  same_keys m m' ->
  table_inv hashfunc isEqual m -> table_inv hashfunc isEqual m'.
Proof.
  intros Hsame ([Hlen Hmod] & Hreach & Hdist).
  pose proof Hsame as [Hsize Hdata].
  assert (Hback : forall i n' d,
            array_get (ht_nodes (hashintree m')) i = Some n' ->
            data n' = Some d ->
            exists n, array_get (ht_nodes (hashintree m)) i = Some n
                      /\ data n = Some d).
  { intros i n' d Hn' Hd. pose proof (same_keys_get m m' i Hsame) as Hget.
    rewrite Hn' in Hget. simpl in Hget.
    destruct (array_get (ht_nodes (hashintree m)) i) as [n|];
      [|discriminate].
    injection Hget as Hget. exists n. split; [reflexivity|congruence]. }
  assert (Hforth : forall i, occupied_at m i -> occupied_at m' i).
  { intros i (n & d & Hn & Hd).
    pose proof (same_keys_get m m' i Hsame) as Hget.
    rewrite Hn in Hget. simpl in Hget.
    destruct (array_get (ht_nodes (hashintree m')) i) as [n'|] eqn:Hn';
      [|discriminate].
    injection Hget as Hget. exists n', d. split; [exact Hn'|congruence]. }
  split; [|split].
  - split; [|rewrite Hsize; exact Hmod].
    rewrite Hsize, <- Hlen.
    rewrite <- (length_fmap data (ht_nodes (hashintree m'))), Hdata,
      length_fmap.
    reflexivity.
  - intros i n' d Hn' Hd. destruct (Hback i n' d Hn' Hd) as (n & Hn & Hdn).
    rewrite Hsize. destruct (Hreach i n d Hn Hdn) as [Hh Hpath].
    split; [exact Hh|]. intros j Hj.
    unfold probe_slot. rewrite Hsize. apply Hforth, Hpath, Hj.
  - intros i j ni' nj' di dj Hi Hj Hdi Hdj He.
    destruct (Hback i ni' di Hi Hdi) as (ni & Hni & Hdni).
    destruct (Hback j nj' dj Hj Hdj) as (nj & Hnj & Hdnj).
    exact (Hdist i j ni nj di dj Hni Hnj Hdni Hdnj He).
Qed.

Abbreviation inv := (table_inv_of_size hashfunc isEqual size).

Lemma inv_same_keys m m' : same_keys m m' -> inv m -> inv m'.
Proof.
  intros Hsame [Hinv Hsize]. split.
  - apply (table_inv_same_keys m m' Hsame Hinv).
  - destruct Hsame as [-> _]. exact Hsize.
Qed.

Lemma keeps_inv_quiet {A} (c : M K W A) : quiet c -> keeps inv c.
Proof.
  intros Hq m Hm. specialize (Hq m).
  destruct (c m) as [a m1| | |]; try exact Logic.I; [|destruct Hq].
  apply (inv_same_keys m m1); [|exact Hm].
  apply same_records_keys. exact Hq.
Qed.

Lemma keeps_inv_update p (f : MinHeapNode K W -> MinHeapNode K W) :
  (forall n, data (f n) = data n) -> keeps inv (node_update p f).
Proof.
  intros Hf m Hm. unfold node_update. destruct p as [a|]; [|exact Logic.I].
  destruct (array_get _ a); [|exact Logic.I].
  apply (inv_same_keys m); [|exact Hm].
  apply same_keys_alter. exact Hf.
Qed.

Variable isBetterThan : W -> W -> bool.

Lemma keeps_inv_pluck_min : keeps inv (MinHeap_pluck_min isBetterThan).
Proof. apply keeps_inv_quiet, quiet_pluck_min. Qed.

Lemma keeps_inv_update_key node NodeIsNew :
  keeps inv (MinHeap_update_key node NodeIsNew isBetterThan).
Proof.
  intros m Hm. rewrite update_key_cases.
  destruct (NodeIsNew && _); [exact Hm|].
  apply (keeps_inv_quiet _ (quiet_update_key_rest isBetterThan node
                              NodeIsNew (mh_size (minheap m))) m Hm).
Qed.

Lemma keeps_inv_free : keeps (W:=W) inv MinHeap_free.
Proof.
  intros m Hm. unfold MinHeap_free.
  apply (inv_same_keys m); [split; reflexivity|exact Hm].
Qed.

Lemma keeps_inv_loop (send_neighbors : ptr -> M K W unit) :
  (forall p, keeps inv (send_neighbors p)) ->
  forall fuel, keeps inv (Dijkstra_loop fuel isBetterThan send_neighbors).
Proof.
  intros Hsend. induction fuel as [|fuel IH]; simpl;
    [intros m Hm; exact Logic.I|].
  apply keeps_bind; [apply keeps_inv_pluck_min|].
  intros [p|]; [|apply keeps_ret].
  apply keeps_bind; [apply Hsend|]. intros _. exact IH.
Qed.

Hypothesis isEqual_sym :
  forall a b, isEqual a b = true -> isEqual b a = true.
Hypothesis hash_compat :
  forall size a b, isEqual a b = true -> hashfunc size a = hashfunc size b.

(** Seating a key where the seat search returned an empty slot. *)
Lemma inv_seat m key i (n : MinHeapNode K W) :
  inv m -> 0 < size ->
  0 <= hashfunc size key < size ->
  HashInTree_find_seat key hashfunc isEqual m = Ret (Some i) m ->
  array_get (ht_nodes (hashintree m)) i = Some n ->
  data n = None ->
  exists m',
    node_update (Some i) (set_data (Some key)) m = Ret tt m' /\ inv m'.
Proof.
  intros [Hinv Hsize] Hpos Hh Hfind Hn Hd.
  rewrite <- Hsize in Hh.
  destruct (seat_table_inv hashfunc isEqual isEqual_sym hash_compat m key i
              n Hinv Hh Hfind Hn Hd) as (m' & Hseat & Hinv').
  exists m'. split; [exact Hseat|]. split; [exact Hinv'|].
  apply node_update_inv in Hseat. destruct Hseat as (a & _ & ->).
  exact Hsize.
Qed.

End KeepsTable.

Section DijkstraTable.

Context {K W : Type}.
Implicit Types (m : Mem K W).
Variable hashfunc : Z -> K -> Z.
Variable isEqual : K -> K -> bool.
Variable isBetterThan : W -> W -> bool.
Hypothesis isEqual_sym :
  forall a b, isEqual a b = true -> isEqual b a = true.
Hypothesis isEqual_trans :
  forall a b c, isEqual a b = true -> isEqual b c = true ->
                isEqual a c = true.
Hypothesis hash_compat :
  forall size a b, isEqual a b = true -> hashfunc size a = hashfunc size b.

Lemma dijkstra_table_size n :
  0 < wrap (wrap (2 * n) + 1) < size_modulus.
Proof.
  pose proof (wrap_range (2 * n)) as Hr. rewrite size_modulus_eq in *.
  assert (Heven : wrap (2 * n) = 2 * (n mod 9223372036854775808)).
  { unfold wrap. rewrite size_modulus_eq.
    change 18446744073709551616 with (2 * 9223372036854775808).
    apply Z.mul_mod_distr_l; lia. }
  pose proof (Z.mod_pos_bound n 9223372036854775808 ltac:(lia)) as Hn.
  rewrite wrap_small by (rewrite size_modulus_eq; lia). lia.
Qed.

Lemma dijkstra_body_inv size m fuel sourceData sourceWeight
    (send_neighbors : ptr -> M K W unit) i (n : MinHeapNode K W) t m' :
  table_inv_of_size hashfunc isEqual size m ->
  0 < size -> 0 <= hashfunc size sourceData < size ->
  HashInTree_find_seat sourceData hashfunc isEqual m = Ret (Some i) m ->
  array_get (ht_nodes (hashintree m)) i = Some n ->
  data n = None ->
  (forall p, keeps (table_inv_of_size hashfunc isEqual size)
               (send_neighbors p)) ->
  Dijkstra_body fuel sourceData sourceWeight hashfunc isEqual isBetterThan
    send_neighbors m = Ret t m' ->
  t = hashintree m' /\ table_inv_of_size hashfunc isEqual size m'.
Proof.
  intros Hinv Hpos Hh Hfind Hn Hd Hsend Hrun. unfold Dijkstra_body in Hrun.
  rewrite (bind_Ret _ _ _ _ _ Hfind) in Hrun.
  destruct (inv_seat hashfunc isEqual size isEqual_sym hash_compat m
              sourceData i n Hinv Hpos Hh Hfind Hn Hd)
    as (m1 & Hseat & Hinv1).
  rewrite (bind_Ret _ _ _ _ _ Hseat) in Hrun.
  apply bind_Ret_inv in Hrun. destruct Hrun as ([] & m2 & Hstep & Hrun).
  pose proof (keeps_inv_update hashfunc isEqual size (Some i)
                (set_weight sourceWeight) ltac:(reflexivity) m1 Hinv1)
    as Hinv2.
  rewrite Hstep in Hinv2. clear Hstep.
  apply bind_Ret_inv in Hrun. destruct Hrun as ([] & m3 & Hstep & Hrun).
  pose proof (keeps_inv_update hashfunc isEqual size (Some i)
                (set_parent None) ltac:(reflexivity) m2 Hinv2) as Hinv3.
  rewrite Hstep in Hinv3. clear Hstep.
  apply bind_Ret_inv in Hrun. destruct Hrun as ([] & m4 & Hstep & Hrun).
  pose proof (keeps_inv_update_key hashfunc isEqual size isBetterThan
                (Some i) true m3 Hinv3) as Hinv4.
  rewrite Hstep in Hinv4. clear Hstep.
  apply bind_Ret_inv in Hrun. destruct Hrun as ([] & m5 & Hstep & Hrun).
  pose proof (keeps_inv_loop hashfunc isEqual size isBetterThan
                send_neighbors Hsend fuel m4 Hinv4) as Hinv5.
  rewrite Hstep in Hinv5. clear Hstep.
  apply bind_Ret_inv in Hrun. destruct Hrun as ([] & m6 & Hstep & Hrun).
  pose proof (keeps_inv_free hashfunc isEqual size m5 Hinv5) as Hinv6.
  rewrite Hstep in Hinv6. clear Hstep.
  injection Hrun as <- <-. split; [reflexivity|exact Hinv6].
Qed.

Lemma dijkstra_inv (alloc : Z -> MinHeapNode K W) fuel sourceData
    sourceWeight total_number_of_nodes
    (send_neighbors : ptr -> M K W unit) t m' :
  0 <= hashfunc (wrap (wrap (2 * total_number_of_nodes) + 1)) sourceData
    < wrap (wrap (2 * total_number_of_nodes) + 1) ->
  (forall p,
     keeps (table_inv_of_size hashfunc isEqual
              (wrap (wrap (2 * total_number_of_nodes) + 1)))
       (send_neighbors p)) ->
  Dijkstra_1source_to_all_else alloc fuel sourceData sourceWeight
    total_number_of_nodes hashfunc isEqual isBetterThan send_neighbors
  = Ret t m' ->
  t = hashintree m'
  /\ table_inv_of_size hashfunc isEqual
       (wrap (wrap (2 * total_number_of_nodes) + 1)) m'.
Proof.
  intros Hh Hsend Hrun. unfold Dijkstra_1source_to_all_else in Hrun.
  set (size := wrap (wrap (2 * total_number_of_nodes) + 1)) in *.
  pose proof (dijkstra_table_size total_number_of_nodes) as Hsize.
  fold size in Hsize.
  destruct (fresh_table_facts hashfunc isEqual alloc size
              (MinHeap_create total_number_of_nodes) sourceData
              ltac:(lia) Hh) as (Hinv & _ & Hfind & _).
  apply (dijkstra_body_inv size _ fuel sourceData sourceWeight
           send_neighbors (hashfunc size sourceData)
           (set_data None (alloc (hashfunc size sourceData))) t m'
           (conj Hinv eq_refl) ltac:(lia) Hh Hfind);
    [apply array_get_create; exact Hh | reflexivity | exact Hsend
    | exact Hrun].
Qed.

(** A run keeps the table exact.  The callbacks are to be what a table
    of keys needs: [isEqual] symmetric and transitive, [hashfunc] giving
    keys that [isEqual] equates the same slot ([hash_compat]), and the
    slot of the source below the table's size.  If then the caller's
    [send_neighbors] keeps the table invariant and the table's size (as
    it does when it seats new keys only where [HashInTree_find_seat]
    returned an empty slot), the table that [Dijkstra_1source_to_all_else]
    returns has the size it was created with and satisfies the invariant,
    and [HashInTree_get_node_by_data] on it, for a key whose slot is below
    the table's size, returns a slot exactly when that slot holds the
    key. *)
Theorem dijkstra_returns_exact_table (alloc : Z -> MinHeapNode K W) fuel
    sourceData sourceWeight total_number_of_nodes
    (send_neighbors : ptr -> M K W unit) t m' :
  0 <= hashfunc (wrap (wrap (2 * total_number_of_nodes) + 1)) sourceData
    < wrap (wrap (2 * total_number_of_nodes) + 1) ->
  (forall p,
     keeps (table_inv_of_size hashfunc isEqual
              (wrap (wrap (2 * total_number_of_nodes) + 1)))
       (send_neighbors p)) ->
  Dijkstra_1source_to_all_else alloc fuel sourceData sourceWeight
    total_number_of_nodes hashfunc isEqual isBetterThan send_neighbors
  = Ret t m' ->
  t = hashintree m'
  /\ ht_size t = wrap (wrap (2 * total_number_of_nodes) + 1)
  /\ table_inv hashfunc isEqual m'
  /\ forall key i,
       0 <= hashfunc (ht_size t) key < ht_size t ->
       (HashInTree_get_node_by_data key hashfunc isEqual m' = Ret (Some i) m'
        <-> holds isEqual key m' i).
Proof.
  intros Hh Hsend Hrun.
  destruct (dijkstra_inv alloc fuel sourceData sourceWeight
              total_number_of_nodes send_neighbors t m' Hh Hsend Hrun)
    as [-> [Hinv Hsize]].
  split; [reflexivity|]. split; [exact Hsize|]. split; [exact Hinv|].
  intros key i Hkey.
  apply (lookup_exact hashfunc isEqual isEqual_sym isEqual_trans hash_compat
           m' key Hinv Hkey).
Qed.

End DijkstraTable.

(** ** The demonstration client and the table *)

Lemma int_isEqual_sym a b :
  IntClient.isEqual a b = true -> IntClient.isEqual b a = true.
Proof. unfold IntClient.isEqual. rewrite !Z.eqb_eq. auto. Qed.

Lemma int_isEqual_trans a b c :
  IntClient.isEqual a b = true -> IntClient.isEqual b c = true ->
  IntClient.isEqual a c = true.
Proof. unfold IntClient.isEqual. rewrite !Z.eqb_eq. congruence. Qed.

Lemma int_hash_compat size a b :
  IntClient.isEqual a b = true ->
  IntClient.hashfunc size a = IntClient.hashfunc size b.
Proof. unfold IntClient.isEqual. rewrite Z.eqb_eq. congruence. Qed.

Lemma int_hash_range size d :
  0 < size -> 0 <= IntClient.hashfunc size d < size.
Proof. intros H. unfold IntClient.hashfunc. apply Z.mod_pos_bound. exact H. Qed.

Section IntClientTable.

Variable size : Z.
Hypothesis size_pos : 0 < size.

Abbreviation int_inv :=
  (table_inv_of_size (W:=Z) IntClient.hashfunc IntClient.isEqual size).

Lemma keeps_writeIn_neighbor current_node neighbor :
  keeps int_inv (IntClient.writeIn_neighbor current_node neighbor).
Proof.
  intros m Hm. unfold IntClient.writeIn_neighbor.
  pose proof (keeps_find_seat (fun m' => m' = m) (fst neighbor)
                IntClient.hashfunc IntClient.isEqual m eq_refl) as Hframe.
  unfold bind at 1.
  destruct (HashInTree_find_seat (fst neighbor) IntClient.hashfunc
              IntClient.isEqual m) as [canvas m1|code m1| |] eqn:Hfind;
    try exact Logic.I; subst m1; [|exact Hm].
  pose proof (keeps_node_load (fun m' => m' = m) current_node m eq_refl)
    as Hload.
  unfold bind at 1.
  destruct (node_load current_node m) as [cur m1|code m1| |] eqn:Hcur;
    try exact Logic.I; subst m1; [|exact Hm].
  destruct canvas as [i|]; [|exact Hm].
  unfold bind at 1. simpl. unfold table_load.
  destruct (array_get (ht_nodes (hashintree m)) i) as [c|] eqn:Hc;
    [|exact Logic.I].
  destruct (data c) as [d|] eqn:Hd.
  - destruct (IntClient.isBetterThan _ _); [|exact Hm].
    apply keeps_at; [|exact Hm].
    apply keeps_bind; [apply keeps_inv_update; reflexivity|intros _].
    apply keeps_bind; [apply keeps_inv_update; reflexivity|intros _].
    apply keeps_inv_update_key.
  - destruct (inv_seat IntClient.hashfunc IntClient.isEqual size
                int_isEqual_sym int_hash_compat m (fst neighbor) i c Hm
                size_pos (int_hash_range size _ size_pos) Hfind Hc Hd)
      as (m2 & Hseat & Hm2).
    rewrite (bind_Ret _ _ _ _ _ Hseat).
    apply keeps_at; [|exact Hm2].
    apply keeps_bind; [apply keeps_inv_update; reflexivity|intros _].
    apply keeps_bind; [apply keeps_inv_update; reflexivity|intros _].
    apply keeps_inv_update_key.
Qed.

Lemma keeps_send_row min_node row :
  keeps int_inv (IntClient.send_row min_node row).
Proof.
  induction row as [|neighbor row IH]; simpl; [apply keeps_ret|].
  destruct (_ =? _); [apply keeps_ret|].
  apply keeps_bind; [apply keeps_writeIn_neighbor|]. intros _. exact IH.
Qed.

Lemma keeps_send_neighbors Graph min_node :
  keeps int_inv (IntClient.send_neighbors Graph min_node).
Proof.
  unfold IntClient.send_neighbors.
  apply keeps_bind; [apply keeps_node_load|]. intros mn.
  destruct (data mn) as [d|]; [|apply keeps_fault].
  destruct (array_get Graph d); [apply keeps_send_row|apply keeps_fault].
Qed.

End IntClientTable.

(** The demonstration program, whatever its graph, its source and the
    number of nodes it declares: when the run returns, the table it
    returns has the size it was created with and satisfies the invariant,
    and a lookup on it returns a slot exactly when that slot holds the
    key. *)
Theorem int_client_table_is_exact alloc fuel sourceData sourceWeight
    total_number_of_nodes Graph t m' :
  Dijkstra_1source_to_all_else alloc fuel sourceData sourceWeight
    total_number_of_nodes IntClient.hashfunc IntClient.isEqual
    IntClient.isBetterThan (IntClient.send_neighbors Graph) = Ret t m' ->
  t = hashintree m'
  /\ ht_size t = wrap (wrap (2 * total_number_of_nodes) + 1)
  /\ table_inv IntClient.hashfunc IntClient.isEqual m'
  /\ forall key i,
       HashInTree_get_node_by_data key IntClient.hashfunc IntClient.isEqual m'
       = Ret (Some i) m'
       <-> holds IntClient.isEqual key m' i.
Proof.
  intros Hrun.
  pose proof (dijkstra_table_size total_number_of_nodes) as Hsize.
  destruct (dijkstra_inv IntClient.hashfunc IntClient.isEqual
              IntClient.isBetterThan int_isEqual_sym int_hash_compat alloc
              fuel sourceData sourceWeight total_number_of_nodes
              (IntClient.send_neighbors Graph) t m'
              ltac:(apply int_hash_range; lia)
              (keeps_send_neighbors
                 (wrap (wrap (2 * total_number_of_nodes) + 1))
                 ltac:(lia) Graph) Hrun)
    as [-> [Hinv Hs]].
  split; [reflexivity|]. split; [exact Hs|]. split; [exact Hinv|].
  intros key i.
  apply (lookup_exact IntClient.hashfunc IntClient.isEqual int_isEqual_sym
           int_isEqual_trans int_hash_compat m' key Hinv).
  apply int_hash_range. rewrite Hs. lia.
Qed.

(** ** How a run can end *)

Section Exits.

Context {K W : Type}.
Implicit Types (m : Mem K W).
Variable code : Z.

Lemma exits_bind {A B} (c : M K W A) (k : A -> M K W B) :
  exits_only_with code c -> (forall a, exits_only_with code (k a)) ->
  exits_only_with code (bind c k).
Proof.
  intros Hc Hk m code' m'. unfold bind.
  destruct (c m) as [a m1|code1 m1| |] eqn:E; try discriminate.
  - apply Hk.
  - intros [= <- <-]. exact (Hc m code1 m1 E).
Qed.

Lemma exits_ret {A} (a : A) : exits_only_with (K:=K) (W:=W) code (ret a).
Proof. intros m code' m'. discriminate. Qed.

Lemma exits_fault {A} : exits_only_with (K:=K) (W:=W) (A:=A) code fault.
Proof. intros m code' m'. discriminate. Qed.

Lemma exits_out_of_fuel {A} :
  exits_only_with (K:=K) (W:=W) (A:=A) code out_of_fuel.
Proof. intros m code' m'. discriminate. Qed.

Lemma exits_exit {A} : exits_only_with (K:=K) (W:=W) (A:=A) code (exit code).
Proof. intros m code' m' [= <- _]. reflexivity. Qed.

(** A computation that keeps [False] out of its exits never exits. *)
Lemma exits_quiet {A} (c : M K W A) : quiet c -> exits_only_with code c.
Proof.
  intros Hq m code' m' E. specialize (Hq m). rewrite E in Hq. destruct Hq.
Qed.

Lemma exits_node_load p : exits_only_with (K:=K) (W:=W) code (node_load p).
Proof. apply exits_quiet, quiet_node_load. Qed.

Lemma exits_node_update p (f : MinHeapNode K W -> MinHeapNode K W) :
  exits_only_with code (node_update p f).
Proof.
  intros m code' m'. unfold node_update. destruct p as [a|]; [|discriminate].
  destruct (array_get _ a); discriminate.
Qed.

Lemma exits_find_seat (key : K) hashfunc isEqual :
  exits_only_with (W:=W) code (HashInTree_find_seat key hashfunc isEqual).
Proof.
  intros m code' m' E.
  unfold HashInTree_find_seat, bind, get_table_size in E.
  pose proof (find_seat_loop_frame isEqual key
                (hashfunc (ht_size (hashintree m)) key)
                (S (Z.to_nat (ht_size (hashintree m))))
                (hashfunc (ht_size (hashintree m)) key) m) as Hf.
  rewrite E in Hf. destruct Hf.
Qed.

Lemma exits_free : exits_only_with (K:=K) (W:=W) code MinHeap_free.
Proof. intros m code' m'. discriminate. Qed.

End Exits.

Section ExitsTwo.

Context {K W : Type}.
Implicit Types (m : Mem K W).
Variable isBetterThan : W -> W -> bool.

Lemma exits_update_key node NodeIsNew :
  exits_only_with (K:=K) 2 (MinHeap_update_key node NodeIsNew isBetterThan).
Proof.
  intros m code' m'. rewrite update_key_cases.
  destruct (NodeIsNew && _); [intros [= <- _]; reflexivity|].
  apply (exits_quiet 2 _ (quiet_update_key_rest isBetterThan node NodeIsNew
                            (mh_size (minheap m)))).
Qed.

Lemma exits_loop (send_neighbors : ptr -> M K W unit) :
  (forall p, exits_only_with 2 (send_neighbors p)) ->
  forall fuel,
  exits_only_with 2 (Dijkstra_loop fuel isBetterThan send_neighbors).
Proof.
  intros Hsend. induction fuel as [|fuel IH]; simpl;
    [apply exits_out_of_fuel|].
  apply exits_bind; [apply exits_quiet, quiet_pluck_min|].
  intros [p|]; [|apply exits_ret].
  apply exits_bind; [apply Hsend|]. intros _. exact IH.
Qed.

(** [Dijkstra_1source_to_all_else] ends the run with the status 2 and no
    other, as long as the caller's [send_neighbors] does. *)
Theorem dijkstra_exits_only_with_2 (alloc : Z -> MinHeapNode K W) fuel
    sourceData sourceWeight total_number_of_nodes hashfunc isEqual
    (send_neighbors : ptr -> M K W unit) code m' :
  (forall p, exits_only_with 2 (send_neighbors p)) ->
  Dijkstra_1source_to_all_else alloc fuel sourceData sourceWeight
    total_number_of_nodes hashfunc isEqual isBetterThan send_neighbors
  = Exit code m' ->
  code = 2.
Proof.
  intros Hsend. unfold Dijkstra_1source_to_all_else, Dijkstra_body.
  apply exits_bind; [apply exits_find_seat|]. intros sourcenode.
  repeat (apply exits_bind; [apply exits_node_update|intros _]).
  apply exits_bind; [apply exits_update_key|intros _].
  apply exits_bind; [apply exits_loop; exact Hsend|intros _].
  apply exits_bind; [apply exits_free|intros _].
  intros m c m''. discriminate.
Qed.

End ExitsTwo.

Lemma exits_writeIn_neighbor current_node neighbor :
  exits_only_with 2 (IntClient.writeIn_neighbor current_node neighbor).
Proof.
  unfold IntClient.writeIn_neighbor.
  apply exits_bind; [apply exits_find_seat|]. intros canvas.
  apply exits_bind; [apply exits_node_load|]. intros cur.
  destruct canvas as [i|]; [|apply exits_exit].
  apply exits_bind; [apply exits_node_load|]. intros c.
  destruct (data c).
  - destruct (IntClient.isBetterThan _ _); [|apply exits_ret].
    repeat (apply exits_bind; [apply exits_node_update|intros _]).
    apply exits_update_key.
  - repeat (apply exits_bind; [apply exits_node_update|intros _]).
    apply exits_update_key.
Qed.

Lemma exits_send_row min_node row :
  exits_only_with 2 (IntClient.send_row min_node row).
Proof.
  induction row as [|neighbor row IH]; simpl; [apply exits_ret|].
  destruct (_ =? _); [apply exits_ret|].
  apply exits_bind; [apply exits_writeIn_neighbor|]. intros _. exact IH.
Qed.

Lemma exits_send_neighbors Graph min_node :
  exits_only_with 2 (IntClient.send_neighbors Graph min_node).
Proof.
  unfold IntClient.send_neighbors.
  apply exits_bind; [apply exits_node_load|]. intros mn.
  destruct (data mn) as [d|]; [|apply exits_fault].
  destruct (array_get Graph d); [apply exits_send_row|apply exits_fault].
Qed.

(** The demonstration program, whatever its graph: when it ends the run,
    the status is 2. *)
Theorem int_client_exits_only_with_2 alloc fuel sourceData sourceWeight
    total_number_of_nodes Graph code m' :
  Dijkstra_1source_to_all_else alloc fuel sourceData sourceWeight
    total_number_of_nodes IntClient.hashfunc IntClient.isEqual
    IntClient.isBetterThan (IntClient.send_neighbors Graph) = Exit code m' ->
  code = 2.
Proof.
  unfold Dijkstra_1source_to_all_else, Dijkstra_body.
  apply exits_bind; [apply exits_find_seat|]. intros sourcenode.
  repeat (apply exits_bind; [apply exits_node_update|intros _]).
  apply exits_bind; [apply exits_update_key|intros _].
  apply exits_bind;
    [apply exits_loop; apply exits_send_neighbors|intros _].
  apply exits_bind; [apply exits_free|intros _].
  intros m c m''. discriminate.
Qed.

(** ** One neighbour written in *)

Lemma record_of_get {K W} (l : list (MinHeapNode K W)) i
    (r : MinHeapNode K W) :
  record_of <$> array_get l i = Some (record_of r) ->
  exists n, array_get l i = Some n
            /\ data n = data r /\ weight n = weight r
            /\ parent n = parent r.
Proof.
  destruct (array_get l i) as [n|]; [|discriminate].
  intros [= Hd Hw Hp]. exists n. auto.
Qed.

Lemma find_seat_full (m : Mem Z Z) key :
  table_wf m -> 0 < ht_size (hashintree m) ->
  table_full m = true -> unseated IntClient.isEqual key m = true ->
  HashInTree_find_seat key IntClient.hashfunc IntClient.isEqual m
  = Ret None m.
Proof.
  intros Hwf Hpos Hfull Hun.
  destruct (find_seat_scan IntClient.isEqual key IntClient.hashfunc m Hwf
              (int_hash_range _ key Hpos)) as (r & Hr & Hres).
  rewrite Hr. destruct r as [i|]; [|reflexivity]. exfalso.
  destruct Hres as (k & (_ & Hfit & _) & ->).
  apply fits_true in Hfit.
  destruct Hfit as [(n & Hn & Hd)|(n & d & Hn & Hd & He)].
  - destruct (table_full_spec m _ n Hfull Hn) as (d & Hd'). congruence.
  - rewrite (unseated_spec _ _ _ _ _ _ Hun Hn Hd) in He. discriminate.
Qed.

(** [writeIn_neighbor] on a table that is full and does not hold the
    neighbour's key: the seat search returns [NULL], and the client ends
    the run with the status 2, having written nothing. *)
Theorem writeIn_neighbor_exits_on_full_table (m : Mem Z Z) current_node cur
    neighbor :
  table_wf m -> 0 < ht_size (hashintree m) ->
  table_full m = true ->
  unseated IntClient.isEqual (fst neighbor) m = true ->
  node_load current_node m = Ret cur m ->
  IntClient.writeIn_neighbor current_node neighbor m = Exit 2 m.
Proof.
  intros Hwf Hpos Hfull Hun Hcur. unfold IntClient.writeIn_neighbor.
  rewrite (bind_Ret _ _ _ _ _
             (find_seat_full m (fst neighbor) Hwf Hpos Hfull Hun)).
  rewrite (bind_Ret _ _ _ _ _ Hcur). reflexivity.
Qed.

(** The [int] sum is the sum of the numbers as long as that is an
    [int]. *)
Lemma int_add_in_range x y :
  - 2 ^ 31 <= x + y < 2 ^ 31 -> IntClient.int_add x y = x + y.
Proof.
  intros H. unfold IntClient.int_add.
  rewrite Z.mod_small by lia. lia.
Qed.

Lemma int_add_range x y : - 2 ^ 31 <= IntClient.int_add x y < 2 ^ 31.
Proof.
  unfold IntClient.int_add.
  pose proof (Z.mod_pos_bound (x + y + 2 ^ 31) (2 ^ 32) ltac:(lia)). lia.
Qed.

(** The relaxation step.  The weight through the current node is the
    [int] sum of the current node's weight and the edge's: the sum of the
    two numbers while it is an [int], and that sum wrapped round beyond
    (one past [INT_MAX] it is [INT_MIN]).  When [writeIn_neighbor]
    returns, the slot that the seat search gave for the neighbour holds
    the neighbour's key; its weight is the weight through the current
    node if the slot was empty, and else the smaller of that and the
    weight it had; its parent is the current node if the weight is new,
    and else the parent it had.  Every other record has the key, weight
    and parent it had. *)
Theorem writeIn_neighbor_relaxes (m : Mem Z Z) current_node cur neighbor i
    (ni : MinHeapNode Z Z) m' :
  table_wf m -> 0 < ht_size (hashintree m) ->
  node_load current_node m = Ret cur m ->
  HashInTree_find_seat (fst neighbor) IntClient.hashfunc IntClient.isEqual m
  = Ret (Some i) m ->
  array_get (ht_nodes (hashintree m)) i = Some ni ->
  IntClient.writeIn_neighbor current_node neighbor m = Ret tt m' ->
  (exists ni',
     array_get (ht_nodes (hashintree m')) i = Some ni'
     /\ data ni' = Some (fst neighbor)
     /\ weight ni'
        = match data ni with
          | None => IntClient.int_add (weight cur) (snd neighbor)
          | Some _ =>
              Z.min (weight ni)
                (IntClient.int_add (weight cur) (snd neighbor))
          end
     /\ parent ni'
        = match data ni with
          | None => current_node
          | Some _ =>
              if IntClient.int_add (weight cur) (snd neighbor) <? weight ni
              then current_node
              else parent ni
          end)
  /\ (forall j, j <> i ->
       record_of <$> array_get (ht_nodes (hashintree m')) j
       = record_of <$> array_get (ht_nodes (hashintree m)) j)
  /\ (- 2 ^ 31 <= weight cur + snd neighbor < 2 ^ 31 ->
      IntClient.int_add (weight cur) (snd neighbor)
      = weight cur + snd neighbor).
Proof.
  intros Hwf Hpos Hcur Hfind Hni Hrun.
  match goal with
  | |- ?A /\ ?B /\ ?C =>
      cut (A /\ B);
        [intros [HA HB]; split; [exact HA|]; split;
           [exact HB | apply int_add_in_range]|]
  end.
  pose proof (array_get_Some _ _ _ Hni) as Hi.
  assert (Hkey : forall d, data ni = Some d -> d = fst neighbor).
  { intros d Hd.
    destruct (find_seat_scan IntClient.isEqual (fst neighbor)
                IntClient.hashfunc m Hwf (int_hash_range _ _ Hpos))
      as (r & Hr & Hres).
    rewrite Hr in Hfind. injection Hfind as ->.
    destruct Hres as (k & (_ & Hfit & _) & Hik). rewrite <- Hik in Hfit.
    rewrite (fits_Some _ _ _ _ _ Hni) in Hfit. unfold seat_fits in Hfit.
    rewrite Hd in Hfit. apply Z.eqb_eq in Hfit. congruence. }
  unfold IntClient.writeIn_neighbor in Hrun.
  rewrite (bind_Ret _ _ _ _ _ Hfind) in Hrun.
  rewrite (bind_Ret _ _ _ _ _ Hcur) in Hrun.
  rewrite bind_node_load, Hni in Hrun.
  set (new := IntClient.int_add (weight cur) (snd neighbor)) in *.
  assert (Hafter : forall (r : MinHeapNode Z Z) m2,
            (forall j, array_get (ht_nodes (hashintree m2)) j
                       = if decide (i = j) then Some r
                         else array_get (ht_nodes (hashintree m)) j) ->
            same_records m2 m' ->
            (exists ni',
               array_get (ht_nodes (hashintree m')) i = Some ni'
               /\ data ni' = data r /\ weight ni' = weight r
               /\ parent ni' = parent r)
            /\ forall j, j <> i ->
                 record_of <$> array_get (ht_nodes (hashintree m')) j
                 = record_of <$> array_get (ht_nodes (hashintree m)) j).
  { intros r m2 Hm2 Hrec. split.
    - apply record_of_get.
      rewrite (same_records_get m2 m' i Hrec), Hm2.
      destruct (decide (i = i)); [reflexivity|congruence].
    - intros j Hj. rewrite (same_records_get m2 m' j Hrec), Hm2.
      destruct (decide (i = j)); [congruence|reflexivity]. }
  destruct (data ni) as [d|] eqn:Hd.
  - unfold IntClient.isBetterThan in Hrun.
    destruct (new <? weight ni) eqn:Hb.
    + apply bind_Ret_inv in Hrun. destruct Hrun as ([] & m1 & H1 & Hrun).
      apply node_update_inv in H1. destruct H1 as (a & [= <-] & ->).
      apply bind_Ret_inv in Hrun. destruct Hrun as ([] & m2 & H2 & Hrun).
      apply node_update_inv in H2. destruct H2 as (a & [= <-] & ->).
      apply update_key_same_records in Hrun.
      match type of Hrun with
      | same_records ?m2 _ =>
          destruct (Hafter (set_parent current_node (set_weight new ni)) m2)
            as [(ni' & Hni' & Hd' & Hw' & Hp') Hothers];
            [intros j; simpl; rewrite !array_get_alter by lia;
             destruct (decide (i = j)) as [<-|]; [rewrite Hni|]; reflexivity
            |exact Hrun|]
      end.
      split; [|exact Hothers].
      exists ni'. split; [exact Hni'|]. simpl in Hd', Hw', Hp'.
      split; [rewrite Hd', Hd, (Hkey d eq_refl); reflexivity|].
      split; [rewrite Hw'; apply Z.ltb_lt in Hb; lia|exact Hp'].
    + injection Hrun as <-. split; [|intros; reflexivity].
      exists ni. split; [exact Hni|].
      split; [rewrite Hd, (Hkey d eq_refl); reflexivity|].
      split; [apply Z.ltb_ge in Hb; lia|reflexivity].
  - apply bind_Ret_inv in Hrun. destruct Hrun as ([] & m1 & H1 & Hrun).
    apply node_update_inv in H1. destruct H1 as (a & [= <-] & ->).
    apply bind_Ret_inv in Hrun. destruct Hrun as ([] & m2 & H2 & Hrun).
    apply node_update_inv in H2. destruct H2 as (a & [= <-] & ->).
    apply bind_Ret_inv in Hrun. destruct Hrun as ([] & m3 & H3 & Hrun).
    apply node_update_inv in H3. destruct H3 as (a & [= <-] & ->).
    apply update_key_same_records in Hrun.
    match type of Hrun with
    | same_records ?m2 _ =>
        destruct (Hafter
                    (set_parent current_node
                       (set_weight new (set_data (Some (fst neighbor)) ni)))
                    m2)
          as [(ni' & Hni' & Hd' & Hw' & Hp') Hothers];
          [intros j; simpl; rewrite !array_get_alter by lia;
           destruct (decide (i = j)) as [<-|]; [rewrite Hni|]; reflexivity
          |exact Hrun|]
    end.
    split; [|exact Hothers]. exists ni'. auto.
Qed.

(** A row is read up to its first [NULL_CASE] key: whatever follows it,
    and whatever weight stands beside it, plays no part. *)
Theorem send_row_stops_at_null_case min_node pre w post (m : Mem Z Z) :
  IntClient.send_row min_node (pre ++ (fst IntClient.NULL_CASE, w) :: post) m
  = IntClient.send_row min_node pre m.
Proof.
  revert m. induction pre as [|neighbor pre IH]; intros m; simpl;
    [reflexivity|].
  destruct (_ =? _); [reflexivity|].
  apply bind_ext. intros [] m1. apply IH.
Qed.

(** ** The index arithmetic of the heap *)

(** [parent_index], [left_child_index] and [right_child_index] on
    [size_t]: below half the address space the children of slot [i] are
    the slots [2i + 1] and [2i + 2] and [i] is the parent of both; a slot
    other than the root has its parent strictly before it; and the
    "parent" of the root wraps around to the last index but one of that
    half, which is why the loops test [curr_index > 0] first. *)
Theorem parent_and_child_indices i :
  0 <= i -> i + 1 < half_modulus ->
  left_child_index i = 2 * i + 1
  /\ right_child_index i = 2 * i + 2
  /\ parent_index (left_child_index i) = i
  /\ parent_index (right_child_index i) = i
  /\ (0 < i -> 0 <= parent_index i < i)
  /\ parent_index 0 = half_modulus - 1.
Proof.
  intros Hi Hhalf.
  destruct (children_above i Hi Hhalf) as [Hl Hr].
  assert (H63 : half_modulus = 9223372036854775808) by reflexivity.
  split; [exact Hl|]. split; [exact Hr|].
  rewrite Hl, Hr.
  rewrite !parent_index_eq by (rewrite size_modulus_eq; lia).
  split; [|split; [|split]].
  - replace (2 * i + 1 - 1) with (i * 2) by lia. apply Z.div_mul. lia.
  - replace (2 * i + 2 - 1) with (1 + i * 2) by lia.
    rewrite Z.div_add by lia. reflexivity.
  - apply parent_index_lt.
  - reflexivity.
Qed.

(** ** The theorems at work on the demonstration client *)

Lemma sparse_table_wf : table_wf IntClient.sparse_table.
Proof. split; reflexivity. Qed.

Lemma sparse_table_slots i (n : MinHeapNode Z Z) d :
  array_get (ht_nodes (hashintree IntClient.sparse_table)) i = Some n ->
  data n = Some d -> i = 0 /\ d = 0.
Proof.
  unfold array_get. destruct (0 <=? i) eqn:E; [|discriminate].
  apply Z.leb_le in E. simpl.
  destruct (Z.to_nat i) as [|[|[|k]]] eqn:Ei; simpl; intros [= <-];
    simpl; intros [=]. subst. split; [lia|reflexivity].
Qed.

Lemma sparse_table_inv :
  table_inv IntClient.hashfunc IntClient.isEqual IntClient.sparse_table.
Proof.
  split; [exact sparse_table_wf|]. split.
  - intros i n d Hn Hd.
    destruct (sparse_table_slots i n d Hn Hd) as [-> ->].
    split; [vm_compute; split; [discriminate|reflexivity]|].
    intros j Hj. vm_compute in Hj. destruct Hj as [H1 H2].
    destruct j; try discriminate; exfalso; apply H1; reflexivity.
  - intros i j ni nj di dj Hi Hj Hdi Hdj _.
    destruct (sparse_table_slots i ni di Hi Hdi) as [-> _].
    destruct (sparse_table_slots j nj dj Hj Hdj) as [-> _].
    reflexivity.
Qed.

Lemma find_seat_returns_seat_unless_full_witness :
  exists r,
    HashInTree_find_seat 4 IntClient.hashfunc IntClient.isEqual
      IntClient.sparse_table = Ret r IntClient.sparse_table
    /\ match r with
       | Some i =>
           empty_at IntClient.sparse_table i
           \/ holds IntClient.isEqual 4 IntClient.sparse_table i
       | None =>
           table_full IntClient.sparse_table = true
           /\ unseated IntClient.isEqual 4 IntClient.sparse_table = true
       end.
Proof.
  apply (find_seat_returns_seat_unless_full IntClient.hashfunc
           IntClient.isEqual IntClient.sparse_table 4).
  - split; reflexivity.
  - vm_compute. split; [discriminate|reflexivity].
Defined.

Lemma get_node_by_data_returns_match_witness :
  exists r,
    HashInTree_get_node_by_data 0 IntClient.hashfunc IntClient.isEqual
      IntClient.sparse_table = Ret r IntClient.sparse_table
    /\ forall i, r = Some i -> holds IntClient.isEqual 0 IntClient.sparse_table i.
Proof.
  apply (get_node_by_data_returns_match IntClient.hashfunc IntClient.isEqual
           IntClient.sparse_table 0).
  - split; reflexivity.
  - vm_compute. split; [discriminate|reflexivity].
Defined.

Lemma seated_key_is_found_witness :
  exists m',
    node_update (Some 1) (set_data (Some 1)) IntClient.sparse_table
    = Ret tt m'
    /\ HashInTree_get_node_by_data 1 IntClient.hashfunc IntClient.isEqual m'
       = Ret (Some 1) m'
    /\ HashInTree_find_seat 1 IntClient.hashfunc IntClient.isEqual m'
       = Ret (Some 1) m'.
Proof.
  apply (seated_key_is_found IntClient.hashfunc IntClient.isEqual
           IntClient.sparse_table 1 1 (mkNode None 0 None 0)).
  - split; reflexivity.
  - vm_compute. split; [discriminate|reflexivity].
  - reflexivity.
  - reflexivity.
  - reflexivity.
  - reflexivity.
Defined.

Lemma lookup_survives_seating_witness :
  exists m',
    node_update (Some 1) (set_data (Some 1)) IntClient.sparse_table
    = Ret tt m'
    /\ HashInTree_get_node_by_data 0 IntClient.hashfunc IntClient.isEqual m'
       = Ret (Some 0) m'.
Proof.
  apply (lookup_survives_seating IntClient.hashfunc IntClient.isEqual
           IntClient.sparse_table 0 0 1 (mkNode None 0 None 0)
           (set_data (Some 1))).
  - split; reflexivity.
  - vm_compute. split; [discriminate|reflexivity].
  - reflexivity.
  - reflexivity.
  - reflexivity.
Defined.

Lemma probes_ignore_other_fields_witness :
  returned
    (HashInTree_find_seat 0 IntClient.hashfunc IntClient.isEqual
       (with_nodes
          (alter (set_weight 9) (Z.to_nat 0)
             (ht_nodes (hashintree IntClient.sparse_table)))
          IntClient.sparse_table))
  = returned
      (HashInTree_find_seat 0 IntClient.hashfunc IntClient.isEqual
         IntClient.sparse_table)
  /\ returned
       (HashInTree_get_node_by_data 0 IntClient.hashfunc IntClient.isEqual
          (with_nodes
             (alter (set_weight 9) (Z.to_nat 0)
                (ht_nodes (hashintree IntClient.sparse_table)))
             IntClient.sparse_table))
     = returned
         (HashInTree_get_node_by_data 0 IntClient.hashfunc IntClient.isEqual
            IntClient.sparse_table).
Proof.
  apply (probes_ignore_other_fields IntClient.hashfunc IntClient.isEqual
           IntClient.sparse_table 0 0 (set_weight 9)).
  - intros n. reflexivity.
  - reflexivity.
Defined.

Lemma fresh_table_is_empty_witness :
  table_inv IntClient.hashfunc IntClient.isEqual
    (mkMem (HashInTree_create IntClient.zeroed 7) (MinHeap_create 3))
  /\ (forall i,
        ~ occupied_at
            (mkMem (HashInTree_create IntClient.zeroed 7) (MinHeap_create 3))
            i)
  /\ HashInTree_find_seat 2 IntClient.hashfunc IntClient.isEqual
       (mkMem (HashInTree_create IntClient.zeroed 7) (MinHeap_create 3))
     = Ret (Some (IntClient.hashfunc 7 2))
         (mkMem (HashInTree_create IntClient.zeroed 7) (MinHeap_create 3))
  /\ HashInTree_get_node_by_data 2 IntClient.hashfunc IntClient.isEqual
       (mkMem (HashInTree_create IntClient.zeroed 7) (MinHeap_create 3))
     = Ret None
         (mkMem (HashInTree_create IntClient.zeroed 7) (MinHeap_create 3)).
Proof.
  apply (fresh_table_is_empty IntClient.hashfunc IntClient.isEqual
           IntClient.zeroed 7 (MinHeap_create 3) 2).
  - vm_compute. split; [discriminate|reflexivity].
  - vm_compute. split; [discriminate|reflexivity].
Defined.

Lemma seating_keeps_table_invariant_witness :
  exists m',
    node_update (Some 1) (set_data (Some 1)) IntClient.sparse_table
    = Ret tt m'
    /\ table_inv IntClient.hashfunc IntClient.isEqual m'.
Proof.
  apply (seating_keeps_table_invariant IntClient.hashfunc IntClient.isEqual
           int_isEqual_sym int_hash_compat IntClient.sparse_table 1 1
           (mkNode None 0 None 0)).
  - exact sparse_table_inv.
  - vm_compute. split; [discriminate|reflexivity].
  - reflexivity.
  - reflexivity.
  - reflexivity.
Defined.

Lemma lookup_finds_exactly_the_seated_witness :
  (forall i,
     HashInTree_get_node_by_data 0 IntClient.hashfunc IntClient.isEqual
       IntClient.sparse_table = Ret (Some i) IntClient.sparse_table
     <-> holds IntClient.isEqual 0 IntClient.sparse_table i)
  /\ (HashInTree_get_node_by_data 0 IntClient.hashfunc IntClient.isEqual
        IntClient.sparse_table = Ret None IntClient.sparse_table
      <-> forall i, ~ holds IntClient.isEqual 0 IntClient.sparse_table i).
Proof.
  apply (lookup_finds_exactly_the_seated IntClient.hashfunc IntClient.isEqual
           int_isEqual_sym int_isEqual_trans int_hash_compat
           IntClient.sparse_table 0).
  - exact sparse_table_inv.
  - vm_compute. split; [discriminate|reflexivity].
Defined.

Lemma pluck_min_touches_positions_only_witness :
  (forall code m',
     MinHeap_pluck_min IntClient.isBetterThan IntClient.four_heap
     <> Exit code m')
  /\ exists r m',
       MinHeap_pluck_min IntClient.isBetterThan IntClient.four_heap
       = Ret r m'
       /\ same_records IntClient.four_heap m'.
Proof.
  destruct (pluck_min_touches_positions_only IntClient.isBetterThan
              IntClient.four_heap) as [Hquiet Hkept].
  split; [exact Hquiet|].
  eexists. eexists. split; [vm_compute; reflexivity|].
  eapply Hkept. vm_compute. reflexivity.
Defined.

Lemma update_key_touches_positions_only_witness :
  exists m',
    MinHeap_update_key (Some 2) true IntClient.isBetterThan
      IntClient.before_insert = Ret tt m'
    /\ same_records IntClient.before_insert m'.
Proof.
  eexists. split; [vm_compute; reflexivity|].
  eapply (proj2 (update_key_touches_positions_only IntClient.isBetterThan
                   IntClient.before_insert (Some 2) true)).
  vm_compute. reflexivity.
Defined.

Lemma pluck_min_returns_the_best_witness :
  exists a na m',
    MinHeap_pluck_min IntClient.isBetterThan IntClient.four_heap
    = Ret (Some a) m'
    /\ array_get (ht_nodes (hashintree IntClient.four_heap)) a = Some na
    /\ mh_size (minheap m') = mh_size (minheap IntClient.four_heap) - 1
    /\ residents IntClient.four_heap ≡ₚ Some a :: residents m'
    /\ forall b nb,
         Some b ∈ residents IntClient.four_heap ->
         array_get (ht_nodes (hashintree IntClient.four_heap)) b = Some nb ->
         IntClient.isBetterThan (weight nb) (weight na) = false.
Proof.
  apply (pluck_min_returns_the_best IntClient.isBetterThan int_better_asym
           int_not_better_trans IntClient.four_heap).
  - reflexivity.
  - reflexivity.
  - reflexivity.
Defined.

Lemma update_key_in_order_changes_nothing_witness :
  MinHeap_update_key (Some 3) false IntClient.isBetterThan IntClient.four_heap
  = Ret tt IntClient.four_heap.
Proof.
  apply (update_key_in_order_changes_nothing IntClient.isBetterThan
           IntClient.four_heap 3 (mkNode (Some 3) 6 (Some 1) 3)).
  - reflexivity.
  - reflexivity.
  - intros _. exists 5. split; reflexivity.
Defined.

Lemma update_key_restores_order_after_improvement_witness :
  exists m1 m',
    node_update (Some 3) (set_weight 0) IntClient.four_heap = Ret tt m1
    /\ MinHeap_update_key (Some 3) false IntClient.isBetterThan m1 = Ret tt m'
    /\ heap_wf m' = true
    /\ index_consistent m' = true
    /\ heap_ordered IntClient.isBetterThan m' = true
    /\ mh_size (minheap m') = mh_size (minheap IntClient.four_heap)
    /\ residents m' ≡ₚ residents IntClient.four_heap
    /\ exists n', array_get (ht_nodes (hashintree m')) 3 = Some n'
                  /\ weight n' = 0
                  /\ data n' = data (mkNode (Some 3) 6 (Some 1) 3)
                  /\ parent n' = parent (mkNode (Some 3) 6 (Some 1) 3).
Proof.
  apply (update_key_restores_order_after_improvement IntClient.isBetterThan
           int_better_asym int_not_better_trans IntClient.four_heap 3
           (mkNode (Some 3) 6 (Some 1) 3) 0).
  - reflexivity.
  - reflexivity.
  - reflexivity.
  - reflexivity.
  - vm_compute. split; [discriminate|reflexivity].
  - reflexivity.
  - reflexivity.
Defined.

Lemma recorded_insertion_adds_the_record_witness :
  exists m',
    MinHeap_update_key (Some 2) true IntClient.isBetterThan
      (with_nodes
         (alter (set_heapIndex 1) (Z.to_nat 2)
            (ht_nodes (hashintree IntClient.before_insert)))
         IntClient.before_insert) = Ret tt m'
    /\ mh_size (minheap m') = 1 + 1
    /\ heap_wf m' = true
    /\ index_consistent m' = true
    /\ heap_ordered IntClient.isBetterThan m' = true
    /\ residents m' ≡ₚ [Some 2; Some 1].
Proof.
  apply (recorded_insertion_adds_the_record IntClient.isBetterThan
           int_better_asym int_not_better_trans
           (with_nodes
              (alter (set_heapIndex 1) (Z.to_nat 2)
                 (ht_nodes (hashintree IntClient.before_insert)))
              IntClient.before_insert)
           2 (mkNode (Some 2) 1 (Some 0) 1)).
  - reflexivity.
  - reflexivity.
  - reflexivity.
  - reflexivity.
  - vm_compute. discriminate.
  - reflexivity.
  - intros i Hi. simpl in Hi. assert (i = 0) as -> by lia. discriminate.
  - reflexivity.
Defined.

Lemma dijkstra_returns_exact_table_witness :
  exists t m',
    Dijkstra_1source_to_all_else IntClient.zeroed 5 0 0 4 IntClient.hashfunc
      IntClient.isEqual IntClient.isBetterThan
      (IntClient.send_neighbors IntClient.diamond) = Ret t m'
    /\ ht_size t = 9
    /\ table_inv IntClient.hashfunc IntClient.isEqual m'.
Proof.
  eexists. eexists. split; [vm_compute; reflexivity|].
  refine (let H := dijkstra_returns_exact_table IntClient.hashfunc
                     IntClient.isEqual IntClient.isBetterThan
                     int_isEqual_sym int_isEqual_trans int_hash_compat
                     IntClient.zeroed 5 0 0 4
                     (IntClient.send_neighbors IntClient.diamond) _ _ _ _ _
          in conj (proj1 (proj2 H)) (proj1 (proj2 (proj2 H)))).
  - vm_compute. split; [discriminate|reflexivity].
  - intros p. apply keeps_send_neighbors. reflexivity.
  - vm_compute. reflexivity.
Defined.

Lemma int_client_table_is_exact_witness :
  exists t m',
    Dijkstra_1source_to_all_else IntClient.zeroed 5 0 0 4 IntClient.hashfunc
      IntClient.isEqual IntClient.isBetterThan
      (IntClient.send_neighbors IntClient.diamond) = Ret t m'
    /\ forall key i,
         HashInTree_get_node_by_data key IntClient.hashfunc IntClient.isEqual
           m' = Ret (Some i) m'
         <-> holds IntClient.isEqual key m' i.
Proof.
  eexists. eexists. split; [vm_compute; reflexivity|].
  refine (proj2 (proj2 (proj2
            (int_client_table_is_exact IntClient.zeroed 5 0 0 4
               IntClient.diamond _ _ _)))).
  vm_compute. reflexivity.
Defined.

Lemma dijkstra_exits_only_with_2_witness :
  exists code m',
    Dijkstra_1source_to_all_else IntClient.zeroed 2 0 0 0 IntClient.hashfunc
      IntClient.isEqual IntClient.isBetterThan (fun _ => ret tt)
    = Exit code m'
    /\ code = 2.
Proof.
  eexists. eexists. split; [vm_compute; reflexivity|].
  eapply (dijkstra_exits_only_with_2 IntClient.isBetterThan IntClient.zeroed
            2 0 0 0 IntClient.hashfunc IntClient.isEqual (fun _ => ret tt)).
  - intros p m code m'. discriminate.
  - vm_compute. reflexivity.
Defined.

Lemma int_client_exits_only_with_2_witness :
  exists code m',
    Dijkstra_1source_to_all_else IntClient.zeroed 5 0 0 1 IntClient.hashfunc
      IntClient.isEqual IntClient.isBetterThan
      (IntClient.send_neighbors IntClient.diamond) = Exit code m'
    /\ code = 2.
Proof.
  eexists. eexists. split; [vm_compute; reflexivity|].
  eapply (int_client_exits_only_with_2 IntClient.zeroed 5 0 0 1
            IntClient.diamond).
  vm_compute. reflexivity.
Defined.

Lemma writeIn_neighbor_exits_on_full_table_witness :
  IntClient.writeIn_neighbor (Some 0) (3, 1) IntClient.full_table
  = Exit 2 IntClient.full_table.
Proof.
  apply (writeIn_neighbor_exits_on_full_table IntClient.full_table (Some 0)
           (mkNode (Some 0) 0 None 0) (3, 1)).
  - split; reflexivity.
  - reflexivity.
  - reflexivity.
  - reflexivity.
  - reflexivity.
Defined.

Lemma writeIn_neighbor_relaxes_witness :
  (exists m',
     IntClient.writeIn_neighbor (Some 0) (1, 5) IntClient.sparse_table
     = Ret tt m'
     /\ exists ni',
          array_get (ht_nodes (hashintree m')) 1 = Some ni'
          /\ data ni' = Some 1 /\ weight ni' = 5 /\ parent ni' = Some 0)
  /\ (exists m',
        IntClient.writeIn_neighbor (Some 0) (1, 1) at_int_max = Ret tt m'
        /\ exists ni',
             array_get (ht_nodes (hashintree m')) 1 = Some ni'
             /\ data ni' = Some 1 /\ weight ni' = -2147483648
             /\ parent ni' = Some 0).
Proof.
  split.
  - eexists. split; [vm_compute; reflexivity|].
    refine (proj1
              (writeIn_neighbor_relaxes IntClient.sparse_table (Some 0)
                 (mkNode (Some 0) 0 None 0) (1, 5) 1 (mkNode None 0 None 0) _
                 _ _ _ _ _ _)).
    + split; reflexivity.
    + reflexivity.
    + reflexivity.
    + reflexivity.
    + reflexivity.
    + vm_compute. reflexivity.
  - eexists. split; [vm_compute; reflexivity|].
    refine (proj1
              (writeIn_neighbor_relaxes at_int_max (Some 0)
                 (mkNode (Some 0) 2147483647 None 0) (1, 1) 1
                 (mkNode (Some 1) 7 None 0) _ _ _ _ _ _ _)).
    + split; reflexivity.
    + reflexivity.
    + reflexivity.
    + reflexivity.
    + reflexivity.
    + vm_compute. reflexivity.
Defined.

Lemma parent_and_child_indices_witness :
  left_child_index 3 = 2 * 3 + 1
  /\ right_child_index 3 = 2 * 3 + 2
  /\ parent_index (left_child_index 3) = 3
  /\ parent_index (right_child_index 3) = 3
  /\ (0 < 3 -> 0 <= parent_index 3 < 3)
  /\ parent_index 0 = half_modulus - 1.
Proof.
  apply (parent_and_child_indices 3).
  - discriminate.
  - reflexivity.
Defined.

(** ** Counting the occupants *)

Section Counting.

Context {K W : Type}.
Implicit Types (l : list (MinHeapNode K W)).

Lemma occupied_omap (t : HashInTree K W) :
  occupied t = length (omap data (ht_nodes t)).
Proof.
  unfold occupied. induction (ht_nodes t) as [|r l IH]; [reflexivity|].
  rewrite filter_cons. simpl.
  destruct (data r) as [d|] eqn:E;
    destruct (decide (is_Some (data r))) as [Hs|Hs].
  - simpl. f_equal. exact IH.
  - exfalso. apply Hs. rewrite E. eexists. reflexivity.
  - exfalso. rewrite E in Hs. destruct Hs as [x Hx]. discriminate.
  - exact IH.
Qed.

Lemma omap_data_fmap l : omap data l = omap id (data <$> l).
Proof.
  induction l as [|r l IH]; [reflexivity|]. simpl.
  destruct (data r); simpl; [f_equal|]; exact IH.
Qed.

Lemma occupied_same_keys (m m' : Mem K W) :
  same_keys m m' -> occupied (hashintree m') = occupied (hashintree m).
Proof.
  intros [_ Hdata]. rewrite !occupied_omap, !omap_data_fmap, Hdata.
  reflexivity.
Qed.

Lemma omap_data_seat l i (r : MinHeapNode K W) key :
  l !! i = Some r -> data r = None ->
  length (omap data (alter (set_data (Some key)) i l))
  = S (length (omap data l)).
Proof.
  revert i. induction l as [|x l IH]; intros i Hi Hd; [discriminate|].
  destruct i as [|i]; simpl in *.
  - injection Hi as ->. rewrite Hd. reflexivity.
  - destruct (data x); simpl; [f_equal|]; apply IH; assumption.
Qed.

Lemma omap_data_full l :
  (forall r, r ∈ l -> is_Some (data r)) ->
  length (omap data l) = length l.
Proof.
  induction l as [|x l IH]; intros Hall; [reflexivity|]. simpl.
  destruct (Hall x ltac:(left)) as [d Hd]. rewrite Hd. simpl. f_equal.
  apply IH. intros r Hr. apply Hall. right. exact Hr.
Qed.

Lemma omap_data_nodup l :
  (forall i j ni nj d,
     l !! i = Some ni -> l !! j = Some nj ->
     data ni = Some d -> data nj = Some d -> i = j) ->
  NoDup (omap data l).
Proof.
  induction l as [|x l IH]; intros Hdist; [constructor|]. simpl.
  assert (Htail : NoDup (omap data l)).
  { apply IH. intros i j ni nj d Hi Hj Hdi Hdj.
    assert (S i = S j) by (eapply Hdist; eassumption). lia. }
  destruct (data x) as [d|] eqn:Hd; [|exact Htail].
  constructor; [|exact Htail].
  intros Hin. apply list_elem_of_omap in Hin.
  destruct Hin as (y & Hy & Hdy).
  apply list_elem_of_lookup in Hy. destruct Hy as [j Hj].
  assert (0%nat = S j) by (eapply (Hdist 0%nat (S j)); eauto).
  discriminate.
Qed.

End Counting.

(** A table with distinct keys, all of them node numbers below [n], has
    at most [n] occupants. *)
Lemma occupied_at_most n (m : Mem Z Z) :
  0 <= n ->
  keys_distinct IntClient.isEqual m -> keys_below n m ->
  Z.of_nat (occupied (hashintree m)) <= n.
Proof.
  intros Hn Hdist Hbelow. rewrite occupied_omap.
  assert (Hsub : omap data (ht_nodes (hashintree m)) ⊆+ seqZ 0 n).
  { apply NoDup_submseteq.
    - apply omap_data_nodup. intros i j ni nj d Hi Hj Hdi Hdj.
      rewrite <- array_get_of_nat in Hi, Hj.
      assert (Z.of_nat i = Z.of_nat j)
        by (eapply (Hdist _ _ ni nj d d); eauto; apply Z.eqb_refl).
      lia.
    - intros d Hin. apply list_elem_of_omap in Hin.
      destruct Hin as (r & Hr & Hd).
      apply list_elem_of_lookup in Hr. destruct Hr as [i Hi].
      rewrite <- array_get_of_nat in Hi.
      apply elem_of_seqZ. pose proof (Hbelow _ _ _ Hi Hd). lia. }
  apply submseteq_length in Hsub. rewrite length_seqZ in Hsub. lia.
Qed.

(** ** What keeps the size of the heap *)

Section SizeKeeping.

Context {K W : Type}.
Implicit Types (m : Mem K W).
Variable s : Z.

Abbreviation sized := (fun m : Mem K W => mh_size (minheap m) = s).

Lemma sized_heap_load i : keeps sized (heap_load i).
Proof.
  apply keeps_reader. intros m. unfold heap_load.
  destruct (array_get _ i); [reflexivity|exact Logic.I].
Qed.

Lemma sized_heap_store i p : keeps sized (heap_store i p).
Proof.
  intros m Hm. unfold heap_store. destruct (array_get _ i); [|exact Logic.I].
  exact Hm.
Qed.

Lemma sized_node_update p (f : MinHeapNode K W -> MinHeapNode K W) :
  keeps sized (node_update p f).
Proof.
  intros m Hm. unfold node_update. destruct p as [a|]; [|exact Logic.I].
  destruct (array_get _ a); [|exact Logic.I]. exact Hm.
Qed.

Lemma sized_get_size : keeps sized get_size.
Proof. intros m Hm. exact Hm. Qed.

Variable isBetterThan : W -> W -> bool.

Lemma sized_bubble_up_loop this_node : forall fuel curr_index,
  keeps sized (bubble_up_loop fuel isBetterThan this_node curr_index).
Proof.
  induction fuel as [|fuel IH]; intros curr_index; simpl;
    [intros m Hm; exact Logic.I|].
  destruct (0 <? curr_index); [|apply keeps_ret].
  apply keeps_bind; [apply keeps_node_load|intros tn].
  apply keeps_bind; [apply sized_heap_load|intros pp].
  apply keeps_bind; [apply keeps_node_load|intros pn].
  destruct (isBetterThan _ _); [|apply keeps_ret].
  apply keeps_bind; [apply sized_node_update|intros _].
  apply keeps_bind; [apply sized_heap_load|intros pp'].
  apply keeps_bind; [apply sized_heap_store|intros _].
  apply IH.
Qed.

Lemma sized_bubble_up curr_index :
  keeps sized (MinHeap_bubble_up curr_index isBetterThan).
Proof.
  unfold MinHeap_bubble_up, bubble_up_from.
  apply keeps_bind; [apply sized_heap_load|intros this_node].
  apply keeps_bind; [apply sized_bubble_up_loop|intros final].
  apply keeps_bind; [apply sized_node_update|intros _].
  apply sized_heap_store.
Qed.

Lemma sized_smaller_child l r :
  keeps sized (smaller_child isBetterThan l r).
Proof.
  unfold smaller_child.
  apply keeps_bind; [apply sized_get_size|intros size].
  destruct (r <? size); [|apply keeps_ret].
  apply keeps_bind; [apply sized_heap_load|intros x].
  apply keeps_bind; [apply keeps_node_load|intros rn].
  apply keeps_bind; [apply sized_heap_load|intros y].
  apply keeps_bind; [apply keeps_node_load|intros ln].
  apply keeps_ret.
Qed.

Lemma sized_bubble_down_loop curr_node : forall fuel curr_index l r,
  keeps sized (bubble_down_loop fuel isBetterThan curr_node curr_index l r).
Proof.
  induction fuel as [|fuel IH]; intros curr_index l r; simpl;
    [intros m Hm; exact Logic.I|].
  apply keeps_bind; [apply sized_get_size|intros size].
  destruct (l <? size); [|apply keeps_ret].
  apply keeps_bind; [apply sized_smaller_child|intros c].
  apply keeps_bind; [apply sized_heap_load|intros x].
  apply keeps_bind; [apply keeps_node_load|intros sn].
  apply keeps_bind; [apply keeps_node_load|intros cn].
  destruct (isBetterThan _ _); [|apply keeps_ret].
  apply keeps_bind; [apply sized_node_update|intros _].
  apply keeps_bind; [apply sized_heap_load|intros x'].
  apply keeps_bind; [apply sized_heap_store|intros _].
  apply IH.
Qed.

Lemma sized_bubble_down fuel curr_node curr_index :
  keeps sized (bubble_down fuel isBetterThan curr_node curr_index).
Proof.
  unfold bubble_down.
  apply keeps_bind; [apply sized_bubble_down_loop|intros final].
  apply keeps_bind; [apply sized_heap_store|intros _].
  apply sized_node_update.
Qed.

End SizeKeeping.

Section Sizes.

Context {K W : Type}.
Implicit Types (m : Mem K W).
Variable isBetterThan : W -> W -> bool.

(** The size of the heap after [MinHeap_update_key]. *)
Lemma update_key_size m (node : ptr) (NodeIsNew : bool) m' :
  MinHeap_update_key node NodeIsNew isBetterThan m = Ret tt m' ->
  mh_size (minheap m')
  = if NodeIsNew then wrap (mh_size (minheap m) + 1) else mh_size (minheap m).
Proof.
  rewrite update_key_cases.
  destruct (NodeIsNew && _); [discriminate|]. intros Hrun.
  apply bind_Ret_inv in Hrun. destruct Hrun as ([] & m1 & H1 & Hrun).
  assert (Hs1 : mh_size (minheap m1)
                = if NodeIsNew then wrap (mh_size (minheap m) + 1)
                  else mh_size (minheap m)).
  { destruct NodeIsNew.
    - apply bind_Ret_inv in H1. destruct H1 as ([] & m2 & H2 & H1).
      apply heap_store_inv in H2. destruct H2 as [-> _].
      injection H1 as <-. reflexivity.
    - injection H1 as <-. reflexivity. }
  apply bind_Ret_inv in Hrun. destruct Hrun as (r & m2 & H2 & Hrun).
  pose proof (keeps_node_load (fun x => x = m1) node m1 eq_refl) as Hl.
  rewrite H2 in Hl. subst m2.
  pose proof (sized_bubble_up (mh_size (minheap m1)) isBetterThan
                (heapIndex r) m1 eq_refl) as Hb.
  rewrite Hrun in Hb. congruence.
Qed.

(** The size of the heap after [MinHeap_pluck_min]. *)
Lemma pluck_min_size m r m' :
  MinHeap_pluck_min isBetterThan m = Ret r m' ->
  mh_size (minheap m')
  = if mh_size (minheap m) =? 0 then mh_size (minheap m)
    else wrap (mh_size (minheap m) - 1).
Proof.
  unfold MinHeap_pluck_min. rewrite bind_get_size.
  destruct (mh_size (minheap m) =? 0); [intros [= _ <-]; reflexivity|].
  intros Hrun.
  apply bind_Ret_inv in Hrun. destruct Hrun as (root & m1 & H1 & Hrun).
  apply heap_load_inv in H1. destruct H1 as [-> _].
  rewrite bind_put_size, bind_get_size in Hrun. simpl mh_size in Hrun.
  set (s := wrap (mh_size (minheap m) - 1)) in *.
  apply bind_Ret_inv in Hrun. destruct Hrun as (cn & m1 & H1 & Hrun).
  apply heap_load_inv in H1. destruct H1 as [-> _].
  apply bind_Ret_inv in Hrun. destruct Hrun as ([] & m1 & H1 & Hrun).
  apply heap_store_inv in H1. destruct H1 as [-> _].
  destruct (s =? 0); [injection Hrun as _ <-; reflexivity|].
  apply bind_Ret_inv in Hrun. destruct Hrun as ([] & m2 & H2 & Hrun).
  injection Hrun as _ <-.
  match type of H2 with
  | bubble_down ?f _ ?c ?i ?mm = _ =>
      pose proof (sized_bubble_down s isBetterThan f c i mm eq_refl) as Hb
  end.
  rewrite H2 in Hb. exact Hb.
Qed.

End Sizes.

(** ** A run with the right number of nodes *)

Section SafeRules.

Variable J : Mem Z Z -> Prop.

Lemma safe_ret {A} (a : A) : safe J (ret a).
Proof. intros m Hm. exact Hm. Qed.

Lemma safe_fault {A} : safe J (fault (A:=A)).
Proof. intros m Hm. exact Logic.I. Qed.

Lemma safe_bind {A B} (c : M Z Z A) (k : A -> M Z Z B) :
  safe J c -> (forall a, safe J (k a)) -> safe J (bind c k).
Proof.
  intros Hc Hk m Hm. unfold bind. specialize (Hc m Hm).
  destruct (c m) as [a m1| | |]; try exact Hc.
  exact (Hk a m1 Hc).
Qed.

Lemma safe_at {A} (c : M Z Z A) m :
  safe J c -> J m ->
  match c m with
  | Ret _ m' => J m'
  | Exit _ _ => False
  | _ => True
  end.
Proof. intros Hc Hm. exact (Hc m Hm). Qed.

Lemma safe_reader {A} (c : M Z Z A) :
  (forall m, match c m with
             | Ret _ m' => m' = m
             | Exit _ _ => False
             | _ => True
             end) ->
  safe J c.
Proof.
  intros Hc m Hm. specialize (Hc m).
  destruct (c m) as [a m1|code m1| |];
    [subst; exact Hm | exact Hc | exact Logic.I | exact Logic.I].
Qed.

Lemma safe_node_load p : safe J (node_load p).
Proof.
  apply safe_reader. intros m. destruct p as [a|]; simpl; [|exact Logic.I].
  unfold table_load. destruct (array_get _ a); [reflexivity|exact Logic.I].
Qed.

End SafeRules.

Section RunSafety.

Variables size n : Z.
Hypothesis n_range : 0 <= n < half_modulus.
Hypothesis size_above : n < size.

Abbreviation J := (run_inv size n).

Lemma keys_below_same_keys (m m' : Mem Z Z) :
  same_keys m m' -> keys_below n m -> keys_below n m'.
Proof.
  intros Hsame Hbelow i r d Hr Hd.
  pose proof (same_keys_get m m' i Hsame) as Hget.
  rewrite Hr in Hget. simpl in Hget.
  destruct (array_get (ht_nodes (hashintree m)) i) as [r0|] eqn:Hr0;
    [|discriminate].
  injection Hget as Hget. apply (Hbelow i r0 d Hr0). congruence.
Qed.

(** The invariant carried over to a memory with the same keys. *)
Lemma run_inv_same_keys (m m' : Mem Z Z) :
  J m -> same_keys m m' ->
  mh_capacity (minheap m') = mh_capacity (minheap m) ->
  0 <= mh_size (minheap m') <= Z.of_nat (occupied (hashintree m)) ->
  J m'.
Proof.
  intros (Hinv & Hbelow & Hsize & Hcap) Hsame Hcap' Hsize'.
  split; [exact (inv_same_keys _ _ _ m m' Hsame Hinv)|].
  split; [exact (keys_below_same_keys m m' Hsame Hbelow)|].
  split; [rewrite (occupied_same_keys m m' Hsame); exact Hsize'|].
  congruence.
Qed.

Lemma run_inv_size (m : Mem Z Z) :
  J m -> 0 <= mh_size (minheap m) <= n.
Proof.
  intros ((Hinv & _) & Hbelow & Hsize & _).
  destruct Hinv as (_ & _ & Hdist).
  pose proof (occupied_at_most n m ltac:(lia) Hdist Hbelow). lia.
Qed.

Lemma safe_update (p : ptr) (f : MinHeapNode Z Z -> MinHeapNode Z Z) :
  (forall r, data (f r) = data r) -> safe J (node_update p f).
Proof.
  intros Hf m Hm. unfold node_update. destruct p as [a|]; [|exact Logic.I].
  destruct (array_get _ a); [|exact Logic.I].
  apply (run_inv_same_keys m); [exact Hm| |reflexivity|].
  - apply same_keys_alter. exact Hf.
  - destruct Hm as (_ & _ & Hsize & _). exact Hsize.
Qed.

Lemma safe_pluck_min : safe J (MinHeap_pluck_min IntClient.isBetterThan).
Proof.
  intros m Hm.
  pose proof (quiet_pluck_min IntClient.isBetterThan m) as Hq.
  destruct (MinHeap_pluck_min IntClient.isBetterThan m)
    as [r m'|code m'| |] eqn:Hrun; try exact Hq; try exact Logic.I.
  pose proof (pluck_min_size IntClient.isBetterThan m r m' Hrun) as Hs.
  pose proof (run_inv_size m Hm) as Hrange.
  assert (H63 : half_modulus = 9223372036854775808) by reflexivity.
  apply (run_inv_same_keys m m' Hm (same_records_keys m m' Hq)).
  - destruct Hq as (_ & _ & Hcap & _). exact Hcap.
  - destruct Hm as (_ & _ & Hsize & _). rewrite Hs.
    destruct (mh_size (minheap m) =? 0) eqn:E0; [lia|].
    apply Z.eqb_neq in E0.
    rewrite wrap_small by (rewrite size_modulus_eq; lia). lia.
Qed.

Lemma safe_update_key_resident (node : ptr) :
  safe J (MinHeap_update_key node false IntClient.isBetterThan).
Proof.
  intros m Hm.
  pose proof (exits_update_key (K:=Z) IntClient.isBetterThan node false m)
    as He.
  destruct (MinHeap_update_key node false IntClient.isBetterThan m)
    as [[] m'|code m'| |] eqn:Hrun; try exact Logic.I.
  - pose proof (update_key_same_records _ _ _ _ _ Hrun) as Hq.
    pose proof (update_key_size _ _ _ _ _ Hrun) as Hs. simpl in Hs.
    apply (run_inv_same_keys m m' Hm (same_records_keys m m' Hq)).
    + destruct Hq as (_ & _ & Hcap & _). exact Hcap.
    + destruct Hm as (_ & _ & Hsize & _). rewrite Hs. exact Hsize.
  - rewrite update_key_cases in Hrun. simpl in Hrun.
    pose proof (quiet_update_key_rest IntClient.isBetterThan node false
                  (mh_size (minheap m)) m) as Hq.
    simpl in Hq. rewrite Hrun in Hq. exact Hq.
Qed.

(** A new key is seated and its record inserted: the four steps that
    [Dijkstra_1source_to_all_else] takes for the source and the client for
    a new neighbour. *)
Lemma safe_seat_and_insert (m : Mem Z Z) key i (r : MinHeapNode Z Z) w p :
  J m -> 0 <= key < n ->
  HashInTree_find_seat key IntClient.hashfunc IntClient.isEqual m
  = Ret (Some i) m ->
  array_get (ht_nodes (hashintree m)) i = Some r ->
  data r = None ->
  match
    (node_update (Some i) (set_data (Some key)) ;;;
     node_update (Some i) (set_weight w) ;;;
     node_update (Some i) (set_parent p) ;;;
     MinHeap_update_key (Some i) true IntClient.isBetterThan) m
  with
  | Ret _ m' => J m'
  | Exit _ _ => False
  | _ => True
  end.
Proof.
  intros Hm Hkey Hfind Hr Hd.
  pose proof Hm as (Hinv & Hbelow & Hsize & Hcap).
  pose proof (array_get_Some _ _ _ Hr) as Hi.
  assert (H63 : half_modulus = 9223372036854775808) by reflexivity.
  destruct (inv_seat IntClient.hashfunc IntClient.isEqual size
              int_isEqual_sym int_hash_compat m key i r Hinv ltac:(lia)
              (int_hash_range size key ltac:(lia)) Hfind Hr Hd)
    as (m1 & Hseat & Hinv1).
  rewrite (bind_Ret _ _ _ _ _ Hseat).
  apply node_update_inv in Hseat. destruct Hseat as (a & [= <-] & ->).
  set (m1 := with_nodes
               (alter (set_data (Some key)) (Z.to_nat i)
                  (ht_nodes (hashintree m))) m) in *.
  assert (Hbelow1 : keys_below n m1).
  { intros j x d Hx Hdx. unfold m1 in Hx.
    rewrite nodes_alter_get in Hx by lia.
    destruct (decide (i = j)) as [<-|].
    - rewrite Hr in Hx. injection Hx as <-. injection Hdx as <-. exact Hkey.
    - exact (Hbelow j x d Hx Hdx). }
  assert (Hocc1 : occupied (hashintree m1) = S (occupied (hashintree m))).
  { rewrite !occupied_omap. unfold m1. simpl.
    apply (omap_data_seat _ _ r); [|exact Hd].
    unfold array_get in Hr. destruct (0 <=? i); [exact Hr|discriminate]. }
  assert (Hmost : Z.of_nat (occupied (hashintree m1)) <= n).
  { destruct Hinv1 as ((_ & _ & Hdist1) & _).
    apply (occupied_at_most n m1 ltac:(lia) Hdist1 Hbelow1). }
  (* the heap has room *)
  assert (Hroom : mh_size (minheap m) < n) by lia.
  set (f2 := set_weight (K:=Z) (W:=Z) w).
  set (f3 := set_parent (K:=Z) (W:=Z) p).
  assert (Hr1 : exists r1, array_get (ht_nodes (hashintree m1)) i = Some r1).
  { unfold m1. rewrite nodes_alter_get by lia.
    destruct (decide (i = i)); [|congruence]. rewrite Hr. eexists.
    reflexivity. }
  destruct Hr1 as [r1 Hr1].
  unfold bind at 1. unfold node_update at 1. rewrite Hr1.
  set (m2 := with_nodes (alter f2 (Z.to_nat i) (ht_nodes (hashintree m1)))
               m1).
  assert (Hk12 : same_keys m1 m2)
    by (apply same_keys_alter; reflexivity).
  assert (Hr2 : exists r2, array_get (ht_nodes (hashintree m2)) i = Some r2).
  { unfold m2. rewrite nodes_alter_get by lia.
    destruct (decide (i = i)); [|congruence]. rewrite Hr1. eexists.
    reflexivity. }
  destruct Hr2 as [r2 Hr2].
  unfold bind at 1. unfold node_update at 1. rewrite Hr2.
  set (m3 := with_nodes (alter f3 (Z.to_nat i) (ht_nodes (hashintree m2)))
               m2).
  assert (Hk23 : same_keys m2 m3)
    by (apply same_keys_alter; reflexivity).
  assert (Hk13 : same_keys m1 m3)
    by (eapply same_keys_trans; eassumption).
  rewrite update_key_cases.
  change (mh_size (minheap m3)) with (mh_size (minheap m)).
  change (mh_capacity (minheap m3)) with (mh_capacity (minheap m)).
  rewrite Hcap.
  destruct (mh_size (minheap m) =? n) eqn:E; [apply Z.eqb_eq in E; lia|].
  simpl andb. cbv iota.
  pose proof (quiet_update_key_rest IntClient.isBetterThan (Some i) true
                (mh_size (minheap m)) m3) as Hq.
  match goal with
  | |- match ?c with _ => _ end =>
      destruct c as [[] m4|code m4| |] eqn:Hrun; try exact Logic.I;
        [|exact Hq]
  end.
  assert (Hupd : MinHeap_update_key (Some i) true IntClient.isBetterThan m3
                 = Ret tt m4).
  { rewrite update_key_cases.
    change (mh_size (minheap m3)) with (mh_size (minheap m)).
    change (mh_capacity (minheap m3)) with (mh_capacity (minheap m)).
    rewrite Hcap, E. exact Hrun. }
  pose proof (update_key_size _ _ _ _ _ Hupd) as Hs.
  change (mh_size (minheap m3)) with (mh_size (minheap m)) in Hs.
  rewrite wrap_small in Hs by (rewrite size_modulus_eq; lia).
  assert (Hk34 : same_keys m3 m4) by (apply same_records_keys; exact Hq).
  assert (Hk14 : same_keys m1 m4)
    by (eapply same_keys_trans; eassumption).
  split; [exact (inv_same_keys _ _ _ m1 m4 Hk14 Hinv1)|].
  split; [exact (keys_below_same_keys m1 m4 Hk14 Hbelow1)|].
  split; [rewrite (occupied_same_keys m1 m4 Hk14), Hs; lia|].
  destruct Hq as (_ & _ & Hc4 & _). rewrite Hc4. exact Hcap.
Qed.

(** On a table that holds no more than [n] distinct keys and has more
    than [n] slots the seat search does not return [NULL]. *)
Lemma find_seat_has_room (m : Mem Z Z) key :
  J m ->
  HashInTree_find_seat key IntClient.hashfunc IntClient.isEqual m
  <> Ret None m.
Proof.
  intros ((Hinv & Hs) & Hbelow & _ & _) Hfind.
  pose proof Hinv as (Hwf & _ & Hdist).
  destruct (find_seat_scan IntClient.isEqual key IntClient.hashfunc m Hwf
              ltac:(apply int_hash_range; lia)) as (r & Hr & Hres).
  rewrite Hr in Hfind. injection Hfind as ->.
  pose proof (no_fit_anywhere IntClient.isEqual key m _
                Hwf ltac:(apply int_hash_range; lia) Hres) as Hall.
  pose proof (occupied_at_most n m ltac:(lia) Hdist Hbelow) as Hmost.
  rewrite occupied_omap, omap_data_full in Hmost.
  - destruct Hwf as [Hlen _]. lia.
  - intros x Hx. destruct (Hall x Hx) as (d & Hd & _). eexists. exact Hd.
Qed.

Lemma safe_writeIn_neighbor current_node neighbor :
  0 <= fst neighbor < n ->
  safe J (IntClient.writeIn_neighbor current_node neighbor).
Proof.
  intros Hkey m Hm. unfold IntClient.writeIn_neighbor.
  pose proof (keeps_find_seat (fun m' => m' = m) (fst neighbor)
                IntClient.hashfunc IntClient.isEqual m eq_refl) as Hframe.
  pose proof (exits_find_seat (W:=Z) 0 (fst neighbor) IntClient.hashfunc
                IntClient.isEqual m) as Hnoexit.
  unfold bind at 1.
  destruct (HashInTree_find_seat (fst neighbor) IntClient.hashfunc
              IntClient.isEqual m) as [canvas m1|code m1| |] eqn:Hfind;
    try exact Logic.I.
  2:{ pose proof (find_seat_loop_frame IntClient.isEqual (fst neighbor)
                    (IntClient.hashfunc (ht_size (hashintree m))
                       (fst neighbor))
                    (S (Z.to_nat (ht_size (hashintree m))))
                    (IntClient.hashfunc (ht_size (hashintree m))
                       (fst neighbor)) m) as Hf.
      unfold HashInTree_find_seat, bind, get_table_size in Hfind.
      rewrite Hfind in Hf. exact Hf. }
  subst m1.
  pose proof (safe_node_load (fun m' => m' = m) current_node m eq_refl)
    as Hload.
  unfold bind at 1.
  destruct (node_load current_node m) as [cur m1|code m1| |] eqn:Hcur;
    try exact Logic.I; [subst m1|exact Hload].
  destruct canvas as [i|];
    [|exfalso; exact (find_seat_has_room m (fst neighbor) Hm Hfind)].
  unfold bind at 1. simpl. unfold table_load.
  destruct (array_get (ht_nodes (hashintree m)) i) as [c|] eqn:Hc;
    [|exact Logic.I].
  destruct (data c) as [d|] eqn:Hd.
  - destruct (IntClient.isBetterThan _ _); [|exact Hm].
    apply safe_at; [|exact Hm].
    apply safe_bind; [apply safe_update; reflexivity|intros _].
    apply safe_bind; [apply safe_update; reflexivity|intros _].
    apply safe_update_key_resident.
  - apply (safe_seat_and_insert m (fst neighbor) i c _ _ Hm Hkey Hfind Hc Hd).
Qed.

Lemma safe_send_row min_node row :
  (forall k w, (k, w) ∈ row -> k = fst IntClient.NULL_CASE \/ 0 <= k < n) ->
  safe J (IntClient.send_row min_node row).
Proof.
  induction row as [|neighbor row IH]; intros Hrow; simpl;
    [apply safe_ret|].
  destruct (fst neighbor =? -1) eqn:E; [apply safe_ret|].
  apply Z.eqb_neq in E.
  apply safe_bind.
  - apply safe_writeIn_neighbor.
    destruct (Hrow (fst neighbor) (snd neighbor)) as [Hnull|Hk];
      [destruct neighbor; left | simpl in Hnull; lia | exact Hk].
  - intros _. apply IH. intros k w Hin. apply (Hrow k w). right. exact Hin.
Qed.

Lemma safe_send_neighbors Graph min_node :
  (forall d row k w,
     array_get Graph d = Some row -> (k, w) ∈ row ->
     k = fst IntClient.NULL_CASE \/ 0 <= k < n) ->
  safe J (IntClient.send_neighbors Graph min_node).
Proof.
  intros HG. unfold IntClient.send_neighbors.
  apply safe_bind; [apply safe_node_load|]. intros mn.
  destruct (data mn) as [d|]; [|apply safe_fault].
  destruct (array_get Graph d) as [row|] eqn:Hrow; [|apply safe_fault].
  apply safe_send_row. intros k w Hin. exact (HG d row k w Hrow Hin).
Qed.

Lemma safe_loop (send_neighbors : ptr -> M Z Z unit) :
  (forall p, safe J (send_neighbors p)) ->
  forall fuel,
  safe J (Dijkstra_loop fuel IntClient.isBetterThan send_neighbors).
Proof.
  intros Hsend. induction fuel as [|fuel IH]; simpl;
    [intros m Hm; exact Logic.I|].
  apply safe_bind; [apply safe_pluck_min|].
  intros [p|]; [|apply safe_ret].
  apply safe_bind; [apply Hsend|]. intros _. exact IH.
Qed.

End RunSafety.

Lemma bind_Exit_inv {K W A B} (c : M K W A) (k : A -> M K W B) m code m' :
  bind c k m = Exit code m' ->
  c m = Exit code m' \/ exists a m1, c m = Ret a m1 /\ k a m1 = Exit code m'.
Proof.
  unfold bind. destruct (c m) as [a m1|code1 m1| |]; try discriminate.
  - intros H. right. exists a, m1. auto.
  - intros [= <- <-]. left. reflexivity.
Qed.

Lemma node_update_no_exit {K W} (p : ptr)
    (f : MinHeapNode K W -> MinHeapNode K W) m code m' :
  node_update p f m <> Exit code m'.
Proof.
  unfold node_update. destruct p as [a|]; [|discriminate].
  destruct (array_get _ a); discriminate.
Qed.

Section WholeRun.

Variable n : Z.
Hypothesis n_range : 0 <= n < half_modulus.

Lemma table_size_no_wrap : wrap (wrap (2 * n) + 1) = 2 * n + 1.
Proof.
  assert (H63 : half_modulus = 9223372036854775808) by reflexivity.
  rewrite (wrap_small (2 * n)) by (rewrite size_modulus_eq; lia).
  apply wrap_small. rewrite size_modulus_eq. lia.
Qed.

Abbreviation J := (run_inv (2 * n + 1) n).

Lemma run_inv_start (alloc : Z -> MinHeapNode Z Z) :
  J (mkMem (HashInTree_create alloc (2 * n + 1)) (MinHeap_create n)).
Proof.
  assert (H63 : half_modulus = 9223372036854775808) by reflexivity.
  split; [split; [|reflexivity]|].
  - apply create_table_inv. rewrite size_modulus_eq. lia.
  - split; [|split; [simpl; lia|reflexivity]].
    intros i r d Hr Hd. exfalso.
    apply (create_no_occupant alloc (2 * n + 1) (MinHeap_create n) i).
    exists r, d. auto.
Qed.

(** With a callback that keeps the run invariant and does not end the
    run, the run does not end through [exit]. *)
Lemma dijkstra_safe (alloc : Z -> MinHeapNode Z Z) fuel sourceData
    sourceWeight (send_neighbors : ptr -> M Z Z unit) :
  0 <= sourceData < n ->
  (forall p, safe J (send_neighbors p)) ->
  ~ fails_fatally
      (Dijkstra_1source_to_all_else alloc fuel sourceData sourceWeight n
         IntClient.hashfunc IntClient.isEqual IntClient.isBetterThan
         send_neighbors).
Proof.
  intros Hsrc Hsend (code & m' & Hrun).
  assert (H63 : half_modulus = 9223372036854775808) by reflexivity.
  unfold Dijkstra_1source_to_all_else in Hrun.
  rewrite table_size_no_wrap in Hrun.
  set (size := 2 * n + 1) in *.
  set (m0 := mkMem (HashInTree_create alloc size) (MinHeap_create n)) in *.
  pose proof (run_inv_start alloc) as Hm0. fold size in Hm0. fold m0 in Hm0.
  assert (Hh : 0 <= IntClient.hashfunc size sourceData < size)
    by (apply int_hash_range; lia).
  destruct (fresh_table_facts IntClient.hashfunc IntClient.isEqual alloc size
              (MinHeap_create n) sourceData
              ltac:(rewrite size_modulus_eq; lia) Hh)
    as (_ & _ & Hfind & _).
  fold m0 in Hfind.
  set (h := IntClient.hashfunc size sourceData) in *.
  pose proof (safe_seat_and_insert size n n_range ltac:(lia) m0 sourceData h
                (set_data None (alloc h)) sourceWeight None Hm0 Hsrc Hfind
                ltac:(apply array_get_create; exact Hh) eq_refl) as Hfour.
  unfold Dijkstra_body in Hrun.
  rewrite (bind_Ret _ _ _ _ _ Hfind) in Hrun.
  apply bind_Exit_inv in Hrun.
  destruct Hrun as [Hx|([] & m1 & H1 & Hrun)];
    [exact (node_update_no_exit _ _ _ _ _ Hx)|].
  rewrite (bind_Ret _ _ _ _ _ H1) in Hfour.
  apply bind_Exit_inv in Hrun.
  destruct Hrun as [Hx|([] & m2 & H2 & Hrun)];
    [exact (node_update_no_exit _ _ _ _ _ Hx)|].
  rewrite (bind_Ret _ _ _ _ _ H2) in Hfour.
  apply bind_Exit_inv in Hrun.
  destruct Hrun as [Hx|([] & m3 & H3 & Hrun)];
    [exact (node_update_no_exit _ _ _ _ _ Hx)|].
  rewrite (bind_Ret _ _ _ _ _ H3) in Hfour.
  apply bind_Exit_inv in Hrun.
  destruct Hrun as [Hx|([] & m4 & H4 & Hrun)];
    [rewrite Hx in Hfour; exact Hfour|].
  rewrite H4 in Hfour.
  apply bind_Exit_inv in Hrun.
  destruct Hrun as [Hx|([] & m5 & H5 & Hrun)].
  - pose proof (safe_loop (2 * n + 1) n n_range send_neighbors Hsend fuel
                  m4 Hfour) as Hloop.
    rewrite Hx in Hloop. exact Hloop.
  - apply bind_Exit_inv in Hrun.
    destruct Hrun as [Hx|([] & m6 & H6 & Hrun)]; discriminate.
Qed.

Lemma rows_name_nodes_spec Graph d row k w :
  rows_name_nodes n Graph = true ->
  array_get Graph d = Some row -> (k, w) ∈ row ->
  k = fst IntClient.NULL_CASE \/ 0 <= k < n.
Proof.
  unfold rows_name_nodes. intros HG Hrow Hin.
  rewrite forallb_forall in HG.
  apply array_get_elem, list_elem_of_In in Hrow.
  specialize (HG row Hrow). rewrite forallb_forall in HG.
  apply list_elem_of_In in Hin. specialize (HG (k, w) Hin). simpl in HG.
  apply orb_true_iff in HG. destruct HG as [HG|HG].
  - left. apply Z.eqb_eq in HG. exact HG.
  - right. apply andb_true_iff in HG. destruct HG as [H1 H2].
    apply Z.leb_le in H1. apply Z.ltb_lt in H2. lia.
Qed.

(** The demonstration program with the right number of nodes: if the
    source and every node that the graph's rows name are below the
    declared number of nodes [n], the run does not end through [exit]:
    neither is the table ever full when a seat is looked for, nor the heap
    when a record is inserted. *)
Theorem int_client_never_exits alloc fuel sourceData sourceWeight Graph :
  0 <= sourceData < n ->
  rows_name_nodes n Graph = true ->
  ~ fails_fatally
      (Dijkstra_1source_to_all_else alloc fuel sourceData sourceWeight n
         IntClient.hashfunc IntClient.isEqual IntClient.isBetterThan
         (IntClient.send_neighbors Graph)).
Proof.
  intros Hsrc HG. apply dijkstra_safe; [exact Hsrc|].
  intros p. apply safe_send_neighbors; [exact n_range|lia|].
  intros d row k w. apply rows_name_nodes_spec. exact HG.
Qed.

End WholeRun.

(** ** The timing program *)

Lemma neighbor_of_range d i :
  0 <= d -> 0 <= i ->
  0 <= fst (GeneratedClient.neighbor_of d i) < GeneratedClient.NUM_NODES
  /\ 1 <= snd (GeneratedClient.neighbor_of d i) < GeneratedClient.MAX_WEIGHT.
Proof.
  intros Hd Hi. unfold GeneratedClient.neighbor_of,
    GeneratedClient.NUM_NODES, GeneratedClient.MAX_WEIGHT,
    GeneratedClient.NEIGHBOR_GAP. cbn [fst snd].
  change (100 - 1) with 99.
  pose proof (Z.rem_bound_pos (d + i * 3) 100000 ltac:(lia) ltac:(lia)).
  pose proof (Z.rem_bound_pos (i * 3) 99 ltac:(lia) ltac:(lia)).
  lia.
Qed.

Lemma safe_send_from min_node : forall count i,
  0 <= i ->
  safe (run_inv (2 * GeneratedClient.NUM_NODES + 1) GeneratedClient.NUM_NODES)
    (GeneratedClient.send_from min_node i count).
Proof.
  induction count as [|count IH]; intros i Hi; simpl; [apply safe_ret|].
  intros m Hm. unfold bind at 1.
  pose proof (safe_node_load (fun m' => m' = m) min_node m eq_refl) as Hload.
  destruct (node_load min_node m) as [mn m1|code m1| |] eqn:Hcur;
    try exact Logic.I; [subst m1|exact Hload].
  destruct (data mn) as [d|] eqn:Hd; [|exact Logic.I].
  assert (Hrange : 0 <= d < GeneratedClient.NUM_NODES).
  { destruct Hm as (_ & Hbelow & _).
    destruct min_node as [a|]; [|discriminate]. simpl in Hcur.
    unfold table_load in Hcur.
    destruct (array_get (ht_nodes (hashintree m)) a) as [r|] eqn:Hr;
      [|discriminate].
    injection Hcur as ->. exact (Hbelow a mn d Hr Hd). }
  apply safe_at; [|exact Hm].
  apply safe_bind.
  - apply safe_writeIn_neighbor; [split; [discriminate|reflexivity]
                                 |reflexivity|].
    apply neighbor_of_range; lia.
  - intros _. apply IH. lia.
Qed.

(** The timing program does not end through [exit], whatever [malloc]
    hands out and however long the run is followed: its 100000 declared
    nodes are all the nodes its [send_neighbors] ever names. *)
Theorem generated_client_never_exits alloc fuel :
  ~ fails_fatally (GeneratedClient.run alloc fuel).
Proof.
  unfold GeneratedClient.run.
  apply (dijkstra_safe GeneratedClient.NUM_NODES
           ltac:(split; [discriminate|reflexivity]) alloc fuel).
  - split; [discriminate|reflexivity].
  - intros p. unfold GeneratedClient.send_neighbors.
    apply safe_send_from. discriminate.
Qed.

(** The nine-node demonstration program does not end through [exit]. *)
Lemma int_client_never_exits_witness :
  ~ fails_fatally (NineNodes.run IntClient.zeroed 20).
Proof.
  apply (int_client_never_exits 9 ltac:(split; [discriminate|reflexivity])
           IntClient.zeroed 20 0 0 NineNodes.Graph).
  - split; [discriminate|reflexivity].
  - reflexivity.
Defined.

(** ** Giving the table back *)

Section FreeFacts.

Context {K W U : Type}.
Implicit Types (l : list (MinHeapNode K W)).
Variable free_data_and_weight : K -> W -> U -> U.

Lemma occupants_length l : length (occupants l) = length (omap data l).
Proof.
  unfold occupants. induction l as [|r l IH]; [reflexivity|]. simpl.
  destruct (data r); simpl; [f_equal|]; exact IH.
Qed.

Lemma occupants_app l1 l2 : occupants (l1 ++ l2) = occupants l1 ++ occupants l2.
Proof. unfold occupants. apply omap_app. Qed.

(** Where an occupant comes from. *)
Lemma occupants_lookup l a d w :
  occupants l !! a = Some (d, w) ->
  exists i r,
    l !! i = Some r /\ data r = Some d /\ weight r = w
    /\ a = length (occupants (take i l)).
Proof.
  revert a. induction l as [|x l IH]; intros a Ha; [discriminate|].
  unfold occupants in Ha. simpl in Ha.
  destruct (data x) as [dx|] eqn:Hdx; simpl in Ha.
  - destruct a as [|a].
    + injection Ha as <- <-. exists 0%nat, x. auto.
    + destruct (IH a Ha) as (i & r & Hi & Hd & Hw & ->).
      exists (S i), r. repeat split; try assumption.
      unfold occupants. simpl. rewrite Hdx. reflexivity.
  - destruct (IH a Ha) as (i & r & Hi & Hd & Hw & ->).
    exists (S i), r. repeat split; try assumption.
    unfold occupants. simpl. rewrite Hdx. reflexivity.
Qed.

(** The loop over the slots [length pre ..], told as a walk along the
    records behind [pre]. *)
Lemma free_rounds (t : HashInTree K W) pre : forall suf u,
  ht_nodes t = pre ++ suf ->
  foldl (free_round t free_data_and_weight) (Some u)
    (seqZ (Z.of_nat (length pre)) (Z.of_nat (length suf)))
  = Some (foldl (fun acc dw => free_data_and_weight (fst dw) (snd dw) acc) u
            (occupants suf)).
Proof.
  intros suf. revert pre. induction suf as [|x suf IH]; intros pre u Hl;
    [reflexivity|].
  replace (Z.of_nat (length (x :: suf))) with (Z.succ (Z.of_nat (length suf)))
    by (simpl; lia).
  rewrite seqZ_cons by lia. cbn [foldl].
  replace (Z.pred (Z.succ (Z.of_nat (length suf))))
    with (Z.of_nat (length suf)) by lia.
  assert (Hx : array_get (ht_nodes t) (Z.of_nat (length pre)) = Some x).
  { rewrite array_get_of_nat, Hl. apply list_lookup_middle. reflexivity. }
  assert (Hround :
    free_round t free_data_and_weight (Some u) (Z.of_nat (length pre))
    = Some (match data x with
            | None => u
            | Some d => free_data_and_weight d (weight x) u
            end)).
  { unfold free_round. rewrite Hx. destruct (data x); reflexivity. }
  rewrite Hround.
  replace (Z.succ (Z.of_nat (length pre)))
    with (Z.of_nat (length (pre ++ [x])))
    by (rewrite length_app; simpl; lia).
  rewrite (IH (pre ++ [x])) by (rewrite Hl, <- app_assoc; reflexivity).
  unfold occupants. simpl. destruct (data x); reflexivity.
Qed.

(** [HashInTree_free] on a table whose array has [size] slots hands to
    the caller's [free_data_and_weight] the key and weight of every
    occupied slot, once each and in the order of the slots, and nothing
    of an empty slot; these are as many calls as the table has occupants,
    and on a table with distinct keys no two calls get keys that compare
    equal. *)
Theorem free_visits_each_occupant_once (t : HashInTree K W) heap u :
  Z.of_nat (length (ht_nodes t)) = ht_size t ->
  HashInTree_free (Some t) free_data_and_weight u
  = Some (foldl (fun acc dw => free_data_and_weight (fst dw) (snd dw) acc) u
            (occupants (ht_nodes t)))
  /\ length (occupants (ht_nodes t)) = occupied t
  /\ forall isEqual,
       keys_distinct isEqual (mkMem t heap) ->
       forall a b da wa db wb,
         occupants (ht_nodes t) !! a = Some (da, wa) ->
         occupants (ht_nodes t) !! b = Some (db, wb) ->
         isEqual da db = true -> a = b.
Proof.
  intros Hlen. split; [|split].
  - unfold HashInTree_free. rewrite <- Hlen.
    apply (free_rounds t [] (ht_nodes t) u). reflexivity.
  - rewrite occupants_length, occupied_omap. reflexivity.
  - intros isEqual Hdist a b da wa db wb Ha Hb He.
    destruct (occupants_lookup _ _ _ _ Ha) as (i & ri & Hi & Hdi & _ & ->).
    destruct (occupants_lookup _ _ _ _ Hb) as (j & rj & Hj & Hdj & _ & ->).
    rewrite <- array_get_of_nat in Hi, Hj.
    assert (Z.of_nat i = Z.of_nat j)
      by (eapply (Hdist _ _ ri rj da db); eauto).
    replace j with i by lia. reflexivity.
Qed.

End FreeFacts.

Lemma free_visits_each_occupant_once_witness :
  HashInTree_free (Some (hashintree IntClient.full_table))
    (fun (d w : Z) (u : list Z) => d :: u) []
  = Some
      (foldl (fun acc dw => fst dw :: acc) []
         (occupants (ht_nodes (hashintree IntClient.full_table))))
  /\ length (occupants (ht_nodes (hashintree IntClient.full_table)))
     = occupied (hashintree IntClient.full_table).
Proof.
  refine (let H := free_visits_each_occupant_once
                     (fun (d w : Z) (u : list Z) => d :: u)
                     (hashintree IntClient.full_table)
                     (minheap IntClient.full_table) [] _
          in conj (proj1 H) (proj1 (proj2 H))).
  reflexivity.
Defined.


(** * The linked list utility: facts *)

(** ** Memory accesses *)

Section ListMemory.

Import LinkedLists.
Local Open Scope list_mem_scope.

Lemma list_bind_Ret {A B} (c : L A) (k : A -> L B) m a m' :
  c m = Ret a m' -> (x <- c ;; k x) m = k a m'.
Proof. intros H. unfold bind. rewrite H. reflexivity. Qed.

Lemma field_of_live {A} (f : Node -> A) m a v :
  field_of f m a = Some v -> live m a.
Proof.
  unfold field_of, live. destruct (nodes m !! a); [eauto | discriminate].
Qed.

Lemma load_field {A} (f : Node -> A) m a v :
  field_of f m a = Some v -> load f (Some a) m = Ret v m.
Proof.
  unfold field_of, load. destruct (nodes m !! a); simpl; congruence.
Qed.

Lemma store_live set m a :
  live m a -> store set (Some a) m = Ret tt (upd a set m).
Proof. unfold live, store. intros [n ->]. reflexivity. Qed.

Lemma free_node_live m a :
  live m a -> free_node (Some a) m = Ret tt (dealloc a m).
Proof. unfold live, free_node. intros [n ->]. reflexivity. Qed.

Lemma live_upd a set m a' : live (upd a set m) a' <-> live m a'.
Proof. unfold live, upd. simpl. apply lookup_alter_is_Some. Qed.

Lemma live_alloc a junk m a' : live (alloc a junk m) a' <-> a' = a \/ live m a'.
Proof.
  unfold live, alloc. simpl. rewrite lookup_insert_is_Some.
  destruct (decide (a = a')); intuition congruence.
Qed.

Lemma live_dealloc a m a' : live (dealloc a m) a' <-> a' <> a /\ live m a'.
Proof.
  unfold live, dealloc. simpl. rewrite lookup_delete_is_Some.
  intuition congruence.
Qed.

Lemma live_with_size s m a : live (with_size s m) a <-> live m a.
Proof. reflexivity. Qed.

Lemma live_with_header h m a : live (with_header h m) a <-> live m a.
Proof. reflexivity. Qed.

(** A store to one field leaves the other fields of every block alone. *)
Lemma field_upd_keep {A} (f : Node -> A) set a m a' :
  (forall n, f (set n) = f n) ->
  field_of f (upd a set m) a' = field_of f m a'.
Proof.
  intros Hf. unfold field_of, upd. simpl.
  destruct (decide (a = a')) as [<- | Hne].
  - rewrite lookup_alter_eq. destruct (nodes m !! a); simpl; [|reflexivity].
    rewrite Hf. reflexivity.
  - rewrite lookup_alter_ne by exact Hne. reflexivity.
Qed.

Lemma field_upd_ne {A} (f : Node -> A) set a m a' :
  a' <> a -> field_of f (upd a set m) a' = field_of f m a'.
Proof.
  intros Hne. unfold field_of, upd. simpl.
  rewrite lookup_alter_ne by congruence. reflexivity.
Qed.

Lemma field_upd_hit {A} (f : Node -> A) set a m v :
  (forall n, f (set n) = v) -> live m a ->
  field_of f (upd a set m) a = Some v.
Proof.
  intros Hf [n Hn]. unfold field_of, upd. simpl.
  rewrite lookup_alter_eq, Hn. simpl. rewrite Hf. reflexivity.
Qed.

Lemma field_alloc_eq {A} (f : Node -> A) a junk m :
  field_of f (alloc a junk m) a = Some (f junk).
Proof. unfold field_of, alloc. simpl. rewrite lookup_insert_eq. reflexivity. Qed.

Lemma field_alloc_ne {A} (f : Node -> A) a junk m a' :
  a' <> a -> field_of f (alloc a junk m) a' = field_of f m a'.
Proof.
  intros Hne. unfold field_of, alloc. simpl.
  rewrite lookup_insert_ne by congruence. reflexivity.
Qed.

Lemma field_dealloc_ne {A} (f : Node -> A) a m a' :
  a' <> a -> field_of f (dealloc a m) a' = field_of f m a'.
Proof.
  intros Hne. unfold field_of, dealloc. simpl.
  rewrite lookup_delete_ne by congruence. reflexivity.
Qed.

Lemma field_with_size {A} (f : Node -> A) s m a :
  field_of f (with_size s m) a = field_of f m a.
Proof. reflexivity. Qed.

Lemma field_with_header {A} (f : Node -> A) h m a :
  field_of f (with_header h m) a = field_of f m a.
Proof. reflexivity. Qed.

Lemma field_with_freed {A} (f : Node -> A) fs m a :
  field_of f (with_freed fs m) a = field_of f m a.
Proof. reflexivity. Qed.

End ListMemory.

Ltac list_live :=
  lazymatch goal with
  | |- LinkedLists.live (LinkedLists.upd _ _ _) _ =>
      apply live_upd; list_live
  | |- LinkedLists.live (LinkedLists.with_size _ _) _ =>
      apply live_with_size; list_live
  | |- LinkedLists.live (LinkedLists.with_header _ _) _ =>
      apply live_with_header; list_live
  | |- LinkedLists.live (LinkedLists.alloc ?a _ _) ?a =>
      apply live_alloc; left; reflexivity
  | |- LinkedLists.live (LinkedLists.alloc _ _ _) _ =>
      apply live_alloc; right; list_live
  | |- LinkedLists.live (LinkedLists.dealloc _ _) _ =>
      apply live_dealloc; split; [congruence | list_live]
  | |- _ => first [assumption | eapply field_of_live; eassumption]
  end.

Ltac list_fields :=
  repeat first
    [ rewrite field_with_size
    | rewrite field_with_header
    | rewrite field_with_freed
    | rewrite field_upd_keep by (intros []; reflexivity)
    | erewrite field_upd_hit by first [intros ?; cbn; reflexivity | list_live]
    | rewrite field_upd_ne by congruence
    | rewrite field_alloc_eq
    | rewrite field_alloc_ne by congruence
    | rewrite field_dealloc_ne by congruence ].

(** ** The way round the ring *)

Section ListPaths.

Import LinkedLists.
Local Open Scope list_mem_scope.

Lemma path_length h ns : length (path h ns) = S (S (length ns)).
Proof. unfold path. simpl. rewrite length_app. simpl. lia. Qed.

Lemma path_lookup_front h ns k :
  (k <= length ns)%nat -> path h ns !! k = (h :: ns) !! k.
Proof.
  intros Hk. unfold path. destruct k as [|k]; [reflexivity|]. simpl.
  apply lookup_app_l. lia.
Qed.

Lemma path_lookup_end h ns : path h ns !! S (length ns) = Some h.
Proof.
  unfold path. simpl. rewrite lookup_app_r by lia.
  replace (length ns - length ns)%nat with 0%nat by lia. reflexivity.
Qed.

Lemma path_lookup_node h ns k a :
  ns !! k = Some a -> path h ns !! S k = Some a.
Proof. intros H. unfold path. simpl. apply lookup_app_l_Some. exact H. Qed.

Lemma path_lookup_bound h ns k a :
  path h ns !! k = Some a -> (k <= S (length ns))%nat.
Proof.
  intros H. apply lookup_lt_Some in H. rewrite path_length in H. lia.
Qed.

Lemma path_ne h ns i j x y :
  NoDup (h :: ns) ->
  path h ns !! i = Some x -> path h ns !! j = Some y ->
  i <> j ->
  ~ (i = 0%nat /\ j = S (length ns)) -> ~ (i = S (length ns) /\ j = 0%nat) ->
  x <> y.
Proof.
  intros Hnd Hi Hj Hij H1 H2 ->.
  pose proof (path_lookup_bound _ _ _ _ Hi) as Bi.
  pose proof (path_lookup_bound _ _ _ _ Hj) as Bj.
  assert (Hfront : forall k, path h ns !! k = Some y ->
            exists k', (h :: ns) !! k' = Some y
              /\ (k' = k \/ (k' = 0%nat /\ k = S (length ns)))).
  { intros k Hk. pose proof (path_lookup_bound _ _ _ _ Hk) as Bk.
    destruct (decide (k = S (length ns))) as [-> | Hne].
    - rewrite path_lookup_end in Hk. injection Hk as <-.
      exists 0%nat. split; [reflexivity | right; split; reflexivity].
    - rewrite path_lookup_front in Hk by lia.
      exists k. split; [exact Hk | left; reflexivity]. }
  destruct (Hfront i Hi) as (i' & Hi' & Ci).
  destruct (Hfront j Hj) as (j' & Hj' & Cj).
  pose proof (NoDup_lookup _ _ _ _ Hnd Hi' Hj') as Heq.
  lia.
Qed.

Lemma holds_link m h ns xs k a b :
  holds m h ns xs ->
  path h ns !! k = Some a -> path h ns !! S k = Some b ->
  field_of next m a = Some (Some b) /\ field_of prev m b = Some (Some a).
Proof. intros (_ & _ & _ & _ & _ & Hl & _). apply Hl. Qed.

Lemma holds_data m h ns xs k a x :
  holds m h ns xs ->
  ns !! k = Some a -> xs !! k = Some x -> field_of data m a = Some x.
Proof. intros (_ & _ & _ & _ & _ & _ & Hd). apply Hd. Qed.

Lemma holds_live m h ns xs k a :
  holds m h ns xs -> path h ns !! k = Some a -> live m a.
Proof.
  intros H Hk.
  pose proof (path_lookup_bound _ _ _ _ Hk) as Bk.
  destruct (decide (k = S (length ns))) as [-> | Hne].
  - rewrite path_lookup_end in Hk. injection Hk as <-.
    destruct (lookup_lt_is_Some_2 (path h ns) 1) as [b Hb].
    { rewrite path_length. lia. }
    destruct (holds_link _ _ _ _ 0%nat h b H eq_refl Hb) as [Hn _].
    eapply field_of_live. exact Hn.
  - destruct (lookup_lt_is_Some_2 (path h ns) (S k)) as [b Hb].
    { rewrite path_length. lia. }
    destruct (holds_link _ _ _ _ _ _ _ H Hk Hb) as [Hn _].
    eapply field_of_live. exact Hn.
Qed.

Lemma holds_header_live m h ns xs : holds m h ns xs -> live m h.
Proof. intros H. apply (holds_live _ _ _ _ 0%nat h H). reflexivity. Qed.

Lemma holds_node_live m h ns xs k a :
  holds m h ns xs -> ns !! k = Some a -> live m a.
Proof.
  intros H Hk. apply (holds_live _ _ _ _ (S k) a H).
  apply path_lookup_node. exact Hk.
Qed.

(** A block that is not live is none of the list's. *)
Lemma fresh_not_in_list m h ns xs a :
  holds m h ns xs -> nodes m !! a = None -> a ∉ h :: ns.
Proof.
  intros H Hfree Hin.
  apply list_elem_of_lookup in Hin as [k Hk].
  assert (Hp : path h ns !! k = Some a).
  { rewrite path_lookup_front; [exact Hk|].
    apply lookup_lt_Some in Hk. simpl in Hk. lia. }
  destruct (holds_live _ _ _ _ _ _ H Hp) as [n Hn]. congruence.
Qed.

(** ** Walking to a position *)

Lemma walk_on_reaches m h ns xs :
  holds m h ns xs ->
  forall fuel j i x y,
    path h ns !! j = Some x ->
    -1 <= i ->
    path h ns !! (j + Z.to_nat (i + 1))%nat = Some y ->
    i + 1 < Z.of_nat fuel ->
    walk_on fuel (Some x) i m = Ret (Some y) m.
Proof.
  intros H. induction fuel as [|fuel IH]; intros j i x y Hx Hi Hy Hfuel;
    [lia|].
  simpl. destruct (0 <=? i) eqn:E.
  - apply Z.leb_le in E.
    assert (Hstep : (j + Z.to_nat (i + 1) = S j + Z.to_nat (i - 1 + 1))%nat)
      by lia.
    rewrite Hstep in Hy.
    destruct (lookup_lt_is_Some_2 (path h ns) (S j)) as [b Hb].
    { apply lookup_lt_Some in Hy. lia. }
    destruct (holds_link _ _ _ _ _ _ _ H Hx Hb) as [Hn _].
    rewrite (list_bind_Ret _ _ _ _ _ (load_field _ _ _ _ Hn)).
    apply (IH (S j) (i - 1) b y Hb); [lia | exact Hy | lia].
  - apply Z.leb_gt in E.
    replace (Z.to_nat (i + 1)) with 0%nat in Hy by lia.
    rewrite Nat.add_0_r in Hy. rewrite Hx in Hy. injection Hy as ->.
    reflexivity.
Qed.

Lemma walk_back_reaches m h ns xs :
  holds m h ns xs ->
  forall fuel j i size x y,
    path h ns !! j = Some x ->
    i <= size ->
    (Z.to_nat (size - i) <= j)%nat ->
    path h ns !! (j - Z.to_nat (size - i))%nat = Some y ->
    size - i < Z.of_nat fuel ->
    walk_back fuel (Some x) i size m = Ret (Some y) m.
Proof.
  intros H. induction fuel as [|fuel IH];
    intros j i size x y Hx Hi Hj Hy Hfuel; [lia|].
  simpl. destruct (i <? size) eqn:E.
  - apply Z.ltb_lt in E.
    destruct j as [|j]; [lia|].
    destruct (lookup_lt_is_Some_2 (path h ns) j) as [b Hb].
    { apply lookup_lt_Some in Hx. lia. }
    destruct (holds_link _ _ _ _ _ _ _ H Hb Hx) as [_ Hp].
    rewrite (list_bind_Ret _ _ _ _ _ (load_field _ _ _ _ Hp)).
    apply (IH j (i + 1) size b y Hb); [lia | lia | | lia].
    replace (j - Z.to_nat (size - (i + 1)))%nat
      with (S j - Z.to_nat (size - i))%nat by lia.
    exact Hy.
  - apply Z.ltb_ge in E.
    replace (Z.to_nat (size - i)) with 0%nat in Hy by lia.
    rewrite Nat.sub_0_r in Hy. rewrite Hx in Hy. injection Hy as ->.
    reflexivity.
Qed.

Lemma to_unsigned_int z : 0 <= z <= INT_MAX -> to_unsigned z = z.
Proof.
  intros Hz. unfold to_unsigned, UINT_modulus. apply Z.mod_small.
  unfold INT_MAX in Hz. lia.
Qed.

(** On a well-formed list [get_node_at] hands back the node at position
    [i], whichever way round it walks. *)
Lemma get_node_at_reaches m h ns xs fuel i a :
  holds m h ns xs ->
  ns !! Z.to_nat i = Some a ->
  0 <= i ->
  Z.of_nat (length ns) < Z.of_nat fuel ->
  get_node_at fuel (Some h) i (to_unsigned (size (someList m))) m
  = Ret (Some a) m.
Proof.
  intros H Ha Hi Hfuel.
  pose proof H as (_ & Hsize & Hmax & _).
  pose proof (lookup_lt_Some _ _ _ Ha) as Hlt.
  rewrite Hsize in *. set (n := length ns) in *.
  unfold get_node_at.
  rewrite (to_unsigned_int (Z.of_nat n)) by lia.
  rewrite (to_unsigned_int (Z.of_nat n - 1)) by lia.
  assert (Hp : path h ns !! S (Z.to_nat i) = Some a)
    by (apply path_lookup_node; exact Ha).
  destruct (Z.of_nat n - 1 - i <? i).
  - apply (walk_back_reaches _ _ _ _ H fuel (S n) i (Z.of_nat n) h a).
    + apply path_lookup_end.
    + lia.
    + lia.
    + replace (S n - Z.to_nat (Z.of_nat n - i))%nat with (S (Z.to_nat i))
        by lia.
      exact Hp.
    + lia.
  - apply (walk_on_reaches _ _ _ _ H fuel 0%nat i h a).
    + reflexivity.
    + lia.
    + replace (0 + Z.to_nat (i + 1))%nat with (S (Z.to_nat i)) by lia.
      exact Hp.
    + lia.
Qed.

End ListPaths.


(** ** Reading and writing in place *)

Section ListInPlace.

Import LinkedLists.
Local Open Scope list_mem_scope.

Lemma list_bind_get_size {B} (k : Z -> L B) m :
  (s <- get_size ;; k s) m = k (size (someList m)) m.
Proof. reflexivity. Qed.

Lemma list_bind_get_header {B} (k : ptr -> L B) m :
  (hd <- get_header ;; k hd) m = k (header (someList m)) m.
Proof. reflexivity. Qed.

(** A memory that agrees with a well-formed one on the list structure and
    on the links of its blocks holds a well-formed list too. *)
Lemma holds_ext m m' h ns xs xs' :
  holds m h ns xs ->
  someList m' = someList m ->
  length xs' = length ns ->
  (forall a, a ∈ h :: ns -> field_of next m' a = field_of next m a) ->
  (forall a, a ∈ h :: ns -> field_of prev m' a = field_of prev m a) ->
  (forall k a x,
     ns !! k = Some a -> xs' !! k = Some x -> field_of data m' a = Some x) ->
  holds m' h ns xs'.
Proof.
  intros H Hlist Hlen Hnext Hprev Hdata.
  pose proof H as (Hh & Hsize & Hmax & _ & Hnd & Hl & _).
  assert (Hin : forall k a, path h ns !! k = Some a -> a ∈ h :: ns).
  { intros k a Hk.
    pose proof (path_lookup_bound _ _ _ _ Hk) as Bk.
    destruct (decide (k = S (length ns))) as [-> | Hne].
    - rewrite path_lookup_end in Hk. injection Hk as <-. left.
    - rewrite path_lookup_front in Hk by lia.
      eapply list_elem_of_lookup_2. exact Hk. }
  unfold holds. rewrite Hlist.
  split; [exact Hh|]. split; [exact Hsize|]. split; [exact Hmax|].
  split; [exact Hlen|]. split; [exact Hnd|]. split; [|exact Hdata].
  intros k a b Hk HSk. destruct (Hl k a b Hk HSk) as [Hn Hp].
  rewrite Hnext by (eapply Hin; exact Hk).
  rewrite Hprev by (eapply Hin; exact HSk).
  split; assumption.
Qed.

Lemma nodes_apart (h : Z) (ns : list Z) (i j : nat) (a b : Z) :
  NoDup (h :: ns) -> ns !! i = Some a -> ns !! j = Some b -> i <> j ->
  a <> b.
Proof.
  intros Hnd Hi Hj Hij ->. apply NoDup_cons in Hnd as [_ Hnd].
  apply Hij. exact (NoDup_lookup _ _ _ _ Hnd Hi Hj).
Qed.

Lemma change_in_range m h ns xs fuel position newElement a x :
  holds m h ns xs ->
  Z.of_nat (length ns) < Z.of_nat fuel ->
  0 <= position ->
  ns !! Z.to_nat position = Some a ->
  xs !! Z.to_nat position = Some x ->
  change fuel position newElement m
  = Ret x (upd a (set_data newElement) m)
  /\ holds (upd a (set_data newElement) m) h ns
       (<[Z.to_nat position := newElement]> xs).
Proof.
  intros H Hfuel Hpos Ha Hx.
  pose proof H as (Hh & Hsize & Hmax & Hlen & Hnd & _).
  pose proof (lookup_lt_Some _ _ _ Ha) as Hlt.
  split.
  - unfold change. rewrite list_bind_get_size.
    replace ((position <? 0) || (size (someList m) <=? position))
      with false by (symmetry; apply orb_false_iff; lia).
    rewrite list_bind_get_header, list_bind_get_size, Hh.
    rewrite (list_bind_Ret _ _ _ _ _
               (get_node_at_reaches _ _ _ _ fuel position a H Ha Hpos Hfuel)).
    rewrite (list_bind_Ret _ _ _ _ _
               (load_field data _ _ _ (holds_data _ _ _ _ _ _ _ H Ha Hx))).
    rewrite (list_bind_Ret _ _ _ _ _
               (store_live (set_data newElement) _ _
                  (holds_node_live _ _ _ _ _ _ H Ha))).
    reflexivity.
  - apply (holds_ext m _ h ns xs); try assumption.
    + reflexivity.
    + rewrite length_insert. exact Hlen.
    + intros b _. list_fields. reflexivity.
    + intros b _. list_fields. reflexivity.
    + intros k b y Hb Hy.
      destruct (decide (k = Z.to_nat position)) as [-> | Hne].
      * rewrite list_lookup_insert_eq in Hy by lia. injection Hy as <-.
        assert (b = a) as -> by congruence.
        pose proof (holds_node_live _ _ _ _ _ _ H Ha).
        list_fields. reflexivity.
      * rewrite list_lookup_insert_ne in Hy by congruence.
        pose proof (nodes_apart _ _ _ _ _ _ Hnd Hb Ha Hne).
        list_fields. eapply holds_data; eassumption.
Qed.

Lemma change_out_of_range m h ns xs fuel position newElement :
  holds m h ns xs ->
  position < 0 \/ Z.of_nat (length ns) <= position ->
  change fuel position newElement m = Exit 2 m.
Proof.
  intros (_ & Hsize & _) Hout.
  unfold change. rewrite list_bind_get_size.
  replace ((position <? 0) || (size (someList m) <=? position))
    with true by (symmetry; apply orb_true_iff; lia).
  reflexivity.
Qed.

Lemma swap_in_range m h ns xs fuel i j a b xi xj :
  holds m h ns xs ->
  Z.of_nat (length ns) < Z.of_nat fuel ->
  0 <= i -> 0 <= j ->
  ns !! Z.to_nat i = Some a -> ns !! Z.to_nat j = Some b ->
  xs !! Z.to_nat i = Some xi -> xs !! Z.to_nat j = Some xj ->
  swap fuel i j m = Ret tt (upd b (set_data xi) (upd a (set_data xj) m))
  /\ holds (upd b (set_data xi) (upd a (set_data xj) m)) h ns
       (<[Z.to_nat j := xi]> (<[Z.to_nat i := xj]> xs)).
Proof.
  intros H Hfuel Hi Hj Ha Hb Hxi Hxj.
  pose proof H as (Hh & Hsize & Hmax & Hlen & Hnd & _).
  pose proof (lookup_lt_Some _ _ _ Ha) as Hlti.
  pose proof (lookup_lt_Some _ _ _ Hb) as Hltj.
  pose proof (holds_node_live _ _ _ _ _ _ H Ha) as Hla.
  pose proof (holds_node_live _ _ _ _ _ _ H Hb) as Hlb.
  split.
  - unfold swap. rewrite !list_bind_get_size.
    rewrite (to_unsigned_int (size (someList m))) by lia.
    replace ((size (someList m) <=? i) || (size (someList m) <=? j))
      with false by (symmetry; apply orb_false_iff; lia).
    rewrite list_bind_get_header, list_bind_get_size, Hh.
    pose proof (get_node_at_reaches _ _ _ _ fuel i a H Ha Hi Hfuel) as Hg1.
    rewrite (list_bind_Ret _ _ _ _ _ Hg1).
    rewrite list_bind_get_header, list_bind_get_size, Hh.
    pose proof (get_node_at_reaches _ _ _ _ fuel j b H Hb Hj Hfuel) as Hg2.
    rewrite (list_bind_Ret _ _ _ _ _ Hg2).
    rewrite (list_bind_Ret _ _ _ _ _
               (load_field data _ _ _ (holds_data _ _ _ _ _ _ _ H Ha Hxi))).
    rewrite (list_bind_Ret _ _ _ _ _
               (load_field data _ _ _ (holds_data _ _ _ _ _ _ _ H Hb Hxj))).
    rewrite (list_bind_Ret _ _ _ _ _ (store_live (set_data xj) _ _ Hla)).
    apply store_live. list_live.
  - apply (holds_ext m _ h ns xs); try assumption.
    + reflexivity.
    + rewrite !length_insert. exact Hlen.
    + intros c _. list_fields. reflexivity.
    + intros c _. list_fields. reflexivity.
    + intros k c y Hc Hy.
      destruct (decide (k = Z.to_nat j)) as [-> | Hnej].
      * rewrite list_lookup_insert_eq in Hy
          by (rewrite length_insert; lia).
        injection Hy as <-.
        assert (c = b) as -> by congruence.
        list_fields. reflexivity.
      * rewrite list_lookup_insert_ne in Hy by congruence.
        pose proof (nodes_apart _ _ _ _ _ _ Hnd Hc Hb Hnej).
        destruct (decide (k = Z.to_nat i)) as [-> | Hnei].
        -- rewrite list_lookup_insert_eq in Hy by lia. injection Hy as <-.
           assert (c = a) as -> by congruence.
           list_fields. reflexivity.
        -- rewrite list_lookup_insert_ne in Hy by congruence.
           pose proof (nodes_apart _ _ _ _ _ _ Hnd Hc Ha Hnei).
           list_fields. eapply holds_data; eassumption.
Qed.

Lemma swap_out_of_range m h ns xs fuel i j :
  holds m h ns xs ->
  Z.of_nat (length ns) <= i \/ Z.of_nat (length ns) <= j ->
  swap fuel i j m = Exit 2 m.
Proof.
  intros (_ & Hsize & Hmax & _) Hout.
  unfold swap. rewrite !list_bind_get_size.
  rewrite (to_unsigned_int (size (someList m))) by lia.
  replace ((size (someList m) <=? i) || (size (someList m) <=? j))
    with true by (symmetry; apply orb_true_iff; lia).
  reflexivity.
Qed.

End ListInPlace.


(** ** Running the straight-line code *)

Section ListSteps.

Import LinkedLists.
Local Open Scope list_mem_scope.

Lemma list_bind_put_size {B} s (k : L B) m :
  (put_size s ;;; k) m = k (with_size s m).
Proof. reflexivity. Qed.

Lemma list_bind_put_header {B} h (k : L B) m :
  (put_header h ;;; k) m = k (with_header h m).
Proof. reflexivity. Qed.

Lemma list_bind_malloc {B} a junk (k : ptr -> L B) m :
  (p <- malloc (Some a) junk ;; k p) m = k (Some a) (alloc a junk m).
Proof. reflexivity. Qed.

Lemma list_bind_free_data {B} d (k : L B) m :
  (free_data d ;;; k) m = k (with_freed (d :: freed m) m).
Proof. reflexivity. Qed.

Lemma list_bind_store {B} set a (k : L B) m :
  live m a -> (store set (Some a) ;;; k) m = k (upd a set m).
Proof. intros H. unfold bind. rewrite (store_live _ _ _ H). reflexivity. Qed.

Lemma list_bind_load {A B} (f : Node -> A) a v (k : A -> L B) m :
  field_of f m a = Some v -> (x <- load f (Some a) ;; k x) m = k v m.
Proof. intros H. unfold bind. rewrite (load_field _ _ _ _ H). reflexivity. Qed.

Lemma list_bind_free_node {B} a (k : L B) m :
  live m a -> (free_node (Some a) ;;; k) m = k (dealloc a m).
Proof.
  intros H. unfold bind. rewrite (free_node_live _ _ H). reflexivity.
Qed.

Lemma incr_size_runs m :
  size (someList m) < INT_MAX ->
  incr_size m = Ret tt (with_size (size (someList m) + 1) m).
Proof.
  intros H. unfold incr_size. rewrite list_bind_get_size.
  destruct (size (someList m) =? INT_MAX) eqn:E; [|reflexivity].
  apply Z.eqb_eq in E. lia.
Qed.

Lemma decr_size_runs m :
  0 <= size (someList m) ->
  decr_size m = Ret tt (with_size (size (someList m) - 1) m).
Proof.
  intros H. unfold decr_size. rewrite list_bind_get_size.
  destruct (size (someList m) =? INT_MIN) eqn:E; [|reflexivity].
  apply Z.eqb_eq in E. unfold INT_MIN in E. lia.
Qed.

Lemma someList_upd a set m : someList (upd a set m) = someList m.
Proof. reflexivity. Qed.

Lemma someList_alloc a junk m : someList (alloc a junk m) = someList m.
Proof. reflexivity. Qed.

Lemma someList_dealloc a m : someList (dealloc a m) = someList m.
Proof. reflexivity. Qed.

Lemma someList_with_size s m :
  someList (with_size s m) = mkLinkedList (header (someList m)) s.
Proof. reflexivity. Qed.

Lemma someList_with_header h m :
  someList (with_header h m) = mkLinkedList h (size (someList m)).
Proof. reflexivity. Qed.

Lemma someList_with_freed fs m : someList (with_freed fs m) = someList m.
Proof. reflexivity. Qed.

Lemma nodes_upd_ne a set m c :
  c <> a -> nodes (upd a set m) !! c = nodes m !! c.
Proof. intros H. unfold upd. simpl. apply lookup_alter_ne. congruence. Qed.

Lemma nodes_alloc_ne a junk m c :
  c <> a -> nodes (alloc a junk m) !! c = nodes m !! c.
Proof. intros H. unfold alloc. simpl. apply lookup_insert_ne. congruence. Qed.

Lemma nodes_dealloc_ne a m c :
  c <> a -> nodes (dealloc a m) !! c = nodes m !! c.
Proof. intros H. unfold dealloc. simpl. apply lookup_delete_ne. congruence. Qed.

Lemma nodes_dealloc_eq a m : nodes (dealloc a m) !! a = None.
Proof. unfold dealloc. simpl. apply lookup_delete_eq. Qed.

Lemma nodes_with_size s m : nodes (with_size s m) = nodes m.
Proof. reflexivity. Qed.

Lemma nodes_with_header h m : nodes (with_header h m) = nodes m.
Proof. reflexivity. Qed.

Lemma nodes_with_freed fs m : nodes (with_freed fs m) = nodes m.
Proof. reflexivity. Qed.

End ListSteps.

Ltac list_struct :=
  repeat first
    [ rewrite someList_upd | rewrite someList_alloc | rewrite someList_dealloc
    | rewrite someList_with_size | rewrite someList_with_header
    | rewrite someList_with_freed ];
  cbn [LinkedLists.header LinkedLists.size].

Ltac list_nodes :=
  repeat first
    [ rewrite nodes_with_size | rewrite nodes_with_header
    | rewrite nodes_with_freed
    | rewrite nodes_upd_ne by congruence
    | rewrite nodes_alloc_ne by congruence
    | rewrite nodes_dealloc_ne by congruence ].

Ltac list_step :=
  first
    [ rewrite list_bind_get_size
    | rewrite list_bind_get_header
    | rewrite list_bind_put_size
    | rewrite list_bind_put_header
    | rewrite list_bind_malloc
    | rewrite list_bind_free_data
    | rewrite list_bind_store by list_live
    | rewrite list_bind_free_node by list_live
    | erewrite list_bind_load
        by (list_fields; first [reflexivity | eassumption]) ];
  list_struct.

(** ** Making a list and adding to it *)

Section ListAdditions.

Import LinkedLists.
Local Open Scope list_mem_scope.

Lemma path_nil h : path h [] = [h; h].
Proof. reflexivity. Qed.

Lemma createList_runs m a junk :
  exists m',
    createList (Some a) junk m = Ret tt m'
    /\ holds m' a [] []
    /\ freed m' = freed m
    /\ others_kept [a] m m'.
Proof.
  eexists. split; [|split; [|split]].
  - unfold createList. repeat list_step. apply store_live. list_live.
  - unfold holds. list_struct.
    split; [reflexivity|]. split; [reflexivity|].
    split; [unfold INT_MAX; lia|]. split; [reflexivity|].
    split; [apply NoDup_singleton|]. split.
    + intros k x y Hx Hy. rewrite path_nil in Hx, Hy.
      destruct k as [|[|k]]; try discriminate.
      injection Hx as <-. injection Hy as <-.
      split; list_fields; reflexivity.
    + intros k x y Hx. discriminate.
  - reflexivity.
  - intros c Hc. rewrite not_elem_of_cons in Hc. destruct Hc as [Hc _].
    list_nodes. reflexivity.
Qed.

Lemma path_snoc_front h ns a k :
  (k <= length ns)%nat -> path h (ns ++ [a]) !! k = path h ns !! k.
Proof.
  intros Hk. rewrite !path_lookup_front by (rewrite ?length_app; simpl; lia).
  destruct k as [|k]; [reflexivity|]. simpl.
  destruct (decide (k < length ns)%nat) as [Hlt | Hge].
  - apply lookup_app_l. exact Hlt.
  - lia.
Qed.

Lemma path_snoc_new h ns a : path h (ns ++ [a]) !! S (length ns) = Some a.
Proof. apply path_lookup_node. apply list_lookup_middle. reflexivity. Qed.

Lemma path_snoc_end h ns a :
  path h (ns ++ [a]) !! S (S (length ns)) = Some h.
Proof.
  rewrite <- (path_lookup_end h (ns ++ [a])). f_equal.
  rewrite length_app. simpl. lia.
Qed.

Lemma path_last_link m h ns xs :
  holds m h ns xs ->
  exists last,
    path h ns !! length ns = Some last
    /\ field_of next m last = Some (Some h)
    /\ field_of prev m h = Some (Some last).
Proof.
  intros H.
  destruct (lookup_lt_is_Some_2 (path h ns) (length ns)) as [last Hlast].
  { rewrite path_length. lia. }
  exists last. split; [exact Hlast|].
  apply (holds_link _ _ _ _ _ _ _ H Hlast). apply path_lookup_end.
Qed.

Lemma path_first_link m h ns xs :
  holds m h ns xs ->
  exists first,
    path h ns !! 1%nat = Some first
    /\ field_of next m h = Some (Some first)
    /\ field_of prev m first = Some (Some h).
Proof.
  intros H.
  destruct (lookup_lt_is_Some_2 (path h ns) 1) as [first Hfirst].
  { rewrite path_length. lia. }
  exists first. split; [exact Hfirst|].
  apply (holds_link _ _ _ _ 0%nat _ _ H eq_refl Hfirst).
Qed.

Lemma path_live_not_fresh m h ns xs k x a :
  holds m h ns xs -> nodes m !! a = None -> path h ns !! k = Some x ->
  x <> a.
Proof.
  intros H Hfresh Hk ->. destruct (holds_live _ _ _ _ _ _ H Hk) as [n Hn].
  congruence.
Qed.

Lemma addEnd_runs m h ns xs a junk newData :
  holds m h ns xs ->
  nodes m !! a = None ->
  Z.of_nat (length ns) < INT_MAX ->
  exists m',
    addEnd (Some a) junk newData m = Ret tt m'
    /\ holds m' h (ns ++ [a]) (xs ++ [newData])
    /\ freed m' = freed m
    /\ others_kept (a :: h :: ns) m m'.
Proof.
  intros H Hfresh Hroom.
  pose proof H as (Hh & Hsize & Hmax & Hlen & Hnd & _).
  destruct (path_last_link _ _ _ _ H) as (last & Hlast & Hlast_next & Hh_prev).
  pose proof (holds_header_live _ _ _ _ H) as Hlive_h.
  pose proof (holds_live _ _ _ _ _ _ H Hlast) as Hlive_last.
  assert (Hah : h <> a)
    by exact (path_live_not_fresh _ _ _ _ 0%nat _ _ H Hfresh eq_refl).
  assert (Hal : last <> a)
    by exact (path_live_not_fresh _ _ _ _ _ _ _ H Hfresh Hlast).
  eexists. split; [|split; [|split]].
  - unfold addEnd. repeat first [list_step | rewrite Hh].
    apply incr_size_runs. list_struct. lia.
  - unfold holds. list_struct.
    split; [exact Hh|]. split; [rewrite length_app; simpl; lia|].
    split; [lia|]. split; [rewrite !length_app; simpl; lia|].
    split.
    { rewrite app_comm_cons. apply NoDup_app. split; [exact Hnd|].
      split; [|apply NoDup_singleton].
      intros x Hx Hxa. apply list_elem_of_singleton in Hxa as ->.
      exact (fresh_not_in_list _ _ _ _ _ H Hfresh Hx). }
    split.
    + intros k x y Hx Hy.
      destruct (decide (k < length ns)%nat) as [Hk | Hk].
      * rewrite path_snoc_front in Hx, Hy by lia.
        destruct (holds_link _ _ _ _ _ _ _ H Hx Hy) as [Hn Hp].
        pose proof (path_live_not_fresh _ _ _ _ _ _ _ H Hfresh Hx).
        pose proof (path_live_not_fresh _ _ _ _ _ _ _ H Hfresh Hy).
        assert (x <> last)
          by (apply (path_ne h ns k (length ns)); auto; lia).
        assert (y <> h)
          by (apply (path_ne h ns (S k) 0%nat); auto; lia).
        split; list_fields; assumption.
      * destruct (decide (k = length ns)) as [-> | Hk'].
        -- rewrite path_snoc_front in Hx by lia.
           rewrite path_snoc_new in Hy.
           assert (x = last) as -> by congruence. injection Hy as <-.
           split; list_fields; reflexivity.
        -- destruct (decide (k = S (length ns))) as [-> | Hk''].
           ++ rewrite path_snoc_new in Hx. rewrite path_snoc_end in Hy.
              injection Hx as <-. injection Hy as <-.
              split; list_fields; reflexivity.
           ++ apply path_lookup_bound in Hy. rewrite length_app in Hy.
              simpl in Hy. lia.
    + intros k x d Hx Hd.
      destruct (decide (k < length ns)%nat) as [Hk | Hk].
      * rewrite lookup_app_l in Hx by lia.
        rewrite lookup_app_l in Hd by lia.
        pose proof (path_live_not_fresh _ _ _ _ _ _ _ H Hfresh
                      (path_lookup_node h _ _ _ Hx)).
        list_fields. eapply holds_data; eassumption.
      * pose proof (lookup_lt_Some _ _ _ Hx) as Hlt.
        rewrite length_app in Hlt. simpl in Hlt.
        assert (k = length ns) as -> by lia.
        rewrite list_lookup_middle in Hx by reflexivity.
        rewrite list_lookup_middle in Hd by lia.
        injection Hx as <-. injection Hd as <-.
        list_fields. reflexivity.
  - reflexivity.
  - intros c Hc. rewrite !not_elem_of_cons in Hc. destruct Hc as (? & ? & Hc).
    assert (c <> last).
    { intros ->. rewrite path_lookup_front in Hlast by lia.
      apply list_elem_of_lookup_2 in Hlast.
      apply elem_of_cons in Hlast as [-> | Hin]; [congruence | exact (Hc Hin)]. }
    list_nodes. reflexivity.
Qed.

Lemma path_cons_shift h ns a k :
  path h (a :: ns) !! S (S k) = path h ns !! S k.
Proof. reflexivity. Qed.

Lemma addFirst_runs m h ns xs a junk newElement :
  holds m h ns xs ->
  nodes m !! a = None ->
  Z.of_nat (length ns) < INT_MAX ->
  exists m',
    addFirst (Some a) junk newElement m = Ret tt m'
    /\ holds m' h (a :: ns) (newElement :: xs)
    /\ freed m' = freed m
    /\ others_kept (a :: h :: ns) m m'.
Proof.
  intros H Hfresh Hroom.
  pose proof H as (Hh & Hsize & Hmax & Hlen & Hnd & _).
  destruct (path_first_link _ _ _ _ H)
    as (first & Hfirst & Hh_next & Hfirst_prev).
  pose proof (holds_header_live _ _ _ _ H) as Hlive_h.
  pose proof (holds_live _ _ _ _ _ _ H Hfirst) as Hlive_first.
  assert (Hah : h <> a)
    by exact (path_live_not_fresh _ _ _ _ 0%nat _ _ H Hfresh eq_refl).
  assert (Haf : first <> a)
    by exact (path_live_not_fresh _ _ _ _ _ _ _ H Hfresh Hfirst).
  eexists. split; [|split; [|split]].
  - unfold addFirst. repeat first [list_step | rewrite Hh].
    apply incr_size_runs. list_struct. lia.
  - unfold holds. list_struct.
    split; [exact Hh|]. split; [simpl length; lia|].
    split; [lia|]. split; [simpl; lia|].
    split.
    { apply NoDup_cons in Hnd as [Hh_out Hns].
      pose proof (fresh_not_in_list _ _ _ _ _ H Hfresh) as Hout.
      rewrite not_elem_of_cons in Hout. destruct Hout as [_ Hout].
      apply NoDup_cons. split.
      - rewrite not_elem_of_cons. split; [congruence | exact Hh_out].
      - apply NoDup_cons. split; assumption. }
    split.
    + intros k x y Hx Hy.
      destruct k as [|[|k]].
      * injection Hx as <-. injection Hy as <-.
        split; list_fields; reflexivity.
      * injection Hx as <-. rewrite path_cons_shift in Hy.
        assert (y = first) as -> by congruence.
        split; list_fields; reflexivity.
      * rewrite path_cons_shift in Hx, Hy.
        destruct (holds_link _ _ _ _ _ _ _ H Hx Hy) as [Hn Hp].
        pose proof (path_live_not_fresh _ _ _ _ _ _ _ H Hfresh Hx).
        pose proof (path_live_not_fresh _ _ _ _ _ _ _ H Hfresh Hy).
        pose proof (path_lookup_bound _ _ _ _ Hy).
        assert (x <> h)
          by (apply (path_ne h ns (S k) 0%nat); auto; lia).
        assert (y <> first)
          by (apply (path_ne h ns (S (S k)) 1%nat); auto; lia).
        split; list_fields; assumption.
    + intros k x d Hx Hd.
      destruct k as [|k].
      * injection Hx as <-. injection Hd as <-. list_fields. reflexivity.
      * simpl in Hx, Hd.
        pose proof (path_live_not_fresh _ _ _ _ _ _ _ H Hfresh
                      (path_lookup_node h _ _ _ Hx)).
        list_fields. eapply holds_data; eassumption.
  - reflexivity.
  - intros c Hc. rewrite !not_elem_of_cons in Hc. destruct Hc as (? & ? & Hc).
    assert (c <> first).
    { intros ->. pose proof (path_lookup_bound _ _ _ _ Hfirst).
      destruct ns as [|n0 ns'].
      - simpl in Hfirst. congruence.
      - simpl in Hfirst. injection Hfirst as <-. apply Hc. left. }
    list_nodes. reflexivity.
Qed.

End ListAdditions.


(** ** Taking a node out *)

Section ListRemovals.

Import LinkedLists.
Local Open Scope list_mem_scope.

Lemma list_bind_decr_size {B} (k : L B) m :
  0 <= size (someList m) ->
  (decr_size ;;; k) m = k (with_size (size (someList m) - 1) m).
Proof.
  intros H. unfold bind. rewrite (decr_size_runs _ H). reflexivity.
Qed.

Lemma delete_app_front {A} (l k : list A) p :
  (p < length l)%nat -> delete p (l ++ k) = delete p l ++ k.
Proof.
  revert p. induction l as [|x l IH]; intros p Hp; simpl in Hp; [lia|].
  destruct p as [|p]; [reflexivity|].
  simpl. f_equal. apply IH. lia.
Qed.

Lemma path_delete h ns p :
  (p < length ns)%nat -> path h (delete p ns) = delete (S p) (path h ns).
Proof.
  intros Hp. unfold path. simpl. f_equal. symmetry.
  apply delete_app_front. exact Hp.
Qed.

(** The memory after the node at position [p] was spliced out and its
    block freed. *)
Lemma unlink_holds m h ns xs p before gone after :
  holds m h ns xs ->
  path h ns !! p = Some before ->
  path h ns !! S p = Some gone ->
  path h ns !! S (S p) = Some after ->
  holds
    (dealloc gone
       (with_size (size (someList m) - 1)
          (upd after (set_prev (Some before))
             (upd before (set_next (Some after)) m))))
    h (delete p ns) (delete p xs).
Proof.
  intros H Hb Hg Ha.
  pose proof H as (Hh & Hsize & Hmax & Hlen & Hnd & _).
  pose proof (path_lookup_bound _ _ _ _ Ha) as Hbound.
  assert (Hp : (p < length ns)%nat) by lia.
  pose proof (holds_live _ _ _ _ _ _ H Hb) as Hlive_b.
  pose proof (holds_live _ _ _ _ _ _ H Ha) as Hlive_a.
  assert (Hbg : before <> gone)
    by (apply (path_ne h ns p (S p)); auto; lia).
  assert (Hag : after <> gone)
    by (apply (path_ne h ns (S (S p)) (S p)); auto; lia).
  unfold holds. list_struct.
  split; [exact Hh|].
  split.
  { rewrite length_delete by (apply lookup_lt_is_Some_2; exact Hp). lia. }
  split; [lia|].
  split.
  { rewrite !length_delete by (apply lookup_lt_is_Some_2; lia). lia. }
  split.
  { apply NoDup_cons in Hnd as [Hh_out Hns]. apply NoDup_cons. split.
    - intros Hin. apply Hh_out. eapply list_elem_of_delete_inv. exact Hin.
    - eapply sublist_NoDup; [exact Hns | apply sublist_delete]. }
  split.
  - intros k x y Hx Hy. rewrite path_delete in Hx, Hy by exact Hp.
    destruct (decide (k < p)%nat) as [Hk | Hk].
    + rewrite list_lookup_delete_lt in Hx, Hy by lia.
      destruct (holds_link _ _ _ _ _ _ _ H Hx Hy) as [Hn Hpv].
      assert (x <> gone) by (apply (path_ne h ns k (S p)); auto; lia).
      assert (x <> before) by (apply (path_ne h ns k p); auto; lia).
      assert (y <> gone) by (apply (path_ne h ns (S k) (S p)); auto; lia).
      assert (y <> after)
        by (apply (path_ne h ns (S k) (S (S p))); auto; lia).
      split; list_fields; assumption.
    + destruct (decide (k = p)) as [-> | Hk'].
      * rewrite list_lookup_delete_lt in Hx by lia.
        rewrite list_lookup_delete_ge in Hy by lia.
        assert (x = before) as -> by congruence.
        assert (y = after) as -> by congruence.
        split; list_fields; reflexivity.
      * rewrite list_lookup_delete_ge in Hx, Hy by lia.
        destruct (holds_link _ _ _ _ _ _ _ H Hx Hy) as [Hn Hpv].
        pose proof (path_lookup_bound _ _ _ _ Hy).
        assert (x <> gone) by (apply (path_ne h ns (S k) (S p)); auto; lia).
        assert (x <> before) by (apply (path_ne h ns (S k) p); auto; lia).
        assert (y <> gone)
          by (apply (path_ne h ns (S (S k)) (S p)); auto; lia).
        assert (y <> after)
          by (apply (path_ne h ns (S (S k)) (S (S p))); auto; lia).
        split; list_fields; assumption.
  - intros k x d Hx Hd.
    assert (Hold : exists k', ns !! k' = Some x /\ xs !! k' = Some d
                              /\ k' <> p).
    { destruct (decide (k < p)%nat) as [Hk | Hk].
      - rewrite list_lookup_delete_lt in Hx by lia.
        rewrite list_lookup_delete_lt in Hd by lia.
        exists k. split; [exact Hx|]. split; [exact Hd | lia].
      - rewrite list_lookup_delete_ge in Hx by lia.
        rewrite list_lookup_delete_ge in Hd by lia.
        exists (S k). split; [exact Hx|]. split; [exact Hd | lia]. }
    destruct Hold as (k' & Hx' & Hd' & Hne).
    assert (x <> gone).
    { apply (path_ne h ns (S k') (S p)); auto; try lia.
      apply path_lookup_node. exact Hx'. }
    list_fields. eapply holds_data; eassumption.
Qed.

Lemma pop_in_range m h ns xs fuel position a x :
  holds m h ns xs ->
  Z.of_nat (length ns) < Z.of_nat fuel ->
  0 <= position ->
  ns !! Z.to_nat position = Some a ->
  xs !! Z.to_nat position = Some x ->
  exists m',
    pop fuel position m = Ret x m'
    /\ holds m' h (delete (Z.to_nat position) ns)
         (delete (Z.to_nat position) xs)
    /\ nodes m' !! a = None
    /\ freed m' = freed m
    /\ others_kept (h :: ns) m m'.
Proof.
  intros H Hfuel Hpos Ha Hx.
  pose proof H as (Hh & Hsize & Hmax & Hlen & Hnd & _).
  pose proof (lookup_lt_Some _ _ _ Ha) as Hlt.
  set (p := Z.to_nat position) in *.
  pose proof (path_lookup_node h _ _ _ Ha) as Hg.
  destruct (lookup_lt_is_Some_2 (path h ns) p) as [before Hb].
  { rewrite path_length. lia. }
  destruct (lookup_lt_is_Some_2 (path h ns) (S (S p))) as [after Haf].
  { rewrite path_length. lia. }
  destruct (holds_link _ _ _ _ _ _ _ H Hb Hg) as [_ Hprev].
  destruct (holds_link _ _ _ _ _ _ _ H Hg Haf) as [Hnext _].
  pose proof (holds_data _ _ _ _ _ _ _ H Ha Hx) as Hdata.
  pose proof (holds_live _ _ _ _ _ _ H Hb) as Hlive_b.
  pose proof (holds_live _ _ _ _ _ _ H Haf) as Hlive_a.
  pose proof (holds_live _ _ _ _ _ _ H Hg) as Hlive_g.
  assert (Hbg : before <> a)
    by (apply (path_ne h ns p (S p)); auto; lia).
  assert (Hag : after <> a)
    by (apply (path_ne h ns (S (S p)) (S p)); auto; lia).
  eexists. split; [|split; [|split; [|split]]].
  - unfold pop. rewrite list_bind_get_size.
    replace ((position <? 0) || (size (someList m) <=? position))
      with false by (symmetry; apply orb_false_iff; lia).
    rewrite list_bind_get_header, list_bind_get_size, Hh.
    rewrite (list_bind_Ret _ _ _ _ _
               (get_node_at_reaches _ _ _ _ fuel position a H Ha Hpos Hfuel)).
    repeat list_step.
    rewrite list_bind_decr_size by (list_struct; lia).
    list_struct. rewrite list_bind_free_node by list_live. reflexivity.
  - apply (unlink_holds _ _ _ _ p before a after H Hb Hg Haf).
  - apply nodes_dealloc_eq.
  - reflexivity.
  - intros c Hc.
    assert (Hin : forall k y, path h ns !! k = Some y -> c <> y).
    { intros k y Hy ->. apply Hc.
      pose proof (path_lookup_bound _ _ _ _ Hy).
      destruct (decide (k = S (length ns))) as [-> | Hk].
      - rewrite path_lookup_end in Hy. injection Hy as <-. left.
      - rewrite path_lookup_front in Hy by lia.
        eapply list_elem_of_lookup_2. exact Hy. }
    pose proof (Hin _ _ Hb). pose proof (Hin _ _ Hg). pose proof (Hin _ _ Haf).
    list_nodes. reflexivity.
Qed.

Lemma pop_out_of_range m h ns xs fuel position :
  holds m h ns xs ->
  position < 0 \/ Z.of_nat (length ns) <= position ->
  pop fuel position m = Exit 2 m.
Proof.
  intros (_ & Hsize & _) Hout.
  unfold pop. rewrite list_bind_get_size.
  replace ((position <? 0) || (size (someList m) <=? position))
    with true by (symmetry; apply orb_true_iff; lia).
  reflexivity.
Qed.

End ListRemovals.


(** ** Emptying and printing a list *)

Section ListTeardown.

Import LinkedLists.
Local Open Scope list_mem_scope.


Lemma removeFirst_empty m h :
  holds m h [] [] -> removeFirst m = Exit 2 m.
Proof.
  intros (_ & Hsize & _). unfold removeFirst.
  rewrite list_bind_get_size, Hsize. reflexivity.
Qed.




Lemma output_from_runs m h ns xs :
  holds m h ns xs ->
  forall count j x,
    path h ns !! S j = Some x ->
    (j + count <= length ns)%nat ->
    output_from (Some x) count m = Ret (take count (drop j xs)) m.
Proof.
  intros H. pose proof H as (_ & _ & _ & Hlen & _).
  induction count as [|count IH]; intros j x Hx Hj; [reflexivity|].
  assert (Hns : ns !! j = Some x).
  { unfold path in Hx. simpl in Hx. rewrite lookup_app_l in Hx by lia.
    exact Hx. }
  destruct (lookup_lt_is_Some_2 xs j) as [d Hd]; [lia|].
  destruct (lookup_lt_is_Some_2 (path h ns) (S (S j))) as [y Hy].
  { rewrite path_length. lia. }
  destruct (holds_link _ _ _ _ _ _ _ H Hx Hy) as [Hnext _].
  simpl output_from.
  rewrite (list_bind_load data _ _ _ _
             (holds_data _ _ _ _ _ _ _ H Hns Hd)).
  rewrite (list_bind_load next _ _ _ _ Hnext).
  rewrite (list_bind_Ret _ _ _ _ _ (IH (S j) y Hy ltac:(lia))).
  rewrite (drop_S _ _ _ Hd). reflexivity.
Qed.

Lemma outputList_runs m h ns xs :
  holds m h ns xs -> outputList m = Ret xs m.
Proof.
  intros H. pose proof H as (Hh & Hsize & _ & Hlen & _).
  unfold outputList. rewrite list_bind_get_size.
  destruct (size (someList m) =? 0) eqn:E.
  - apply Z.eqb_eq in E. destruct xs; [reflexivity|].
    simpl in Hlen. lia.
  - rewrite list_bind_get_header, Hh.
    destruct (path_first_link _ _ _ _ H) as (first & Hfirst & Hnext & _).
    rewrite (list_bind_load next _ _ _ _ Hnext).
    rewrite list_bind_get_size, Hsize, Nat2Z.id.
    rewrite (output_from_runs _ _ _ _ H (length ns) 0%nat first Hfirst)
      by lia.
    rewrite drop_0, take_ge by lia. reflexivity.
Qed.

End ListTeardown.


(** ** What the list functions guarantee *)

Section ListGuarantees.

Import LinkedLists.
Local Open Scope list_mem_scope.

Lemma removeFirst_is_pop m h ns xs fuel :
  holds m h ns xs ->
  (length ns < fuel)%nat ->
  removeFirst m = pop fuel 0 m.
Proof.
  intros H Hfuel. destruct ns as [|a ns].
  - rewrite (removeFirst_empty _ _ ltac:(
      destruct xs; [exact H | destruct H as (_ & _ & _ & ? & _); discriminate])).
    symmetry. apply (pop_out_of_range _ _ _ _ _ _ H). right. simpl. lia.
  - pose proof H as (Hh & Hsize & Hmax & Hlen & Hnd & _).
    destruct xs as [|x xs]; [discriminate|].
    assert (Hb : path h (a :: ns) !! 0%nat = Some h) by reflexivity.
    assert (Hg : path h (a :: ns) !! 1%nat = Some a) by reflexivity.
    destruct (lookup_lt_is_Some_2 (path h (a :: ns)) 2) as [after Haf].
    { rewrite path_length. simpl. lia. }
    destruct (holds_link _ _ _ _ _ _ _ H Hb Hg) as [Hh_next Hprev].
    destruct (holds_link _ _ _ _ _ _ _ H Hg Haf) as [Hnext _].
    pose proof (holds_data _ _ _ _ 0%nat a x H eq_refl eq_refl) as Hdata.
    pose proof (holds_live _ _ _ _ _ _ H Hb) as Hlive_h.
    pose proof (holds_live _ _ _ _ _ _ H Haf) as Hlive_a.
    pose proof (holds_live _ _ _ _ _ _ H Hg) as Hlive_g.
    assert (Hbg : h <> a)
      by (apply (path_ne h (a :: ns) 0 1); auto; simpl; lia).
    assert (Hag : after <> a)
      by (apply (path_ne h (a :: ns) 2 1); auto; simpl; lia).
    simpl length in Hsize.
    transitivity
      (Ret x (dealloc a
                (with_size (size (someList m) - 1)
                   (upd after (set_prev (Some h))
                      (upd h (set_next (Some after)) m))))).
    + unfold removeFirst. rewrite list_bind_get_size.
      replace (size (someList m) =? 0) with false
        by (symmetry; apply Z.eqb_neq; lia).
      repeat first [list_step | rewrite Hh].
      rewrite list_bind_decr_size by (list_struct; lia).
      reflexivity.
    + symmetry. unfold pop. rewrite list_bind_get_size.
      replace ((0 <? 0) || (size (someList m) <=? 0))
        with false by (symmetry; apply orb_false_iff; lia).
      rewrite list_bind_get_header, list_bind_get_size, Hh.
      rewrite (list_bind_Ret _ _ _ _ _
                 (get_node_at_reaches _ _ _ _ fuel 0 a H eq_refl
                    ltac:(lia) ltac:(lia))).
      repeat list_step.
      rewrite list_bind_decr_size by (list_struct; lia).
      list_struct. rewrite list_bind_free_node by list_live. reflexivity.
Qed.

(** [createList] makes an empty list whenever [malloc] hands it a block,
    and on a well-formed list, given a block that is not in use and a
    size below [INT_MAX], [addFirst] puts the new element in front of
    the others and [addEnd] behind them; the list stays well formed, the
    new block is its new node, nothing is freed and no block outside the
    list is touched. *)
Theorem additions_extend_the_list m h ns xs a junk newElement :
  holds m h ns xs ->
  nodes m !! a = None ->
  Z.of_nat (length ns) < INT_MAX ->
  (exists m',
     addFirst (Some a) junk newElement m = Ret tt m'
     /\ holds m' h (a :: ns) (newElement :: xs)
     /\ freed m' = freed m
     /\ others_kept (a :: h :: ns) m m')
  /\ (exists m',
        addEnd (Some a) junk newElement m = Ret tt m'
        /\ holds m' h (ns ++ [a]) (xs ++ [newElement])
        /\ freed m' = freed m
        /\ others_kept (a :: h :: ns) m m')
  /\ (forall m0,
        exists m',
          createList (Some a) junk m0 = Ret tt m'
          /\ holds m' a [] []
          /\ freed m' = freed m0
          /\ others_kept [a] m0 m').
Proof.
  intros H Hfresh Hroom. split; [|split].
  - apply addFirst_runs; assumption.
  - apply addEnd_runs; assumption.
  - intros m0. apply createList_runs.
Qed.

(** [pop] on a well-formed list, with a position inside the list, hands
    back the element at that position and leaves the list without it:
    the other elements keep their order, the node's block is freed, the
    element is not, and no block outside the list is touched.  With a
    position outside the list it ends the process with status 2 before
    anything is changed.  [removeFirst] does exactly what [pop] does at
    position 0. *)
Theorem pop_takes_out_the_position m h ns xs fuel position :
  holds m h ns xs ->
  (length ns < fuel)%nat ->
  (0 <= position < Z.of_nat (length ns) ->
   exists a x m',
     ns !! Z.to_nat position = Some a
     /\ xs !! Z.to_nat position = Some x
     /\ pop fuel position m = Ret x m'
     /\ holds m' h (delete (Z.to_nat position) ns)
          (delete (Z.to_nat position) xs)
     /\ nodes m' !! a = None
     /\ freed m' = freed m
     /\ others_kept (h :: ns) m m')
  /\ (position < 0 \/ Z.of_nat (length ns) <= position ->
      pop fuel position m = Exit 2 m)
  /\ removeFirst m = pop fuel 0 m.
Proof.
  intros H Hfuel. split; [|split].
  - intros Hpos. pose proof H as (_ & _ & _ & Hlen & _).
    destruct (lookup_lt_is_Some_2 ns (Z.to_nat position)) as [a Ha]; [lia|].
    destruct (lookup_lt_is_Some_2 xs (Z.to_nat position)) as [x Hx]; [lia|].
    destruct (pop_in_range m h ns xs fuel position a x H) as (m' & Hrun);
      [lia | lia | exact Ha | exact Hx |].
    exists a, x, m'. split; [exact Ha|]. split; [exact Hx | exact Hrun].
  - apply (pop_out_of_range _ _ _ _ _ _ H).
  - apply (removeFirst_is_pop _ _ _ _ _ H Hfuel).
Qed.

(** On a well-formed list [outputList] prints the elements in their
    order and changes nothing; [change] puts the new element at the
    position and hands back the one that was there; [swap] exchanges the
    elements at the two positions.  Neither moves a node.  With a
    position outside the list [change] and [swap] end the process with
    status 2 before anything is changed. *)
Theorem elements_are_read_and_written_in_place m h ns xs fuel :
  holds m h ns xs ->
  (length ns < fuel)%nat ->
  outputList m = Ret xs m
  /\ (forall position newElement,
        if (0 <=? position) && (position <? Z.of_nat (length ns))
        then
          exists x m',
            xs !! Z.to_nat position = Some x
            /\ change fuel position newElement m = Ret x m'
            /\ holds m' h ns (<[Z.to_nat position := newElement]> xs)
        else change fuel position newElement m = Exit 2 m)
  /\ (forall i j,
        0 <= i < UINT_modulus -> 0 <= j < UINT_modulus ->
        if (i <? Z.of_nat (length ns)) && (j <? Z.of_nat (length ns))
        then
          exists xi xj m',
            xs !! Z.to_nat i = Some xi
            /\ xs !! Z.to_nat j = Some xj
            /\ swap fuel i j m = Ret tt m'
            /\ holds m' h ns
                 (<[Z.to_nat j := xi]> (<[Z.to_nat i := xj]> xs))
        else swap fuel i j m = Exit 2 m).
Proof.
  intros H Hfuel. pose proof H as (_ & _ & _ & Hlen & _).
  split; [|split].
  - apply (outputList_runs _ _ _ _ H).
  - intros position newElement.
    destruct ((0 <=? position) && (position <? Z.of_nat (length ns))) eqn:E.
    + apply andb_true_iff in E as [E1 E2].
      apply Z.leb_le in E1. apply Z.ltb_lt in E2.
      destruct (lookup_lt_is_Some_2 ns (Z.to_nat position)) as [a Ha]; [lia|].
      destruct (lookup_lt_is_Some_2 xs (Z.to_nat position)) as [x Hx]; [lia|].
      destruct (change_in_range m h ns xs fuel position newElement a x H)
        as [Hrun Hholds]; [lia | lia | exact Ha | exact Hx |].
      exists x. eexists. split; [exact Hx|]. split; [exact Hrun|].
      exact Hholds.
    + apply andb_false_iff in E.
      apply (change_out_of_range _ _ _ _ _ _ _ H).
      destruct E as [E | E]; [apply Z.leb_gt in E | apply Z.ltb_ge in E]; lia.
  - intros i j Hi Hj.
    destruct ((i <? Z.of_nat (length ns)) && (j <? Z.of_nat (length ns)))
      eqn:E.
    + apply andb_true_iff in E as [E1 E2].
      apply Z.ltb_lt in E1. apply Z.ltb_lt in E2.
      destruct (lookup_lt_is_Some_2 ns (Z.to_nat i)) as [a Ha]; [lia|].
      destruct (lookup_lt_is_Some_2 ns (Z.to_nat j)) as [b Hb]; [lia|].
      destruct (lookup_lt_is_Some_2 xs (Z.to_nat i)) as [xi Hxi]; [lia|].
      destruct (lookup_lt_is_Some_2 xs (Z.to_nat j)) as [xj Hxj]; [lia|].
      destruct (swap_in_range m h ns xs fuel i j a b xi xj H)
        as [Hrun Hholds]; try assumption; try lia.
      exists xi, xj. eexists. split; [exact Hxi|]. split; [exact Hxj|].
      split; [exact Hrun | exact Hholds].
    + apply andb_false_iff in E.
      apply (swap_out_of_range _ _ _ _ _ _ _ H).
      destruct E as [E | E]; apply Z.ltb_ge in E; lia.
Qed.


End ListGuarantees.


(** ** The guarantees at work on a list of two elements *)

Section ListExamples.

Import LinkedLists.
Local Open Scope list_mem_scope.

Lemma two_elements_holds :
  holds two_elements 100 [101; 102] [Some 1; Some 2].
Proof.
  unfold holds.
  split; [reflexivity|]. split; [reflexivity|].
  split; [discriminate|]. split; [reflexivity|].
  split.
  { apply (bool_decide_unpack _). vm_compute. exact I. }
  split.
  - intros k a b Ha Hb.
    destruct k as [|[|[|k]]]; simpl in Ha, Hb; try discriminate;
      injection Ha as <-; injection Hb as <-; split; reflexivity.
  - intros k a x Ha Hx.
    destruct k as [|[|k]]; simpl in Ha, Hx; try discriminate;
      injection Ha as <-; injection Hx as <-; reflexivity.
Qed.

Lemma additions_extend_the_list_witness :
  (exists m',
     addFirst (Some 103) (mkNode None None None) (Some 3) two_elements
     = Ret tt m'
     /\ holds m' 100 [103; 101; 102] [Some 3; Some 1; Some 2]
     /\ freed m' = []
     /\ others_kept [103; 100; 101; 102] two_elements m')
  /\ (exists m',
        addEnd (Some 103) (mkNode None None None) (Some 3) two_elements
        = Ret tt m'
        /\ holds m' 100 [101; 102; 103] [Some 1; Some 2; Some 3]
        /\ freed m' = []
        /\ others_kept [103; 100; 101; 102] two_elements m')
  /\ (exists m',
        createList (Some 103) (mkNode None None None)
          (mkMem (mkLinkedList None 0) ∅ [])
        = Ret tt m'
        /\ holds m' 103 [] []
        /\ freed m' = []
        /\ others_kept [103] (mkMem (mkLinkedList None 0) ∅ []) m').
Proof.
  destruct (additions_extend_the_list two_elements 100 [101; 102]
              [Some 1; Some 2] 103 (mkNode None None None) (Some 3))
    as (Hfirst & Hend & Hcreate).
  - exact two_elements_holds.
  - reflexivity.
  - reflexivity.
  - split; [exact Hfirst|]. split; [exact Hend|].
    exact (Hcreate (mkMem (mkLinkedList None 0) ∅ [])).
Defined.

Lemma pop_takes_out_the_position_witness :
  (exists a x m',
     [101; 102] !! Z.to_nat 1 = Some a
     /\ [Some 1; Some 2] !! Z.to_nat 1 = Some x
     /\ pop 3 1 two_elements = Ret x m'
     /\ holds m' 100 (delete (Z.to_nat 1) [101; 102])
          (delete (Z.to_nat 1) [Some 1; Some 2])
     /\ nodes m' !! a = None
     /\ freed m' = freed two_elements
     /\ others_kept [100; 101; 102] two_elements m')
  /\ pop 3 2 two_elements = Exit 2 two_elements
  /\ removeFirst two_elements = pop 3 0 two_elements.
Proof.
  split; [|split].
  - apply (pop_takes_out_the_position two_elements 100 [101; 102]
             [Some 1; Some 2] 3 1).
    + exact two_elements_holds.
    + simpl. lia.
    + simpl. lia.
  - apply (pop_takes_out_the_position two_elements 100 [101; 102]
             [Some 1; Some 2] 3 2).
    + exact two_elements_holds.
    + simpl. lia.
    + simpl. lia.
  - apply (pop_takes_out_the_position two_elements 100 [101; 102]
             [Some 1; Some 2] 3 0).
    + exact two_elements_holds.
    + simpl. lia.
Defined.

Lemma elements_are_read_and_written_in_place_witness :
  outputList two_elements = Ret [Some 1; Some 2] two_elements
  /\ (exists x m',
        [Some 1; Some 2] !! Z.to_nat 0 = Some x
        /\ change 3 0 (Some 7) two_elements = Ret x m'
        /\ holds m' 100 [101; 102] [Some 7; Some 2])
  /\ (exists xi xj m',
        [Some 1; Some 2] !! Z.to_nat 0 = Some xi
        /\ [Some 1; Some 2] !! Z.to_nat 1 = Some xj
        /\ swap 3 0 1 two_elements = Ret tt m'
        /\ holds m' 100 [101; 102]
             (<[Z.to_nat 1 := xi]> (<[Z.to_nat 0 := xj]> [Some 1; Some 2]))).
Proof.
  destruct (elements_are_read_and_written_in_place two_elements 100
              [101; 102] [Some 1; Some 2] 3)
    as (Hout & Hchange & Hswap).
  - exact two_elements_holds.
  - simpl. lia.
  - split; [exact Hout|]. split.
    + exact (Hchange 0 (Some 7)).
    + apply (Hswap 0 1); unfold UINT_modulus; lia.
Defined.


End ListExamples.
